(** * fvdetools: extent store, volume walker, compact dump and keyring helper

    A shallow embedding of the C sources of the fvdetools suite
    (fvdecheck_extent.c, check_handle.c, dump_handle.c, keyring_handle.c)
    together with the properties the specification states about them.

    Conventions of the embedding:
    - a [uintN_t] value is a [Z] in [0, 2^N); every C operation that can
      wrap is written with [wrap32] / [wrap64];
    - a byte buffer is a [list Z] of values in [0, 256);
    - the fixed arrays [physical_volumes[16]] and [logical_volumes[16]] are
      lists indexed with stdpp's lookup and insert;
    - the doubly linked extent lists are the Rocq lists of their nodes in
      [phys_next] (resp. [logical_next]) order: head first, tail last;
    - a function returning 1 / -1 with a [libcerror_error_t] is a
      computation in a small state-and-error monad;
    - the guards against NULL handles are not represented: the embedding
      passes values, never pointers. *)

From Stdlib Require Import ZArith List Lia Bool String Ascii Sorted Permutation.
From Stdlib Require Import DecimalString.
From stdpp Require Import base list.
Import ListNotations.
Local Open Scope Z_scope.

(* ================================================================= *)
(** ** Machine integers *)

Definition wrap8  (z : Z) : Z := z mod 2 ^ 8.
Definition wrap32 (z : Z) : Z := z mod 2 ^ 32.
Definition wrap64 (z : Z) : Z := z mod 2 ^ 64.

Definition is_u8  (z : Z) : Prop := 0 <= z < 2 ^ 8.
Definition is_u32 (z : Z) : Prop := 0 <= z < 2 ^ 32.
Definition is_u64 (z : Z) : Prop := 0 <= z < 2 ^ 64.

(* ================================================================= *)
(** ** libcerror: the error frames the tools raise *)

Inductive libcerror_code : Type :=
| ARGUMENT_ERROR_INVALID_VALUE
| ARGUMENT_ERROR_VALUE_OUT_OF_BOUNDS
| ARGUMENT_ERROR_UNSUPPORTED_VALUE
| ARGUMENT_ERROR_VALUE_TOO_SMALL
| RUNTIME_ERROR_VALUE_MISSING
| RUNTIME_ERROR_VALUE_OUT_OF_BOUNDS
| RUNTIME_ERROR_SET_FAILED
| RUNTIME_ERROR_APPEND_FAILED
| RUNTIME_ERROR_ABORT_REQUESTED
| RUNTIME_ERROR_UNSUPPORTED_VALUE
| IO_ERROR_SEEK_FAILED
| IO_ERROR_READ_FAILED
| IO_ERROR_WRITE_FAILED
| IO_ERROR_GENERIC.

(** An error is the stack of frames pushed by [libcerror_error_set],
    innermost frame first. *)
Definition libcerror_error : Type := list libcerror_code.

Inductive outcome (A : Type) : Type :=
| Ok (a : A)
| Fail (e : libcerror_error).
Arguments Ok {A} a.
Arguments Fail {A} e.

(* ================================================================= *)
(** ** fvdecheck_extent.h: the data model *)

Definition FVDECHECK_MAX_PHYSICAL_VOLUMES : Z := 16.
Definition FVDECHECK_MAX_LOGICAL_VOLUMES  : Z := 16.

Inductive fvdecheck_extent_state : Type :=
| FVDECHECK_EXTENT_STATE_UNKNOWN
| FVDECHECK_EXTENT_STATE_FREE
| FVDECHECK_EXTENT_STATE_ALLOCATED
| FVDECHECK_EXTENT_STATE_RESERVED.

Record fvdecheck_extent : Type := mk_extent {
  physical_volume_index : Z;
  physical_block_start  : Z;
  physical_block_count  : Z;
  logical_volume_index  : Z;
  logical_block_start   : Z;
  state                 : fvdecheck_extent_state;
  transaction_id        : Z;
  metadata_block_index  : Z;
  block_type            : Z;
  reserved_description  : option string
}.

(** [fvdecheck_extent_initialize]: a zeroed structure. *)
Definition extent_zero : fvdecheck_extent :=
  mk_extent 0 0 0 0 0 FVDECHECK_EXTENT_STATE_UNKNOWN 0 0 0 None.

Record fvdecheck_physical_volume_info : Type := mk_pv {
  pv_uuid             : list Z;
  pv_size_in_blocks   : Z;
  pv_extent_list      : list fvdecheck_extent;
  pv_reserved_blocks  : Z;
  pv_allocated_blocks : Z;
  pv_free_blocks      : Z
}.

Record fvdecheck_logical_volume_info : Type := mk_lv {
  lv_uuid            : list Z;
  lv_size_in_blocks  : Z;
  lv_extent_list     : list fvdecheck_extent;
  lv_mapped_blocks   : Z;
  lv_unmapped_blocks : Z
}.

Record fvdecheck_volume_state : Type := mk_state {
  num_physical_volumes         : Z;
  physical_volumes             : list fvdecheck_physical_volume_info;
  num_logical_volumes          : Z;
  logical_volumes              : list fvdecheck_logical_volume_info;
  block_size                   : Z;
  current_transaction_id       : Z;
  current_metadata_block_index : Z;
  error_count                  : Z;
  warning_count                : Z;
  total_extents                : Z
}.

Definition pv_zero : fvdecheck_physical_volume_info := mk_pv (repeat 0 16) 0 [] 0 0 0.
Definition lv_zero : fvdecheck_logical_volume_info := mk_lv (repeat 0 16) 0 [] 0 0.

(** [fvdecheck_volume_state_initialize]: memory_set to zero, then the
    default block size. *)
Definition fvdecheck_volume_state_initialize : fvdecheck_volume_state :=
  mk_state 0 (repeat pv_zero 16) 0 (repeat lv_zero 16) 4096 0 0 0 0 0.

Definition set_physical_volumes (n : Z) (pvs : list fvdecheck_physical_volume_info)
    (st : fvdecheck_volume_state) : fvdecheck_volume_state :=
  mk_state n pvs (num_logical_volumes st) (logical_volumes st) (block_size st)
           (current_transaction_id st) (current_metadata_block_index st)
           (error_count st) (warning_count st) (total_extents st).

Definition set_logical_volumes (n : Z) (lvs : list fvdecheck_logical_volume_info)
    (st : fvdecheck_volume_state) : fvdecheck_volume_state :=
  mk_state (num_physical_volumes st) (physical_volumes st) n lvs (block_size st)
           (current_transaction_id st) (current_metadata_block_index st)
           (error_count st) (warning_count st) (total_extents st).

Definition set_total_extents (n : Z) (st : fvdecheck_volume_state) : fvdecheck_volume_state :=
  mk_state (num_physical_volumes st) (physical_volumes st)
           (num_logical_volumes st) (logical_volumes st) (block_size st)
           (current_transaction_id st) (current_metadata_block_index st)
           (error_count st) (warning_count st) n.

Definition set_pv_extent_list (l : list fvdecheck_extent)
    (pv : fvdecheck_physical_volume_info) : fvdecheck_physical_volume_info :=
  mk_pv (pv_uuid pv) (pv_size_in_blocks pv) l
        (pv_reserved_blocks pv) (pv_allocated_blocks pv) (pv_free_blocks pv).

Definition set_lv_extent_list (l : list fvdecheck_extent)
    (lv : fvdecheck_logical_volume_info) : fvdecheck_logical_volume_info :=
  mk_lv (lv_uuid lv) (lv_size_in_blocks lv) l
        (lv_mapped_blocks lv) (lv_unmapped_blocks lv).

(* ================================================================= *)
(** ** The state-and-error monad

    [SE S A] is a computation over a state of type [S] that returns an
    [A] or fails with an error; the state it leaves behind is observable
    in both cases. *)

Definition SE (S A : Type) : Type := S -> outcome A * S.

Definition ret {S A} (a : A) : SE S A := fun st => (Ok a, st).
Definition raise {S A} (c : libcerror_code) : SE S A := fun st => (Fail [c], st).
Definition bind {S A B} (m : SE S A) (k : A -> SE S B) : SE S B :=
  fun st => match m st with
            | (Ok a, st') => k a st'
            | (Fail e, st') => (Fail e, st')
            end.
Definition gets {S A} (f : S -> A) : SE S A := fun st => (Ok (f st), st).
Definition modify {S} (f : S -> S) : SE S unit := fun st => (Ok tt, f st).

(** A caller that wraps a failing callee pushes its own frame on the
    callee's error. *)
Definition on_error {S A} (c : libcerror_code) (m : SE S A) : SE S A :=
  fun st => match m st with
            | (Ok a, st') => (Ok a, st')
            | (Fail e, st') => (Fail (e ++ [c]), st')
            end.

Notation "'let*' x ':=' m 'in' k" := (bind m (fun x => k))
  (at level 10, x name, m at level 100, k at level 200).
Notation "m >> k" := (bind m (fun _ => k))
  (at level 90, right associativity).

(** Iterating a fallible action over a list: the [for] loops of the
    tools, which return at the first failure. *)
Fixpoint for_each {S A} (f : A -> SE S unit) (l : list A) : SE S unit :=
  match l with
  | [] => ret tt
  | a :: l' => f a >> for_each f l'
  end.

(** The extent store runs over a [fvdecheck_volume_state]. *)
Definition M (A : Type) : Type := SE fvdecheck_volume_state A.

(* ================================================================= *)
(** ** fvdecheck_extent.c: the extent store *)

Definition fvdecheck_volume_state_add_physical_volume
    (uuid : list Z) (size_in_blocks : Z) : M Z :=
  fun st =>
    if FVDECHECK_MAX_PHYSICAL_VOLUMES <=? num_physical_volumes st
    then (Fail [RUNTIME_ERROR_VALUE_OUT_OF_BOUNDS], st)
    else
      let new_index := num_physical_volumes st in
      (Ok new_index,
       set_physical_volumes (new_index + 1)
         (<[ Z.to_nat new_index := mk_pv (firstn 16 uuid) size_in_blocks [] 0 0 0 ]>
            (physical_volumes st)) st).

Definition fvdecheck_volume_state_add_logical_volume
    (uuid : list Z) (size_in_blocks : Z) : M Z :=
  fun st =>
    if FVDECHECK_MAX_LOGICAL_VOLUMES <=? num_logical_volumes st
    then (Fail [RUNTIME_ERROR_VALUE_OUT_OF_BOUNDS], st)
    else
      let new_index := num_logical_volumes st in
      (Ok new_index,
       set_logical_volumes (new_index + 1)
         (<[ Z.to_nat new_index := mk_lv (firstn 16 uuid) size_in_blocks [] 0 0 ]>
            (logical_volumes st)) st).

(** The list walk shared by both insertion routines: the new node goes
    before the first node whose key is strictly greater, and at the tail
    when there is none (which covers the empty list). *)
Fixpoint insert_extent (key : fvdecheck_extent -> Z) (extent : fvdecheck_extent)
    (l : list fvdecheck_extent) : list fvdecheck_extent :=
  match l with
  | [] => [extent]
  | current :: rest =>
      if key extent <? key current
      then extent :: current :: rest
      else current :: insert_extent key extent rest
  end.

Definition fvdecheck_insert_extent_physical (pv_index : Z) (extent : fvdecheck_extent)
    (st : fvdecheck_volume_state) : fvdecheck_volume_state :=
  if num_physical_volumes st <=? pv_index then st
  else match physical_volumes st !! Z.to_nat pv_index with
       | None => st
       | Some pv_info =>
           set_physical_volumes (num_physical_volumes st)
             (<[ Z.to_nat pv_index :=
                   set_pv_extent_list
                     (insert_extent physical_block_start extent (pv_extent_list pv_info))
                     pv_info ]> (physical_volumes st)) st
       end.

Definition fvdecheck_insert_extent_logical (lv_index : Z) (extent : fvdecheck_extent)
    (st : fvdecheck_volume_state) : fvdecheck_volume_state :=
  if num_logical_volumes st <=? lv_index then st
  else match logical_volumes st !! Z.to_nat lv_index with
       | None => st
       | Some lv_info =>
           set_logical_volumes (num_logical_volumes st)
             (<[ Z.to_nat lv_index :=
                   set_lv_extent_list
                     (insert_extent logical_block_start extent (lv_extent_list lv_info))
                     lv_info ]> (logical_volumes st)) st
       end.

Definition increment_total_extents (st : fvdecheck_volume_state) : fvdecheck_volume_state :=
  set_total_extents (wrap64 (total_extents st + 1)) st.

Definition reserved_extent (pv_index block_start block_count : Z)
    (description : option string) : fvdecheck_extent :=
  mk_extent pv_index block_start block_count 0 0
            FVDECHECK_EXTENT_STATE_RESERVED 0 0 0 description.

Definition free_extent (pv_index block_start block_count
    transaction_id metadata_block_index block_type : Z) : fvdecheck_extent :=
  mk_extent pv_index block_start block_count 0 0
            FVDECHECK_EXTENT_STATE_FREE
            transaction_id metadata_block_index block_type None.

Definition allocated_extent (pv_index phys_block_start block_count
    lv_index logical_block_start
    transaction_id metadata_block_index block_type : Z) : fvdecheck_extent :=
  mk_extent pv_index phys_block_start block_count lv_index logical_block_start
            FVDECHECK_EXTENT_STATE_ALLOCATED
            transaction_id metadata_block_index block_type None.

Definition fvdecheck_volume_state_mark_reserved
    (pv_index block_start block_count : Z) (description : option string) : M unit :=
  let* n := gets num_physical_volumes in
  if n <=? pv_index then raise ARGUMENT_ERROR_VALUE_OUT_OF_BOUNDS
  else
    modify (fvdecheck_insert_extent_physical pv_index
              (reserved_extent pv_index block_start block_count description)) >>
    modify increment_total_extents.

Definition fvdecheck_volume_state_mark_free
    (pv_index block_start block_count
     transaction_id metadata_block_index block_type : Z) : M unit :=
  let* n := gets num_physical_volumes in
  if n <=? pv_index then raise ARGUMENT_ERROR_VALUE_OUT_OF_BOUNDS
  else
    modify (fvdecheck_insert_extent_physical pv_index
              (free_extent pv_index block_start block_count
                 transaction_id metadata_block_index block_type)) >>
    modify increment_total_extents.

Definition fvdecheck_volume_state_mark_allocated
    (pv_index phys_block_start block_count lv_index logical_block_start
     transaction_id metadata_block_index block_type : Z) : M unit :=
  let* n := gets num_physical_volumes in
  if n <=? pv_index then raise ARGUMENT_ERROR_VALUE_OUT_OF_BOUNDS
  else
    let* m := gets num_logical_volumes in
    if m <=? lv_index then raise ARGUMENT_ERROR_VALUE_OUT_OF_BOUNDS
    else
      let extent := allocated_extent pv_index phys_block_start block_count
                      lv_index logical_block_start
                      transaction_id metadata_block_index block_type in
      modify (fvdecheck_insert_extent_physical pv_index extent) >>
      modify (fvdecheck_insert_extent_logical lv_index extent) >>
      modify increment_total_extents.

(** The scan of [find_physical_extent] over the nodes from [current] on. *)
Fixpoint find_physical_scan (block_number : Z) (l : list fvdecheck_extent)
    : option fvdecheck_extent :=
  match l with
  | [] => None
  | current :: rest =>
      if (physical_block_start current <=? block_number)
         && (block_number <? wrap64 (physical_block_start current + physical_block_count current))
      then Some current
      else if block_number <? physical_block_start current then None
      else find_physical_scan block_number rest
  end.

Definition fvdecheck_volume_state_find_physical_extent
    (st : fvdecheck_volume_state) (pv_index block_number : Z) : option fvdecheck_extent :=
  if num_physical_volumes st <=? pv_index then None
  else match physical_volumes st !! Z.to_nat pv_index with
       | None => None
       | Some pv_info => find_physical_scan block_number (pv_extent_list pv_info)
       end.

Fixpoint find_logical_scan (block_number : Z) (l : list fvdecheck_extent)
    : option fvdecheck_extent :=
  match l with
  | [] => None
  | current :: rest =>
      if (logical_block_start current <=? block_number)
         && (block_number <? wrap64 (logical_block_start current + physical_block_count current))
      then Some current
      else if block_number <? logical_block_start current then None
      else find_logical_scan block_number rest
  end.

Definition fvdecheck_volume_state_find_logical_extent
    (st : fvdecheck_volume_state) (lv_index block_number : Z) : option fvdecheck_extent :=
  if num_logical_volumes st <=? lv_index then None
  else match logical_volumes st !! Z.to_nat lv_index with
       | None => None
       | Some lv_info => find_logical_scan block_number (lv_extent_list lv_info)
       end.

(** The test of [check_overlap] on one node: [start1 < end2 && start2 < end1],
    both ends computed in 64-bit arithmetic. *)
Definition overlap_test (block_start block_end : Z) (current : fvdecheck_extent) : bool :=
  (block_start <? wrap64 (physical_block_start current + physical_block_count current))
  && (physical_block_start current <? block_end).

Fixpoint check_overlap_scan (block_start block_end : Z) (l : list fvdecheck_extent)
    : option fvdecheck_extent :=
  match l with
  | [] => None
  | current :: rest =>
      if overlap_test block_start block_end current then Some current
      else if block_end <=? physical_block_start current then None
      else check_overlap_scan block_start block_end rest
  end.

Definition fvdecheck_volume_state_check_overlap
    (st : fvdecheck_volume_state) (pv_index block_start block_count : Z)
    : option fvdecheck_extent :=
  if num_physical_volumes st <=? pv_index then None
  else
    let block_end := wrap64 (block_start + block_count) in
    match physical_volumes st !! Z.to_nat pv_index with
    | None => None
    | Some pv_info => check_overlap_scan block_start block_end (pv_extent_list pv_info)
    end.

(** [calculate_statistics]: one pass over every pv list, one over every
    lv list. *)
Definition pv_statistics (pv : fvdecheck_physical_volume_info)
    : fvdecheck_physical_volume_info :=
  let step (acc : Z * Z * Z) (current : fvdecheck_extent) :=
    let '(r, a, f) := acc in
    match state current with
    | FVDECHECK_EXTENT_STATE_RESERVED  => (wrap64 (r + physical_block_count current), a, f)
    | FVDECHECK_EXTENT_STATE_ALLOCATED => (r, wrap64 (a + physical_block_count current), f)
    | FVDECHECK_EXTENT_STATE_FREE      => (r, a, wrap64 (f + physical_block_count current))
    | FVDECHECK_EXTENT_STATE_UNKNOWN   => (r, a, f)
    end in
  let '(r, a, f) := fold_left step (pv_extent_list pv) (0, 0, 0) in
  mk_pv (pv_uuid pv) (pv_size_in_blocks pv) (pv_extent_list pv) r a f.

Definition lv_statistics (lv : fvdecheck_logical_volume_info)
    : fvdecheck_logical_volume_info :=
  let mapped :=
    fold_left (fun acc current => wrap64 (acc + physical_block_count current))
              (lv_extent_list lv) 0 in
  let unmapped :=
    if mapped <? lv_size_in_blocks lv then lv_size_in_blocks lv - mapped else 0 in
  mk_lv (lv_uuid lv) (lv_size_in_blocks lv) (lv_extent_list lv) mapped unmapped.

(** Applies [f] to the first [n] slots of an array, as the index loops
    [for (i = 0; i < n; i++)] do. *)
Definition map_prefix {A} (n : nat) (f : A -> A) (l : list A) : list A :=
  map f (firstn n l) ++ skipn n l.

Definition fvdecheck_volume_state_calculate_statistics : M unit :=
  modify (fun st =>
    set_logical_volumes (num_logical_volumes st)
      (map_prefix (Z.to_nat (num_logical_volumes st)) lv_statistics (logical_volumes st))
      (set_physical_volumes (num_physical_volumes st)
         (map_prefix (Z.to_nat (num_physical_volumes st)) pv_statistics (physical_volumes st))
         st)).

Definition fvdecheck_linux_sector_to_fvde_block (sector block_size : Z) : Z :=
  if block_size =? 0 then 0
  else wrap64 (sector * 512) / block_size.

Definition fvdecheck_fvde_block_to_linux_sector (block block_size : Z) : Z :=
  wrap64 (block * block_size) / 512.

(* ================================================================= *)
(** ** check_handle.c: the volume walker

    The walker reads an opened volume through libfvde.  What it reads
    is gathered in [opened_volume]: the library accessors are taken to
    succeed on an opened volume, so they are projections here. *)

Record libfvde_segment_descriptor : Type := mk_segment {
  sd_logical_block_number  : Z;
  sd_number_of_blocks      : Z;
  sd_physical_volume_index : Z;
  sd_physical_block_number : Z
}.

(** The part of [struct libfvde_volume_header] the walker reads. *)
Record libfvde_volume_header : Type := mk_volume_header {
  vh_metadata_size    : Z;
  vh_metadata_offsets : list Z
}.

Record libfvde_metadata : Type := mk_metadata {
  md_encrypted_metadata1_offset : Z;
  md_encrypted_metadata2_offset : Z;
  md_encrypted_metadata_size    : Z
}.

Record libfvde_physical_volume : Type := mk_physical_volume {
  pvol_identifier : list Z;
  pvol_size       : Z
}.

(** A segment descriptor slot may hold NULL. *)
Record libfvde_logical_volume : Type := mk_logical_volume {
  lvol_identifier          : list Z;
  lvol_size                : Z;
  lvol_segment_descriptors : list (option libfvde_segment_descriptor)
}.

Record opened_volume : Type := mk_opened_volume {
  ov_volume_header    : option libfvde_volume_header;
  ov_metadata         : option libfvde_metadata;
  ov_physical_volumes : list libfvde_physical_volume;
  ov_logical_volumes  : list libfvde_logical_volume
}.

(** The two loops of [check_handle_open] that populate the store. *)
Definition check_handle_open (v : opened_volume) : M unit :=
  for_each
    (fun physical_volume =>
       let* bs := gets block_size in
       let* pv_index :=
         on_error RUNTIME_ERROR_APPEND_FAILED
           (fvdecheck_volume_state_add_physical_volume
              (pvol_identifier physical_volume) (pvol_size physical_volume / bs)) in
       on_error RUNTIME_ERROR_SET_FAILED
         (fvdecheck_volume_state_mark_reserved pv_index 0 1 (Some "Volume header"%string)))
    (ov_physical_volumes v) >>
  for_each
    (fun logical_volume =>
       let* bs := gets block_size in
       let* lv_index :=
         on_error RUNTIME_ERROR_APPEND_FAILED
           (fvdecheck_volume_state_add_logical_volume
              (lvol_identifier logical_volume) (lvol_size logical_volume / bs)) in
       ret tt)
    (ov_logical_volumes v).

Definition metadata_descriptions : list string :=
  ["Metadata block 1"; "Metadata block 2"; "Metadata block 3"; "Metadata block 4"]%string.

Definition mark_encrypted_metadata (pv_index offset size : Z) (description : string)
    : M unit :=
  if (0 <? offset) && (0 <? size)
  then
    let* bs := gets block_size in
    on_error RUNTIME_ERROR_SET_FAILED
      (fvdecheck_volume_state_mark_reserved pv_index (offset / bs) (size / bs)
         (Some description))
  else ret tt.

Definition check_handle_mark_metadata_reserved (v : opened_volume) : M unit :=
  match ov_volume_header v with
  | None => raise RUNTIME_ERROR_VALUE_MISSING
  | Some volume_header =>
      let metadata_size := vh_metadata_size volume_header in
      let pv_index := 0 in
      for_each
        (fun metadata_index =>
           let metadata_offset := nth metadata_index (vh_metadata_offsets volume_header) 0 in
           let* bs := gets block_size in
           on_error RUNTIME_ERROR_SET_FAILED
             (fvdecheck_volume_state_mark_reserved pv_index
                (metadata_offset / bs) (metadata_size / bs)
                (nth_error metadata_descriptions metadata_index)))
        (seq 0 4) >>
      match ov_metadata v with
      | None => ret tt
      | Some metadata =>
          mark_encrypted_metadata pv_index
            (md_encrypted_metadata1_offset metadata)
            (md_encrypted_metadata_size metadata) "Encrypted metadata 1" >>
          mark_encrypted_metadata pv_index
            (md_encrypted_metadata2_offset metadata)
            (md_encrypted_metadata_size metadata) "Encrypted metadata 2"
      end
  end.

(** [for_each] with the loop index, for loops that use it. *)
Fixpoint for_each_indexed {S A} (f : Z -> A -> SE S unit) (i : Z) (l : list A)
    : SE S unit :=
  match l with
  | [] => ret tt
  | a :: l' => f i a >> for_each_indexed f (i + 1) l'
  end.

Definition process_segment_descriptor (logical_volume_index : Z)
    (segment_descriptor : option libfvde_segment_descriptor) : M unit :=
  match segment_descriptor with
  | None => ret tt
  | Some sd =>
      let pv_index := wrap32 (sd_physical_volume_index sd) in
      let lv_index := wrap32 logical_volume_index in
      on_error RUNTIME_ERROR_SET_FAILED
        (fvdecheck_volume_state_mark_allocated pv_index
           (sd_physical_block_number sd) (sd_number_of_blocks sd)
           lv_index (sd_logical_block_number sd)
           0 0 0x0305)
  end.

Definition check_handle_process_volume (v : opened_volume) : M unit :=
  on_error RUNTIME_ERROR_SET_FAILED (check_handle_mark_metadata_reserved v) >>
  for_each_indexed
    (fun logical_volume_index logical_volume =>
       for_each (process_segment_descriptor logical_volume_index)
                (lvol_segment_descriptors logical_volume))
    0 (ov_logical_volumes v).

(** The walker: the store is created by [check_handle_initialize],
    populated by [check_handle_open] and then by
    [check_handle_process_volume]. *)
Definition volume_walker (v : opened_volume)
    : outcome unit * fvdecheck_volume_state :=
  (check_handle_open v >> check_handle_process_volume v)
    fvdecheck_volume_state_initialize.

(* ================================================================= *)
(** ** Byte buffers *)

Fixpoint le_decode (bs : list Z) : Z :=
  match bs with
  | [] => 0
  | b :: rest => b + 256 * le_decode rest
  end.

Fixpoint le_encode (n : nat) (v : Z) : list Z :=
  match n with
  | O => []
  | S n' => v mod 256 :: le_encode n' (v / 256)
  end.

Definition get_bytes (offset size : Z) (buffer : list Z) : list Z :=
  firstn (Z.to_nat size) (skipn (Z.to_nat offset) buffer).

(** Overwrites [data] at [offset].  An access that leaves the buffer is
    undefined in C; the model leaves the buffer as it is. *)
Definition put_bytes (offset : Z) (data buffer : list Z) : list Z :=
  if (0 <=? offset) && (offset + Z.of_nat (length data) <=? Z.of_nat (length buffer))
  then firstn (Z.to_nat offset) buffer ++ data
       ++ skipn (Z.to_nat offset + length data) buffer
  else buffer.

(** Modelled from the spec: the [byte_stream.h] macros are not part of
    the sources; the on-disk integers are little-endian (spec section 3). *)
Definition byte_stream_copy_to_uint32_little_endian (buffer : list Z) (offset : Z) : Z :=
  le_decode (get_bytes offset 4 buffer).

Definition byte_stream_copy_to_uint64_little_endian (buffer : list Z) (offset : Z) : Z :=
  le_decode (get_bytes offset 8 buffer).

Definition byte_stream_copy_from_uint32_little_endian
    (buffer : list Z) (offset value : Z) : list Z :=
  put_bytes offset (le_encode 4 value) buffer.

Definition byte_stream_copy_from_uint64_little_endian
    (buffer : list Z) (offset value : Z) : list Z :=
  put_bytes offset (le_encode 8 value) buffer.

(* ================================================================= *)
(** ** dump_handle.c: the weak CRC-32 *)

(** The file-scope statics [crc32_table] and [crc32_table_initialized]. *)
Record crc32_statics : Type := mk_crc32_statics {
  crc32_table             : list Z;
  crc32_table_initialized : Z
}.

(** Static storage is zero-initialised. *)
Definition crc32_statics_initial : crc32_statics :=
  mk_crc32_statics (repeat 0 256) 0.

(** One round of the [bit_iterator] loop. *)
Definition crc32_bit_round (polynomial checksum : Z) : Z :=
  if Z.land checksum 1 =? 0
  then Z.shiftr checksum 1
  else Z.lxor polynomial (Z.shiftr checksum 1).

Definition dump_handle_initialize_crc32_table (polynomial : Z) (g : crc32_statics)
    : crc32_statics :=
  mk_crc32_statics
    (fold_left
       (fun table table_index =>
          <[ table_index :=
               Nat.iter 8 (crc32_bit_round polynomial) (Z.of_nat table_index) ]> table)
       (seq 0 256) (crc32_table g))
    1.

(** The [buffer_offset] loop: [size] bytes are consumed from [buffer]. *)
Fixpoint weak_crc32_loop (table buffer : list Z) (size : nat) (checksum : Z) : Z :=
  match size, buffer with
  | S size', byte :: rest =>
      let table_index := Z.land (Z.lxor checksum byte) 0x000000ff in
      weak_crc32_loop table rest size'
        (Z.lxor (nth (Z.to_nat table_index) table 0) (Z.shiftr checksum 8))
  | _, _ => checksum
  end.

Definition dump_handle_calculate_weak_crc32
    (buffer : list Z) (size initial_value : Z) (g : crc32_statics)
    : Z * crc32_statics :=
  let g' := if crc32_table_initialized g =? 0
            then dump_handle_initialize_crc32_table 0x82f63b78 g
            else g in
  (weak_crc32_loop (crc32_table g') buffer (Z.to_nat size) initial_value, g').

(** The reference CRC the specification describes (section 4.A), written
    from its words: a 256-entry table built from the polynomial by the
    reflected construction, and the table-driven byte step. *)
Definition reference_table_entry (polynomial : Z) (index : Z) : Z :=
  Nat.iter 8
    (fun c => if Z.odd c then Z.lxor (Z.shiftr c 1) polynomial else Z.shiftr c 1)
    index.

Definition reference_table (polynomial : Z) : list Z :=
  map (fun i => reference_table_entry polynomial (Z.of_nat i)) (seq 0 256).

Definition reference_crc32 (polynomial : Z) (bs : list Z) (iv : Z) : Z :=
  let table := reference_table polynomial in
  fold_left
    (fun checksum b =>
       Z.lxor (nth (Z.to_nat (Z.land (Z.lxor checksum b) 0xFF)) table 0)
              (Z.shiftr checksum 8))
    bs iv.

(** The weak CRC-32 of the specification: polynomial [0x82F63B78]. *)
Definition spec_weak_crc32 (bs : list Z) (iv : Z) : Z := reference_crc32 0x82F63B78 bs iv.

(* ================================================================= *)
(** ** dump_handle.h: the dump handle and its files *)

Definition FVDE_VOLUME_HEADER_SIZE : Z := 512.

Record dump_handle : Type := mk_dump_handle {
  dh_physical_volume_size       : Z;
  dh_block_size                 : Z;
  dh_metadata_size              : Z;
  dh_metadata_offsets           : list Z;
  dh_encrypted_metadata1_offset : Z;
  dh_encrypted_metadata2_offset : Z;
  dh_encrypted_metadata_size    : Z;
  dh_verbose                    : Z;
  dh_force                      : Z;
  dh_best_metadata_only         : Z;
  dh_compact                    : Z;
  dh_sample_blocks              : Z;
  dh_bytes_copied               : Z;
  dh_abort                      : Z
}.

(** What the destination descriptor receives, in call order. *)
Inductive destination_op : Type :=
| Ftruncate (size : Z)
| Write (offset : Z) (data : list Z).

(** The handle, the two open files with their file positions, and the
    CRC statics.  The source is read-only; the destination is the log of
    the calls made on it.  Output to stdout is not represented, and
    writes to the destination are taken to succeed.
    [w_destination_size_limit] is the largest size the file system of the
    destination accepts for a file: [ftruncate] refuses a larger one. *)
Record dump_world : Type := mk_world {
  w_handle                 : dump_handle;
  w_source                 : list Z;
  w_source_position        : Z;
  w_destination            : list destination_op;
  w_destination_position   : Z;
  w_crc32                  : crc32_statics;
  w_destination_size_limit : Z
}.

Definition D (A : Type) : Type := SE dump_world A.

Definition set_handle (h : dump_handle) (w : dump_world) : dump_world :=
  mk_world h (w_source w) (w_source_position w)
           (w_destination w) (w_destination_position w) (w_crc32 w)
           (w_destination_size_limit w).

Definition set_source_position (p : Z) (w : dump_world) : dump_world :=
  mk_world (w_handle w) (w_source w) p
           (w_destination w) (w_destination_position w) (w_crc32 w)
           (w_destination_size_limit w).

Definition set_destination (ops : list destination_op) (p : Z) (w : dump_world)
    : dump_world :=
  mk_world (w_handle w) (w_source w) (w_source_position w) ops p (w_crc32 w)
           (w_destination_size_limit w).

Definition set_crc32 (g : crc32_statics) (w : dump_world) : dump_world :=
  mk_world (w_handle w) (w_source w) (w_source_position w)
           (w_destination w) (w_destination_position w) g
           (w_destination_size_limit w).

Definition set_volume_header_fields (pvs bs ms : Z) (offsets : list Z)
    (h : dump_handle) : dump_handle :=
  mk_dump_handle pvs bs ms offsets
    (dh_encrypted_metadata1_offset h) (dh_encrypted_metadata2_offset h)
    (dh_encrypted_metadata_size h) (dh_verbose h) (dh_force h)
    (dh_best_metadata_only h) (dh_compact h) (dh_sample_blocks h)
    (dh_bytes_copied h) (dh_abort h).

Definition set_encrypted_metadata_fields (o1 o2 size : Z) (h : dump_handle)
    : dump_handle :=
  mk_dump_handle (dh_physical_volume_size h) (dh_block_size h) (dh_metadata_size h)
    (dh_metadata_offsets h) o1 o2 size (dh_verbose h) (dh_force h)
    (dh_best_metadata_only h) (dh_compact h) (dh_sample_blocks h)
    (dh_bytes_copied h) (dh_abort h).

Definition set_bytes_copied (n : Z) (h : dump_handle) : dump_handle :=
  mk_dump_handle (dh_physical_volume_size h) (dh_block_size h) (dh_metadata_size h)
    (dh_metadata_offsets h) (dh_encrypted_metadata1_offset h)
    (dh_encrypted_metadata2_offset h) (dh_encrypted_metadata_size h)
    (dh_verbose h) (dh_force h) (dh_best_metadata_only h) (dh_compact h)
    (dh_sample_blocks h) n (dh_abort h).

(** An [off_t] is a signed 64-bit integer: a 64-bit pattern with the top
    bit set is a negative offset, which [lseek] and [ftruncate] refuse. *)
Definition negative_off_t (offset : Z) : bool := 2 ^ 63 <=? offset.

Definition lseek_source (offset : Z) : D unit :=
  if negative_off_t offset then raise IO_ERROR_SEEK_FAILED
  else modify (set_source_position offset).

Definition lseek_destination (offset : Z) : D unit :=
  if negative_off_t offset then raise IO_ERROR_SEEK_FAILED
  else modify (fun w => set_destination (w_destination w) offset w).

(** [read]: returns the bytes available at the file position, at most
    [size] of them, and advances the position. *)
Definition read_source (size : Z) : D (list Z) :=
  fun w =>
    let data := get_bytes (w_source_position w) size (w_source w) in
    (Ok data, set_source_position (w_source_position w + Z.of_nat (length data)) w).

Definition write_destination (data : list Z) : D unit :=
  modify (fun w =>
    set_destination (w_destination w ++ [Write (w_destination_position w) data])
                    (w_destination_position w + Z.of_nat (length data)) w).

Definition add_bytes_copied (n : Z) : D unit :=
  modify (fun w =>
    set_handle (set_bytes_copied (wrap64 (dh_bytes_copied (w_handle w) + n)) (w_handle w)) w).

(** The content of the destination file after the logged calls, for a
    file opened with [O_TRUNC]: a write past the end leaves a hole that
    reads as zeros. *)
Definition apply_destination_op (file : list Z) (op : destination_op) : list Z :=
  match op with
  | Ftruncate size =>
      firstn (Z.to_nat size) file ++ repeat 0 (Z.to_nat size - length file)
  | Write offset data =>
      let padded := file ++ repeat 0 (Z.to_nat offset - length file) in
      firstn (Z.to_nat offset) padded ++ data
      ++ skipn (Z.to_nat offset + length data) padded
  end.

Definition destination_content (ops : list destination_op) : list Z :=
  fold_left apply_destination_op ops [].

(* ================================================================= *)
(** ** dump_handle.c: reading the header and the metadata *)

Definition dump_handle_read_volume_header : D unit :=
  lseek_source 0 >>
  let* volume_header_data := read_source FVDE_VOLUME_HEADER_SIZE in
  if negb (Z.of_nat (length volume_header_data) =? FVDE_VOLUME_HEADER_SIZE)
  then raise IO_ERROR_READ_FAILED
  else if negb (nth 88 volume_header_data 0 =? 67) || negb (nth 89 volume_header_data 0 =? 83)
  then raise RUNTIME_ERROR_UNSUPPORTED_VALUE
  else
    let physical_volume_size :=
      byte_stream_copy_to_uint64_little_endian volume_header_data 72 in
    let block_size := byte_stream_copy_to_uint32_little_endian volume_header_data 96 in
    let metadata_size := byte_stream_copy_to_uint32_little_endian volume_header_data 100 in
    let metadata_offsets :=
      map (fun metadata_block_index =>
             wrap64 (byte_stream_copy_to_uint64_little_endian volume_header_data
                       (104 + metadata_block_index * 8) * block_size))
          [0; 1; 2; 3] in
    modify (fun w =>
      set_handle (set_volume_header_fields physical_volume_size block_size
                    metadata_size metadata_offsets (w_handle w)) w).

(** The locals of [dump_handle_read_metadata] that live across the loop. *)
Record read_metadata_locals : Type := mk_locals {
  encrypted_metadata_size    : Z;
  encrypted_metadata1_offset : Z;
  encrypted_metadata2_offset : Z;
  highest_transaction_id     : Z;
  best_metadata_index        : Z
}.

Definition read_metadata_locals_initial : read_metadata_locals := mk_locals 0 0 0 0 0.

(** The body of the loop once copy [metadata_index] is in [metadata_data].
    The code reads at offsets 16, 220 and, from the descriptor offset it
    finds, 8, 32 and 40 bytes further without testing them against the
    size of the buffer.  The definition is the code where these reads lie
    inside [metadata_data]; a read outside the buffer is not defined in C
    and is not represented (here it sees no bytes). *)
Definition read_metadata_examine (metadata_data : list Z) (metadata_index : Z)
    (l : read_metadata_locals) : read_metadata_locals :=
  let transaction_identifier :=
    byte_stream_copy_to_uint64_little_endian metadata_data 16 in
  if highest_transaction_id l <? transaction_identifier
  then
    let volume_groups_descriptor_offset :=
      byte_stream_copy_to_uint32_little_endian metadata_data (64 + 156) in
    if 64 <? volume_groups_descriptor_offset
    then
      let actual_offset := wrap32 (volume_groups_descriptor_offset - 64) in
      mk_locals
        (byte_stream_copy_to_uint64_little_endian metadata_data
           (wrap32 (64 + actual_offset + 8)))
        (byte_stream_copy_to_uint64_little_endian metadata_data
           (wrap32 (64 + actual_offset + 32)))
        (byte_stream_copy_to_uint64_little_endian metadata_data
           (wrap32 (64 + actual_offset + 40)))
        transaction_identifier metadata_index
    else
      mk_locals (encrypted_metadata_size l) (encrypted_metadata1_offset l)
                (encrypted_metadata2_offset l) transaction_identifier metadata_index
  else l.

Fixpoint read_metadata_loop (indices : list Z) (l : read_metadata_locals)
    : D read_metadata_locals :=
  match indices with
  | [] => ret l
  | metadata_index :: rest =>
      let* offsets := gets (fun w => dh_metadata_offsets (w_handle w)) in
      let* metadata_size := gets (fun w => dh_metadata_size (w_handle w)) in
      lseek_source (nth (Z.to_nat metadata_index) offsets 0) >>
      let* metadata_data := read_source metadata_size in
      if negb (Z.of_nat (length metadata_data) =? metadata_size)
      then raise IO_ERROR_READ_FAILED
      else read_metadata_loop rest (read_metadata_examine metadata_data metadata_index l)
  end.

Definition dump_handle_read_metadata : D unit :=
  let* metadata_size := gets (fun w => dh_metadata_size (w_handle w)) in
  if metadata_size =? 0 then raise RUNTIME_ERROR_VALUE_MISSING
  else
    let* l := read_metadata_loop [0; 1; 2; 3] read_metadata_locals_initial in
    modify (fun w =>
      let h := w_handle w in
      set_handle
        (set_encrypted_metadata_fields
           (wrap64 (Z.land (encrypted_metadata1_offset l) 0x0000ffffffffffff * dh_block_size h))
           (wrap64 (Z.land (encrypted_metadata2_offset l) 0x0000ffffffffffff * dh_block_size h))
           (wrap64 (encrypted_metadata_size l * dh_block_size h))
           h) w).

(* ================================================================= *)
(** ** dump_handle.c: copying and correcting *)

Definition copy_buffer_size : Z := 64 * 1024.

(** The [while( remaining > 0 )] loop; [chunks] bounds the iterations. *)
Fixpoint copy_region_loop (chunks : nat) (remaining : Z) : D unit :=
  match chunks with
  | O => ret tt
  | S chunks' =>
      if remaining <=? 0 then ret tt
      else
        let* abort := gets (fun w => dh_abort (w_handle w)) in
        if negb (abort =? 0) then raise RUNTIME_ERROR_ABORT_REQUESTED
        else
          let bytes_to_copy :=
            if copy_buffer_size <? remaining then copy_buffer_size else remaining in
          let* buffer := read_source bytes_to_copy in
          if negb (Z.of_nat (length buffer) =? bytes_to_copy)
          then raise IO_ERROR_READ_FAILED
          else
            write_destination buffer >>
            add_bytes_copied bytes_to_copy >>
            copy_region_loop chunks' (remaining - bytes_to_copy)
  end.

Definition dump_handle_copy_region (source_offset destination_offset size : Z) : D unit :=
  if size =? 0 then ret tt
  else
    lseek_source source_offset >>
    lseek_destination destination_offset >>
    copy_region_loop (S (Z.to_nat (size / copy_buffer_size))) size.

(** The in-memory correction of one metadata block: the part of
    [dump_handle_write_corrected_metadata] between the read and the write.
    The checksum is taken over 8184 bytes from offset 8 whatever the
    metadata size, and the bounds test on the descriptor is a 32-bit sum.
    The definition is the code where the buffer holds at least 8192 bytes
    (when the descriptor is in bounds) and that sum does not wrap; the
    code then stays inside the buffer.  Elsewhere the code reads or
    writes outside the buffer, which is not defined in C and is not
    represented (here such a read sees no bytes and such a write does
    nothing). *)
Definition correct_metadata_block (block_size metadata_size : Z)
    (compact_encrypted_metadata1_offset compact_encrypted_metadata2_offset : Z)
    (metadata_data : list Z) (g : crc32_statics) : list Z * crc32_statics :=
  let volume_groups_descriptor_offset :=
    byte_stream_copy_to_uint32_little_endian metadata_data (64 + 156) in
  if 64 <? volume_groups_descriptor_offset
  then
    let actual_offset := wrap32 (volume_groups_descriptor_offset - 64) in
    let encrypted_metadata1_block_number :=
      compact_encrypted_metadata1_offset / block_size in
    let encrypted_metadata2_block_number :=
      compact_encrypted_metadata2_offset / block_size in
    if wrap32 (64 + actual_offset + 48) <=? metadata_size
    then
      let data1 := byte_stream_copy_from_uint64_little_endian metadata_data
                     (wrap32 (64 + actual_offset + 32)) encrypted_metadata1_block_number in
      let data2 := byte_stream_copy_from_uint64_little_endian data1
                     (wrap32 (64 + actual_offset + 40)) encrypted_metadata2_block_number in
      let initial_value := 0xffffffff in
      let '(calculated_checksum, g') :=
        dump_handle_calculate_weak_crc32 (skipn 8 data2) 8184 initial_value g in
      (byte_stream_copy_from_uint32_little_endian data2 0 calculated_checksum, g')
    else (metadata_data, g)
  else (metadata_data, g).

Definition dump_handle_write_corrected_metadata
    (source_offset destination_offset : Z)
    (compact_encrypted_metadata1_offset compact_encrypted_metadata2_offset : Z)
    : D unit :=
  let* h := gets w_handle in
  lseek_source source_offset >>
  let* metadata_data := read_source (dh_metadata_size h) in
  if negb (Z.of_nat (length metadata_data) =? dh_metadata_size h)
  then raise IO_ERROR_READ_FAILED
  else
    let* g := gets w_crc32 in
    let '(corrected, g') :=
      correct_metadata_block (dh_block_size h) (dh_metadata_size h)
        compact_encrypted_metadata1_offset compact_encrypted_metadata2_offset
        metadata_data g in
    modify (set_crc32 g') >>
    lseek_destination destination_offset >>
    write_destination corrected >>
    add_bytes_copied (dh_metadata_size h).

(** The in-memory correction of the volume header: the four slot block
    numbers, then the checksum. *)
Definition correct_volume_header (block_size metadata_size : Z)
    (volume_header_data : list Z) (g : crc32_statics) : list Z * crc32_statics :=
  let step (acc : list Z * Z) (metadata_index : Z) :=
    let '(data, compact_block) := acc in
    (byte_stream_copy_from_uint64_little_endian data
       (104 + metadata_index * 8) compact_block,
     wrap64 (compact_block + wrap32 (metadata_size + block_size - 1) / block_size)) in
  let '(data, _) := fold_left step [0; 1; 2; 3] (volume_header_data, 1) in
  let initial_value := byte_stream_copy_to_uint32_little_endian data 4 in
  let '(calculated_checksum, g') :=
    dump_handle_calculate_weak_crc32 (skipn 8 data) 504 initial_value g in
  (byte_stream_copy_from_uint32_little_endian data 0 calculated_checksum, g').

Definition dump_handle_write_corrected_volume_header : D unit :=
  let* h := gets w_handle in
  lseek_source 0 >>
  let* volume_header_data := read_source FVDE_VOLUME_HEADER_SIZE in
  if negb (Z.of_nat (length volume_header_data) =? FVDE_VOLUME_HEADER_SIZE)
  then raise IO_ERROR_READ_FAILED
  else
    let* g := gets w_crc32 in
    let '(corrected, g') :=
      correct_volume_header (dh_block_size h) (dh_metadata_size h)
        volume_header_data g in
    modify (set_crc32 g') >>
    lseek_destination 0 >>
    write_destination corrected >>
    add_bytes_copied FVDE_VOLUME_HEADER_SIZE.

(** [ftruncate]: it fails for a negative [off_t] and for a size the
    file system does not accept. *)
Definition ftruncate_destination (size : Z) : D unit :=
  let* limit := gets w_destination_size_limit in
  if negative_off_t size || (limit <? size) then raise IO_ERROR_GENERIC
  else modify (fun w =>
         set_destination (w_destination w ++ [Ftruncate size])
                         (w_destination_position w) w).

(** The metadata loop of [dump_handle_dump]; [current_offset] is the
    only local it changes. *)
Fixpoint dump_metadata_regions (indices : list Z) (current_offset : Z) : D Z :=
  match indices with
  | [] => ret current_offset
  | metadata_index :: rest =>
      let* h := gets w_handle in
      let metadata_offset := nth (Z.to_nat metadata_index) (dh_metadata_offsets h) 0 in
      if negb (dh_compact h =? 0)
      then
        let compact_encrypted_metadata1_offset :=
          wrap32 (dh_block_size h + wrap32 (4 * dh_metadata_size h)) in
        let compact_encrypted_metadata2_offset :=
          wrap64 (compact_encrypted_metadata1_offset + dh_encrypted_metadata_size h) in
        on_error IO_ERROR_WRITE_FAILED
          (dump_handle_write_corrected_metadata metadata_offset current_offset
             compact_encrypted_metadata1_offset compact_encrypted_metadata2_offset) >>
        dump_metadata_regions rest (wrap64 (current_offset + dh_metadata_size h))
      else
        on_error IO_ERROR_WRITE_FAILED
          (dump_handle_copy_region metadata_offset metadata_offset (dh_metadata_size h)) >>
        dump_metadata_regions rest current_offset
  end.

(** One of the two "Copy encrypted metadata N" blocks. *)
Definition dump_encrypted_metadata (encrypted_metadata_offset current_offset : Z) : D Z :=
  let* h := gets w_handle in
  if negb (encrypted_metadata_offset =? 0)
  then
    if negb (dh_compact h =? 0)
    then
      on_error IO_ERROR_WRITE_FAILED
        (dump_handle_copy_region encrypted_metadata_offset current_offset
           (dh_encrypted_metadata_size h)) >>
      ret (wrap64 (current_offset + dh_encrypted_metadata_size h))
    else
      on_error IO_ERROR_WRITE_FAILED
        (dump_handle_copy_region encrypted_metadata_offset encrypted_metadata_offset
           (dh_encrypted_metadata_size h)) >>
      ret current_offset
  else ret current_offset.

(** The first half of [dump_handle_dump]: the volume header and the four
    metadata copies.  Returns [current_offset]. *)
Definition dump_header_and_metadata : D Z :=
  modify (fun w => set_handle (set_bytes_copied 0 (w_handle w)) w) >>
  let* h := gets w_handle in
  (if dh_compact h =? 0
   then ftruncate_destination (dh_physical_volume_size h)
   else ret tt) >>
  let* current_offset :=
    (if negb (dh_compact h =? 0)
     then on_error IO_ERROR_WRITE_FAILED dump_handle_write_corrected_volume_header >>
          ret (dh_block_size h)
     else on_error IO_ERROR_WRITE_FAILED
            (dump_handle_copy_region 0 0 FVDE_VOLUME_HEADER_SIZE) >>
          ret 0) in
  dump_metadata_regions [0; 1; 2; 3] current_offset.

(** [dump_handle_dump]: the first half, then the two encrypted metadata
    regions. *)
Definition dump_handle_dump : D unit :=
  let* current_offset := dump_header_and_metadata in
  let* h := gets w_handle in
  let* current_offset :=
    dump_encrypted_metadata (dh_encrypted_metadata1_offset h) current_offset in
  let* current_offset :=
    dump_encrypted_metadata (dh_encrypted_metadata2_offset h) current_offset in
  ret tt.

(** fvdedump.c: the calls of [main] between opening the source and
    closing the handle. *)
Definition fvdedump_main : D unit :=
  dump_handle_read_volume_header >>
  dump_handle_read_metadata >>
  dump_handle_dump.

(* ================================================================= *)
(** ** keyring_handle.c (built with HAVE_KEYUTILS_H) *)

Definition KEY_SPEC_SESSION_KEYRING      : Z := -3.
Definition KEY_SPEC_USER_KEYRING         : Z := -4.
Definition KEY_SPEC_USER_SESSION_KEYRING : Z := -5.

Definition hex_digit (n : Z) : ascii :=
  nth (Z.to_nat n)
      ["0"; "1"; "2"; "3"; "4"; "5"; "6"; "7"; "8"; "9"; "a"; "b"; "c"; "d"; "e"; "f"]%char
      "0"%char.

(** The conversion [%02x] of one byte. *)
Definition hex_byte (b : Z) : string :=
  String (hex_digit (b / 16)) (String (hex_digit (b mod 16)) EmptyString).

Definition hex_bytes (bs : list Z) : string :=
  fold_right (fun b s => (hex_byte b ++ s)%string) EmptyString bs.

Definition keyring_handle_format_uuid_string (uuid_data : list Z) (uuid_data_size : Z)
    (uuid_string_size : Z) : outcome string :=
  if negb (uuid_data_size =? 16) then Fail [ARGUMENT_ERROR_VALUE_OUT_OF_BOUNDS]
  else if uuid_string_size <? 37 then Fail [ARGUMENT_ERROR_VALUE_TOO_SMALL]
  else
    Ok (hex_bytes (get_bytes 0 4 uuid_data) ++ "-"
        ++ hex_bytes (get_bytes 4 2 uuid_data) ++ "-"
        ++ hex_bytes (get_bytes 6 2 uuid_data) ++ "-"
        ++ hex_bytes (get_bytes 8 2 uuid_data) ++ "-"
        ++ hex_bytes (get_bytes 10 6 uuid_data))%string.

(** Modelled from the spec: [isspace] of the C library in the C locale:
    space, and the controls from horizontal tab to carriage return. *)
Definition isspace (c : ascii) : bool :=
  let n := Z.of_nat (nat_of_ascii c) in
  (n =? 32) || ((9 <=? n) && (n <=? 13)).

Fixpoint skip_white_space (s : string) : string :=
  match s with
  | EmptyString => s
  | String c rest => if isspace c then skip_white_space rest else s
  end.

(** The value of the leading decimal digits of [s] after those counted
    in [acc]. *)
Fixpoint atoi_digits (s : string) (acc : Z) : Z :=
  match s with
  | EmptyString => acc
  | String c rest =>
      let d := Z.of_nat (nat_of_ascii c) - 48 in
      if (0 <=? d) && (d <=? 9) then atoi_digits rest (10 * acc + d) else acc
  end.

Definition LONG_MAX : Z := 2 ^ 63 - 1.
Definition LONG_MIN : Z := - 2 ^ 63.

(** Modelled from the spec: [strtol (nptr, NULL, 10)] of the C library:
    leading white space is skipped, a sign is optional, the digits that
    follow give the value, a string without digits gives 0, and a value
    outside [long] gives [LONG_MAX] or [LONG_MIN]. *)
Definition strtol_decimal (nptr : string) : Z :=
  let value :=
    match skip_white_space nptr with
    | String "-"%char rest => - atoi_digits rest 0
    | String "+"%char rest => atoi_digits rest 0
    | s => atoi_digits s 0
    end in
  Z.max LONG_MIN (Z.min LONG_MAX value).

(** The conversion of a [long] to [int]: the low 32 bits, signed. *)
Definition long_to_int (z : Z) : Z :=
  let low := wrap32 z in
  if low <? 2 ^ 31 then low else low - 2 ^ 32.

(** Modelled from the spec: [atoi] of the GNU C library, which is
    [(int) strtol (nptr, NULL, 10)]. *)
Definition atoi (nptr : string) : Z := long_to_int (strtol_decimal nptr).

(** What [keyring_handle_add_key] leaves behind when it returns: the
    result, the content of the local [combined_key] array at the return
    statement, and the [add_key] calls made. *)
Record add_key_return : Type := mk_add_key_return {
  akr_result        : outcome unit;
  akr_combined_key  : list Z;
  akr_add_key_calls : list (string * string * list Z * Z)
}.

(** The "Parse keyring ID" chain. *)
Definition parse_keyring_id (keyring_id : option string) : outcome Z :=
  match keyring_id with
  | None => Ok KEY_SPEC_SESSION_KEYRING
  | Some id =>
      if String.eqb id "@s" then Ok KEY_SPEC_SESSION_KEYRING
      else if String.eqb id "@u" then Ok KEY_SPEC_USER_KEYRING
      else if String.eqb id "@us" then Ok KEY_SPEC_USER_SESSION_KEYRING
      else
        let keyring_id_value := atoi id in
        if keyring_id_value =? 0 then Fail [ARGUMENT_ERROR_UNSUPPORTED_VALUE]
        else Ok keyring_id_value
  end.

(** [kernel_add_key] stands for the system call: it returns the key
    serial, negative when the kernel refuses.  [stack] is what the
    48 bytes of the uninitialised local array hold on entry. *)
Definition keyring_handle_add_key
    (kernel_add_key : string -> string -> list Z -> Z -> Z)
    (stack : list Z)
    (volume_master_key : list Z) (volume_master_key_size : Z)
    (volume_tweak_key : list Z) (volume_tweak_key_size : Z)
    (volume_uuid : list Z) (volume_uuid_size : Z)
    (keyring_id : option string) : add_key_return :=
  let combined_key := stack in
  if negb (volume_master_key_size =? 16)
  then mk_add_key_return (Fail [ARGUMENT_ERROR_VALUE_OUT_OF_BOUNDS]) combined_key []
  else if negb (volume_tweak_key_size =? 32)
  then mk_add_key_return (Fail [ARGUMENT_ERROR_VALUE_OUT_OF_BOUNDS]) combined_key []
  else if negb (volume_uuid_size =? 16)
  then mk_add_key_return (Fail [ARGUMENT_ERROR_VALUE_OUT_OF_BOUNDS]) combined_key []
  else
    match keyring_handle_format_uuid_string volume_uuid volume_uuid_size 37 with
    | Fail e => mk_add_key_return (Fail (e ++ [RUNTIME_ERROR_SET_FAILED])) combined_key []
    | Ok uuid_string =>
        let key_description := ("fvde:" ++ uuid_string)%string in
        let combined_key := put_bytes 0 (get_bytes 0 16 volume_master_key) combined_key in
        let combined_key := put_bytes 16 (get_bytes 0 32 volume_tweak_key) combined_key in
        let combined_key_size := 48 in
        match parse_keyring_id keyring_id with
        | Fail e => mk_add_key_return (Fail e) combined_key []
        | Ok keyring_id_value =>
            let payload := get_bytes 0 combined_key_size combined_key in
            let key_id := kernel_add_key "logon"%string key_description payload
                            keyring_id_value in
            let calls := [("logon"%string, key_description, payload, keyring_id_value)] in
            if key_id <? 0
            then mk_add_key_return (Fail [RUNTIME_ERROR_SET_FAILED]) combined_key calls
            else
              let combined_key := put_bytes 0 (repeat 0 48) combined_key in
              mk_add_key_return (Ok tt) combined_key calls
        end
    end.


(* ================================================================= *)
(** ** fvdecheck_extent.c and check_handle.c: the block lookup *)

Definition fvdecheck_extent_state_to_string (state : fvdecheck_extent_state) : string :=
  match state with
  | FVDECHECK_EXTENT_STATE_UNKNOWN   => "UNKNOWN"
  | FVDECHECK_EXTENT_STATE_FREE      => "FREE"
  | FVDECHECK_EXTENT_STATE_ALLOCATED => "ALLOCATED"
  | FVDECHECK_EXTENT_STATE_RESERVED  => "RESERVED"
  end.

(** What [check_handle_lookup_block] writes to the notify stream: one
    constructor for each [fprintf] that formats values, carrying the
    values, and [Heading] for those that print fixed text. *)
Inductive lookup_line : Type :=
| Heading (text : string)
| LinuxSector (sector : Z)
| LinuxByteOffset (byte_offset : Z)
| PhysicalVolumeIndex (pv_index : Z)
| PhysicalBlockNumber (block_number : Z)
| StateLine (name : string)
| ReservedFor (description : string)
| AllocatedBy (transaction_id block_type : Z)
| LogicalVolumeIndex (lv_index : Z)
| LogicalBlockNumber (block_number : Z)
| FreedBy (transaction_id block_type : Z)
| PhysicalExtent (pv_index first_block last_block block_count : Z)
| LogicalExtent (lv_index first_block last_block block_count : Z)
| StateUnknown.

Definition check_handle_lookup_block
    (lookup_linux_sector_set lookup_linux_sector : Z) (st : fvdecheck_volume_state)
    : list lookup_line :=
  [Heading "Block Information:"]
  ++ (if negb (lookup_linux_sector_set =? 0)
      then
        let byte_offset := wrap64 (lookup_linux_sector * 512) in
        let block_number :=
          fvdecheck_linux_sector_to_fvde_block lookup_linux_sector (block_size st) in
        let pv_index := 0 in
        [LinuxSector lookup_linux_sector;
         LinuxByteOffset byte_offset;
         Heading "FVDE physical:";
         PhysicalVolumeIndex pv_index;
         PhysicalBlockNumber block_number]
        ++ match fvdecheck_volume_state_find_physical_extent st pv_index block_number with
           | Some extent =>
               [StateLine (fvdecheck_extent_state_to_string (state extent))]
               ++ match state extent with
                  | FVDECHECK_EXTENT_STATE_RESERVED =>
                      [ReservedFor match reserved_description extent with
                                   | Some description => description
                                   | None => "Unknown"
                                   end]
                  | FVDECHECK_EXTENT_STATE_ALLOCATED =>
                      [AllocatedBy (transaction_id extent) (block_type extent);
                       Heading "FVDE logical:";
                       LogicalVolumeIndex (logical_volume_index extent);
                       LogicalBlockNumber
                         (wrap64 (logical_block_start extent
                                  + wrap64 (block_number - physical_block_start extent)))]
                  | FVDECHECK_EXTENT_STATE_FREE =>
                      [FreedBy (transaction_id extent) (block_type extent)]
                  | FVDECHECK_EXTENT_STATE_UNKNOWN => []
                  end
               ++ [Heading "Extent context:";
                   PhysicalExtent (physical_volume_index extent)
                     (physical_block_start extent)
                     (wrap64 (physical_block_start extent
                              + physical_block_count extent - 1))
                     (physical_block_count extent)]
               ++ match state extent with
                  | FVDECHECK_EXTENT_STATE_ALLOCATED =>
                      [LogicalExtent (logical_volume_index extent)
                         (logical_block_start extent)
                         (wrap64 (logical_block_start extent
                                  + physical_block_count extent - 1))
                         (physical_block_count extent)]
                  | _ => []
                  end
           | None => [StateUnknown]
           end
      else [])
  ++ [Heading ""].

(* ================================================================= *)
(** ** check_handle.c: decimal option values *)

Definition SSIZE_MAX : Z := 2 ^ 63 - 1.

Definition character_code (c : ascii) : Z := Z.of_nat (nat_of_ascii c).

(** The frames [fvdetools_system_string_copy_from_64_bit_in_decimal]
    pushes; the last one with the character and the index it prints. *)
Inductive copy_from_decimal_error : Type :=
| LIBCERROR_ARGUMENT_ERROR_VALUE_EXCEEDS_MAXIMUM
| LIBCERROR_ARGUMENT_ERROR_VALUE_TOO_LARGE
| LIBCERROR_RUNTIME_ERROR_UNSUPPORTED_VALUE (character : ascii) (string_index : Z).

(** What a call leaves: no error when it returns 1, and what
    [*value_64bit] holds at the return statement. *)
Record copy_from_decimal_return : Type := mk_copy_from_decimal_return {
  cfd_error       : option copy_from_decimal_error;
  cfd_value_64bit : Z
}.

(** The [while] loop.  [rest] holds the characters from [string_index]
    up to the terminator. *)
Fixpoint copy_from_decimal_loop (rest : string)
    (string_index string_size maximum_string_index value_64bit : Z)
    : copy_from_decimal_return :=
  if negb (string_index <? string_size)
  then mk_copy_from_decimal_return None value_64bit
  else
    match rest with
    | EmptyString => mk_copy_from_decimal_return None value_64bit
    | String c rest' =>
        if character_code c =? 0
        then mk_copy_from_decimal_return None value_64bit
        else if maximum_string_index <? string_index
        then mk_copy_from_decimal_return
               (Some LIBCERROR_ARGUMENT_ERROR_VALUE_TOO_LARGE) value_64bit
        else
          let value_64bit := wrap64 (value_64bit * 10) in
          if (48 <=? character_code c) && (character_code c <=? 57)
          then
            let character_value := character_code c - 48 in
            copy_from_decimal_loop rest' (string_index + 1) string_size
              maximum_string_index (wrap64 (value_64bit + character_value))
          else mk_copy_from_decimal_return
                 (Some (LIBCERROR_RUNTIME_ERROR_UNSUPPORTED_VALUE c string_index))
                 value_64bit
    end.

(** [value_64bit] is what the caller's variable holds on entry. *)
Definition fvdetools_system_string_copy_from_64_bit_in_decimal
    (string : string) (string_size : Z) (value_64bit : Z) : copy_from_decimal_return :=
  if SSIZE_MAX <? string_size
  then mk_copy_from_decimal_return
         (Some LIBCERROR_ARGUMENT_ERROR_VALUE_EXCEEDS_MAXIMUM) value_64bit
  else
    let value_64bit := 0 in
    let maximum_string_index := 20 in
    let first := match string with
                 | EmptyString => 0
                 | String c _ => character_code c
                 end in
    if first =? 45
    then
      let r := copy_from_decimal_loop (substring 1 (String.length string) string)
                 1 string_size (maximum_string_index + 1) value_64bit in
      match cfd_error r with
      | Some _ => r
      | None => mk_copy_from_decimal_return None
                  (wrap64 (cfd_value_64bit r * (2 ^ 64 - 1)))
      end
    else if first =? 43
    then copy_from_decimal_loop (substring 1 (String.length string) string)
           1 string_size (maximum_string_index + 1) value_64bit
    else copy_from_decimal_loop string 0 string_size maximum_string_index value_64bit.

(* ================================================================= *)
(** ** dmsetup_handle.c: the device-mapper table entry *)

Definition double_quote : string := String "034"%char EmptyString.
Definition newline      : string := String "010"%char EmptyString.

(** Modelled from the spec: the conversion [%PRIu64] of the C library. *)
Definition print_uint64 (n : Z) : string :=
  NilZero.string_of_uint (N.to_uint (Z.to_N n)).

(** Modelled from the spec: the conversion [%d] of the C library. *)
Definition print_int (n : Z) : string :=
  NilZero.string_of_int (Z.to_int n).

(** The result carries the text written to [stream].
    [volume_offset_in_bytes] is an [off64_t]: its division truncates
    towards zero, and the quotient is stored in a [uint64_t]. *)
Definition dmsetup_handle_print_table_entry
    (volume_uuid : list Z) (volume_uuid_size : Z)
    (volume_size_in_bytes : Z) (source_path : string)
    (volume_offset_in_bytes : Z) (shell_mode : Z)
    (mapper_name : string) (volume_index : Z) : outcome string :=
  match keyring_handle_format_uuid_string volume_uuid volume_uuid_size 37 with
  | Fail e => Fail (e ++ [RUNTIME_ERROR_SET_FAILED])
  | Ok uuid_string =>
      let size_in_sectors := volume_size_in_bytes / 512 in
      let offset_in_sectors := wrap64 (Z.quot volume_offset_in_bytes 512) in
      if negb (shell_mode =? 0)
      then Ok ("echo " ++ double_quote ++ "0 " ++ print_uint64 size_in_sectors
               ++ " crypt aes-xts-plain64 :48:logon:fvde:" ++ uuid_string
               ++ " 0 " ++ source_path ++ " " ++ print_uint64 offset_in_sectors
               ++ double_quote ++ " | dmsetup create " ++ mapper_name
               ++ print_int volume_index ++ newline)%string
      else Ok ("0 " ++ print_uint64 size_in_sectors
               ++ " crypt aes-xts-plain64 :48:logon:fvde:" ++ uuid_string
               ++ " 0 " ++ source_path ++ " " ++ print_uint64 offset_in_sectors
               ++ newline)%string
  end.
(* ################################################################# *)
(** * Vocabulary of the specification *)

(* ================================================================= *)
(** ** Invariants of a computation *)

(** A property of the state that every step of a computation keeps,
    whether the step succeeds or fails. *)
Definition keeps {S A} (I : S -> Prop) (m : SE S A) : Prop :=
  forall st, I st -> I (snd (m st)).

(* ================================================================= *)
(** ** Order of an extent list *)

Definition key_le (key : fvdecheck_extent -> Z) (a b : fvdecheck_extent) : Prop :=
  key a <= key b.
Definition key_lt (key : fvdecheck_extent -> Z) (a b : fvdecheck_extent) : Prop :=
  key a < key b.

(** Ascending order of the keys along the list. *)
Definition ascending (key : fvdecheck_extent -> Z) (l : list fvdecheck_extent) : Prop :=
  StronglySorted (key_le key) l.

(** The keys never repeat: the order is strict. *)
Definition strictly_ascending (key : fvdecheck_extent -> Z) (l : list fvdecheck_extent)
    : Prop :=
  StronglySorted (key_lt key) l.

(** The extents that carry key [k], in list order. *)
Definition with_key (key : fvdecheck_extent -> Z) (k : Z) (l : list fvdecheck_extent)
    : list fvdecheck_extent :=
  List.filter (fun x => key x =? k) l.

(** [l] holds the extents of [history] sorted by key, extents of equal
    key in the order of [history]. *)
Definition stable_order (key : fvdecheck_extent -> Z)
    (l history : list fvdecheck_extent) : Prop :=
  ascending key l /\ forall k, with_key key k l = with_key key k history.

(** Traversal of a volume's list from the head. *)
Definition pv_extents (st : fvdecheck_volume_state) (p : Z) : list fvdecheck_extent :=
  match physical_volumes st !! Z.to_nat p with
  | Some pv => pv_extent_list pv
  | None => []
  end.

Definition lv_extents (st : fvdecheck_volume_state) (l : Z) : list fvdecheck_extent :=
  match logical_volumes st !! Z.to_nat l with
  | Some lv => lv_extent_list lv
  | None => []
  end.

(* ================================================================= *)
(** ** Sequences of store operations *)

Inductive store_op : Type :=
| AddPhysicalVolume (uuid : list Z) (size_in_blocks : Z)
| AddLogicalVolume (uuid : list Z) (size_in_blocks : Z)
| MarkReserved (pv_index block_start block_count : Z) (description : option string)
| MarkFree (pv_index block_start block_count
            transaction_id metadata_block_index block_type : Z)
| MarkAllocated (pv_index phys_block_start block_count lv_index logical_block_start
                 transaction_id metadata_block_index block_type : Z).

Definition run_op (op : store_op) : M unit :=
  match op with
  | AddPhysicalVolume uuid size =>
      let* _ := fvdecheck_volume_state_add_physical_volume uuid size in ret tt
  | AddLogicalVolume uuid size =>
      let* _ := fvdecheck_volume_state_add_logical_volume uuid size in ret tt
  | MarkReserved p s c d => fvdecheck_volume_state_mark_reserved p s c d
  | MarkFree p s c t m b => fvdecheck_volume_state_mark_free p s c t m b
  | MarkAllocated p s c l ls t m b =>
      fvdecheck_volume_state_mark_allocated p s c l ls t m b
  end.

Definition run_ops (ops : list store_op) : M unit := for_each run_op ops.

(** The arguments are values of the unsigned C types of the signatures. *)
Definition op_well_typed (op : store_op) : Prop :=
  match op with
  | AddPhysicalVolume _ size | AddLogicalVolume _ size => is_u64 size
  | MarkReserved p s c _ | MarkFree p s c _ _ _ => is_u32 p /\ is_u64 s /\ is_u64 c
  | MarkAllocated p s c l ls _ _ _ =>
      is_u32 p /\ is_u64 s /\ is_u64 c /\ is_u32 l /\ is_u64 ls
  end.

(** The extent a mark operation creates. *)
Definition extent_of_op (op : store_op) : option fvdecheck_extent :=
  match op with
  | AddPhysicalVolume _ _ | AddLogicalVolume _ _ => None
  | MarkReserved p s c d => Some (reserved_extent p s c d)
  | MarkFree p s c t m b => Some (free_extent p s c t m b)
  | MarkAllocated p s c l ls t m b => Some (allocated_extent p s c l ls t m b)
  end.

(** The extents marked on physical volume [p], oldest first. *)
Definition marked_on_pv (p : Z) (ops : list store_op) : list fvdecheck_extent :=
  flat_map (fun op =>
              match extent_of_op op with
              | Some e => if physical_volume_index e =? p then [e] else []
              | None => []
              end) ops.

(** The extents allocated to logical volume [l], oldest first. *)
Definition marked_on_lv (l : Z) (ops : list store_op) : list fvdecheck_extent :=
  flat_map (fun op =>
              match op with
              | MarkAllocated p s c l' ls t m b =>
                  if l' =? l then [allocated_extent p s c l' ls t m b] else []
              | _ => []
              end) ops.

(** Inserting a history into an empty list, one extent after the other. *)
Definition insert_all (key : fvdecheck_extent -> Z) (history : list fvdecheck_extent)
    : list fvdecheck_extent :=
  fold_left (fun l e => insert_extent key e l) history [].

(** Scenario S2 of the specification, on a store with one physical and
    one logical volume; the provenance of the two allocations is left
    open. *)
Definition S2_ops (t1 m1 b1 t2 m2 b2 : Z) : list store_op :=
  [ AddPhysicalVolume (repeat 1 16) 100;
    AddLogicalVolume (repeat 2 16) 100;
    MarkReserved 0 0 1 (Some "H"%string);
    MarkAllocated 0 10 5 0 0 t1 m1 b1;
    MarkAllocated 0 4 3 0 5 t2 m2 b2 ].

Definition S2_example_ops : list store_op := S2_ops 0 0 0x0305 0 0 0x0305.

Definition S2_example_state : fvdecheck_volume_state :=
  snd (run_ops S2_example_ops fvdecheck_volume_state_initialize).

(** The arrays keep their sixteen slots and the counters stay in range. *)
Definition arrays_ok (st : fvdecheck_volume_state) : Prop :=
  0 <= num_physical_volumes st <= 16 /\ length (physical_volumes st) = 16%nat /\
  0 <= num_logical_volumes st <= 16 /\ length (logical_volumes st) = 16%nat.

(** Every list of the store is the iterated insertion of what [ops]
    marked on its volume. *)
Definition store_follows (ops : list store_op) (st : fvdecheck_volume_state) : Prop :=
  arrays_ok st /\
  (forall p, 0 <= p < num_physical_volumes st ->
     pv_extents st p = insert_all physical_block_start (marked_on_pv p ops)) /\
  (forall p, num_physical_volumes st <= p -> marked_on_pv p ops = []) /\
  (forall l, 0 <= l < num_logical_volumes st ->
     lv_extents st l = insert_all logical_block_start (marked_on_lv l ops)) /\
  (forall l, num_logical_volumes st <= l -> marked_on_lv l ops = []).

(* ================================================================= *)
(** ** Repeated calls *)

(** Calls [f] on every element in turn, whatever the earlier calls
    returned, and collects the outcomes. *)
Fixpoint call_each {S A B} (f : A -> SE S B) (l : list A) (st : S)
    : list (outcome B) * S :=
  match l with
  | [] => ([], st)
  | a :: l' =>
      let '(o, st1) := f a st in
      let '(os, st2) := call_each f l' st1 in
      (o :: os, st2)
  end.

Definition add_physical_volume_call (v : list Z * Z) : M Z :=
  fvdecheck_volume_state_add_physical_volume (fst v) (snd v).

Definition add_logical_volume_call (v : list Z * Z) : M Z :=
  fvdecheck_volume_state_add_logical_volume (fst v) (snd v).

(** Seventeen volumes with distinct uuids. *)
Definition seventeen_volumes : list (list Z * Z) :=
  map (fun i => (repeat (Z.of_nat i) 16, 1000 + Z.of_nat i)) (seq 0 17).

(* ================================================================= *)
(** ** Stored extents and intervals *)

(** The states a fresh store reaches through successful operations. *)
Definition reachable (st : fvdecheck_volume_state) : Prop :=
  exists ops, Forall op_well_typed ops /\
              run_ops ops fvdecheck_volume_state_initialize = (Ok tt, st).

(** [e] is a node of the list of some physical volume in use. *)
Definition stored (st : fvdecheck_volume_state) (e : fvdecheck_extent) : Prop :=
  exists p, 0 <= p < num_physical_volumes st /\ In e (pv_extents st p).

(** The half-open intervals [[s, s + c)] and
    [[phys_start, phys_start + phys_count)] have a block in common. *)
Definition intersects (s c : Z) (e : fvdecheck_extent) : Prop :=
  exists b, s <= b < s + c /\
            physical_block_start e <= b < physical_block_start e + physical_block_count e.

(** The interval test on unbounded integers. *)
Definition intersects_test (s c : Z) (e : fvdecheck_extent) : bool :=
  (s <? physical_block_start e + physical_block_count e)
  && (physical_block_start e <? s + c).

(** The extent is not empty and ends within the 64-bit block space. *)
Definition proper_extent (e : fvdecheck_extent) : Prop :=
  0 < physical_block_count e /\
  physical_block_start e + physical_block_count e < 2 ^ 64.

(* ================================================================= *)
(** ** Invariants of the store *)

(** The extent is Allocated and belongs to logical volume [l]. *)
Definition allocated_to (l : Z) (e : fvdecheck_extent) : bool :=
  match state e with
  | FVDECHECK_EXTENT_STATE_ALLOCATED => logical_volume_index e =? l
  | _ => false
  end.

(** All nodes of all physical lists. *)
Definition all_extents (st : fvdecheck_volume_state) : list fvdecheck_extent :=
  concat (map pv_extent_list (physical_volumes st)).

(** Every list is in ascending order of its key. *)
Definition lists_ascending (st : fvdecheck_volume_state) : Prop :=
  (forall i pv, physical_volumes st !! i = Some pv ->
     ascending physical_block_start (pv_extent_list pv)) /\
  (forall i lv, logical_volumes st !! i = Some lv ->
     ascending logical_block_start (lv_extent_list lv)).

(** The slots past the counters hold no extents. *)
Definition unused_slots_empty (st : fvdecheck_volume_state) : Prop :=
  (forall i pv, physical_volumes st !! i = Some pv ->
     (Z.to_nat (num_physical_volumes st) <= i)%nat -> pv_extent_list pv = []) /\
  (forall i lv, logical_volumes st !! i = Some lv ->
     (Z.to_nat (num_logical_volumes st) <= i)%nat -> lv_extent_list lv = []).

(** I3: the list of a logical volume holds exactly the Allocated extents
    of that volume found in the physical lists, each as often as there. *)
Definition allocated_in_both (st : fvdecheck_volume_state) : Prop :=
  forall l, 0 <= l ->
    Permutation (lv_extents st l) (List.filter (allocated_to l) (all_extents st)).

Definition store_inv (st : fvdecheck_volume_state) : Prop :=
  arrays_ok st /\ lists_ascending st /\ unused_slots_empty st /\ allocated_in_both st.

(** [keeps] together with a property of the value a success returns. *)
Definition keeps_returning {S A} (I : S -> Prop) (m : SE S A) (Q : A -> Prop) : Prop :=
  forall st, I st -> I (snd (m st)) /\ forall a, fst (m st) = Ok a -> Q a.

(* ================================================================= *)
(** ** Overlap between extents, and brute-force statistics *)

(** The two extents have a block in common. *)
Definition extents_overlap (a b : fvdecheck_extent) : Prop :=
  exists blk,
    physical_block_start a <= blk < physical_block_start a + physical_block_count a /\
    physical_block_start b <= blk < physical_block_start b + physical_block_count b.

(** No two nodes of the list overlap. *)
Definition pairwise_disjoint (l : list fvdecheck_extent) : Prop :=
  ForallOrdPairs (fun a b => ~ extents_overlap a b) l.

Definition state_eqb (s1 s2 : fvdecheck_extent_state) : bool :=
  match s1, s2 with
  | FVDECHECK_EXTENT_STATE_UNKNOWN, FVDECHECK_EXTENT_STATE_UNKNOWN
  | FVDECHECK_EXTENT_STATE_FREE, FVDECHECK_EXTENT_STATE_FREE
  | FVDECHECK_EXTENT_STATE_ALLOCATED, FVDECHECK_EXTENT_STATE_ALLOCATED
  | FVDECHECK_EXTENT_STATE_RESERVED, FVDECHECK_EXTENT_STATE_RESERVED => true
  | _, _ => false
  end.

(** The total of the block counts of the extents in state [s]. *)
Definition blocks_in_state (s : fvdecheck_extent_state) (l : list fvdecheck_extent) : Z :=
  fold_right (fun e acc => if state_eqb (state e) s then physical_block_count e + acc else acc)
             0 l.

Definition blocks_total (l : list fvdecheck_extent) : Z :=
  fold_right (fun e acc => physical_block_count e + acc) 0 l.

(** I5: in [st'] the statistics of every volume in use are the 64-bit
    totals over the lists of [st], and the lists are those of [st]. *)
Definition statistics_from_lists (st st' : fvdecheck_volume_state) : Prop :=
  (forall p, 0 <= p < num_physical_volumes st ->
     exists pv, physical_volumes st' !! Z.to_nat p = Some pv /\
       pv_extent_list pv = pv_extents st p /\
       pv_reserved_blocks pv
         = wrap64 (blocks_in_state FVDECHECK_EXTENT_STATE_RESERVED (pv_extents st p)) /\
       pv_allocated_blocks pv
         = wrap64 (blocks_in_state FVDECHECK_EXTENT_STATE_ALLOCATED (pv_extents st p)) /\
       pv_free_blocks pv
         = wrap64 (blocks_in_state FVDECHECK_EXTENT_STATE_FREE (pv_extents st p))) /\
  (forall l, 0 <= l < num_logical_volumes st ->
     exists lv, logical_volumes st' !! Z.to_nat l = Some lv /\
       lv_extent_list lv = lv_extents st l /\
       lv_mapped_blocks lv = wrap64 (blocks_total (lv_extents st l)) /\
       lv_unmapped_blocks lv
         = Z.max 0 (lv_size_in_blocks lv - lv_mapped_blocks lv)).

(* ================================================================= *)
(** ** Example volumes for the walker *)

(** One physical volume of 1000 blocks, one logical volume, metadata
    slots at blocks 2, 4, 6, 8 and encrypted metadata at blocks 100 and
    200. *)
Definition example_volume (segments : list (option libfvde_segment_descriptor))
    : opened_volume :=
  mk_opened_volume
    (Some (mk_volume_header 8192 [8192; 16384; 24576; 32768]))
    (Some (mk_metadata (100 * 4096) (200 * 4096) 16384))
    [mk_physical_volume (repeat 1 16) (1000 * 4096)]
    [mk_logical_volume (repeat 2 16) (500 * 4096) segments].

(** A segment of 50 blocks at physical block 300. *)
Definition sound_volume : opened_volume :=
  example_volume [Some (mk_segment 0 50 0 300)].

(** A segment that maps logical block 0 onto physical block 0, where
    the volume header lies. *)
Definition overlapping_volume : opened_volume :=
  example_volume [Some (mk_segment 0 1 0 0)].

Definition sound_state : fvdecheck_volume_state := snd (volume_walker sound_volume).

Definition overlapping_state : fvdecheck_volume_state :=
  snd (volume_walker overlapping_volume).

(* ================================================================= *)
(** ** Sector and block conversions *)

(** Sector to block and back. *)
Definition sector_round_trip (s b : Z) : Z :=
  fvdecheck_fvde_block_to_linux_sector (fvdecheck_linux_sector_to_fvde_block s b) b.

(** [r] is the largest sector not exceeding [s] whose byte offset is a
    multiple of [b]. *)
Definition largest_aligned_sector (s b r : Z) : Prop :=
  0 <= r <= s /\ (b | r * 512) /\
  forall t, 0 <= t <= s -> (b | t * 512) -> t <= r.

(* ================================================================= *)
(** ** The CRC statics during a run *)

(** The table is written by [dump_handle_calculate_weak_crc32] alone:
    the statics are as the program starts, or as a call left them. *)
Inductive crc32_statics_reachable : crc32_statics -> Prop :=
| statics_at_start : crc32_statics_reachable crc32_statics_initial
| statics_after_call buffer size initial_value g :
    crc32_statics_reachable g ->
    crc32_statics_reachable
      (snd (dump_handle_calculate_weak_crc32 buffer size initial_value g)).

(** The statics once the table is built. *)
Definition crc32_statics_built : crc32_statics :=
  mk_crc32_statics (reference_table 0x82F63B78) 1.

(* ================================================================= *)
(** ** Example keys for the keyring *)

Definition example_master_key : list Z := map Z.of_nat (seq 1 16).
Definition example_tweak_key  : list Z := map Z.of_nat (seq 101 32).
Definition example_uuid : list Z :=
  [0x00; 0x11; 0x22; 0x33; 0x44; 0x55; 0x66; 0x77;
   0x88; 0x99; 0xaa; 0xbb; 0xcc; 0xdd; 0xee; 0xff].

(** A kernel that refuses every key, as with an exhausted key quota. *)
Definition refusing_kernel (type description : string) (payload : list Z)
    (keyring : Z) : Z := -1.

(** A kernel that accepts every key under serial 7. *)
Definition accepting_kernel (type description : string) (payload : list Z)
    (keyring : Z) : Z := 7.

(* ================================================================= *)
(** ** The metadata copies of a source *)

(** Copy [i] of the metadata, as [dump_handle_read_metadata] reads it. *)
Definition metadata_copy (w : dump_world) (i : Z) : list Z :=
  get_bytes (nth (Z.to_nat i) (dh_metadata_offsets (w_handle w)) 0)
            (dh_metadata_size (w_handle w)) (w_source w).

Definition copy_transaction_id (w : dump_world) (i : Z) : Z :=
  byte_stream_copy_to_uint64_little_endian (metadata_copy w i) 16.

Definition copy_descriptor_offset (w : dump_world) (i : Z) : Z :=
  byte_stream_copy_to_uint32_little_endian (metadata_copy w i) (64 + 156).

(** The three fields of the volume groups descriptor of copy [i]:
    size, block number 1, block number 2. *)
Definition copy_descriptor_fields (w : dump_world) (i : Z) : Z * Z * Z :=
  let d := copy_descriptor_offset w i in
  let data := metadata_copy w i in
  (byte_stream_copy_to_uint64_little_endian data (wrap32 (64 + wrap32 (d - 64) + 8)),
   byte_stream_copy_to_uint64_little_endian data (wrap32 (64 + wrap32 (d - 64) + 32)),
   byte_stream_copy_to_uint64_little_endian data (wrap32 (64 + wrap32 (d - 64) + 40))).

Definition locals_fields (l : read_metadata_locals) : Z * Z * Z :=
  (encrypted_metadata_size l, encrypted_metadata1_offset l, encrypted_metadata2_offset l).

(** The locals after the loop over the four copies of [w]. *)
Definition scanned_locals (w : dump_world) : read_metadata_locals :=
  fold_left (fun l i => read_metadata_examine (metadata_copy w i) i l)
            [0; 1; 2; 3] read_metadata_locals_initial.

Definition set_best_metadata_only (b : Z) (w : dump_world) : dump_world :=
  let h := w_handle w in
  set_handle
    (mk_dump_handle (dh_physical_volume_size h) (dh_block_size h) (dh_metadata_size h)
       (dh_metadata_offsets h) (dh_encrypted_metadata1_offset h)
       (dh_encrypted_metadata2_offset h) (dh_encrypted_metadata_size h)
       (dh_verbose h) (dh_force h) b (dh_compact h) (dh_sample_blocks h)
       (dh_bytes_copied h) (dh_abort h)) w.

(** The handle records no encrypted metadata. *)
Definition no_encrypted_metadata (w : dump_world) : Prop :=
  dh_encrypted_metadata1_offset (w_handle w) = 0 /\
  dh_encrypted_metadata2_offset (w_handle w) = 0 /\
  dh_encrypted_metadata_size (w_handle w) = 0.

(** Copy [i] carries a transaction identifier above zero and above that
    of every earlier copy. *)
Definition exceeds_earlier_copies (w : dump_world) (i : Z) : Prop :=
  0 < copy_transaction_id w i /\
  forall j, 0 <= j < i -> copy_transaction_id w j < copy_transaction_id w i.

(** The scan takes the descriptor fields of copy [i]: its identifier
    exceeds those before it and its descriptor offset exceeds 64. *)
Definition adopts (w : dump_world) (i : Z) : Prop :=
  exceeds_earlier_copies w i /\ 64 < copy_descriptor_offset w i.

(** Every byte the scan reads lies in the copy it was read from: the
    copies hold the identifier and the descriptor offset, and the
    descriptor of a copy whose fields are taken ends inside the copy.
    The code tests none of this; outside, its reads leave the buffer. *)
Definition descriptors_in_bounds (w : dump_world) : Prop :=
  224 <= dh_metadata_size (w_handle w) < 2 ^ 32 /\
  forall i, 0 <= i <= 3 -> adopts w i ->
    copy_descriptor_offset w i + 48 <= dh_metadata_size (w_handle w).

(** What the scan has established once the copies below [k] are
    examined: the fields are those of the last copy that was adopted. *)
Definition fields_invariant (w : dump_world) (k : Z) (l : read_metadata_locals) : Prop :=
  0 <= highest_transaction_id l /\
  (forall j, 0 <= j < k -> copy_transaction_id w j <= highest_transaction_id l) /\
  (highest_transaction_id l = 0 \/
   exists j, 0 <= j < k /\ copy_transaction_id w j = highest_transaction_id l) /\
  (forall i, 0 <= i < k -> adopts w i ->
     (forall j, i < j < k -> ~ adopts w j) ->
     locals_fields l = copy_descriptor_fields w i) /\
  ((forall i, 0 <= i < k -> ~ adopts w i) -> locals_fields l = (0, 0, 0)).

(** What the scan has established once the copies [done] are examined:
    the highest identifier seen, the first copy that carries it, and
    where the descriptor fields come from. *)
Definition scan_invariant (w : dump_world) (done : list Z) (l : read_metadata_locals)
    : Prop :=
  (forall j, In j done -> copy_transaction_id w j <= highest_transaction_id l) /\
  0 <= highest_transaction_id l /\
  (highest_transaction_id l = 0 -> best_metadata_index l = 0) /\
  (0 < highest_transaction_id l ->
     exists pre post, done = pre ++ best_metadata_index l :: post /\
       copy_transaction_id w (best_metadata_index l) = highest_transaction_id l /\
       forall j, In j pre -> copy_transaction_id w j < highest_transaction_id l) /\
  (locals_fields l = (0, 0, 0) \/
   exists pre i post, done = pre ++ i :: post /\
     0 < copy_transaction_id w i /\
     (forall j, In j pre -> copy_transaction_id w j < copy_transaction_id w i) /\
     64 < copy_descriptor_offset w i /\
     locals_fields l = copy_descriptor_fields w i).

(* ================================================================= *)
(** ** Example sources for the dump *)

(** A metadata block of [metadata_size] bytes: transaction identifier,
    checksum initial value, and a volume groups descriptor at offset
    [descriptor] that records the encrypted metadata. *)
Definition example_metadata_block
    (metadata_size transaction initial_value descriptor : Z)
    (size_in_blocks block1 block2 : Z) : list Z :=
  let b0 := repeat 0 (Z.to_nat metadata_size) in
  let b1 := byte_stream_copy_from_uint32_little_endian b0 4 initial_value in
  let b2 := byte_stream_copy_from_uint64_little_endian b1 16 transaction in
  let b3 := byte_stream_copy_from_uint32_little_endian b2 220 descriptor in
  let b4 := byte_stream_copy_from_uint64_little_endian b3 (descriptor + 8) size_in_blocks in
  let b5 := byte_stream_copy_from_uint64_little_endian b4 (descriptor + 32) block1 in
  byte_stream_copy_from_uint64_little_endian b5 (descriptor + 40) block2.

(** A volume header with block size 4096, metadata size 8192 and the
    metadata copies at blocks 2, 4, 6, 8. *)
Definition example_volume_header : list Z :=
  let b0 := repeat 0 (Z.to_nat 512) in
  let b1 := byte_stream_copy_from_uint32_little_endian b0 4 0xffffffff in
  let b2 := byte_stream_copy_from_uint64_little_endian b1 72 (1000 * 4096) in
  let b3 := put_bytes 88 [67; 83] b2 in
  let b4 := byte_stream_copy_from_uint32_little_endian b3 96 4096 in
  let b5 := byte_stream_copy_from_uint32_little_endian b4 100 8192 in
  let b6 := byte_stream_copy_from_uint64_little_endian b5 104 2 in
  let b7 := byte_stream_copy_from_uint64_little_endian b6 112 4 in
  let b8 := byte_stream_copy_from_uint64_little_endian b7 120 6 in
  byte_stream_copy_from_uint64_little_endian b8 128 8.

(** The source of scenario S4: header, four metadata copies at offsets
    0x2000, 0x4000, 0x6000, 0x8000 with the given transaction identifiers
    and checksum initial value, encrypted metadata of 4 blocks at blocks
    100 and 200. *)
Definition example_source (t0 t1 t2 t3 initial_value : Z) : list Z :=
  let block t := example_metadata_block 8192 t initial_value 256 4 100 200 in
  example_volume_header ++ repeat 0 (Z.to_nat (8192 - 512))
  ++ block t0 ++ block t1 ++ block t2 ++ block t3
  ++ repeat 0 (Z.to_nat (100 * 4096 - 0xA000)) ++ repeat 170 (Z.to_nat 16384)
  ++ repeat 0 (Z.to_nat (200 * 4096 - 100 * 4096 - 16384)) ++ repeat 187 (Z.to_nat 16384).

Definition dump_handle_initial (compact : Z) : dump_handle :=
  mk_dump_handle 0 0 0 [0; 0; 0; 0] 0 0 0 0 0 0 compact 0 0 0.

(** The largest file of the example file system: 16 TiB. *)
Definition example_size_limit : Z := 2 ^ 44.

(** The world when [main] has opened the source and is about to read
    the volume header. *)
Definition world_at_start (source : list Z) (compact : Z) : dump_world :=
  mk_world (dump_handle_initial compact) source 0 [] 0 crc32_statics_initial
           example_size_limit.

(** A small world past [dump_handle_read_volume_header]: block size 512,
    metadata copies of 512 bytes at blocks 1 to 4. *)
Definition small_world (t0 t1 t2 t3 : Z) : dump_world :=
  let block t := example_metadata_block 512 t 0xffffffff 256 4 100 200 in
  mk_world
    (mk_dump_handle (1000 * 512) 512 512 [512; 1024; 1536; 2048] 0 0 0 0 0 0 1 0 0 0)
    (repeat 0 (Z.to_nat 512) ++ block t0 ++ block t1 ++ block t2 ++ block t3)
    0 [] 0 crc32_statics_initial example_size_limit.

(* ================================================================= *)
(** ** Block lookups *)

(** Block [b] lies in the physical interval of the extent. *)
Definition contains_physical (b : Z) (e : fvdecheck_extent) : bool :=
  (physical_block_start e <=? b)
  && (b <? physical_block_start e + physical_block_count e).

(** Block [b] lies in the logical interval of the extent, whose length
    is the physical count. *)
Definition contains_logical (b : Z) (e : fvdecheck_extent) : bool :=
  (logical_block_start e <=? b)
  && (b <? logical_block_start e + physical_block_count e).

(** The physical interval ends within the 64-bit block space. *)
Definition physical_end_fits (e : fvdecheck_extent) : Prop :=
  physical_block_start e + physical_block_count e < 2 ^ 64.

Definition logical_end_fits (e : fvdecheck_extent) : Prop :=
  logical_block_start e + physical_block_count e < 2 ^ 64.

(* ================================================================= *)
(** ** Counting *)

(** The store invariant together with the extent counter: the counter is
    the 64-bit count of the nodes of the physical lists. *)
Definition counted_store (st : fvdecheck_volume_state) : Prop :=
  store_inv st /\
  total_extents st = wrap64 (Z.of_nat (length (all_extents st))).

(* ================================================================= *)
(** ** The walker as a sequence of store operations *)

(** The calls of the first loop of [check_handle_open], for physical
    volumes numbered from [index]. *)
Fixpoint open_physical_ops (index : Z) (pvs : list libfvde_physical_volume)
    : list store_op :=
  match pvs with
  | [] => []
  | pv :: rest =>
      AddPhysicalVolume (pvol_identifier pv) (pvol_size pv / 4096)
      :: MarkReserved index 0 1 (Some "Volume header"%string)
      :: open_physical_ops (index + 1) rest
  end.

Definition open_logical_ops (lvs : list libfvde_logical_volume) : list store_op :=
  map (fun lv => AddLogicalVolume (lvol_identifier lv) (lvol_size lv / 4096)) lvs.

Definition encrypted_metadata_ops (offset size : Z) (description : string)
    : list store_op :=
  if (0 <? offset) && (0 <? size)
  then [MarkReserved 0 (offset / 4096) (size / 4096) (Some description)]
  else [].

Definition metadata_ops (v : opened_volume) : list store_op :=
  match ov_volume_header v with
  | None => []
  | Some volume_header =>
      map (fun metadata_index =>
             MarkReserved 0
               (nth metadata_index (vh_metadata_offsets volume_header) 0 / 4096)
               (vh_metadata_size volume_header / 4096)
               (nth_error metadata_descriptions metadata_index))
          (seq 0 4)
      ++ match ov_metadata v with
         | None => []
         | Some metadata =>
             encrypted_metadata_ops (md_encrypted_metadata1_offset metadata)
               (md_encrypted_metadata_size metadata) "Encrypted metadata 1"
             ++ encrypted_metadata_ops (md_encrypted_metadata2_offset metadata)
                  (md_encrypted_metadata_size metadata) "Encrypted metadata 2"
         end
  end.

Definition segment_op (logical_volume_index : Z)
    (segment_descriptor : option libfvde_segment_descriptor) : list store_op :=
  match segment_descriptor with
  | None => []
  | Some sd =>
      [MarkAllocated (wrap32 (sd_physical_volume_index sd))
         (sd_physical_block_number sd) (sd_number_of_blocks sd)
         (wrap32 logical_volume_index) (sd_logical_block_number sd) 0 0 0x0305]
  end.

Fixpoint segment_ops (index : Z) (lvs : list libfvde_logical_volume) : list store_op :=
  match lvs with
  | [] => []
  | lv :: rest =>
      flat_map (segment_op index) (lvol_segment_descriptors lv)
      ++ segment_ops (index + 1) rest
  end.

Definition walker_ops (v : opened_volume) : list store_op :=
  open_physical_ops 0 (ov_physical_volumes v)
  ++ open_logical_ops (ov_logical_volumes v)
  ++ metadata_ops v
  ++ segment_ops 0 (ov_logical_volumes v).

(** What libfvde hands out has values of the C types of its accessors. *)
Definition segment_well_typed (sd : option libfvde_segment_descriptor) : Prop :=
  match sd with
  | None => True
  | Some sd =>
      is_u64 (sd_physical_block_number sd) /\ is_u64 (sd_number_of_blocks sd) /\
      is_u64 (sd_logical_block_number sd)
  end.

Definition volume_well_typed (v : opened_volume) : Prop :=
  Z.of_nat (length (ov_physical_volumes v)) < 2 ^ 31 /\
  Z.of_nat (length (ov_logical_volumes v)) < 2 ^ 31 /\
  Forall (fun pv => is_u64 (pvol_size pv)) (ov_physical_volumes v) /\
  Forall (fun lv => is_u64 (lvol_size lv) /\
                    Forall segment_well_typed (lvol_segment_descriptors lv))
         (ov_logical_volumes v) /\
  (forall h, ov_volume_header v = Some h ->
     is_u64 (vh_metadata_size h) /\ Forall is_u64 (vh_metadata_offsets h)) /\
  (forall m, ov_metadata v = Some m ->
     is_u64 (md_encrypted_metadata1_offset m) /\
     is_u64 (md_encrypted_metadata2_offset m) /\
     is_u64 (md_encrypted_metadata_size m)).

(** [m], started in a state that satisfies [P], succeeds only by doing
    what the operations [ops] do, and then leaves a state that satisfies
    [Q]. *)
Definition performs (P : fvdecheck_volume_state -> Prop) (m : M unit)
    (ops : list store_op) (Q : fvdecheck_volume_state -> Prop) : Prop :=
  forall st st', P st -> m st = (Ok tt, st') ->
    run_ops ops st = (Ok tt, st') /\ Q st'.

(** The block size is the 4096 of [volume_state_initialize]. *)
Definition default_block_size (st : fvdecheck_volume_state) : Prop :=
  block_size st = 4096.

(** The extents the segment descriptors of logical volume [l] describe,
    in descriptor order. *)
Definition segment_extents (l : Z) (lv : libfvde_logical_volume) : list fvdecheck_extent :=
  flat_map (fun segment_descriptor =>
              match segment_descriptor with
              | None => []
              | Some sd =>
                  [allocated_extent (wrap32 (sd_physical_volume_index sd))
                     (sd_physical_block_number sd) (sd_number_of_blocks sd)
                     l (sd_logical_block_number sd) 0 0 0x0305]
              end)
           (lvol_segment_descriptors lv).

(* ================================================================= *)
(** ** The store after [check_handle_open] *)

(** The body of the physical-volume loop of [check_handle_open]. *)
Definition open_physical_volume (physical_volume : libfvde_physical_volume) : M unit :=
  let* bs := gets block_size in
  let* pv_index :=
    on_error RUNTIME_ERROR_APPEND_FAILED
      (fvdecheck_volume_state_add_physical_volume
         (pvol_identifier physical_volume) (pvol_size physical_volume / bs)) in
  on_error RUNTIME_ERROR_SET_FAILED
    (fvdecheck_volume_state_mark_reserved pv_index 0 1 (Some "Volume header"%string)).

(** The body of its logical-volume loop. *)
Definition open_logical_volume (logical_volume : libfvde_logical_volume) : M unit :=
  let* bs := gets block_size in
  let* lv_index :=
    on_error RUNTIME_ERROR_APPEND_FAILED
      (fvdecheck_volume_state_add_logical_volume
         (lvol_identifier logical_volume) (lvol_size logical_volume / bs)) in
  ret tt.

(** The slot of a physical volume once it is opened: its header block is
    reserved and nothing else is known. *)
Definition opened_physical_slot (index : Z) (pv : libfvde_physical_volume)
    : fvdecheck_physical_volume_info :=
  mk_pv (firstn 16 (pvol_identifier pv)) (pvol_size pv / 4096)
        [reserved_extent index 0 1 (Some "Volume header"%string)] 0 0 0.

Definition opened_logical_slot (lv : libfvde_logical_volume)
    : fvdecheck_logical_volume_info :=
  mk_lv (firstn 16 (lvol_identifier lv)) (lvol_size lv / 4096) [] 0 0.

(** The slots [first, first + length new) of [slots] are replaced by
    [new]. *)
Definition slots_from {A} (first : nat) (new slots : list A) : list A :=
  firstn first slots ++ new ++ skipn (first + length new) slots.

(* ================================================================= *)
(** ** The CRC bit by bit *)

(** The checksum computed one bit at a time, without a table: each byte
    is folded into the low end of the register, which then goes through
    eight rounds of the [bit_iterator] loop. *)
Definition bitwise_crc32 (polynomial : Z) (bs : list Z) (iv : Z) : Z :=
  fold_left
    (fun checksum b => Nat.iter 8 (crc32_bit_round polynomial) (Z.lxor checksum b))
    bs iv.

(* ================================================================= *)
(** ** Corrected headers and metadata blocks *)

(** The buffer after the slot loop of
    [dump_handle_write_corrected_volume_header], before the checksum. *)
Definition volume_header_with_slots (block_size metadata_size : Z)
    (volume_header_data : list Z) : list Z :=
  let blocks := wrap32 (metadata_size + block_size - 1) / block_size in
  fold_left
    (fun data metadata_index =>
       byte_stream_copy_from_uint64_little_endian data (104 + metadata_index * 8)
         (wrap64 (1 + metadata_index * blocks)))
    [0; 1; 2; 3] volume_header_data.

(** The stored checksum of a volume header is the weak CRC-32 of its
    bytes 8..511 started from the initial value stored in bytes 4..7. *)
Definition volume_header_checksum_valid (volume_header_data : list Z) : Prop :=
  byte_stream_copy_to_uint32_little_endian volume_header_data 0
  = spec_weak_crc32 (get_bytes 8 504 volume_header_data)
      (byte_stream_copy_to_uint32_little_endian volume_header_data 4).


(* ================================================================= *)
(** ** What a dump writes *)

(** The writes of a region copy: [data] goes out in pieces of at most
    [copy_buffer_size] bytes, each where the previous one ended. *)
Fixpoint chunk_writes (chunks : nat) (offset : Z) (data : list Z) : list destination_op :=
  match chunks with
  | O => []
  | S chunks' =>
      match data with
      | [] => []
      | _ =>
          Write offset (firstn (Z.to_nat copy_buffer_size) data)
          :: chunk_writes chunks' (offset + Z.of_nat (length (firstn (Z.to_nat copy_buffer_size) data)))
               (skipn (Z.to_nat copy_buffer_size) data)
      end
  end.

(** The two handles agree on everything but the byte counter. *)
Definition same_settings (h h' : dump_handle) : Prop :=
  set_bytes_copied 0 h = set_bytes_copied 0 h'.

(** From [w] to [w'] the destination received [writes], the byte counter
    advanced by [n], and the source, the settings of the handle and the
    usability of the CRC table are as before. *)
Definition advanced (w w' : dump_world) (writes : list destination_op) (n : Z) : Prop :=
  w_source w' = w_source w /\
  same_settings (w_handle w) (w_handle w') /\
  (crc32_statics_reachable (w_crc32 w) -> crc32_statics_reachable (w_crc32 w')) /\
  wrap64 (dh_bytes_copied (w_handle w')) = wrap64 (dh_bytes_copied (w_handle w) + n) /\
  w_destination w' = w_destination w ++ writes.

(** The region [[offset, offset + size)] lies within the source. *)
Definition region_in_source (w : dump_world) (offset size : Z) : Prop :=
  0 <= offset /\ 0 <= size /\ offset + size <= Z.of_nat (length (w_source w)).

(** A world whose source holds the bytes 0..199 repeated, with an empty
    destination. *)
Definition counting_world : dump_world :=
  mk_world (mk_dump_handle 0 0 0 [] 0 0 0 0 0 0 0 0 0 0)
           (map (fun i => Z.of_nat i mod 200) (seq 0 1000)) 0 [] 0 crc32_statics_initial
           example_size_limit.

(* ================================================================= *)
(** ** The compact image *)

(** The offsets the compact dump records for the encrypted metadata. *)
Definition compact_encrypted_metadata1_offset (h : dump_handle) : Z :=
  wrap32 (dh_block_size h + wrap32 (4 * dh_metadata_size h)).

Definition compact_encrypted_metadata2_offset (h : dump_handle) : Z :=
  wrap64 (compact_encrypted_metadata1_offset h + dh_encrypted_metadata_size h).

(** The corrected volume header of the source. *)
Definition corrected_header (h : dump_handle) (source : list Z) : list Z :=
  fst (correct_volume_header (dh_block_size h) (dh_metadata_size h)
         (get_bytes 0 512 source) crc32_statics_built).

(** The corrected metadata copy [metadata_index] of the source. *)
Definition corrected_copy (h : dump_handle) (source : list Z) (metadata_index : Z)
    : list Z :=
  fst (correct_metadata_block (dh_block_size h) (dh_metadata_size h)
         (compact_encrypted_metadata1_offset h) (compact_encrypted_metadata2_offset h)
         (get_bytes (nth (Z.to_nat metadata_index) (dh_metadata_offsets h) 0)
            (dh_metadata_size h) source)
         crc32_statics_built).

(** The encrypted metadata region at [offset], absent when the offset
    is 0. *)
Definition encrypted_region (h : dump_handle) (source : list Z) (offset : Z) : list Z :=
  if offset =? 0 then []
  else get_bytes offset (dh_encrypted_metadata_size h) source.

Fixpoint compact_metadata_writes (h : dump_handle) (source : list Z)
    (indices : list Z) (current_offset : Z) : list destination_op :=
  match indices with
  | [] => []
  | metadata_index :: rest =>
      Write current_offset (corrected_copy h source metadata_index)
      :: compact_metadata_writes h source rest (current_offset + dh_metadata_size h)
  end.

Definition compact_encrypted_writes (h : dump_handle) (source : list Z)
    (offset current_offset : Z) : list destination_op :=
  if offset =? 0 then []
  else chunk_writes (S (Z.to_nat (dh_encrypted_metadata_size h / copy_buffer_size)))
         current_offset (get_bytes offset (dh_encrypted_metadata_size h) source).

(** Everything the compact dump reads lies within the source, which is a
    file of less than 2^61 bytes; no abort is requested. *)
Definition compact_ready (h : dump_handle) (source : list Z) : Prop :=
  dh_compact h <> 0 /\ dh_abort h = 0 /\
  is_u32 (dh_block_size h) /\ is_u32 (dh_metadata_size h) /\
  Z.of_nat (length source) < 2 ^ 61 /\ 512 <= Z.of_nat (length source) /\
  (forall i, In i [0; 1; 2; 3] ->
     0 <= nth (Z.to_nat i) (dh_metadata_offsets h) 0 /\
     nth (Z.to_nat i) (dh_metadata_offsets h) 0 + dh_metadata_size h
     <= Z.of_nat (length source)) /\
  0 <= dh_encrypted_metadata_size h /\
  (dh_encrypted_metadata1_offset h <> 0 ->
     0 <= dh_encrypted_metadata1_offset h /\
     dh_encrypted_metadata1_offset h + dh_encrypted_metadata_size h
     <= Z.of_nat (length source)) /\
  (dh_encrypted_metadata2_offset h <> 0 ->
     0 <= dh_encrypted_metadata2_offset h /\
     dh_encrypted_metadata2_offset h + dh_encrypted_metadata_size h
     <= Z.of_nat (length source)).


(** The compact image: the corrected header, zeros up to the first block
    boundary, the four corrected metadata copies, the encrypted metadata
    regions that exist. *)
Definition compact_image (h : dump_handle) (source : list Z) : list Z :=
  corrected_header h source
  ++ repeat 0 (Z.to_nat (dh_block_size h - 512))
  ++ corrected_copy h source 0 ++ corrected_copy h source 1
  ++ corrected_copy h source 2 ++ corrected_copy h source 3
  ++ encrypted_region h source (dh_encrypted_metadata1_offset h)
  ++ encrypted_region h source (dh_encrypted_metadata2_offset h).

(** A volume header with block size 512, metadata size 8192 and the
    metadata copies at blocks 1, 17, 33 and 49. *)
Definition small_volume_header : list Z :=
  let b0 := repeat 0 (Z.to_nat 512) in
  let b1 := byte_stream_copy_from_uint32_little_endian b0 4 0xffffffff in
  let b2 := byte_stream_copy_from_uint64_little_endian b1 72 (67 * 512) in
  let b3 := put_bytes 88 [67; 83] b2 in
  let b4 := byte_stream_copy_from_uint32_little_endian b3 96 512 in
  let b5 := byte_stream_copy_from_uint32_little_endian b4 100 8192 in
  let b6 := byte_stream_copy_from_uint64_little_endian b5 104 1 in
  let b7 := byte_stream_copy_from_uint64_little_endian b6 112 17 in
  let b8 := byte_stream_copy_from_uint64_little_endian b7 120 33 in
  byte_stream_copy_from_uint64_little_endian b8 128 49.

(** A small world ready for the dump: block size 512, metadata copies
    of 8192 bytes at blocks 1, 17, 33 and 49, encrypted metadata of one
    block at blocks 65 and 66. *)
Definition small_dump_world (compact : Z) : dump_world :=
  let block t := example_metadata_block 8192 t 0xffffffff 256 1 65 66 in
  mk_world
    (mk_dump_handle (67 * 512) 512 8192 [512; 8704; 16896; 25088] 33280 33792 512
       0 0 0 compact 0 0 0)
    (small_volume_header ++ block 5 ++ block 9 ++ block 9 ++ block 3
     ++ repeat 170 (Z.to_nat 512) ++ repeat 187 (Z.to_nat 512))
    0 [] 0 crc32_statics_initial example_size_limit.

(** The small world with a header that announces a physical volume of
    2^60 bytes, more than the file system holds. *)
Definition oversize_dump_world : dump_world :=
  let w := small_dump_world 0 in
  set_handle
    (set_volume_header_fields (2 ^ 60) (dh_block_size (w_handle w))
       (dh_metadata_size (w_handle w)) (dh_metadata_offsets (w_handle w)) (w_handle w))
    w.

(* ================================================================= *)
(** ** Reading a volume header *)

(** The handle after [dump_handle_read_volume_header] has decoded the
    512 bytes [header]. *)
Definition handle_with_header (header : list Z) (h : dump_handle) : dump_handle :=
  let block_size := byte_stream_copy_to_uint32_little_endian header 96 in
  set_volume_header_fields
    (byte_stream_copy_to_uint64_little_endian header 72)
    block_size
    (byte_stream_copy_to_uint32_little_endian header 100)
    (map (fun metadata_block_index =>
            wrap64 (byte_stream_copy_to_uint64_little_endian header
                      (104 + metadata_block_index * 8) * block_size))
         [0; 1; 2; 3])
    h.

(** The header carries the two bytes "CS" at offset 88. *)
Definition has_signature (header : list Z) : Prop :=
  nth 88 header 0 = 67 /\ nth 89 header 0 = 83.

(* ================================================================= *)
(** ** The sparse image *)

(** The regions the sparse dump copies, as (offset, size), in the order
    of the copies. *)
Definition sparse_regions (h : dump_handle) : list (Z * Z) :=
  [(0, 512)]
  ++ map (fun metadata_index =>
            (nth (Z.to_nat metadata_index) (dh_metadata_offsets h) 0, dh_metadata_size h))
         [0; 1; 2; 3]
  ++ (if dh_encrypted_metadata1_offset h =? 0 then []
      else [(dh_encrypted_metadata1_offset h, dh_encrypted_metadata_size h)])
  ++ (if dh_encrypted_metadata2_offset h =? 0 then []
      else [(dh_encrypted_metadata2_offset h, dh_encrypted_metadata_size h)]).

(** The writes of the copy of one region onto itself. *)
Definition region_writes (source : list Z) (region : Z * Z) : list destination_op :=
  chunk_writes (S (Z.to_nat (snd region / copy_buffer_size))) (fst region)
    (get_bytes (fst region) (snd region) source).

(** Every region lies within the source and within the physical volume
    size, which is a size the file system of the destination accepts
    ([limit] is its largest); no abort is requested. *)
Definition sparse_ready (h : dump_handle) (source : list Z) (limit : Z) : Prop :=
  dh_compact h = 0 /\ dh_abort h = 0 /\
  0 <= dh_physical_volume_size h < 2 ^ 63 /\
  dh_physical_volume_size h <= limit /\
  Z.of_nat (length source) < 2 ^ 63 /\
  forall region, In region (sparse_regions h) ->
    0 <= fst region /\ 0 <= snd region /\
    fst region + snd region <= Z.of_nat (length source) /\
    fst region + snd region <= dh_physical_volume_size h.

(** Position [p] lies in one of the regions. *)
Definition covered (regions : list (Z * Z)) (p : nat) : bool :=
  existsb (fun region =>
             (fst region <=? Z.of_nat p) && (Z.of_nat p <? fst region + snd region))
          regions.

(** Copies the source bytes of [region] in place onto [file]. *)
Definition overlay (source : list Z) (file : list Z) (region : Z * Z) : list Z :=
  put_bytes (fst region) (get_bytes (fst region) (snd region) source) file.

(* ================================================================= *)
(** ** UUID strings *)

Definition hex_characters : list ascii :=
  ["0"; "1"; "2"; "3"; "4"; "5"; "6"; "7"; "8"; "9"; "a"; "b"; "c"; "d"; "e"; "f"]%char.

(** The value of a lower-case hexadecimal digit. *)
Definition hex_value (c : ascii) : Z :=
  let n := Z.of_nat (nat_of_ascii c) in
  if n <? 58 then n - 48 else n - 87.

(** The bytes a string of hexadecimal digit pairs denotes. *)
Fixpoint hex_decode (s : string) : list Z :=
  match s with
  | String c1 (String c2 rest) => 16 * hex_value c1 + hex_value c2 :: hex_decode rest
  | _ => []
  end.

(** The 16 bytes of a UUID string of the form 8-4-4-4-12. *)
Definition uuid_string_bytes (s : string) : list Z :=
  hex_decode (substring 0 8 s ++ substring 9 4 s ++ substring 14 4 s
              ++ substring 19 4 s ++ substring 24 12 s)%string.


(* ================================================================= *)
(** ** Block numbers through sectors and back *)

Definition block_round_trip (block block_size : Z) : Z :=
  fvdecheck_linux_sector_to_fvde_block
    (fvdecheck_fvde_block_to_linux_sector block block_size) block_size.

(* ================================================================= *)
(** ** Decimal numerals *)

Definition is_digit (d : Z) : Prop := 0 <= d <= 9.

Definition digit_char (d : Z) : ascii := ascii_of_nat (Z.to_nat (48 + d)).

(** The numeral with the digits [ds], most significant first. *)
Fixpoint digit_string (ds : list Z) : string :=
  match ds with
  | [] => EmptyString
  | d :: ds' => String (digit_char d) (digit_string ds')
  end.

(** The number the digits [ds] denote after the digits of [high]. *)
Definition decimal_from (high : Z) (ds : list Z) : Z :=
  fold_left (fun acc d => 10 * acc + d) ds high.

Definition decimal_value (ds : list Z) : Z := decimal_from 0 ds.

(** The digits of 2^64. *)
Definition digits_of_2_64 : list Z :=
  [1; 8; 4; 4; 6; 7; 4; 4; 0; 7; 3; 7; 0; 9; 5; 5; 1; 6; 1; 6].

(* ================================================================= *)
(** ** Device-mapper tables *)

(** How a dm-crypt table names a key of the kernel keyring:
    [:<key size>:<key type>:<key description>]. *)
Definition keyring_key_reference (type description : string) (payload : list Z) : string :=
  (":" ++ print_uint64 (Z.of_nat (length payload)) ++ ":" ++ type ++ ":" ++ description)%string.

(** A one-line table of the crypt target, starting at sector 0:
    [<start> <size> crypt <cipher> <key> <iv offset> <device> <offset>]. *)
Definition dm_crypt_table (size_in_sectors : Z) (cipher key : string) (iv_offset : Z)
    (device : string) (offset_in_sectors : Z) : string :=
  ("0 " ++ print_uint64 size_in_sectors ++ " crypt " ++ cipher ++ " " ++ key ++ " "
   ++ print_uint64 iv_offset ++ " " ++ device ++ " " ++ print_uint64 offset_in_sectors)%string.

(* ================================================================= *)
(** ** The compact dump of the specification's example *)

(** The checksum of a metadata block as the specification defines it:
    the weak CRC-32 of the bytes from offset 8 to the end of the block,
    started from the initial value stored in bytes 4..7, is the value
    stored in bytes 0..3. *)
Definition metadata_block_checksum_valid (block : list Z) : Prop :=
  byte_stream_copy_to_uint32_little_endian block 0
  = spec_weak_crc32 (get_bytes 8 (Z.of_nat (length block) - 8) block)
      (byte_stream_copy_to_uint32_little_endian block 4).

(** The handle holds the values of the example: block size 4096,
    metadata of 8192 bytes at 0x2000, 0x4000, 0x6000 and 0x8000,
    encrypted metadata of 16384 bytes at blocks 100 and 200. *)
Definition scenario_handle (h : dump_handle) : Prop :=
  dh_block_size h = 4096 /\ dh_metadata_size h = 8192 /\
  dh_encrypted_metadata_size h = 16384 /\
  dh_metadata_offsets h = [0x2000; 0x4000; 0x6000; 0x8000] /\
  dh_encrypted_metadata1_offset h = 100 * 4096 /\
  dh_encrypted_metadata2_offset h = 200 * 4096.

(** The world of the example once [main] has read the volume header and
    the metadata of [example_source], in compact mode; the metadata
    blocks of the source carry [initial_value] in bytes 4..7. *)
Definition scenario_world (initial_value : Z) : dump_world :=
  snd ((dump_handle_read_volume_header >> dump_handle_read_metadata)
         (world_at_start (example_source 5 9 9 3 initial_value) 1)).

(* ################################################################# *)
(** * Properties *)

(* ================================================================= *)
(** ** The monad *)

Lemma for_each_app {S A} (f : A -> SE S unit) (l1 l2 : list A) (st : S) :
  for_each f (l1 ++ l2) st = (for_each f l1 >> for_each f l2) st.
Proof.
  revert st. induction l1 as [|a l1 IH]; intros st; simpl.
  - reflexivity.
  - unfold bind in *. destruct (f a st) as [[[]|e] st1]; [|reflexivity].
    apply IH.
Qed.

Lemma keeps_ret {S A} (I : S -> Prop) (a : A) : keeps I (ret a).
Proof. intros st H. exact H. Qed.

Lemma keeps_raise {S A} (I : S -> Prop) c : keeps I (@raise S A c).
Proof. intros st H. exact H. Qed.

Lemma keeps_gets {S A} (I : S -> Prop) (f : S -> A) : keeps I (gets f).
Proof. intros st H. exact H. Qed.

Lemma keeps_modify {S} (I : S -> Prop) (f : S -> S) :
  (forall st, I st -> I (f st)) -> keeps I (modify f).
Proof. intros Hf st H. apply Hf, H. Qed.

Lemma keeps_bind {S A B} (I : S -> Prop) (m : SE S A) (k : A -> SE S B) :
  keeps I m -> (forall a, keeps I (k a)) -> keeps I (bind m k).
Proof.
  intros Hm Hk st H. unfold bind. specialize (Hm st H).
  destruct (m st) as [[a|e] st1]; simpl in *.
  - apply Hk, Hm.
  - exact Hm.
Qed.

Lemma keeps_on_error {S A} (I : S -> Prop) c (m : SE S A) :
  keeps I m -> keeps I (on_error c m).
Proof.
  intros Hm st H. unfold on_error. specialize (Hm st H).
  destruct (m st) as [[a|e] st1]; exact Hm.
Qed.

Lemma keeps_for_each {S A} (I : S -> Prop) (f : A -> SE S unit) (l : list A) :
  (forall a, keeps I (f a)) -> keeps I (for_each f l).
Proof.
  intros Hf. induction l as [|a l IH]; simpl.
  - apply keeps_ret.
  - apply keeps_bind; [apply Hf | intros _; exact IH].
Qed.

Lemma keeps_for_each_indexed {S A} (I : S -> Prop) (f : Z -> A -> SE S unit)
    (i : Z) (l : list A) :
  (forall j a, keeps I (f j a)) -> keeps I (for_each_indexed f i l).
Proof.
  intros Hf. revert i. induction l as [|a l IH]; intros i; simpl.
  - apply keeps_ret.
  - apply keeps_bind; [apply Hf | intros _; apply IH].
Qed.

(* ================================================================= *)
(** ** Sorted insertion *)

Section InsertExtent.

Variable key : fvdecheck_extent -> Z.

Lemma insert_extent_perm e l : Permutation (insert_extent key e l) (e :: l).
Proof.
  induction l as [|c l IH]; simpl.
  - reflexivity.
  - destruct (key e <? key c).
    + reflexivity.
    + rewrite IH. apply perm_swap.
Qed.

Lemma insert_extent_in e l x : In x (insert_extent key e l) <-> x = e \/ In x l.
Proof.
  split; intros H.
  - apply (Permutation_in _ (insert_extent_perm e l)) in H. simpl in H.
    destruct H; auto.
  - apply (Permutation_in _ (Permutation_sym (insert_extent_perm e l))).
    simpl. destruct H; auto.
Qed.

Lemma insert_extent_ascending e l : ascending key l -> ascending key (insert_extent key e l).
Proof.
  unfold ascending. induction l as [|c l IH]; intros Hs; simpl.
  - constructor; constructor.
  - destruct (Z.ltb_spec (key e) (key c)) as [Hlt|Hge].
    + constructor; [exact Hs|].
      inversion Hs as [|? ? _ Hall]; subst.
      constructor; [unfold key_le; lia|].
      eapply List.Forall_impl; [|exact Hall]. unfold key_le. intros; lia.
    + inversion Hs as [|? ? Hs' Hall]; subst.
      constructor; [apply IH, Hs'|].
      rewrite List.Forall_forall. intros x Hx. apply insert_extent_in in Hx.
      destruct Hx as [->|Hx]; [unfold key_le; lia|].
      rewrite List.Forall_forall in Hall. apply Hall, Hx.
Qed.

Lemma with_key_above k l :
  Forall (fun x => k < key x) l -> with_key key k l = [].
Proof.
  unfold with_key. induction 1 as [|x l Hx _ IH]; simpl.
  - reflexivity.
  - destruct (Z.eqb_spec (key x) k); [lia | exact IH].
Qed.

(** Stability: among equal keys the new extent comes last. *)
Lemma insert_extent_with_key e l k :
  ascending key l ->
  with_key key k (insert_extent key e l)
  = with_key key k l ++ (if key e =? k then [e] else []).
Proof.
  unfold ascending. induction l as [|c l IH]; intros Hs; simpl.
  - unfold with_key. simpl. destruct (key e =? k); reflexivity.
  - inversion Hs as [|? ? Hs' Hall]; subst.
    destruct (Z.ltb_spec (key e) (key c)) as [Hlt|Hge].
    + destruct (Z.eqb_spec (key e) k) as [Hk|Hk].
      * assert (Hnone : with_key key k (c :: l) = []).
        { apply with_key_above. constructor; [lia|].
          eapply List.Forall_impl; [|exact Hall]. unfold key_le. intros; lia. }
        unfold with_key in *. simpl in *.
        destruct (Z.eqb_spec (key e) k); [|lia].
        rewrite Hnone. reflexivity.
      * unfold with_key. simpl.
        destruct (Z.eqb_spec (key e) k); [lia|].
        rewrite app_nil_r. reflexivity.
    + unfold with_key in *. simpl. rewrite (IH Hs').
      destruct (key c =? k); reflexivity.
Qed.

End InsertExtent.

Lemma with_key_app key k l1 l2 :
  with_key key k (l1 ++ l2) = with_key key k l1 ++ with_key key k l2.
Proof. unfold with_key. apply List.filter_app. Qed.

Lemma insert_all_snoc key h e :
  insert_all key (h ++ [e]) = insert_extent key e (insert_all key h).
Proof. unfold insert_all. rewrite fold_left_app. reflexivity. Qed.

Lemma insert_all_ascending key h : ascending key (insert_all key h).
Proof.
  induction h as [|e h IH] using rev_ind.
  - constructor.
  - rewrite insert_all_snoc. apply insert_extent_ascending, IH.
Qed.

Lemma insert_all_stable key h : stable_order key (insert_all key h) h.
Proof.
  split; [apply insert_all_ascending|].
  intros k. induction h as [|e h IH] using rev_ind.
  - reflexivity.
  - rewrite insert_all_snoc, insert_extent_with_key by apply insert_all_ascending.
    rewrite IH, with_key_app. unfold with_key at 3. simpl.
    destruct (key e =? k); reflexivity.
Qed.

(* ================================================================= *)
(** ** The store after one operation *)

Lemma pv_extents_insert_physical st p e q :
  0 <= p < num_physical_volumes st -> (Z.to_nat p < length (physical_volumes st))%nat ->
  0 <= q ->
  pv_extents (fvdecheck_insert_extent_physical p e st) q
  = if q =? p then insert_extent physical_block_start e (pv_extents st p)
    else pv_extents st q.
Proof.
  intros Hp Hlen Hq. unfold fvdecheck_insert_extent_physical, pv_extents.
  destruct (Z.leb_spec (num_physical_volumes st) p); [lia|].
  destruct (lookup_lt_is_Some_2 _ _ Hlen) as [pv Hpv]. rewrite Hpv. simpl.
  destruct (Z.eqb_spec q p) as [->|Hne].
  - rewrite list_lookup_insert_eq by exact Hlen. reflexivity.
  - rewrite list_lookup_insert_ne by lia. reflexivity.
Qed.

Lemma lv_extents_insert_logical st l e q :
  0 <= l < num_logical_volumes st -> (Z.to_nat l < length (logical_volumes st))%nat ->
  0 <= q ->
  lv_extents (fvdecheck_insert_extent_logical l e st) q
  = if q =? l then insert_extent logical_block_start e (lv_extents st l)
    else lv_extents st q.
Proof.
  intros Hl Hlen Hq. unfold fvdecheck_insert_extent_logical, lv_extents.
  destruct (Z.leb_spec (num_logical_volumes st) l); [lia|].
  destruct (lookup_lt_is_Some_2 _ _ Hlen) as [lv Hlv]. rewrite Hlv. simpl.
  destruct (Z.eqb_spec q l) as [->|Hne].
  - rewrite list_lookup_insert_eq by exact Hlen. reflexivity.
  - rewrite list_lookup_insert_ne by lia. reflexivity.
Qed.

Lemma insert_physical_frame st p e :
  num_physical_volumes (fvdecheck_insert_extent_physical p e st) = num_physical_volumes st
  /\ length (physical_volumes (fvdecheck_insert_extent_physical p e st))
     = length (physical_volumes st)
  /\ num_logical_volumes (fvdecheck_insert_extent_physical p e st) = num_logical_volumes st
  /\ logical_volumes (fvdecheck_insert_extent_physical p e st) = logical_volumes st.
Proof.
  unfold fvdecheck_insert_extent_physical.
  destruct (num_physical_volumes st <=? p); [auto|].
  destruct (physical_volumes st !! Z.to_nat p); [|auto].
  simpl. rewrite length_insert. auto.
Qed.

Lemma insert_logical_frame st l e :
  num_physical_volumes (fvdecheck_insert_extent_logical l e st) = num_physical_volumes st
  /\ physical_volumes (fvdecheck_insert_extent_logical l e st) = physical_volumes st
  /\ num_logical_volumes (fvdecheck_insert_extent_logical l e st) = num_logical_volumes st
  /\ length (logical_volumes (fvdecheck_insert_extent_logical l e st))
     = length (logical_volumes st).
Proof.
  unfold fvdecheck_insert_extent_logical.
  destruct (num_logical_volumes st <=? l); [auto|].
  destruct (logical_volumes st !! Z.to_nat l); [|auto].
  simpl. rewrite length_insert. auto.
Qed.

Lemma marked_on_pv_snoc p ops op :
  marked_on_pv p (ops ++ [op])
  = marked_on_pv p ops
    ++ match extent_of_op op with
       | Some e => if physical_volume_index e =? p then [e] else []
       | None => []
       end.
Proof. unfold marked_on_pv. rewrite flat_map_app. simpl. rewrite app_nil_r. reflexivity. Qed.

Lemma marked_on_lv_snoc l ops op :
  marked_on_lv l (ops ++ [op])
  = marked_on_lv l ops
    ++ match op with
       | MarkAllocated p s c l' ls t m b =>
           if l' =? l then [allocated_extent p s c l' ls t m b] else []
       | _ => []
       end.
Proof. unfold marked_on_lv. rewrite flat_map_app. simpl. rewrite app_nil_r. reflexivity. Qed.

Lemma store_follows_initial : store_follows [] fvdecheck_volume_state_initialize.
Proof.
  unfold store_follows, arrays_ok. simpl. repeat split; try lia; try reflexivity.
Qed.

Ltac store_frame :=
  repeat match goal with
  | |- context [num_physical_volumes (increment_total_extents ?s)] =>
      change (num_physical_volumes (increment_total_extents s)) with (num_physical_volumes s)
  | |- context [num_logical_volumes (increment_total_extents ?s)] =>
      change (num_logical_volumes (increment_total_extents s)) with (num_logical_volumes s)
  | |- context [physical_volumes (increment_total_extents ?s)] =>
      change (physical_volumes (increment_total_extents s)) with (physical_volumes s)
  | |- context [logical_volumes (increment_total_extents ?s)] =>
      change (logical_volumes (increment_total_extents s)) with (logical_volumes s)
  | |- context [pv_extents (increment_total_extents ?s) ?p] =>
      change (pv_extents (increment_total_extents s) p) with (pv_extents s p)
  | |- context [lv_extents (increment_total_extents ?s) ?p] =>
      change (lv_extents (increment_total_extents s) p) with (lv_extents s p)
  end.

Lemma store_follows_mark_physical ops st op p e :
  store_follows ops st ->
  extent_of_op op = Some e -> physical_volume_index e = p ->
  marked_on_lv 0 [op] = [] -> (forall l, marked_on_lv l [op] = []) ->
  0 <= p < num_physical_volumes st ->
  store_follows (ops ++ [op])
    (increment_total_extents (fvdecheck_insert_extent_physical p e st)).
Proof.
  intros (Harr & Hpv & Hpv0 & Hlv & Hlv0) He Hidx _ Hnolv Hp.
  destruct Harr as (Hn & Hlen & Hm & Hlenl).
  destruct (insert_physical_frame st p e) as (F1 & F2 & F3 & F4).
  assert (Hlv_same : forall l, marked_on_lv l (ops ++ [op]) = marked_on_lv l ops).
  { intros l. unfold marked_on_lv in *. rewrite flat_map_app, (Hnolv l), app_nil_r.
    reflexivity. }
  unfold store_follows, arrays_ok. store_frame.
  rewrite F1, F2, F3, F4. repeat split; try lia; try assumption.
  - intros q Hq. store_frame. rewrite pv_extents_insert_physical by lia.
    rewrite marked_on_pv_snoc, He, Hidx.
    destruct (Z.eqb_spec q p) as [->|Hne].
    + rewrite Z.eqb_refl, insert_all_snoc, Hpv by lia. reflexivity.
    + destruct (Z.eqb_spec p q); [lia|]. rewrite app_nil_r. apply Hpv. lia.
  - intros q Hq. rewrite marked_on_pv_snoc, He, Hidx.
    destruct (Z.eqb_spec p q); [lia|]. rewrite app_nil_r. apply Hpv0, Hq.
  - intros l Hl. store_frame. rewrite Hlv_same. unfold lv_extents. rewrite F4.
    apply Hlv, Hl.
  - intros l Hl. rewrite Hlv_same. apply Hlv0, Hl.
Qed.

Lemma store_follows_mark_allocated ops st p s c l ls t m b :
  store_follows ops st ->
  0 <= p < num_physical_volumes st -> 0 <= l < num_logical_volumes st ->
  let e := allocated_extent p s c l ls t m b in
  store_follows (ops ++ [MarkAllocated p s c l ls t m b])
    (increment_total_extents
       (fvdecheck_insert_extent_logical l e (fvdecheck_insert_extent_physical p e st))).
Proof.
  intros (Harr & Hpv & Hpv0 & Hlv & Hlv0) Hp Hl e.
  destruct Harr as (Hn & Hlen & Hm & Hlenl).
  set (st1 := fvdecheck_insert_extent_physical p e st).
  destruct (insert_physical_frame st p e) as (F1 & F2 & F3 & F4). fold st1 in F1, F2, F3, F4.
  destruct (insert_logical_frame st1 l e) as (G1 & G2 & G3 & G4).
  unfold store_follows, arrays_ok. store_frame.
  rewrite G1, G2, G3, G4, F1, F2, F3, F4. repeat split; try lia; try assumption.
  - intros q Hq. store_frame.
    transitivity (pv_extents st1 q); [unfold pv_extents; rewrite G2; reflexivity|].
    unfold st1. rewrite pv_extents_insert_physical by lia.
    rewrite marked_on_pv_snoc. simpl.
    destruct (Z.eqb_spec q p) as [->|Hne].
    + rewrite Z.eqb_refl, insert_all_snoc, Hpv by lia. reflexivity.
    + destruct (Z.eqb_spec p q); [lia|]. rewrite app_nil_r. apply Hpv. lia.
  - intros q Hq. rewrite marked_on_pv_snoc. simpl.
    destruct (Z.eqb_spec p q); [lia|]. rewrite app_nil_r. apply Hpv0, Hq.
  - intros q Hq. store_frame.
    rewrite lv_extents_insert_logical by (rewrite ?F3, ?F4; lia).
    assert (Hsame : forall i, lv_extents st1 i = lv_extents st i).
    { intros i. unfold lv_extents. rewrite F4. reflexivity. }
    rewrite !Hsame, marked_on_lv_snoc.
    destruct (Z.eqb_spec q l) as [->|Hne].
    + rewrite Z.eqb_refl, insert_all_snoc, Hlv by lia. reflexivity.
    + destruct (Z.eqb_spec l q); [lia|]. rewrite app_nil_r. apply Hlv. lia.
  - intros q Hq. rewrite marked_on_lv_snoc.
    destruct (Z.eqb_spec l q); [lia|]. rewrite app_nil_r. apply Hlv0, Hq.
Qed.

Lemma store_follows_add_physical ops st uuid size :
  store_follows ops st -> num_physical_volumes st < 16 ->
  store_follows (ops ++ [AddPhysicalVolume uuid size])
    (set_physical_volumes (num_physical_volumes st + 1)
       (<[ Z.to_nat (num_physical_volumes st) := mk_pv (firstn 16 uuid) size [] 0 0 0 ]>
          (physical_volumes st)) st).
Proof.
  intros (Harr & Hpv & Hpv0 & Hlv & Hlv0) Hlt.
  destruct Harr as (Hn & Hlen & Hm & Hlenl).
  unfold store_follows, arrays_ok. simpl. rewrite length_insert.
  repeat split; try lia; try assumption.
  - intros q Hq. rewrite marked_on_pv_snoc. simpl. rewrite app_nil_r.
    unfold pv_extents. simpl.
    destruct (Z.eq_dec q (num_physical_volumes st)) as [->|Hne].
    + rewrite list_lookup_insert_eq by lia. rewrite Hpv0 by lia. reflexivity.
    + rewrite list_lookup_insert_ne by lia. apply Hpv. lia.
  - intros q Hq. rewrite marked_on_pv_snoc. simpl. rewrite app_nil_r. apply Hpv0. lia.
  - intros q Hq. rewrite marked_on_lv_snoc, app_nil_r. apply Hlv, Hq.
  - intros q Hq. rewrite marked_on_lv_snoc, app_nil_r. apply Hlv0, Hq.
Qed.

Lemma store_follows_add_logical ops st uuid size :
  store_follows ops st -> num_logical_volumes st < 16 ->
  store_follows (ops ++ [AddLogicalVolume uuid size])
    (set_logical_volumes (num_logical_volumes st + 1)
       (<[ Z.to_nat (num_logical_volumes st) := mk_lv (firstn 16 uuid) size [] 0 0 ]>
          (logical_volumes st)) st).
Proof.
  intros (Harr & Hpv & Hpv0 & Hlv & Hlv0) Hlt.
  destruct Harr as (Hn & Hlen & Hm & Hlenl).
  unfold store_follows, arrays_ok. simpl. rewrite length_insert.
  repeat split; try lia; try assumption.
  - intros q Hq. rewrite marked_on_pv_snoc. simpl. rewrite app_nil_r. apply Hpv, Hq.
  - intros q Hq. rewrite marked_on_pv_snoc. simpl. rewrite app_nil_r. apply Hpv0, Hq.
  - intros q Hq. rewrite marked_on_lv_snoc, app_nil_r.
    unfold lv_extents. simpl.
    destruct (Z.eq_dec q (num_logical_volumes st)) as [->|Hne].
    + rewrite list_lookup_insert_eq by lia. rewrite Hlv0 by lia. reflexivity.
    + rewrite list_lookup_insert_ne by lia. apply Hlv. lia.
  - intros q Hq. rewrite marked_on_lv_snoc, app_nil_r. apply Hlv0. lia.
Qed.

(** One successful operation extends the history by itself. *)
Lemma store_follows_step ops st op st' :
  store_follows ops st -> op_well_typed op ->
  run_op op st = (Ok tt, st') ->
  store_follows (ops ++ [op]) st'.
Proof.
  intros Hinv Hty Hrun. pose proof Hinv as (Harr & _).
  destruct Harr as (Hn & Hlen & Hm & Hlenl).
  destruct op as [uuid size|uuid size|p s c d|p s c t m b|p s c l ls t m b];
    simpl in Hrun, Hty.
  - unfold bind, fvdecheck_volume_state_add_physical_volume in Hrun.
    unfold FVDECHECK_MAX_PHYSICAL_VOLUMES in Hrun.
    destruct (Z.leb_spec 16 (num_physical_volumes st)); [discriminate|].
    injection Hrun as <-. apply store_follows_add_physical; assumption.
  - unfold bind, fvdecheck_volume_state_add_logical_volume in Hrun.
    unfold FVDECHECK_MAX_LOGICAL_VOLUMES in Hrun.
    destruct (Z.leb_spec 16 (num_logical_volumes st)); [discriminate|].
    injection Hrun as <-. apply store_follows_add_logical; assumption.
  - unfold fvdecheck_volume_state_mark_reserved, bind, gets, modify, raise in Hrun.
    destruct (Z.leb_spec (num_physical_volumes st) p); [discriminate|].
    injection Hrun as <-. unfold is_u32 in Hty.
    eapply store_follows_mark_physical; eauto; try reflexivity; lia.
  - unfold fvdecheck_volume_state_mark_free, bind, gets, modify, raise in Hrun.
    destruct (Z.leb_spec (num_physical_volumes st) p); [discriminate|].
    injection Hrun as <-. unfold is_u32 in Hty.
    eapply store_follows_mark_physical; eauto; try reflexivity; lia.
  - unfold fvdecheck_volume_state_mark_allocated, bind, gets, modify, raise in Hrun.
    destruct (Z.leb_spec (num_physical_volumes st) p); [discriminate|].
    destruct (Z.leb_spec (num_logical_volumes st) l); [discriminate|].
    injection Hrun as <-. unfold is_u32 in Hty.
    apply store_follows_mark_allocated; [assumption|lia|lia].
Qed.

Lemma run_ops_snoc ops op st st' :
  run_ops (ops ++ [op]) st = (Ok tt, st') ->
  exists st1, run_ops ops st = (Ok tt, st1) /\ run_op op st1 = (Ok tt, st').
Proof.
  unfold run_ops. rewrite for_each_app. unfold bind at 1.
  destruct (for_each run_op ops st) as [[[]|e] st1]; [|discriminate].
  simpl. unfold bind. intros H. exists st1. split; [reflexivity|].
  destruct (run_op op st1) as [[[]|e] st2]; [|discriminate].
  unfold ret in H. exact H.
Qed.

(** Every successful sequence of operations on a fresh store leaves each
    list as the iterated insertion of its history. *)
Lemma run_ops_store_follows ops st :
  Forall op_well_typed ops ->
  run_ops ops fvdecheck_volume_state_initialize = (Ok tt, st) ->
  store_follows ops st.
Proof.
  revert st. induction ops as [|op ops IH] using rev_ind; intros st Hty Hrun.
  - injection Hrun as <-. apply store_follows_initial.
  - apply List.Forall_app in Hty as (Hty & Hop).
    apply run_ops_snoc in Hrun as (st1 & Hrun1 & Hrun2).
    eapply store_follows_step; [apply IH; eassumption| |exact Hrun2].
    inversion Hop; assumption.
Qed.

(* ================================================================= *)
(** ** Insertion order (claim C6) *)

(** C6. After any sequence of successful operations on a fresh store,
    the list of every physical volume holds the extents marked on that
    volume in ascending order of [physical_block_start], extents of equal
    start in insertion order, and the list of every logical volume holds
    the extents allocated to it in the same way by [logical_block_start].
    In scenario S2 the traversal of pv 0 meets the starts 0, 4, 10,
    [check_overlap(0, 6, 3)] returns the extent that starts at 4 and
    [find_physical_extent(0, 12)] the extent that starts at 10. *)
Theorem insertion_keeps_stable_order :
  (forall ops st,
     Forall op_well_typed ops ->
     run_ops ops fvdecheck_volume_state_initialize = (Ok tt, st) ->
     (forall p, 0 <= p < num_physical_volumes st ->
        stable_order physical_block_start (pv_extents st p) (marked_on_pv p ops)) /\
     (forall l, 0 <= l < num_logical_volumes st ->
        stable_order logical_block_start (lv_extents st l) (marked_on_lv l ops)))
  /\
  (forall t1 m1 b1 t2 m2 b2,
     let run := run_ops (S2_ops t1 m1 b1 t2 m2 b2) fvdecheck_volume_state_initialize in
     fst run = Ok tt /\
     map physical_block_start (pv_extents (snd run) 0) = [0; 4; 10] /\
     fvdecheck_volume_state_check_overlap (snd run) 0 6 3
       = Some (allocated_extent 0 4 3 0 5 t2 m2 b2) /\
     fvdecheck_volume_state_find_physical_extent (snd run) 0 12
       = Some (allocated_extent 0 10 5 0 0 t1 m1 b1)).
Proof.
  split.
  - intros ops st Hty Hrun.
    destruct (run_ops_store_follows ops st Hty Hrun) as (_ & Hpv & _ & Hlv & _).
    split.
    + intros p Hp. rewrite (Hpv p Hp). apply insert_all_stable.
    + intros l Hl. rewrite (Hlv l Hl). apply insert_all_stable.
  - intros t1 m1 b1 t2 m2 b2. cbv zeta. repeat split; reflexivity.
Qed.

Lemma insertion_keeps_stable_order_witness :
  Forall op_well_typed S2_example_ops /\
  run_ops S2_example_ops fvdecheck_volume_state_initialize = (Ok tt, S2_example_state) /\
  stable_order physical_block_start
    (pv_extents S2_example_state 0) (marked_on_pv 0 S2_example_ops).
Proof.
  assert (Hty : Forall op_well_typed S2_example_ops).
  { repeat constructor; unfold is_u64, is_u32; simpl; lia. }
  assert (Hrun : run_ops S2_example_ops fvdecheck_volume_state_initialize
                 = (Ok tt, S2_example_state)) by (vm_compute; reflexivity).
  split; [exact Hty|]. split; [exact Hrun|].
  refine (proj1 (proj1 insertion_keeps_stable_order _ _ Hty Hrun) 0 _).
  simpl. lia.
Defined.

(* ================================================================= *)
(** ** Capacity (claim C7) *)

Lemma length_17 {A} (l : list A) :
  length l = 17%nat ->
  exists a0 a1 a2 a3 a4 a5 a6 a7 a8 a9 a10 a11 a12 a13 a14 a15 a16,
    l = [a0; a1; a2; a3; a4; a5; a6; a7; a8; a9; a10; a11; a12; a13; a14; a15; a16].
Proof.
  intros H.
  do 17 (destruct l as [|? l]; [discriminate H|]).
  destruct l; [|discriminate H]. repeat eexists.
Qed.

(** C7. Seventeen calls of [add_physical_volume] on a fresh store: the
    first sixteen return the indices 0..15, the seventeenth fails with the
    out-of-bounds runtime error ("maximum number of physical volumes
    reached", the specification's CapacityExceeded) and leaves the store
    exactly as the sixteenth call left it, holding the sixteen volumes.
    The same holds of [add_logical_volume]. *)
Theorem seventeenth_volume_is_refused (vols : list (list Z * Z)) :
  length vols = 17%nat ->
  (let run := call_each add_physical_volume_call vols fvdecheck_volume_state_initialize in
   let run16 :=
     call_each add_physical_volume_call (firstn 16 vols)
       fvdecheck_volume_state_initialize in
   fst run = map (fun i => Ok (Z.of_nat i)) (seq 0 16)
             ++ [Fail [RUNTIME_ERROR_VALUE_OUT_OF_BOUNDS]] /\
   snd run = snd run16 /\
   num_physical_volumes (snd run) = 16 /\
   physical_volumes (snd run)
   = map (fun v => mk_pv (firstn 16 (fst v)) (snd v) [] 0 0 0) (firstn 16 vols))
  /\
  (let run := call_each add_logical_volume_call vols fvdecheck_volume_state_initialize in
   let run16 :=
     call_each add_logical_volume_call (firstn 16 vols)
       fvdecheck_volume_state_initialize in
   fst run = map (fun i => Ok (Z.of_nat i)) (seq 0 16)
             ++ [Fail [RUNTIME_ERROR_VALUE_OUT_OF_BOUNDS]] /\
   snd run = snd run16 /\
   num_logical_volumes (snd run) = 16 /\
   logical_volumes (snd run)
   = map (fun v => mk_lv (firstn 16 (fst v)) (snd v) [] 0 0) (firstn 16 vols)).
Proof.
  intros H. apply length_17 in H.
  destruct H as (a0 & a1 & a2 & a3 & a4 & a5 & a6 & a7 & a8 & a9 & a10 & a11 & a12
                 & a13 & a14 & a15 & a16 & ->).
  split; cbv zeta; (split; [|split; [|split]]); vm_compute; reflexivity.
Qed.

Lemma seventeenth_volume_is_refused_witness :
  length seventeen_volumes = 17%nat /\
  fst (call_each add_physical_volume_call seventeen_volumes
         fvdecheck_volume_state_initialize)
  = map (fun i => Ok (Z.of_nat i)) (seq 0 16) ++ [Fail [RUNTIME_ERROR_VALUE_OUT_OF_BOUNDS]].
Proof.
  split; [reflexivity|].
  exact (proj1 (proj1 (seventeenth_volume_is_refused seventeen_volumes eq_refl))).
Defined.

(* ================================================================= *)
(** ** Overlap queries (claim C2) *)

Lemma insert_all_in key h x : In x (insert_all key h) <-> In x h.
Proof.
  induction h as [|e h IH] using rev_ind.
  - reflexivity.
  - rewrite insert_all_snoc, insert_extent_in, IH, in_app_iff. simpl.
    intuition congruence.
Qed.

Lemma marked_on_pv_in p ops e :
  In e (marked_on_pv p ops) ->
  physical_volume_index e = p /\ exists op, In op ops /\ extent_of_op op = Some e.
Proof.
  unfold marked_on_pv. rewrite in_flat_map. intros (op & Hop & He).
  destruct (extent_of_op op) as [e'|] eqn:Hext; [|destruct He].
  destruct (Z.eqb_spec (physical_volume_index e') p); [|destruct He].
  destruct He as [<-|[]]. split; [assumption|]. exists op. auto.
Qed.

(** What a reachable store holds on volume [p] was marked on [p] with
    arguments of the C types. *)
Lemma reachable_stored_typed st p e :
  reachable st -> 0 <= p < num_physical_volumes st -> In e (pv_extents st p) ->
  physical_volume_index e = p /\
  is_u64 (physical_block_start e) /\ is_u64 (physical_block_count e).
Proof.
  intros (ops & Hty & Hrun) Hp Hin.
  destruct (run_ops_store_follows ops st Hty Hrun) as (_ & Hpv & _).
  rewrite (Hpv p Hp), insert_all_in in Hin.
  apply marked_on_pv_in in Hin as (Hidx & op & Hop & Hext).
  split; [exact Hidx|].
  rewrite List.Forall_forall in Hty. specialize (Hty op Hop).
  destruct op; simpl in Hext; try discriminate; injection Hext as <-; simpl in *; tauto.
Qed.

Lemma reachable_ascending st p :
  reachable st -> 0 <= p < num_physical_volumes st ->
  ascending physical_block_start (pv_extents st p).
Proof.
  intros (ops & Hty & Hrun) Hp.
  destruct (run_ops_store_follows ops st Hty Hrun) as (_ & Hpv & _).
  rewrite (Hpv p Hp). apply insert_all_ascending.
Qed.

Lemma intersects_test_spec s c e :
  0 < c -> 0 < physical_block_count e ->
  intersects_test s c e = true <-> intersects s c e.
Proof.
  intros Hc He. unfold intersects_test, intersects.
  rewrite andb_true_iff, !Z.ltb_lt. split.
  - intros [H1 H2]. exists (Z.max s (physical_block_start e)). lia.
  - intros (b & H1 & H2). lia.
Qed.

Lemma find_none_intro {A} (f : A -> bool) (l : list A) :
  (forall x, In x l -> f x = false) -> List.find f l = None.
Proof.
  induction l as [|a l IH]; intros H; simpl; [reflexivity|].
  rewrite (H a) by (left; reflexivity). apply IH. intros x Hx. apply H. right. exact Hx.
Qed.

(** On a sorted list of proper extents the scan with its early exit
    returns the first extent that meets the queried interval. *)
Lemma check_overlap_scan_find s c l :
  is_u64 s -> 0 <= c -> s + c < 2 ^ 64 ->
  ascending physical_block_start l ->
  Forall (fun e => is_u64 (physical_block_start e) /\ proper_extent e) l ->
  check_overlap_scan s (wrap64 (s + c)) l = List.find (intersects_test s c) l.
Proof.
  intros Hs Hc Hsc Hasc Hall. unfold is_u64 in Hs.
  assert (Hw : wrap64 (s + c) = s + c) by (unfold wrap64; apply Z.mod_small; lia).
  rewrite Hw. clear Hw.
  induction l as [|e l IH]; simpl; [reflexivity|].
  inversion Hasc as [|? ? Hasc' Hle]; subst.
  inversion Hall as [|? ? (He0 & He1 & He2) Hall']; subst. unfold is_u64 in He0.
  assert (Htest : overlap_test s (s + c) e = intersects_test s c e).
  { unfold overlap_test, intersects_test, wrap64.
    rewrite Z.mod_small by lia. reflexivity. }
  rewrite Htest. destruct (intersects_test s c e) eqn:Hthis; [reflexivity|].
  destruct (Z.leb_spec (s + c) (physical_block_start e)) as [Hexit|Hgo].
  - (* early exit: later extents start even further right *)
    symmetry. apply find_none_intro. intros x Hx.
    rewrite List.Forall_forall in Hle. specialize (Hle x Hx). unfold key_le in Hle.
    unfold intersects_test. apply andb_false_iff. right. apply Z.ltb_ge. lia.
  - apply IH; assumption.
Qed.

(** C2 (amended). On a reachable store, for a valid physical volume
    index and a non-empty query interval that ends within the 64-bit block
    space, and when the extents of that volume are proper (non-empty, no
    wrap-around), [check_overlap(pv, s, c)] returns the first extent of the
    sorted pv-list whose interval meets [[s, s + c)]; hence it returns an
    extent if and only if some stored extent of that volume meets the
    interval. *)
Theorem check_overlap_first_intersecting st pv s c :
  reachable st -> 0 <= pv < num_physical_volumes st ->
  is_u64 s -> 0 < c -> s + c < 2 ^ 64 ->
  Forall proper_extent (pv_extents st pv) ->
  fvdecheck_volume_state_check_overlap st pv s c
    = List.find (intersects_test s c) (pv_extents st pv) /\
  (fvdecheck_volume_state_check_overlap st pv s c <> None <->
   exists e, stored st e /\ physical_volume_index e = pv /\ intersects s c e).
Proof.
  intros Hreach Hpv Hs Hc Hsc Hproper.
  assert (Hfind : fvdecheck_volume_state_check_overlap st pv s c
                  = List.find (intersects_test s c) (pv_extents st pv)).
  { unfold fvdecheck_volume_state_check_overlap, pv_extents in *.
    destruct (Z.leb_spec (num_physical_volumes st) pv); [lia|].
    pose proof (reachable_ascending st pv Hreach Hpv) as Hasc.
    pose proof (reachable_stored_typed st pv) as Hty.
    unfold pv_extents in Hasc, Hty.
    destruct (physical_volumes st !! Z.to_nat pv) as [pv_info|]; [|reflexivity].
    apply check_overlap_scan_find; try assumption; try lia.
    rewrite List.Forall_forall in *. intros e He. split; [|apply Hproper, He].
    apply (Hty e Hreach Hpv He). }
  split; [exact Hfind|]. rewrite Hfind. split.
  - intros Hsome. destruct (List.find _ _) as [e|] eqn:Hf; [|congruence].
    apply List.find_some in Hf as (Hin & Htest).
    rewrite List.Forall_forall in Hproper.
    exists e. split; [exists pv; auto|]. split.
    + apply (reachable_stored_typed st pv e Hreach Hpv Hin).
    + apply intersects_test_spec; [lia|apply Hproper, Hin|exact Htest].
  - intros (e & (p & Hp & Hin) & Hidx & Hint) Hnone.
    destruct (reachable_stored_typed st p e Hreach Hp Hin) as (Hidx' & _).
    assert (Hpp : p = pv) by congruence. clear Hidx Hidx'. subst p.
    rewrite List.Forall_forall in Hproper.
    apply (List.find_none _ _ Hnone) in Hin as Htest.
    apply intersects_test_spec in Hint; [congruence|lia|apply Hproper, Hin].
Qed.

Lemma S2_example_reachable : reachable S2_example_state.
Proof.
  exists S2_example_ops. split; [|vm_compute; reflexivity].
  repeat constructor; unfold is_u64, is_u32; simpl; lia.
Defined.

Lemma check_overlap_first_intersecting_witness :
  fvdecheck_volume_state_check_overlap S2_example_state 0 6 3
  = List.find (intersects_test 6 3) (pv_extents S2_example_state 0).
Proof.
  refine (proj1 (check_overlap_first_intersecting S2_example_state 0 6 3
                   S2_example_reachable _ _ _ _ _)).
  - simpl. lia.
  - unfold is_u64. lia.
  - lia.
  - lia.
  - repeat constructor; simpl; lia.
Defined.

(** The claim as stated fails on an empty query interval: the test
    [start1 < end2 && start2 < end1] accepts the extent [[4, 7)] for the
    query [(0, 5, 0)], whose interval [[5, 5)] contains no block. *)
Lemma check_overlap_empty_query :
  reachable S2_example_state /\
  0 <= 0 < num_physical_volumes S2_example_state /\
  fvdecheck_volume_state_check_overlap S2_example_state 0 5 0 <> None /\
  ~ (exists e, stored S2_example_state e /\ physical_volume_index e = 0 /\
               intersects 5 0 e).
Proof.
  split; [exact S2_example_reachable|]. split; [simpl; lia|]. split.
  - discriminate.
  - intros (e & _ & _ & b & Hb & _). lia.
Qed.

(* ================================================================= *)
(** ** Invariants of the store under its operations *)

Lemma lookup_insert_physical st p e i pv' :
  0 <= p < num_physical_volumes st -> (Z.to_nat p < length (physical_volumes st))%nat ->
  physical_volumes (fvdecheck_insert_extent_physical p e st) !! i = Some pv' ->
  (i = Z.to_nat p /\
   exists pv, physical_volumes st !! i = Some pv /\
     pv_extent_list pv' = insert_extent physical_block_start e (pv_extent_list pv))
  \/ (i <> Z.to_nat p /\ physical_volumes st !! i = Some pv').
Proof.
  intros Hp Hlen. unfold fvdecheck_insert_extent_physical.
  destruct (Z.leb_spec (num_physical_volumes st) p); [lia|].
  destruct (lookup_lt_is_Some_2 _ _ Hlen) as [pv Hpv]. rewrite Hpv. simpl.
  destruct (Nat.eq_dec i (Z.to_nat p)) as [->|Hne].
  - rewrite list_lookup_insert_eq by exact Hlen. intros [= <-].
    left. split; [reflexivity|]. exists pv. split; [exact Hpv|reflexivity].
  - rewrite list_lookup_insert_ne by congruence. intros Hsome. right. auto.
Qed.

Lemma lookup_insert_logical st l e i lv' :
  0 <= l < num_logical_volumes st -> (Z.to_nat l < length (logical_volumes st))%nat ->
  logical_volumes (fvdecheck_insert_extent_logical l e st) !! i = Some lv' ->
  (i = Z.to_nat l /\
   exists lv, logical_volumes st !! i = Some lv /\
     lv_extent_list lv' = insert_extent logical_block_start e (lv_extent_list lv))
  \/ (i <> Z.to_nat l /\ logical_volumes st !! i = Some lv').
Proof.
  intros Hl Hlen. unfold fvdecheck_insert_extent_logical.
  destruct (Z.leb_spec (num_logical_volumes st) l); [lia|].
  destruct (lookup_lt_is_Some_2 _ _ Hlen) as [lv Hlv]. rewrite Hlv. simpl.
  destruct (Nat.eq_dec i (Z.to_nat l)) as [->|Hne].
  - rewrite list_lookup_insert_eq by exact Hlen. intros [= <-].
    left. split; [reflexivity|]. exists lv. split; [exact Hlv|reflexivity].
  - rewrite list_lookup_insert_ne by congruence. intros Hsome. right. auto.
Qed.

Lemma all_extents_insert_physical st p e :
  0 <= p < num_physical_volumes st -> (Z.to_nat p < length (physical_volumes st))%nat ->
  Permutation (all_extents (fvdecheck_insert_extent_physical p e st))
              (e :: all_extents st).
Proof.
  intros Hp Hlen. unfold all_extents, fvdecheck_insert_extent_physical.
  destruct (Z.leb_spec (num_physical_volumes st) p); [lia|].
  destruct (lookup_lt_is_Some_2 _ _ Hlen) as [pv Hpv]. rewrite Hpv. simpl.
  rewrite insert_take_drop by exact Hlen.
  rewrite <- (take_drop_middle _ _ _ Hpv) at 3.
  rewrite !map_app, !concat_app. simpl.
  rewrite insert_extent_perm. simpl.
  symmetry. apply Permutation_middle.
Qed.

Lemma filter_allocated_perm l (a b : list fvdecheck_extent) :
  Permutation a b ->
  Permutation (List.filter (allocated_to l) a) (List.filter (allocated_to l) b).
Proof.
  induction 1; simpl.
  - constructor.
  - destruct (allocated_to l x); [constructor|]; assumption.
  - destruct (allocated_to l x), (allocated_to l y); try reflexivity. apply perm_swap.
  - etransitivity; eassumption.
Qed.

Lemma lookup_repeat_Some {A} (x y : A) (n i : nat) :
  repeat x n !! i = Some y -> y = x.
Proof.
  revert i. induction n as [|n IH]; intros [|i] H; simpl in H; try discriminate.
  - congruence.
  - eapply IH, H.
Qed.

Lemma store_inv_initial : store_inv fvdecheck_volume_state_initialize.
Proof.
  unfold store_inv, arrays_ok, lists_ascending, unused_slots_empty, allocated_in_both.
  unfold fvdecheck_volume_state_initialize, lv_extents, all_extents.
  cbn [num_physical_volumes physical_volumes num_logical_volumes logical_volumes].
  repeat split; try lia; try reflexivity.
  - intros i pv H. apply lookup_repeat_Some in H as ->. constructor.
  - intros i lv H. apply lookup_repeat_Some in H as ->. constructor.
  - intros i pv H _. apply lookup_repeat_Some in H as ->. reflexivity.
  - intros i lv H _. apply lookup_repeat_Some in H as ->. reflexivity.
  - intros l Hl.
    destruct (repeat lv_zero 16 !! Z.to_nat l) as [lv|] eqn:H; [|reflexivity].
    apply lookup_repeat_Some in H as ->. reflexivity.
Qed.

Lemma store_inv_increment st : store_inv st -> store_inv (increment_total_extents st).
Proof. intros H. exact H. Qed.

(** Marking a Reserved or Free extent. *)
Lemma store_inv_insert_physical st p e :
  store_inv st -> 0 <= p < num_physical_volumes st ->
  (forall l, allocated_to l e = false) ->
  store_inv (fvdecheck_insert_extent_physical p e st).
Proof.
  intros (Harr & (Hap & Hal) & (Hup & Hul) & H3) Hp Hplain.
  pose proof Harr as (Hn & Hlen & Hm & Hlenl).
  assert (Hlt : (Z.to_nat p < length (physical_volumes st))%nat) by lia.
  destruct (insert_physical_frame st p e) as (F1 & F2 & F3 & F4).
  unfold store_inv, arrays_ok, lists_ascending, unused_slots_empty, allocated_in_both.
  rewrite F1, F2, F3, F4. repeat split; try lia; try assumption.
  - intros i pv' H. apply lookup_insert_physical in H as [(-> & pv & Hpv & ->)|(_ & H)];
      try assumption.
    + apply insert_extent_ascending. eapply Hap, Hpv.
    + eapply Hap, H.
  - intros i pv' H Hi. apply lookup_insert_physical in H as [(-> & _)|(_ & H)];
      try assumption; [lia|]. eapply Hup; eassumption.
  - intros l Hl. unfold lv_extents. rewrite F4.
    rewrite (filter_allocated_perm l _ _ (all_extents_insert_physical st p e Hp Hlt)).
    simpl. rewrite Hplain. apply (H3 l Hl).
Qed.

(** Marking an Allocated extent: one node, linked into both lists. *)
Lemma store_inv_insert_both st p l s c ls t m b :
  store_inv st ->
  0 <= p < num_physical_volumes st -> 0 <= l < num_logical_volumes st ->
  let e := allocated_extent p s c l ls t m b in
  store_inv (fvdecheck_insert_extent_logical l e (fvdecheck_insert_extent_physical p e st)).
Proof.
  intros (Harr & (Hap & Hal) & (Hup & Hul) & H3) Hp Hl e.
  pose proof Harr as (Hn & Hlen & Hm & Hlenl).
  assert (Hlt : (Z.to_nat p < length (physical_volumes st))%nat) by lia.
  set (st1 := fvdecheck_insert_extent_physical p e st).
  destruct (insert_physical_frame st p e) as (F1 & F2 & F3 & F4). fold st1 in F1, F2, F3, F4.
  destruct (insert_logical_frame st1 l e) as (G1 & G2 & G3 & G4).
  assert (Hl1 : 0 <= l < num_logical_volumes st1) by lia.
  assert (Hlt1 : (Z.to_nat l < length (logical_volumes st1))%nat) by (rewrite F4; lia).
  unfold store_inv, arrays_ok, lists_ascending, unused_slots_empty, allocated_in_both.
  rewrite G1, G2, G3, G4, F1, F2, F3, F4. repeat split; try lia; try assumption.
  - intros i pv' H. apply lookup_insert_physical in H as [(-> & pv & Hpv & ->)|(_ & H)];
      try assumption.
    + apply insert_extent_ascending. eapply Hap, Hpv.
    + eapply Hap, H.
  - intros i lv' H. apply lookup_insert_logical in H as [(-> & lv & Hlv & ->)|(_ & H)];
      try assumption.
    + apply insert_extent_ascending. rewrite F4 in Hlv. eapply Hal, Hlv.
    + rewrite F4 in H. eapply Hal, H.
  - intros i pv' H Hi. apply lookup_insert_physical in H as [(-> & _)|(_ & H)];
      try assumption; [lia|]. eapply Hup; eassumption.
  - intros i lv' H Hi. apply lookup_insert_logical in H as [(-> & _)|(_ & H)];
      try assumption; [lia|]. rewrite F4 in H. eapply Hul; eassumption.
  - intros q Hq.
    assert (Hall : Permutation
                     (List.filter (allocated_to q)
                        (all_extents (fvdecheck_insert_extent_logical l e st1)))
                     (List.filter (allocated_to q) (e :: all_extents st))).
    { apply filter_allocated_perm. unfold all_extents at 1. rewrite G2.
      apply all_extents_insert_physical; assumption. }
    rewrite Hall. rewrite lv_extents_insert_logical by (try assumption; lia).
    assert (Hsame : forall i, lv_extents st1 i = lv_extents st i).
    { intros i. unfold lv_extents. rewrite F4. reflexivity. }
    rewrite !Hsame.
    assert (He : allocated_to q e = (l =? q)) by reflexivity.
    cbn [List.filter]. rewrite He.
    destruct (Z.eqb_spec q l) as [->|Hne].
    + rewrite Z.eqb_refl. rewrite insert_extent_perm. constructor. apply (H3 l Hq).
    + destruct (Z.eqb_spec l q); [congruence|]. apply (H3 q Hq).
Qed.

Lemma store_inv_add_physical st uuid size :
  store_inv st -> num_physical_volumes st < 16 ->
  store_inv
    (set_physical_volumes (num_physical_volumes st + 1)
       (<[ Z.to_nat (num_physical_volumes st) := mk_pv (firstn 16 uuid) size [] 0 0 0 ]>
          (physical_volumes st)) st).
Proof.
  intros (Harr & (Hap & Hal) & (Hup & Hul) & H3) Hlt16.
  pose proof Harr as (Hn & Hlen & Hm & Hlenl).
  assert (Hlt : (Z.to_nat (num_physical_volumes st) < length (physical_volumes st))%nat)
    by lia.
  destruct (lookup_lt_is_Some_2 _ _ Hlt) as [old Hold].
  assert (Hold_empty : pv_extent_list old = []) by (eapply Hup; [exact Hold|lia]).
  unfold store_inv, arrays_ok, lists_ascending, unused_slots_empty, allocated_in_both.
  simpl. rewrite length_insert. repeat split; try lia; try assumption.
  - intros i pv' H. destruct (Nat.eq_dec i (Z.to_nat (num_physical_volumes st))) as [->|Hne].
    + rewrite list_lookup_insert_eq in H by exact Hlt. injection H as <-. constructor.
    + rewrite list_lookup_insert_ne in H by congruence. eapply Hap, H.
  - intros i pv' H Hi. rewrite list_lookup_insert_ne in H by lia. eapply Hup; [exact H|lia].
  - intros l Hl. unfold lv_extents, all_extents. simpl.
    rewrite insert_take_drop by exact Hlt.
    specialize (H3 l Hl). unfold lv_extents, all_extents in H3.
    rewrite <- (take_drop_middle _ _ _ Hold) in H3 at 1.
    rewrite !map_app, !concat_app in *. simpl in *. rewrite Hold_empty in H3. exact H3.
Qed.

Lemma store_inv_add_logical st uuid size :
  store_inv st -> num_logical_volumes st < 16 ->
  store_inv
    (set_logical_volumes (num_logical_volumes st + 1)
       (<[ Z.to_nat (num_logical_volumes st) := mk_lv (firstn 16 uuid) size [] 0 0 ]>
          (logical_volumes st)) st).
Proof.
  intros (Harr & (Hap & Hal) & (Hup & Hul) & H3) Hlt16.
  pose proof Harr as (Hn & Hlen & Hm & Hlenl).
  assert (Hlt : (Z.to_nat (num_logical_volumes st) < length (logical_volumes st))%nat)
    by lia.
  destruct (lookup_lt_is_Some_2 _ _ Hlt) as [old Hold].
  assert (Hold_empty : lv_extent_list old = []) by (eapply Hul; [exact Hold|lia]).
  unfold store_inv, arrays_ok, lists_ascending, unused_slots_empty, allocated_in_both.
  simpl. rewrite length_insert. repeat split; try lia; try assumption.
  - intros i lv' H. destruct (Nat.eq_dec i (Z.to_nat (num_logical_volumes st))) as [->|Hne].
    + rewrite list_lookup_insert_eq in H by exact Hlt. injection H as <-. constructor.
    + rewrite list_lookup_insert_ne in H by congruence. eapply Hal, H.
  - intros i lv' H Hi. rewrite list_lookup_insert_ne in H by lia. eapply Hul; [exact H|lia].
  - intros l Hl. specialize (H3 l Hl). unfold lv_extents in *. simpl.
    destruct (Nat.eq_dec (Z.to_nat l) (Z.to_nat (num_logical_volumes st))) as [Heq|Hne].
    + rewrite Heq in *. rewrite list_lookup_insert_eq by exact Hlt.
      rewrite Hold, Hold_empty in H3. exact H3.
    + rewrite list_lookup_insert_ne by congruence. exact H3.
Qed.

Lemma keeps_bind_returning {S A B} (I : S -> Prop) (m : SE S A) (Q : A -> Prop)
    (k : A -> SE S B) :
  keeps_returning I m Q -> (forall a, Q a -> keeps I (k a)) -> keeps I (bind m k).
Proof.
  intros Hm Hk st H. unfold bind. destruct (Hm st H) as [Hi Hq].
  destruct (m st) as [[a|e] st1]; simpl in *.
  - apply Hk; [apply Hq; reflexivity | exact Hi].
  - exact Hi.
Qed.

Lemma keeps_returning_on_error {S A} (I : S -> Prop) c (m : SE S A) Q :
  keeps_returning I m Q -> keeps_returning I (on_error c m) Q.
Proof.
  intros Hm st H. unfold on_error. destruct (Hm st H) as [Hi Hq].
  destruct (m st) as [[a|e] st1]; simpl in *; split; auto. discriminate.
Qed.

Lemma keeps_add_physical_volume uuid size :
  keeps_returning store_inv
    (fvdecheck_volume_state_add_physical_volume uuid size) (fun i => 0 <= i).
Proof.
  intros st H. unfold fvdecheck_volume_state_add_physical_volume.
  unfold FVDECHECK_MAX_PHYSICAL_VOLUMES.
  destruct (Z.leb_spec 16 (num_physical_volumes st)); simpl.
  - split; [exact H | discriminate].
  - split; [apply store_inv_add_physical; assumption|].
    intros a [= <-]. destruct H as ((? & _) & _). lia.
Qed.

Lemma keeps_add_logical_volume uuid size :
  keeps_returning store_inv
    (fvdecheck_volume_state_add_logical_volume uuid size) (fun i => 0 <= i).
Proof.
  intros st H. unfold fvdecheck_volume_state_add_logical_volume.
  unfold FVDECHECK_MAX_LOGICAL_VOLUMES.
  destruct (Z.leb_spec 16 (num_logical_volumes st)); simpl.
  - split; [exact H | discriminate].
  - split; [apply store_inv_add_logical; assumption|].
    intros a [= <-]. destruct H as ((_ & _ & ? & _) & _). lia.
Qed.

Lemma keeps_mark_reserved p s c d :
  0 <= p -> keeps store_inv (fvdecheck_volume_state_mark_reserved p s c d).
Proof.
  intros Hp st H. unfold fvdecheck_volume_state_mark_reserved, bind, gets, modify, raise.
  destruct (Z.leb_spec (num_physical_volumes st) p); simpl; [exact H|].
  apply store_inv_increment, store_inv_insert_physical; [exact H|lia|reflexivity].
Qed.

Lemma keeps_mark_free p s c t m b :
  0 <= p -> keeps store_inv (fvdecheck_volume_state_mark_free p s c t m b).
Proof.
  intros Hp st H. unfold fvdecheck_volume_state_mark_free, bind, gets, modify, raise.
  destruct (Z.leb_spec (num_physical_volumes st) p); simpl; [exact H|].
  apply store_inv_increment, store_inv_insert_physical; [exact H|lia|reflexivity].
Qed.

Lemma keeps_mark_allocated p s c l ls t m b :
  0 <= p -> 0 <= l ->
  keeps store_inv (fvdecheck_volume_state_mark_allocated p s c l ls t m b).
Proof.
  intros Hp Hl st H.
  unfold fvdecheck_volume_state_mark_allocated, bind, gets, modify, raise.
  destruct (Z.leb_spec (num_physical_volumes st) p); simpl; [exact H|].
  destruct (Z.leb_spec (num_logical_volumes st) l); simpl; [exact H|].
  apply store_inv_increment, store_inv_insert_both; [exact H|lia|lia].
Qed.

(* ================================================================= *)
(** ** The walker keeps the invariants of the store *)

Lemma keeps_check_handle_open v : keeps store_inv (check_handle_open v).
Proof.
  unfold check_handle_open. apply keeps_bind; [|intros _].
  - apply keeps_for_each. intros pv.
    apply keeps_bind; [apply keeps_gets|intros bs].
    eapply keeps_bind_returning.
    + apply keeps_returning_on_error, keeps_add_physical_volume.
    + intros i Hi. apply keeps_on_error, keeps_mark_reserved, Hi.
  - apply keeps_for_each. intros lv.
    apply keeps_bind; [apply keeps_gets|intros bs].
    eapply keeps_bind_returning.
    + apply keeps_returning_on_error, keeps_add_logical_volume.
    + intros i Hi. apply keeps_ret.
Qed.

Lemma keeps_mark_encrypted_metadata offset size description :
  keeps store_inv (mark_encrypted_metadata 0 offset size description).
Proof.
  unfold mark_encrypted_metadata. destruct ((0 <? offset) && (0 <? size)).
  - apply keeps_bind; [apply keeps_gets|intros bs].
    apply keeps_on_error, keeps_mark_reserved. lia.
  - apply keeps_ret.
Qed.

Lemma keeps_check_handle_mark_metadata_reserved v :
  keeps store_inv (check_handle_mark_metadata_reserved v).
Proof.
  unfold check_handle_mark_metadata_reserved.
  destruct (ov_volume_header v) as [vh|]; [|apply keeps_raise].
  apply keeps_bind; [|intros _].
  - apply keeps_for_each. intros i.
    apply keeps_bind; [apply keeps_gets|intros bs].
    apply keeps_on_error, keeps_mark_reserved. lia.
  - destruct (ov_metadata v) as [md|]; [|apply keeps_ret].
    apply keeps_bind; [|intros _]; apply keeps_mark_encrypted_metadata.
Qed.

Lemma wrap32_nonneg z : 0 <= wrap32 z.
Proof. unfold wrap32. apply Z.mod_pos_bound. lia. Qed.

Lemma keeps_check_handle_process_volume v :
  keeps store_inv (check_handle_process_volume v).
Proof.
  unfold check_handle_process_volume. apply keeps_bind; [|intros _].
  - apply keeps_on_error, keeps_check_handle_mark_metadata_reserved.
  - apply keeps_for_each_indexed. intros j lv. apply keeps_for_each.
    intros [sd|]; simpl; [|apply keeps_ret].
    apply keeps_on_error, keeps_mark_allocated; apply wrap32_nonneg.
Qed.

Lemma volume_walker_store_inv v : store_inv (snd (volume_walker v)).
Proof.
  unfold volume_walker.
  apply (keeps_bind store_inv (check_handle_open v)
           (fun _ => check_handle_process_volume v)).
  - apply keeps_check_handle_open.
  - intros _. apply keeps_check_handle_process_volume.
  - apply store_inv_initial.
Qed.

(* ================================================================= *)
(** ** Statistics *)

Lemma wrap64_add_l a b : wrap64 (wrap64 a + b) = wrap64 (a + b).
Proof. unfold wrap64. apply Zplus_mod_idemp_l. Qed.

Lemma wrap64_idem a : wrap64 (wrap64 a) = wrap64 a.
Proof. unfold wrap64. apply Z.mod_mod. lia. Qed.

Lemma pv_statistics_fold l r a f :
  fold_left
    (fun (acc : Z * Z * Z) (current : fvdecheck_extent) =>
       let '(r, a, f) := acc in
       match state current with
       | FVDECHECK_EXTENT_STATE_RESERVED  => (wrap64 (r + physical_block_count current), a, f)
       | FVDECHECK_EXTENT_STATE_ALLOCATED => (r, wrap64 (a + physical_block_count current), f)
       | FVDECHECK_EXTENT_STATE_FREE      => (r, a, wrap64 (f + physical_block_count current))
       | FVDECHECK_EXTENT_STATE_UNKNOWN   => (r, a, f)
       end) l (wrap64 r, wrap64 a, wrap64 f)
  = (wrap64 (r + blocks_in_state FVDECHECK_EXTENT_STATE_RESERVED l),
     wrap64 (a + blocks_in_state FVDECHECK_EXTENT_STATE_ALLOCATED l),
     wrap64 (f + blocks_in_state FVDECHECK_EXTENT_STATE_FREE l)).
Proof.
  revert r a f. induction l as [|e l IH]; intros r a f; simpl.
  - rewrite !Z.add_0_r. reflexivity.
  - destruct (state e); simpl; rewrite ?wrap64_add_l, IH, ?Z.add_assoc; reflexivity.
Qed.

Lemma pv_statistics_spec pv :
  pv_extent_list (pv_statistics pv) = pv_extent_list pv /\
  pv_reserved_blocks (pv_statistics pv)
    = wrap64 (blocks_in_state FVDECHECK_EXTENT_STATE_RESERVED (pv_extent_list pv)) /\
  pv_allocated_blocks (pv_statistics pv)
    = wrap64 (blocks_in_state FVDECHECK_EXTENT_STATE_ALLOCATED (pv_extent_list pv)) /\
  pv_free_blocks (pv_statistics pv)
    = wrap64 (blocks_in_state FVDECHECK_EXTENT_STATE_FREE (pv_extent_list pv)).
Proof.
  unfold pv_statistics.
  pose proof (pv_statistics_fold (pv_extent_list pv) 0 0 0) as H.
  change (wrap64 0) with 0 in H. rewrite !Z.add_0_l in H. rewrite H. simpl. auto.
Qed.

Lemma lv_statistics_fold l m :
  fold_left (fun acc current => wrap64 (acc + physical_block_count current)) l (wrap64 m)
  = wrap64 (m + blocks_total l).
Proof.
  revert m. induction l as [|e l IH]; intros m; simpl.
  - rewrite Z.add_0_r. reflexivity.
  - rewrite wrap64_add_l, IH, Z.add_assoc. reflexivity.
Qed.

Lemma lv_statistics_spec lv :
  lv_extent_list (lv_statistics lv) = lv_extent_list lv /\
  lv_size_in_blocks (lv_statistics lv) = lv_size_in_blocks lv /\
  lv_mapped_blocks (lv_statistics lv) = wrap64 (blocks_total (lv_extent_list lv)) /\
  lv_unmapped_blocks (lv_statistics lv)
    = Z.max 0 (lv_size_in_blocks lv - wrap64 (blocks_total (lv_extent_list lv))).
Proof.
  unfold lv_statistics.
  pose proof (lv_statistics_fold (lv_extent_list lv) 0) as H.
  change (wrap64 0) with 0 in H. rewrite Z.add_0_l in H. rewrite H. simpl.
  repeat split; try reflexivity.
  destruct (Z.ltb_spec (wrap64 (blocks_total (lv_extent_list lv))) (lv_size_in_blocks lv)); lia.
Qed.

Lemma lookup_map_prefix {A} (n : nat) (f : A -> A) (l : list A) (i : nat) (x : A) :
  (i < n)%nat -> l !! i = Some x -> map_prefix n f l !! i = Some (f x).
Proof.
  intros Hi Hx. unfold map_prefix.
  assert (Hlen : (i < length l)%nat) by (eapply lookup_lt_Some; eassumption).
  rewrite lookup_app_l by (rewrite length_map, length_firstn; lia).
  rewrite list_lookup_fmap, lookup_take_lt by lia. rewrite Hx. reflexivity.
Qed.

Lemma calculate_statistics_from_lists st :
  arrays_ok st ->
  statistics_from_lists st (snd (fvdecheck_volume_state_calculate_statistics st)).
Proof.
  intros (Hn & Hlen & Hm & Hlenl).
  unfold statistics_from_lists, fvdecheck_volume_state_calculate_statistics, modify.
  simpl. split.
  - intros p Hp. unfold pv_extents.
    destruct (lookup_lt_is_Some_2 (physical_volumes st) (Z.to_nat p)) as [pv Hpv]; [lia|].
    rewrite Hpv. exists (pv_statistics pv). split.
    + apply lookup_map_prefix; [lia|exact Hpv].
    + apply pv_statistics_spec.
  - intros l Hl. unfold lv_extents.
    destruct (lookup_lt_is_Some_2 (logical_volumes st) (Z.to_nat l)) as [lv Hlv]; [lia|].
    rewrite Hlv. exists (lv_statistics lv). split.
    + apply lookup_map_prefix; [lia|exact Hlv].
    + destruct (lv_statistics_spec lv) as (H1 & H2 & H3 & H4).
      rewrite H1, H2, H3, H4. auto.
Qed.

(* ================================================================= *)
(** ** The state the walker produces (claim C1) *)

Lemma ascending_disjoint_strict l :
  ascending physical_block_start l ->
  Forall (fun e => 0 < physical_block_count e) l ->
  pairwise_disjoint l ->
  strictly_ascending physical_block_start l.
Proof.
  unfold ascending, strictly_ascending, pairwise_disjoint.
  induction l as [|a l IH]; intros Hasc Hpos Hdis; [constructor|].
  inversion Hasc as [|? ? Hasc' Hle]; subst.
  inversion Hpos as [|? ? Ha Hpos']; subst.
  inversion Hdis as [|? ? Hda Hdis']; subst.
  constructor; [apply IH; assumption|].
  rewrite List.Forall_forall in *. intros b Hb.
  specialize (Hle b Hb). specialize (Hda b Hb). specialize (Hpos' b Hb).
  unfold key_le, key_lt in *.
  destruct (Z.eq_dec (physical_block_start a) (physical_block_start b)) as [Heq|Hne];
    [|lia].
  exfalso. apply Hda. exists (physical_block_start a). lia.
Qed.

Lemma store_inv_pv_extents_ascending st p :
  store_inv st -> ascending physical_block_start (pv_extents st p).
Proof.
  intros (_ & (Hap & _) & _). unfold pv_extents.
  destruct (physical_volumes st !! Z.to_nat p) as [pv|] eqn:H.
  - eapply Hap, H.
  - constructor.
Qed.

Lemma store_inv_lv_extents_ascending st l :
  store_inv st -> ascending logical_block_start (lv_extents st l).
Proof.
  intros (_ & (_ & Hal) & _). unfold lv_extents.
  destruct (logical_volumes st !! Z.to_nat l) as [lv|] eqn:H.
  - eapply Hal, H.
  - constructor.
Qed.

(** C1 (amended). In every state the walker produces, the list of every
    physical volume is in ascending (not necessarily strict) order of
    [physical_block_start] and the list of every logical volume in
    ascending order of [logical_block_start]; the list of a logical volume
    holds exactly the Allocated extents of that volume found in the
    physical lists (I3); the statistics are recomputed from the lists
    alone (I5).  The walker inserts what the volume supplies without
    looking at it: the list of a physical volume is strictly sorted
    whenever its extents are non-empty and pairwise disjoint, and the
    walker guarantees neither I1, nor the strict part of I2, nor I4. *)
Theorem walker_state_invariants (v : opened_volume) (st : fvdecheck_volume_state) :
  volume_walker v = (Ok tt, st) ->
  (forall p, 0 <= p < num_physical_volumes st ->
     ascending physical_block_start (pv_extents st p)) /\
  (forall l, 0 <= l < num_logical_volumes st ->
     ascending logical_block_start (lv_extents st l)) /\
  (forall l, 0 <= l < num_logical_volumes st ->
     Permutation (lv_extents st l) (List.filter (allocated_to l) (all_extents st))) /\
  statistics_from_lists st (snd (fvdecheck_volume_state_calculate_statistics st)) /\
  (forall p, 0 <= p < num_physical_volumes st ->
     Forall (fun e => 0 < physical_block_count e) (pv_extents st p) ->
     pairwise_disjoint (pv_extents st p) ->
     strictly_ascending physical_block_start (pv_extents st p)).
Proof.
  intros Hrun. pose proof (volume_walker_store_inv v) as Hinv.
  rewrite Hrun in Hinv. simpl in Hinv.
  split; [|split; [|split; [|split]]].
  - intros p _. apply store_inv_pv_extents_ascending, Hinv.
  - intros l _. apply store_inv_lv_extents_ascending, Hinv.
  - intros l Hl. destruct Hinv as (_ & _ & _ & H3). apply H3. lia.
  - apply calculate_statistics_from_lists. apply Hinv.
  - intros p _ Hpos Hdis. apply ascending_disjoint_strict; try assumption.
    apply store_inv_pv_extents_ascending, Hinv.
Qed.

(** Replaces a closed term by its value. *)
Ltac evaluate t :=
  let v := eval vm_compute in t in
  replace t with v by (vm_compute; reflexivity).

Lemma walker_state_invariants_witness :
  volume_walker sound_volume = (Ok tt, sound_state) /\
  strictly_ascending physical_block_start (pv_extents sound_state 0).
Proof.
  assert (Hrun : volume_walker sound_volume = (Ok tt, sound_state))
    by (vm_compute; reflexivity).
  split; [exact Hrun|].
  refine (proj2 (proj2 (proj2 (proj2 (walker_state_invariants _ _ Hrun)))) 0 _ _ _).
  - vm_compute. split; [discriminate|reflexivity].
  - evaluate (pv_extents sound_state 0).
    repeat constructor.
  - evaluate (pv_extents sound_state 0).
    repeat constructor; intros (blk & H1 & H2); simpl in H1, H2; lia.
Defined.

(** The claim as stated fails: a segment descriptor that maps onto
    physical block 0 is inserted next to the Reserved volume header, so
    the list of pv 0 has two extents that start at block 0 (not strictly
    sorted, overlapping), one Allocated and one Reserved. *)
Lemma walker_accepts_overlapping_segment :
  volume_walker overlapping_volume = (Ok tt, overlapping_state) /\
  ~ strictly_ascending physical_block_start (pv_extents overlapping_state 0) /\
  ~ pairwise_disjoint (pv_extents overlapping_state 0) /\
  exists a r, In a (pv_extents overlapping_state 0) /\
    In r (pv_extents overlapping_state 0) /\
    state a = FVDECHECK_EXTENT_STATE_ALLOCATED /\
    state r = FVDECHECK_EXTENT_STATE_RESERVED /\
    extents_overlap a r.
Proof.
  split; [vm_compute; reflexivity|].
  evaluate (pv_extents overlapping_state 0).
  split; [|split].
  - intros H. inversion H as [|? ? _ Hall]; subst.
    inversion Hall as [|? ? Hlt _]; subst. unfold key_lt in Hlt. simpl in Hlt. lia.
  - intros H. inversion H as [|? ? Hall _]; subst.
    inversion Hall as [|? ? Hno _]; subst. apply Hno. exists 0. simpl. lia.
  - exists (allocated_extent 0 0 1 0 0 0 0 0x0305),
           (reserved_extent 0 0 1 (Some "Volume header"%string)).
    split; [simpl; auto|]. split; [simpl; auto|].
    split; [reflexivity|]. split; [reflexivity|].
    exists 0. simpl. lia.
Qed.

(* ================================================================= *)
(** ** Sector and block conversions (claim C9) *)

Lemma wrap64_small z : 0 <= z < 2 ^ 64 -> wrap64 z = z.
Proof. intros H. unfold wrap64. apply Z.mod_small, H. Qed.

(** C9 (amended). For a sector number below 2^55 (so that [s * 512] fits
    64 bits) and every block size: the round trip is the identity when
    [s * 512] is a multiple of the block size; it never exceeds [s]; and
    when the block size is a multiple of 512 it is the largest sector not
    exceeding [s] whose byte offset is a multiple of the block size. *)
Theorem sector_round_trip_floor (s b : Z) :
  0 <= s -> s * 512 < 2 ^ 64 -> is_u32 b ->
  ((b | s * 512) -> sector_round_trip s b = s) /\
  0 <= sector_round_trip s b <= s /\
  ((512 | b) -> largest_aligned_sector s b (sector_round_trip s b)).
Proof.
  intros Hs Hfit Hb. unfold is_u32 in Hb.
  unfold sector_round_trip, fvdecheck_fvde_block_to_linux_sector,
    fvdecheck_linux_sector_to_fvde_block.
  destruct (Z.eqb_spec b 0) as [->|Hb0].
  - (* block size 0: block 0, sector 0 *)
    rewrite Z.mul_0_l. change (wrap64 0 / 512) with 0.
    split; [|split].
    + intros Hdiv. apply Z.divide_0_l in Hdiv. lia.
    + lia.
    + intros _. unfold largest_aligned_sector. split; [lia|]. split.
      * exists 0. reflexivity.
      * intros t Ht Hdiv. apply Z.divide_0_l in Hdiv. lia.
  - assert (Hbpos : 0 < b) by lia.
    rewrite (wrap64_small (s * 512)) by lia.
    set (q := s * 512 / b).
    assert (Hq : 0 <= q) by (apply Z.div_pos; lia).
    assert (Hqb : q * b <= s * 512).
    { unfold q. rewrite Z.mul_comm. apply Z.mul_div_le. lia. }
    rewrite (wrap64_small (q * b)) by nia.
    assert (Hr : 0 <= q * b / 512 <= s).
    { split; [apply Z.div_pos; nia|]. apply Z.div_le_upper_bound; lia. }
    split; [|split].
    + intros (k & Hk). assert (q = k) by (unfold q; rewrite Hk; apply Z.div_mul; lia).
      subst q. rewrite H, <- Hk. apply Z.div_mul. lia.
    + exact Hr.
    + intros (m & Hm). unfold largest_aligned_sector.
      assert (Hmpos : 0 < m) by lia.
      assert (Hqm : q = s / m).
      { unfold q. rewrite Hm, Z.div_mul_cancel_r by lia. reflexivity. }
      assert (Hval : q * b / 512 = q * m).
      { rewrite Hm, Z.mul_assoc. apply Z.div_mul. lia. }
      rewrite Hval. split; [lia|]. split.
      * exists q. rewrite Hm. ring.
      * intros t Ht (k & Hk).
        assert (Htk : t = k * m) by lia.
        assert (k <= q); [|nia].
        rewrite Hqm. apply Z.div_le_lower_bound; lia.
Qed.

Lemma sector_round_trip_floor_witness :
  0 <= 1001 /\ 1001 * 512 < 2 ^ 64 /\ is_u32 4096 /\
  largest_aligned_sector 1001 4096 (sector_round_trip 1001 4096).
Proof.
  assert (H0 : 0 <= 1001) by lia.
  assert (H1 : 1001 * 512 < 2 ^ 64) by lia.
  assert (H2 : is_u32 4096) by (unfold is_u32; lia).
  split; [exact H0|]. split; [exact H1|]. split; [exact H2|].
  refine (proj2 (proj2 (sector_round_trip_floor 1001 4096 H0 H1 H2)) _).
  exists 8. reflexivity.
Defined.

(** The claim as stated fails in two ways.  Sector 2^55 with block size
    4096: [s * 512] is a multiple of the block size but wraps to 0 in
    64 bits, and the round trip gives 0.  Sector 3 with block size 1000:
    the round trip gives sector 1, whose byte offset 512 is not a
    multiple of 1000. *)
Lemma sector_round_trip_fails :
  (is_u64 (2 ^ 55) /\ is_u32 4096 /\ (4096 | 2 ^ 55 * 512) /\
   sector_round_trip (2 ^ 55) 4096 <> 2 ^ 55)
  /\
  (is_u64 3 /\ is_u32 1000 /\ ~ (1000 | 3 * 512) /\
   ~ largest_aligned_sector 3 1000 (sector_round_trip 3 1000)).
Proof.
  split.
  - split; [unfold is_u64; lia|]. split; [unfold is_u32; lia|]. split.
    + exists (2 ^ 52). reflexivity.
    + vm_compute. discriminate.
  - split; [unfold is_u64; lia|]. split; [unfold is_u32; lia|]. split.
    + intros (k & Hk). lia.
    + evaluate (sector_round_trip 3 1000). intros (_ & (k & Hk) & _). lia.
Qed.

(* ================================================================= *)
(** ** The weak CRC-32 (claim C5) *)

Lemma initialize_crc32_table_initial :
  dump_handle_initialize_crc32_table 0x82f63b78 crc32_statics_initial
  = crc32_statics_built.
Proof. vm_compute. reflexivity. Qed.

Lemma crc32_statics_reachable_cases g :
  crc32_statics_reachable g -> g = crc32_statics_initial \/ g = crc32_statics_built.
Proof.
  induction 1 as [|buffer size iv g _ IH].
  - left. reflexivity.
  - right. unfold dump_handle_calculate_weak_crc32.
    destruct IH as [-> | ->]; cbn [snd crc32_table_initialized crc32_statics_initial
                                   crc32_statics_built Z.eqb].
    + apply initialize_crc32_table_initial.
    + reflexivity.
Qed.

(** The pointer walk over [length bs] bytes is the fold over [bs]. *)
Lemma weak_crc32_loop_fold table bs checksum :
  weak_crc32_loop table bs (length bs) checksum
  = fold_left
      (fun checksum b =>
         Z.lxor (nth (Z.to_nat (Z.land (Z.lxor checksum b) 0xFF)) table 0)
                (Z.shiftr checksum 8))
      bs checksum.
Proof.
  revert checksum. induction bs as [|b bs IH]; intros checksum; simpl.
  - reflexivity.
  - apply IH.
Qed.

Lemma calculate_weak_crc32_reachable bs size iv g :
  crc32_statics_reachable g ->
  dump_handle_calculate_weak_crc32 bs size iv g
  = (weak_crc32_loop (reference_table 0x82F63B78) bs (Z.to_nat size) iv,
     crc32_statics_built).
Proof.
  intros Hg. unfold dump_handle_calculate_weak_crc32.
  destruct (crc32_statics_reachable_cases g Hg) as [-> | ->];
    cbn [crc32_table_initialized crc32_statics_initial crc32_statics_built Z.eqb].
  - rewrite initialize_crc32_table_initial. reflexivity.
  - reflexivity.
Qed.

(** C5. For every byte sequence and every initial value, whatever calls
    came before, [dump_handle_calculate_weak_crc32] over the whole
    sequence returns the reference CRC of the specification: table of 256
    entries built from [0x82F63B78] by the reflected construction, running
    checksum started at the initial value, one table step per byte. *)
Theorem weak_crc32_is_reference_crc (g : crc32_statics) (bs : list Z) (iv : Z) :
  crc32_statics_reachable g ->
  fst (dump_handle_calculate_weak_crc32 bs (Z.of_nat (length bs)) iv g)
  = reference_crc32 0x82F63B78 bs iv.
Proof.
  intros Hg. rewrite (calculate_weak_crc32_reachable bs _ iv g Hg).
  cbn [fst]. rewrite Nat2Z.id. apply weak_crc32_loop_fold.
Qed.

Lemma weak_crc32_is_reference_crc_witness :
  crc32_statics_reachable crc32_statics_initial /\
  fst (dump_handle_calculate_weak_crc32 [49; 50; 51; 52; 53; 54; 55; 56; 57] 9 0xffffffff
         crc32_statics_initial)
  = reference_crc32 0x82F63B78 [49; 50; 51; 52; 53; 54; 55; 56; 57] 0xffffffff.
Proof.
  split; [exact statics_at_start|].
  exact (weak_crc32_is_reference_crc crc32_statics_initial
           [49; 50; 51; 52; 53; 54; 55; 56; 57] 0xffffffff statics_at_start).
Defined.

(* ================================================================= *)
(** ** The combined key buffer (claim C8) *)

Lemma put_bytes_whole data buffer :
  length data = length buffer -> put_bytes 0 data buffer = data.
Proof.
  intros H. unfold put_bytes. rewrite H.
  replace (0 + Z.of_nat (length buffer) <=? Z.of_nat (length buffer)) with true
    by (symmetry; apply Z.leb_le; lia).
  simpl. rewrite skipn_all2 by lia. apply app_nil_r.
Qed.

(** What the buffer holds once both keys are copied in. *)
Lemma combined_key_copied stack master tweak :
  length stack = 48%nat -> length master = 16%nat -> length tweak = 32%nat ->
  put_bytes 16 (get_bytes 0 32 tweak) (put_bytes 0 (get_bytes 0 16 master) stack)
  = master ++ tweak.
Proof.
  intros Hs Hm Ht.
  assert (Hgm : get_bytes 0 16 master = master).
  { unfold get_bytes. simpl. apply firstn_all2. lia. }
  assert (Hgt : get_bytes 0 32 tweak = tweak).
  { unfold get_bytes. simpl. apply firstn_all2. lia. }
  rewrite Hgm, Hgt. unfold put_bytes. rewrite Hm, Hs. simpl.
  rewrite length_app, Hm, length_skipn, Hs, Ht. simpl.
  rewrite firstn_app, Hm. simpl. rewrite firstn_all2 by lia.
  rewrite app_nil_r, skipn_all2; [rewrite app_nil_r; reflexivity|].
  rewrite length_app, Hm, length_skipn, Hs. simpl. lia.
Qed.

(** When the kernel refuses the key the function returns with the key
    material still in the buffer. *)
Lemma add_key_refused_general kernel stack master tweak uuid keyring_id v :
  length stack = 48%nat -> length master = 16%nat -> length tweak = 32%nat ->
  parse_keyring_id keyring_id = Ok v ->
  (forall t d p k, kernel t d p k < 0) ->
  let r := keyring_handle_add_key kernel stack master 16 tweak 32 uuid 16 keyring_id in
  akr_result r = Fail [RUNTIME_ERROR_SET_FAILED] /\
  akr_combined_key r = master ++ tweak.
Proof.
  intros Hs Hm Ht Hid Hk r. subst r. unfold keyring_handle_add_key.
  cbn [Z.eqb negb Pos.eqb keyring_handle_format_uuid_string Z.ltb Z.compare Pos.compare
       Pos.compare_cont].
  rewrite Hid, combined_key_copied by assumption.
  match goal with |- context [?k <? 0] => destruct (Z.ltb_spec k 0) as [_|Hge] end.
  - split; reflexivity.
  - match type of Hge with 0 <= ?k =>
      match k with kernel ?t ?d ?p ?q => specialize (Hk t d p q) end end. lia.
Qed.

(** On success the buffer is cleared before the return. *)
Lemma add_key_accepted_clears kernel stack master tweak uuid keyring_id v :
  length stack = 48%nat -> length master = 16%nat -> length tweak = 32%nat ->
  parse_keyring_id keyring_id = Ok v ->
  (forall t d p k, 0 <= kernel t d p k) ->
  let r := keyring_handle_add_key kernel stack master 16 tweak 32 uuid 16 keyring_id in
  akr_result r = Ok tt /\ akr_combined_key r = repeat 0 48.
Proof.
  intros Hs Hm Ht Hid Hk r. subst r. unfold keyring_handle_add_key.
  cbn [Z.eqb negb Pos.eqb keyring_handle_format_uuid_string Z.ltb Z.compare Pos.compare
       Pos.compare_cont].
  rewrite Hid, combined_key_copied by assumption.
  match goal with |- context [?k <? 0] => destruct (Z.ltb_spec k 0) as [Hlt|_] end.
  - match type of Hlt with ?k < 0 =>
      match k with kernel ?t ?d ?p ?q => specialize (Hk t d p q) end end. lia.
  - split; [reflexivity|]. cbn [akr_combined_key]. apply put_bytes_whole.
    rewrite length_app, Hm, Ht. reflexivity.
Qed.

(** C8, at the failing input.  The kernel refuses the key: the function
    returns -1 ("unable to add key to kernel keyring") and the 48 bytes of
    [combined_key] still hold the master key followed by the tweak key;
    the [memory_set] that clears them is reached on the successful path
    only.  The same happens when the keyring identifier is unsupported. *)
Theorem add_key_refused_leaves_key_material :
  (akr_result
     (keyring_handle_add_key refusing_kernel (repeat 0 48)
        example_master_key 16 example_tweak_key 32 example_uuid 16 None)
   = Fail [RUNTIME_ERROR_SET_FAILED] /\
   akr_combined_key
     (keyring_handle_add_key refusing_kernel (repeat 0 48)
        example_master_key 16 example_tweak_key 32 example_uuid 16 None)
   = example_master_key ++ example_tweak_key /\
   example_master_key ++ example_tweak_key <> repeat 0 48)
  /\
  (akr_result
     (keyring_handle_add_key accepting_kernel (repeat 0 48)
        example_master_key 16 example_tweak_key 32 example_uuid 16 (Some "zero"%string))
   = Fail [ARGUMENT_ERROR_UNSUPPORTED_VALUE] /\
   akr_combined_key
     (keyring_handle_add_key accepting_kernel (repeat 0 48)
        example_master_key 16 example_tweak_key 32 example_uuid 16 (Some "zero"%string))
   = example_master_key ++ example_tweak_key)
  /\
  akr_combined_key
    (keyring_handle_add_key accepting_kernel (repeat 0 48)
       example_master_key 16 example_tweak_key 32 example_uuid 16 None)
  = repeat 0 48.
Proof.
  split; [|split].
  - split; [vm_compute; reflexivity|]. split; [vm_compute; reflexivity|].
    vm_compute. discriminate.
  - split; vm_compute; reflexivity.
  - vm_compute. reflexivity.
Qed.

(* ================================================================= *)
(** ** Selection of the metadata copy (claim C10) *)

(** A successful loop leaves the world as it was up to the position of
    the source, and its locals are those of the pure scan. *)
Lemma read_metadata_loop_ok indices l w l' w' :
  read_metadata_loop indices l w = (Ok l', w') ->
  l' = fold_left (fun l i => read_metadata_examine (metadata_copy w i) i l) indices l /\
  w_handle w' = w_handle w /\ w_source w' = w_source w /\
  w_destination w' = w_destination w /\
  w_destination_position w' = w_destination_position w /\
  w_crc32 w' = w_crc32 w.
Proof.
  revert l w. induction indices as [|i indices IH]; intros l w Hrun.
  - injection Hrun as <- <-. repeat split.
  - simpl in Hrun. unfold bind, gets, lseek_source in Hrun.
    destruct (negative_off_t _); [discriminate|].
    unfold modify, read_source in Hrun. simpl in Hrun.
    match type of Hrun with
    | (if negb ?c then _ else _) _ = _ => destruct c; simpl in Hrun; [|discriminate]
    end.
    apply IH in Hrun as (-> & H1 & H2 & H3 & H4 & H5).
    simpl in *. repeat split; assumption.
Qed.

Lemma read_metadata_ok w w' :
  dump_handle_read_metadata w = (Ok tt, w') ->
  w_handle w'
  = set_encrypted_metadata_fields
      (wrap64 (Z.land (encrypted_metadata1_offset (scanned_locals w)) 0x0000ffffffffffff
               * dh_block_size (w_handle w)))
      (wrap64 (Z.land (encrypted_metadata2_offset (scanned_locals w)) 0x0000ffffffffffff
               * dh_block_size (w_handle w)))
      (wrap64 (encrypted_metadata_size (scanned_locals w) * dh_block_size (w_handle w)))
      (w_handle w)
  /\ w_source w' = w_source w /\ w_destination w' = w_destination w.
Proof.
  unfold dump_handle_read_metadata, bind, gets. intros Hrun.
  destruct (dh_metadata_size (w_handle w) =? 0); [discriminate|].
  destruct (read_metadata_loop [0; 1; 2; 3] read_metadata_locals_initial w)
    as [[l|e] w1] eqn:Hloop; [|discriminate].
  apply read_metadata_loop_ok in Hloop as (-> & H1 & H2 & H3 & _).
  unfold modify in Hrun. injection Hrun as <-. simpl.
  rewrite H1. auto.
Qed.

Lemma scan_invariant_initial w : scan_invariant w [] read_metadata_locals_initial.
Proof.
  unfold scan_invariant. simpl. repeat split; try lia; try tauto.
Qed.

Lemma scan_invariant_step w done i l :
  scan_invariant w done l ->
  scan_invariant w (done ++ [i]) (read_metadata_examine (metadata_copy w i) i l).
Proof.
  intros (Hmax & Hpos & Hzero & Hbest & Hfields).
  unfold read_metadata_examine.
  fold (copy_transaction_id w i). fold (copy_descriptor_offset w i).
  destruct (Z.ltb_spec (highest_transaction_id l) (copy_transaction_id w i)) as [Hnew|Hold].
  - (* copy [i] sets a new highest identifier *)
    assert (Hbefore : forall j, In j done ->
                        copy_transaction_id w j < copy_transaction_id w i).
    { intros j Hj. specialize (Hmax j Hj). lia. }
    destruct (Z.ltb_spec 64 (copy_descriptor_offset w i)) as [Hdesc|Hnodesc];
      unfold scan_invariant; cbn [highest_transaction_id best_metadata_index];
      (split; [|split; [|split; [|split]]]); try lia.
    + intros j Hj. apply in_app_iff in Hj as [Hj|[<-|[]]]; [|lia].
      specialize (Hbefore j Hj). lia.
    + intros _. exists done, []. auto.
    + right. exists done, i, []. repeat split; try assumption; lia.
    + intros j Hj. apply in_app_iff in Hj as [Hj|[<-|[]]]; [|lia].
      specialize (Hbefore j Hj). lia.
    + intros _. exists done, []. auto.
    + destruct Hfields as [Hf|(pre & k & post & -> & Hk)].
      * left. exact Hf.
      * right. exists pre, k, (post ++ [i]). rewrite <- app_assoc. split; [reflexivity|].
        exact Hk.
  - (* copy [i] is passed over *)
    unfold scan_invariant. split; [|split; [|split; [|split]]]; try assumption.
    + intros j Hj. apply in_app_iff in Hj as [Hj|[<-|[]]]; [apply Hmax, Hj|lia].
    + intros H. destruct (Hbest H) as (pre & post & -> & Hb).
      exists pre, (post ++ [i]). rewrite <- app_assoc. split; [reflexivity|exact Hb].
    + destruct Hfields as [Hf|(pre & k & post & -> & Hk)].
      * left. exact Hf.
      * right. exists pre, k, (post ++ [i]). rewrite <- app_assoc. split; [reflexivity|].
        exact Hk.
Qed.

Lemma scan_invariant_fold w indices done l :
  scan_invariant w done l ->
  scan_invariant w (done ++ indices)
    (fold_left (fun l i => read_metadata_examine (metadata_copy w i) i l) indices l).
Proof.
  revert done l. induction indices as [|i indices IH]; intros done l H; simpl.
  - rewrite app_nil_r. exact H.
  - replace (done ++ i :: indices) with ((done ++ [i]) ++ indices)
      by (rewrite <- app_assoc; reflexivity).
    apply IH, scan_invariant_step, H.
Qed.

Lemma scanned_locals_invariant w : scan_invariant w [0; 1; 2; 3] (scanned_locals w).
Proof. apply (scan_invariant_fold w [0; 1; 2; 3] []), scan_invariant_initial. Qed.

(** A position in the list of indices 0, 1, 2, 3: what precedes index [i]
    are the indices below [i]. *)
Lemma four_indices_split pre i post :
  [0; 1; 2; 3] = pre ++ i :: post ->
  0 <= i <= 3 /\ forall j, 0 <= j < i -> In j pre.
Proof.
  intros H.
  destruct pre as [|p0 [|p1 [|p2 [|p3 [|p4 pre]]]]]; simpl in H;
    try (injection H as <- <- <- <- ?); try (injection H as <- <- <- ?);
    try (injection H as <- <- ?); try (injection H as <- ?);
    try discriminate.
  all: split; [lia|]; intros j Hj; simpl;
    assert (j = 0 \/ j = 1 \/ j = 2 \/ j = 3) by lia; intuition lia.
Qed.

(** The scan never consults the best-metadata flag. *)
Lemma read_metadata_loop_ignores_flag b indices l w :
  read_metadata_loop indices l (set_best_metadata_only b w)
  = (fst (read_metadata_loop indices l w),
     set_best_metadata_only b (snd (read_metadata_loop indices l w))).
Proof.
  revert l w. induction indices as [|i indices IH]; intros l w.
  - reflexivity.
  - simpl. unfold bind, gets, lseek_source. simpl.
    destruct (negative_off_t _); [reflexivity|].
    unfold modify, read_source. simpl.
    match goal with |- context [negb ?c] => destruct c end; simpl; [|reflexivity].
    apply (IH _ (set_source_position _ w)).
Qed.

Lemma read_metadata_ignores_flag b w :
  dump_handle_read_metadata (set_best_metadata_only b w)
  = (fst (dump_handle_read_metadata w),
     set_best_metadata_only b (snd (dump_handle_read_metadata w))).
Proof.
  unfold dump_handle_read_metadata, bind, gets.
  change (dh_metadata_size (w_handle (set_best_metadata_only b w)))
    with (dh_metadata_size (w_handle w)).
  destruct (dh_metadata_size (w_handle w) =? 0); [reflexivity|].
  rewrite read_metadata_loop_ignores_flag.
  destruct (read_metadata_loop [0; 1; 2; 3] read_metadata_locals_initial w)
    as [[l|e] w1]; reflexivity.
Qed.

(** Nothing in the first half of the dump touches the encrypted
    metadata fields of the handle. *)
Lemma keeps_lseek_source offset : keeps no_encrypted_metadata (lseek_source offset).
Proof.
  unfold lseek_source. destruct (negative_off_t offset);
    [apply keeps_raise | apply keeps_modify; auto].
Qed.

Lemma keeps_lseek_destination offset :
  keeps no_encrypted_metadata (lseek_destination offset).
Proof.
  unfold lseek_destination. destruct (negative_off_t offset);
    [apply keeps_raise | apply keeps_modify; auto].
Qed.

Lemma keeps_read_source size : keeps no_encrypted_metadata (read_source size).
Proof. intros w H. exact H. Qed.

Lemma keeps_write_destination data : keeps no_encrypted_metadata (write_destination data).
Proof. apply keeps_modify. auto. Qed.

Lemma keeps_add_bytes_copied n : keeps no_encrypted_metadata (add_bytes_copied n).
Proof. apply keeps_modify. auto. Qed.

Lemma keeps_copy_region_loop chunks remaining :
  keeps no_encrypted_metadata (copy_region_loop chunks remaining).
Proof.
  revert remaining. induction chunks as [|chunks IH]; intros remaining; simpl.
  - apply keeps_ret.
  - destruct (remaining <=? 0); [apply keeps_ret|].
    apply keeps_bind; [apply keeps_gets|intros abort].
    destruct (negb (abort =? 0)); [apply keeps_raise|].
    apply keeps_bind; [apply keeps_read_source|intros buffer].
    destruct (negb _); [apply keeps_raise|].
    apply keeps_bind; [apply keeps_write_destination|intros _].
    apply keeps_bind; [apply keeps_add_bytes_copied|intros _]. apply IH.
Qed.

Lemma keeps_copy_region source_offset destination_offset size :
  keeps no_encrypted_metadata
    (dump_handle_copy_region source_offset destination_offset size).
Proof.
  unfold dump_handle_copy_region. destruct (size =? 0); [apply keeps_ret|].
  apply keeps_bind; [apply keeps_lseek_source|intros _].
  apply keeps_bind; [apply keeps_lseek_destination|intros _].
  apply keeps_copy_region_loop.
Qed.

Lemma keeps_write_corrected_metadata so d c1 c2 :
  keeps no_encrypted_metadata (dump_handle_write_corrected_metadata so d c1 c2).
Proof.
  unfold dump_handle_write_corrected_metadata.
  apply keeps_bind; [apply keeps_gets|intros h].
  apply keeps_bind; [apply keeps_lseek_source|intros _].
  apply keeps_bind; [apply keeps_read_source|intros data].
  destruct (negb _); [apply keeps_raise|].
  apply keeps_bind; [apply keeps_gets|intros g].
  destruct (correct_metadata_block _ _ _ _ _ _) as [corrected g'].
  apply keeps_bind; [apply keeps_modify; auto|intros _].
  apply keeps_bind; [apply keeps_lseek_destination|intros _].
  apply keeps_bind; [apply keeps_write_destination|intros _].
  apply keeps_add_bytes_copied.
Qed.

Lemma keeps_write_corrected_volume_header :
  keeps no_encrypted_metadata dump_handle_write_corrected_volume_header.
Proof.
  unfold dump_handle_write_corrected_volume_header.
  apply keeps_bind; [apply keeps_gets|intros h].
  apply keeps_bind; [apply keeps_lseek_source|intros _].
  apply keeps_bind; [apply keeps_read_source|intros data].
  destruct (negb _); [apply keeps_raise|].
  apply keeps_bind; [apply keeps_gets|intros g].
  destruct (correct_volume_header _ _ _ _) as [corrected g'].
  apply keeps_bind; [apply keeps_modify; auto|intros _].
  apply keeps_bind; [apply keeps_lseek_destination|intros _].
  apply keeps_bind; [apply keeps_write_destination|intros _].
  apply keeps_add_bytes_copied.
Qed.

Lemma keeps_dump_metadata_regions indices current_offset :
  keeps no_encrypted_metadata (dump_metadata_regions indices current_offset).
Proof.
  revert current_offset. induction indices as [|i indices IH]; intros current_offset; simpl.
  - apply keeps_ret.
  - apply keeps_bind; [apply keeps_gets|intros h].
    destruct (negb (dh_compact h =? 0)).
    + apply keeps_bind; [apply keeps_on_error, keeps_write_corrected_metadata|intros _].
      apply IH.
    + apply keeps_bind; [apply keeps_on_error, keeps_copy_region|intros _]. apply IH.
Qed.

Lemma keeps_dump_header_and_metadata :
  keeps no_encrypted_metadata dump_header_and_metadata.
Proof.
  unfold dump_header_and_metadata.
  apply keeps_bind; [apply keeps_modify; auto|intros _].
  apply keeps_bind; [apply keeps_gets|intros h].
  apply keeps_bind.
  - destruct (dh_compact h =? 0); [|apply keeps_ret].
    unfold ftruncate_destination.
    apply keeps_bind; [apply keeps_gets|intros limit].
    destruct (negative_off_t _ || _);
      [apply keeps_raise | apply keeps_modify; auto].
  - intros _. apply keeps_bind; [|intros co; apply keeps_dump_metadata_regions].
    destruct (negb (dh_compact h =? 0)).
    + apply keeps_bind; [apply keeps_on_error, keeps_write_corrected_volume_header|].
      intros _. apply keeps_ret.
    + apply keeps_bind; [apply keeps_on_error, keeps_copy_region|].
      intros _. apply keeps_ret.
Qed.

(** Without encrypted metadata on the handle the dump is its first half:
    both "Copy encrypted metadata" blocks are skipped. *)
Lemma dump_without_encrypted_metadata w :
  no_encrypted_metadata w ->
  snd (dump_handle_dump w) = snd (dump_header_and_metadata w) /\
  (fst (dump_handle_dump w) = Ok tt <->
   exists current_offset, fst (dump_header_and_metadata w) = Ok current_offset).
Proof.
  intros Hno. pose proof (keeps_dump_header_and_metadata w Hno) as Hkept.
  unfold dump_handle_dump, bind.
  destruct (dump_header_and_metadata w) as [[current_offset|e] w1]; simpl in *.
  - destruct Hkept as (H1 & H2 & _). unfold gets, dump_encrypted_metadata, bind.
    rewrite H1, H2. simpl. split; [reflexivity|]. split; eauto.
  - split; [reflexivity|]. split; [discriminate|]. intros (? & ?). discriminate.
Qed.

Lemma fields_invariant_initial w : fields_invariant w 0 read_metadata_locals_initial.
Proof.
  unfold fields_invariant. cbn [highest_transaction_id read_metadata_locals_initial].
  split; [lia|]. split; [intros; lia|]. split; [left; reflexivity|].
  split; [intros; lia|]. intros _. reflexivity.
Qed.

Lemma fields_invariant_step w k l :
  0 <= k -> fields_invariant w k l ->
  fields_invariant w (k + 1) (read_metadata_examine (metadata_copy w k) k l).
Proof.
  intros Hk (Hpos & Hmax & Hwhere & Hlast & Hnone).
  unfold read_metadata_examine.
  fold (copy_transaction_id w k). fold (copy_descriptor_offset w k).
  destruct (Z.ltb_spec (highest_transaction_id l) (copy_transaction_id w k)) as [Hnew|Hold].
  - (* copy [k] sets a new highest identifier *)
    assert (Hexceeds : exceeds_earlier_copies w k).
    { split; [lia|]. intros j Hj. specialize (Hmax j Hj). lia. }
    assert (Hhighest : forall d, highest_transaction_id
                         (mk_locals (fst (fst d)) (snd (fst d)) (snd d)
                            (copy_transaction_id w k) k) = copy_transaction_id w k)
      by reflexivity.
    destruct (Z.ltb_spec 64 (copy_descriptor_offset w k)) as [Hdesc|Hnodesc];
      cbv zeta; unfold fields_invariant;
      cbn [highest_transaction_id locals_fields encrypted_metadata_size
           encrypted_metadata1_offset encrypted_metadata2_offset].
    + split; [lia|]. split.
      { intros j Hj. destruct (Z.eq_dec j k) as [->|]; [lia|].
        specialize (Hmax j ltac:(lia)). lia. }
      split; [right; exists k; split; [lia|reflexivity]|]. split.
      * intros i Hi Hadopts Hlater. destruct (Z.eq_dec i k) as [->|Hne].
        -- reflexivity.
        -- exfalso. apply (Hlater k); [lia|]. split; assumption.
      * intros Hno. exfalso. apply (Hno k); [lia|]. split; assumption.
    + split; [lia|]. split.
      { intros j Hj. destruct (Z.eq_dec j k) as [->|]; [lia|].
        specialize (Hmax j ltac:(lia)). lia. }
      split; [right; exists k; split; [lia|reflexivity]|]. split.
      * intros i Hi Hadopts Hlater. destruct (Z.eq_dec i k) as [->|Hne].
        -- destruct Hadopts as [_ Hd]. lia.
        -- apply Hlast; [lia|exact Hadopts|]. intros j Hj. apply Hlater. lia.
      * intros Hno. apply Hnone. intros i Hi. apply Hno. lia.
  - (* copy [k] is passed over *)
    assert (Hnot : ~ adopts w k).
    { intros [[Hpositive Hbefore] _]. destruct Hwhere as [Hzero|(j & Hj & Heq)].
      - lia.
      - specialize (Hbefore j Hj). lia. }
    unfold fields_invariant. split; [exact Hpos|]. split.
    { intros j Hj. destruct (Z.eq_dec j k) as [->|]; [lia|]. apply Hmax. lia. }
    split.
    { destruct Hwhere as [Hzero|(j & Hj & Heq)]; [left; exact Hzero|].
      right. exists j. split; [lia|exact Heq]. }
    split.
    + intros i Hi Hadopts Hlater. destruct (Z.eq_dec i k) as [->|Hne]; [contradiction|].
      apply Hlast; [lia|exact Hadopts|]. intros j Hj. apply Hlater. lia.
    + intros Hno. apply Hnone. intros i Hi. apply Hno. lia.
Qed.

Lemma scanned_locals_fields w : fields_invariant w 4 (scanned_locals w).
Proof.
  unfold scanned_locals. cbn [fold_left].
  apply (fields_invariant_step w 3); [lia|].
  apply (fields_invariant_step w 2); [lia|].
  apply (fields_invariant_step w 1); [lia|].
  apply (fields_invariant_step w 0); [lia|].
  apply fields_invariant_initial.
Qed.

(** C10. For a source whose metadata copies hold the bytes the scan
    reads ([descriptors_in_bounds]): when [dump_handle_read_metadata]
    succeeds, the handle receives the descriptor fields gathered by the
    scan of the four copies in index order, and:
    - the fields are those of the last copy the scan adopts, a copy
      whose transaction identifier exceeds zero and that of every
      earlier copy and whose descriptor offset exceeds 64; they are zero
      when there is no such copy;
    - the highest identifier is at least that of every copy and, when it
      is not zero, the best index is the lowest index that carries it;
      the fields are those of this first highest copy when its
      descriptor offset exceeds 64;
    - the best-metadata flag has no influence on the result;
    - when the four identifiers are zero, offsets and size stay zero, and
      the dump that follows is its header-and-metadata half: neither
      encrypted metadata region is copied. *)
Theorem read_metadata_adopts_first_highest_copy (w : dump_world) :
  descriptors_in_bounds w ->
  fst (dump_handle_read_metadata w) = Ok tt ->
  w_handle (snd (dump_handle_read_metadata w))
  = set_encrypted_metadata_fields
      (wrap64 (Z.land (encrypted_metadata1_offset (scanned_locals w)) 0x0000ffffffffffff
               * dh_block_size (w_handle w)))
      (wrap64 (Z.land (encrypted_metadata2_offset (scanned_locals w)) 0x0000ffffffffffff
               * dh_block_size (w_handle w)))
      (wrap64 (encrypted_metadata_size (scanned_locals w) * dh_block_size (w_handle w)))
      (w_handle w)
  /\
  (forall i, 0 <= i <= 3 -> adopts w i ->
     (forall j, i < j <= 3 -> ~ adopts w j) ->
     locals_fields (scanned_locals w) = copy_descriptor_fields w i)
  /\
  ((forall i, 0 <= i <= 3 -> ~ adopts w i) ->
   locals_fields (scanned_locals w) = (0, 0, 0))
  /\
  (forall i, 0 <= i <= 3 ->
     copy_transaction_id w i <= highest_transaction_id (scanned_locals w))
  /\
  (0 < highest_transaction_id (scanned_locals w) ->
     0 <= best_metadata_index (scanned_locals w) <= 3 /\
     copy_transaction_id w (best_metadata_index (scanned_locals w))
       = highest_transaction_id (scanned_locals w) /\
     (forall j, 0 <= j < best_metadata_index (scanned_locals w) ->
       copy_transaction_id w j < highest_transaction_id (scanned_locals w)) /\
     (64 < copy_descriptor_offset w (best_metadata_index (scanned_locals w)) ->
      locals_fields (scanned_locals w)
      = copy_descriptor_fields w (best_metadata_index (scanned_locals w))))
  /\
  (forall b,
     dump_handle_read_metadata (set_best_metadata_only b w)
     = (Ok tt, set_best_metadata_only b (snd (dump_handle_read_metadata w))))
  /\
  ((forall i, 0 <= i <= 3 -> copy_transaction_id w i = 0) ->
   no_encrypted_metadata (snd (dump_handle_read_metadata w)) /\
   snd (dump_handle_dump (snd (dump_handle_read_metadata w)))
     = snd (dump_header_and_metadata (snd (dump_handle_read_metadata w))) /\
   (fst (dump_handle_dump (snd (dump_handle_read_metadata w))) = Ok tt <->
    exists current_offset,
      fst (dump_header_and_metadata (snd (dump_handle_read_metadata w)))
      = Ok current_offset)).
Proof.
  intros _ Hok.
  destruct (dump_handle_read_metadata w) as [o w'] eqn:Hrun. simpl in Hok. subst o.
  destruct (read_metadata_ok w w' Hrun) as (Hhandle & _).
  destruct (scanned_locals_invariant w) as (Hmax & Hpos & Hzero & Hbest & Hfields).
  destruct (scanned_locals_fields w) as (_ & _ & _ & Hlast & Hnone).
  assert (Horigin :
            locals_fields (scanned_locals w) = (0, 0, 0) \/
            exists i, 0 <= i <= 3 /\ exceeds_earlier_copies w i /\
              64 < copy_descriptor_offset w i /\
              locals_fields (scanned_locals w) = copy_descriptor_fields w i).
  { destruct Hfields as [Hf|(pre & i & post & Hsplit & Hi & Hpre & Hd & Hf)];
      [left; exact Hf|right].
    apply four_indices_split in Hsplit as (Hrange & Hbelow).
    exists i. repeat split; try assumption; try lia.
    intros j Hj. apply Hpre, Hbelow, Hj. }
  cbn [snd]. split; [exact Hhandle|].
  split; [intros i Hi Ha Hlater; apply Hlast; [lia|exact Ha|];
          intros j Hj; apply Hlater; lia|].
  split; [intros Hno; apply Hnone; intros i Hi; apply Hno; lia|].
  split; [|split; [|split]].
  - intros i Hi. apply Hmax. simpl.
    assert (i = 0 \/ i = 1 \/ i = 2 \/ i = 3) by lia. intuition.
  - intros Hhigh. destruct (Hbest Hhigh) as (pre & post & Hsplit & Heq & Hpre).
    apply four_indices_split in Hsplit as (Hrange & Hbelow).
    split; [exact Hrange|]. split; [exact Heq|].
    assert (Hlower : forall j, 0 <= j < best_metadata_index (scanned_locals w) ->
              copy_transaction_id w j < highest_transaction_id (scanned_locals w)).
    { intros j Hj. apply Hpre, Hbelow, Hj. }
    split; [exact Hlower|].
    intros Hdesc. apply Hlast; [lia| |].
    + split; [|exact Hdesc]. split; [lia|]. intros j Hj. rewrite Heq. apply Hlower, Hj.
    + intros j Hj [[_ Hbefore] _].
      specialize (Hbefore (best_metadata_index (scanned_locals w)) ltac:(lia)).
      assert (copy_transaction_id w j <= highest_transaction_id (scanned_locals w)).
      { apply Hmax. simpl. assert (j = 0 \/ j = 1 \/ j = 2 \/ j = 3) by lia. intuition. }
      lia.
  - intros b. rewrite read_metadata_ignores_flag, Hrun. reflexivity.
  - intros Hall.
    assert (Hf : locals_fields (scanned_locals w) = (0, 0, 0)).
    { destruct Horigin as [Hf|(i & Hi & (Hpositive & _) & _)]; [exact Hf|].
      rewrite (Hall i Hi) in Hpositive. lia. }
    unfold locals_fields in Hf. injection Hf as Hs H1 H2.
    assert (Hno : no_encrypted_metadata w').
    { unfold no_encrypted_metadata. rewrite Hhandle, Hs, H1, H2. simpl.
      repeat split; reflexivity. }
    split; [exact Hno|]. apply dump_without_encrypted_metadata, Hno.
Qed.

(** Copies with identifiers 5, 9, 9, 3: the first copy that carries 9 is
    the best one, and its fields are taken. *)
Lemma read_metadata_adopts_first_highest_copy_witness :
  descriptors_in_bounds (small_world 5 9 9 3) /\
  fst (dump_handle_read_metadata (small_world 5 9 9 3)) = Ok tt /\
  best_metadata_index (scanned_locals (small_world 5 9 9 3)) = 1 /\
  locals_fields (scanned_locals (small_world 5 9 9 3))
  = copy_descriptor_fields (small_world 5 9 9 3) 1.
Proof.
  assert (Hbounds : descriptors_in_bounds (small_world 5 9 9 3)).
  { split; [vm_compute; split; [discriminate|reflexivity]|]. intros i Hi _.
    assert (Hcases : i = 0 \/ i = 1 \/ i = 2 \/ i = 3) by lia.
    destruct Hcases as [->|[->|[->| ->]]]; vm_compute; discriminate. }
  assert (Hok : fst (dump_handle_read_metadata (small_world 5 9 9 3)) = Ok tt)
    by (vm_compute; reflexivity).
  assert (Hbest : best_metadata_index (scanned_locals (small_world 5 9 9 3)) = 1)
    by (vm_compute; reflexivity).
  split; [exact Hbounds|]. split; [exact Hok|]. split; [exact Hbest|].
  destruct (read_metadata_adopts_first_highest_copy (small_world 5 9 9 3) Hbounds Hok)
    as (_ & _ & _ & _ & Hfirst & _).
  destruct Hfirst as (_ & _ & _ & Hfields); [vm_compute; reflexivity|].
  rewrite Hbest in Hfields. apply Hfields. vm_compute. reflexivity.
Defined.

(* ################################################################# *)
(** * Further properties of the code *)

(* ================================================================= *)
(** ** Block lookups in the extent store *)

Lemma find_physical_scan_find b l :
  ascending physical_block_start l ->
  Forall (fun e => is_u64 (physical_block_start e) /\ is_u64 (physical_block_count e)
                   /\ physical_end_fits e) l ->
  find_physical_scan b l = List.find (contains_physical b) l.
Proof.
  intros Hasc Hall. induction l as [|e l IH]; simpl; [reflexivity|].
  inversion Hasc as [|? ? Hasc' Hle]; subst.
  inversion Hall as [|? ? (Hs & Hc & Hfit) Hall']; subst.
  unfold is_u64, physical_end_fits in *.
  unfold contains_physical at 1. rewrite wrap64_small by lia.
  destruct ((physical_block_start e <=? b)
            && (b <? physical_block_start e + physical_block_count e)); [reflexivity|].
  destruct (Z.ltb_spec b (physical_block_start e)) as [Hexit|Hgo].
  - symmetry. apply find_none_intro. intros x Hx.
    rewrite List.Forall_forall in Hle. specialize (Hle x Hx). unfold key_le in Hle.
    unfold contains_physical. apply andb_false_iff. left. apply Z.leb_gt. lia.
  - apply IH; assumption.
Qed.

Lemma find_logical_scan_find b l :
  ascending logical_block_start l ->
  Forall (fun e => is_u64 (logical_block_start e) /\ is_u64 (physical_block_count e)
                   /\ logical_end_fits e) l ->
  find_logical_scan b l = List.find (contains_logical b) l.
Proof.
  intros Hasc Hall. induction l as [|e l IH]; simpl; [reflexivity|].
  inversion Hasc as [|? ? Hasc' Hle]; subst.
  inversion Hall as [|? ? (Hs & Hc & Hfit) Hall']; subst.
  unfold is_u64, logical_end_fits in *.
  unfold contains_logical at 1. rewrite wrap64_small by lia.
  destruct ((logical_block_start e <=? b)
            && (b <? logical_block_start e + physical_block_count e)); [reflexivity|].
  destruct (Z.ltb_spec b (logical_block_start e)) as [Hexit|Hgo].
  - symmetry. apply find_none_intro. intros x Hx.
    rewrite List.Forall_forall in Hle. specialize (Hle x Hx). unfold key_le in Hle.
    unfold contains_logical. apply andb_false_iff. left. apply Z.leb_gt. lia.
  - apply IH; assumption.
Qed.

Lemma marked_on_lv_in l ops e :
  In e (marked_on_lv l ops) ->
  exists p s c ls t m b,
    In (MarkAllocated p s c l ls t m b) ops /\ e = allocated_extent p s c l ls t m b.
Proof.
  unfold marked_on_lv. rewrite in_flat_map. intros (op & Hop & He).
  destruct op as [| | | |p s c l' ls t m b]; try destruct He.
  destruct (Z.eqb_spec l' l) as [->|]; [|destruct He].
  destruct He as [<-|[]]. exists p, s, c, ls, t, m, b. auto.
Qed.

Lemma reachable_lv_ascending st l :
  reachable st -> 0 <= l < num_logical_volumes st ->
  ascending logical_block_start (lv_extents st l).
Proof.
  intros (ops & Hty & Hrun) Hl.
  destruct (run_ops_store_follows ops st Hty Hrun) as (_ & _ & _ & Hlv & _).
  rewrite (Hlv l Hl). apply insert_all_ascending.
Qed.

(** What a reachable store holds on logical volume [l] was allocated to
    [l] with arguments of the C types. *)
Lemma reachable_lv_stored_typed st l e :
  reachable st -> 0 <= l < num_logical_volumes st -> In e (lv_extents st l) ->
  logical_volume_index e = l /\ state e = FVDECHECK_EXTENT_STATE_ALLOCATED /\
  is_u64 (logical_block_start e) /\ is_u64 (physical_block_count e).
Proof.
  intros (ops & Hty & Hrun) Hl Hin.
  destruct (run_ops_store_follows ops st Hty Hrun) as (_ & _ & _ & Hlv & _).
  rewrite (Hlv l Hl), insert_all_in in Hin.
  apply marked_on_lv_in in Hin as (p & s & c & ls & t & m & b & Hop & ->).
  rewrite List.Forall_forall in Hty. specialize (Hty _ Hop). simpl in Hty.
  simpl. tauto.
Qed.

Lemma find_physical_extent_is_find st pv b :
  reachable st -> 0 <= pv < num_physical_volumes st ->
  Forall physical_end_fits (pv_extents st pv) ->
  fvdecheck_volume_state_find_physical_extent st pv b
  = List.find (contains_physical b) (pv_extents st pv).
Proof.
  intros Hreach Hpv Hfit.
  unfold fvdecheck_volume_state_find_physical_extent, pv_extents in *.
  destruct (Z.leb_spec (num_physical_volumes st) pv); [lia|].
  pose proof (reachable_ascending st pv Hreach Hpv) as Hasc.
  pose proof (reachable_stored_typed st pv) as Hty.
  unfold pv_extents in Hasc, Hty.
  destruct (physical_volumes st !! Z.to_nat pv) as [pv_info|]; [|reflexivity].
  apply find_physical_scan_find; [assumption|].
  rewrite List.Forall_forall in *. intros e He.
  destruct (Hty e Hreach Hpv He) as (_ & H1 & H2). auto.
Qed.

Lemma contains_physical_spec b e :
  contains_physical b e = true <->
  physical_block_start e <= b < physical_block_start e + physical_block_count e.
Proof.
  unfold contains_physical. rewrite andb_true_iff, Z.leb_le, Z.ltb_lt. tauto.
Qed.

(** X1. On a reachable store whose extents on [pv] end within the 64-bit
    block space, [find_physical_extent(pv, b)] returns the first extent
    of the pv-list that contains [b]: what it returns contains [b] and is
    stored on [pv], and it returns nothing exactly when no extent of the
    list contains [b]. *)
Theorem find_physical_extent_first_containing st pv b :
  reachable st -> 0 <= pv < num_physical_volumes st ->
  Forall physical_end_fits (pv_extents st pv) ->
  fvdecheck_volume_state_find_physical_extent st pv b
    = List.find (contains_physical b) (pv_extents st pv) /\
  (forall e, fvdecheck_volume_state_find_physical_extent st pv b = Some e ->
     In e (pv_extents st pv) /\ physical_volume_index e = pv /\
     physical_block_start e <= b < physical_block_start e + physical_block_count e) /\
  (fvdecheck_volume_state_find_physical_extent st pv b = None <->
   forall e, In e (pv_extents st pv) ->
     ~ physical_block_start e <= b < physical_block_start e + physical_block_count e).
Proof.
  intros Hreach Hpv Hfit.
  pose proof (find_physical_extent_is_find st pv b Hreach Hpv Hfit) as Hfind.
  split; [exact Hfind|]. rewrite Hfind. split.
  - intros e Hf. apply List.find_some in Hf as (Hin & Htest).
    split; [exact Hin|]. split; [apply (reachable_stored_typed st pv e Hreach Hpv Hin)|].
    unfold contains_physical in Htest. apply andb_true_iff in Htest as [H1 H2].
    apply Z.leb_le in H1. apply Z.ltb_lt in H2. lia.
  - split.
    + intros Hnone e Hin Hc. apply (List.find_none _ _ Hnone) in Hin.
      unfold contains_physical in Hin. apply andb_false_iff in Hin as [H|H];
        [apply Z.leb_gt in H | apply Z.ltb_ge in H]; lia.
    + intros Hall. apply find_none_intro. intros e Hin. specialize (Hall e Hin).
      unfold contains_physical. apply andb_false_iff.
      destruct (Z.leb_spec (physical_block_start e) b); [right|left; reflexivity].
      apply Z.ltb_ge. lia.
Qed.

Lemma find_physical_extent_first_containing_witness :
  fvdecheck_volume_state_find_physical_extent S2_example_state 0 12
  = List.find (contains_physical 12) (pv_extents S2_example_state 0).
Proof.
  refine (proj1 (find_physical_extent_first_containing S2_example_state 0 12
                   S2_example_reachable _ _)).
  - simpl. lia.
  - evaluate (pv_extents S2_example_state 0).
    repeat constructor; unfold physical_end_fits; simpl; lia.
Defined.

(** X2. On a reachable store whose extents on [lv] end within the 64-bit
    block space in logical addresses, [find_logical_extent(lv, b)] returns
    the first extent of the lv-list whose logical window
    [[logical_start, logical_start + phys_count)] contains [b]; the extent
    is Allocated and belongs to [lv]. *)
Theorem find_logical_extent_first_containing st lv b :
  reachable st -> 0 <= lv < num_logical_volumes st ->
  Forall logical_end_fits (lv_extents st lv) ->
  fvdecheck_volume_state_find_logical_extent st lv b
    = List.find (contains_logical b) (lv_extents st lv) /\
  (forall e, fvdecheck_volume_state_find_logical_extent st lv b = Some e ->
     In e (lv_extents st lv) /\ logical_volume_index e = lv /\
     state e = FVDECHECK_EXTENT_STATE_ALLOCATED /\
     logical_block_start e <= b < logical_block_start e + physical_block_count e).
Proof.
  intros Hreach Hlv Hfit.
  assert (Hfind : fvdecheck_volume_state_find_logical_extent st lv b
                  = List.find (contains_logical b) (lv_extents st lv)).
  { unfold fvdecheck_volume_state_find_logical_extent, lv_extents in *.
    destruct (Z.leb_spec (num_logical_volumes st) lv); [lia|].
    pose proof (reachable_lv_ascending st lv Hreach Hlv) as Hasc.
    pose proof (reachable_lv_stored_typed st lv) as Hty.
    unfold lv_extents in Hasc, Hty.
    destruct (logical_volumes st !! Z.to_nat lv) as [lv_info|]; [|reflexivity].
    apply find_logical_scan_find; [assumption|].
    rewrite List.Forall_forall in *. intros e He.
    destruct (Hty e Hreach Hlv He) as (_ & _ & H1 & H2). auto. }
  split; [exact Hfind|]. rewrite Hfind.
  intros e Hf. apply List.find_some in Hf as (Hin & Htest).
  destruct (reachable_lv_stored_typed st lv e Hreach Hlv Hin) as (H1 & H2 & _).
  split; [exact Hin|]. split; [exact H1|]. split; [exact H2|].
  unfold contains_logical in Htest. apply andb_true_iff in Htest as [H3 H4].
  apply Z.leb_le in H3. apply Z.ltb_lt in H4. lia.
Qed.

Lemma find_logical_extent_first_containing_witness :
  fvdecheck_volume_state_find_logical_extent S2_example_state 0 6
  = List.find (contains_logical 6) (lv_extents S2_example_state 0).
Proof.
  refine (proj1 (find_logical_extent_first_containing S2_example_state 0 6
                   S2_example_reachable _ _)).
  - simpl. lia.
  - evaluate (lv_extents S2_example_state 0).
    repeat constructor; unfold logical_end_fits; simpl; lia.
Defined.

(* ================================================================= *)
(** ** A mark and the lookups after it *)

Lemma run_ops_snoc_intro ops op st st1 st' :
  run_ops ops st = (Ok tt, st1) -> run_op op st1 = (Ok tt, st') ->
  run_ops (ops ++ [op]) st = (Ok tt, st').
Proof.
  intros H1 H2. unfold run_ops in *. rewrite for_each_app. unfold bind.
  rewrite H1. simpl. unfold bind. rewrite H2. reflexivity.
Qed.

Lemma reachable_step st op st' :
  reachable st -> op_well_typed op -> run_op op st = (Ok tt, st') -> reachable st'.
Proof.
  intros (ops & Hty & Hrun) Hop Hstep. exists (ops ++ [op]). split.
  - apply Forall_app. split; [exact Hty|]. constructor; [exact Hop|constructor].
  - eapply run_ops_snoc_intro; eassumption.
Qed.

Lemma reachable_arrays_ok st : reachable st -> arrays_ok st.
Proof.
  intros (ops & Hty & Hrun). apply (run_ops_store_follows ops st Hty Hrun).
Qed.

(** A successful mark puts its extent on the list of its physical
    volume, and leaves the number of volumes as it was. *)
Lemma run_op_marks st op e st' :
  arrays_ok st -> op_well_typed op -> extent_of_op op = Some e ->
  run_op op st = (Ok tt, st') ->
  0 <= physical_volume_index e < num_physical_volumes st /\
  num_physical_volumes st' = num_physical_volumes st /\
  pv_extents st' (physical_volume_index e)
  = insert_extent physical_block_start e (pv_extents st (physical_volume_index e)).
Proof.
  intros (Hn & Hlen & Hm & Hlenl) Hty He Hrun.
  destruct op as [| |p s c d|p s c t m b|p s c l ls t m b]; try discriminate;
    simpl in He; injection He as <-; simpl in Hty; simpl in Hrun;
    unfold is_u32, is_u64 in Hty.
  - unfold fvdecheck_volume_state_mark_reserved, bind, gets, modify, raise in Hrun.
    destruct (Z.leb_spec (num_physical_volumes st) p); simpl in Hrun; [discriminate|].
    injection Hrun as <-. store_frame.
    destruct (insert_physical_frame st p (reserved_extent p s c d)) as (E1 & _).
    cbn [physical_volume_index reserved_extent].
    split; [lia|]. split; [exact E1|].
    rewrite pv_extents_insert_physical by lia. rewrite Z.eqb_refl. reflexivity.
  - unfold fvdecheck_volume_state_mark_free, bind, gets, modify, raise in Hrun.
    destruct (Z.leb_spec (num_physical_volumes st) p); simpl in Hrun; [discriminate|].
    injection Hrun as <-. store_frame.
    destruct (insert_physical_frame st p (free_extent p s c t m b)) as (E1 & _).
    cbn [physical_volume_index free_extent].
    split; [lia|]. split; [exact E1|].
    rewrite pv_extents_insert_physical by lia. rewrite Z.eqb_refl. reflexivity.
  - unfold fvdecheck_volume_state_mark_allocated, bind, gets, modify, raise in Hrun.
    destruct (Z.leb_spec (num_physical_volumes st) p); simpl in Hrun; [discriminate|].
    destruct (Z.leb_spec (num_logical_volumes st) l); simpl in Hrun; [discriminate|].
    injection Hrun as <-. store_frame.
    set (e := allocated_extent p s c l ls t m b).
    destruct (insert_physical_frame st p e) as (E1 & E2 & E3 & E4).
    destruct (insert_logical_frame (fvdecheck_insert_extent_physical p e st) l e)
      as (F1 & F2 & F3 & F4).
    change (physical_volume_index e) with p.
    split; [lia|]. split; [congruence|].
    unfold pv_extents at 1. rewrite F2.
    change (pv_extents (fvdecheck_insert_extent_physical p e st) p
            = insert_extent physical_block_start e (pv_extents st p)).
    rewrite pv_extents_insert_physical by lia. rewrite Z.eqb_refl. reflexivity.
Qed.

Lemma find_insert_extent_new (f : fvdecheck_extent -> bool) key e l :
  f e = true -> List.find f l = None ->
  List.find f (insert_extent key e l) = Some e.
Proof.
  intros He. induction l as [|x l IH]; simpl; intros Hnone.
  - rewrite He. reflexivity.
  - destruct (f x) eqn:Hx; [discriminate|].
    destruct (key e <? key x); simpl.
    + rewrite He. reflexivity.
    + rewrite Hx. apply IH, Hnone.
Qed.

Lemma find_exists {A} (f : A -> bool) (l : list A) x :
  In x l -> f x = true -> exists y, List.find f l = Some y /\ f y = true.
Proof.
  intros Hin Hx. destruct (List.find f l) as [y|] eqn:Hf.
  - exists y. split; [reflexivity|]. apply (List.find_some _ _ Hf).
  - rewrite (List.find_none _ _ Hf x Hin) in Hx. discriminate.
Qed.

(** X3. Round trip of a mark and a lookup.  On a reachable store where
    the extents of physical volume [pv] end below 2^64, after a
    successful mark of [s, s + c) with [s + c < 2^64] on [pv], looking up
    a block [b] of that interval on [pv] finds an extent that contains
    [b]; it is the new extent itself when no extent contained [b]
    before. *)
Theorem marked_extent_is_found st op e st' b :
  reachable st -> op_well_typed op -> extent_of_op op = Some e ->
  run_op op st = (Ok tt, st') ->
  Forall physical_end_fits (pv_extents st (physical_volume_index e)) ->
  physical_end_fits e ->
  physical_block_start e <= b < physical_block_start e + physical_block_count e ->
  (exists e',
     fvdecheck_volume_state_find_physical_extent st' (physical_volume_index e) b = Some e' /\
     physical_block_start e' <= b < physical_block_start e' + physical_block_count e') /\
  (fvdecheck_volume_state_find_physical_extent st (physical_volume_index e) b = None ->
   fvdecheck_volume_state_find_physical_extent st' (physical_volume_index e) b = Some e).
Proof.
  intros Hreach Hty He Hrun Hfit Hefit Hb.
  pose proof (reachable_step st op st' Hreach Hty Hrun) as Hreach'.
  destruct (run_op_marks st op e st' (reachable_arrays_ok st Hreach) Hty He Hrun)
    as (Hp & Hnum & Hlist).
  assert (Hfit' : Forall physical_end_fits (pv_extents st' (physical_volume_index e))).
  { rewrite Hlist. rewrite List.Forall_forall in *. intros x Hx.
    apply insert_extent_in in Hx as [->|Hx]; auto. }
  assert (Hp' : 0 <= physical_volume_index e < num_physical_volumes st') by lia.
  rewrite (find_physical_extent_is_find st' _ b Hreach' Hp' Hfit').
  rewrite (find_physical_extent_is_find st _ b Hreach Hp Hfit).
  rewrite Hlist.
  assert (Hc : contains_physical b e = true) by (apply contains_physical_spec; exact Hb).
  split.
  - destruct (find_exists (contains_physical b)
                (insert_extent physical_block_start e
                   (pv_extents st (physical_volume_index e))) e) as (y & Hy & Hcy).
    + apply insert_extent_in. left. reflexivity.
    + exact Hc.
    + exists y. split; [exact Hy|]. apply contains_physical_spec, Hcy.
  - intros Hnone. apply find_insert_extent_new; assumption.
Qed.

Lemma marked_extent_is_found_witness :
  fvdecheck_volume_state_find_physical_extent
    (snd (run_op (MarkFree 0 20 4 7 1 0x0305) S2_example_state)) 0 22
  = Some (free_extent 0 20 4 7 1 0x0305).
Proof.
  refine (proj2 (marked_extent_is_found S2_example_state (MarkFree 0 20 4 7 1 0x0305)
                   (free_extent 0 20 4 7 1 0x0305) _ 22
                   S2_example_reachable _ eq_refl _ _ _ _) _).
  - simpl. unfold is_u32, is_u64. lia.
  - vm_compute. reflexivity.
  - evaluate (pv_extents S2_example_state
                (physical_volume_index (free_extent 0 20 4 7 1 0x0305))).
    repeat constructor; unfold physical_end_fits; simpl; lia.
  - unfold physical_end_fits. simpl. lia.
  - simpl. lia.
  - vm_compute. reflexivity.
Defined.

(** An extent that reaches 2^64: the end of its interval wraps in the
    comparison of the lookup, and its blocks are not found. *)
Lemma wrapping_extent_is_not_found :
  fst (run_op (MarkReserved 0 (2 ^ 64 - 2) 4 None) S2_example_state) = Ok tt /\
  fvdecheck_volume_state_find_physical_extent
    (snd (run_op (MarkReserved 0 (2 ^ 64 - 2) 4 None) S2_example_state)) 0 (2 ^ 64 - 1)
  = None.
Proof. split; vm_compute; reflexivity. Qed.

(* ================================================================= *)
(** ** The extent counter *)

Lemma counted_store_initial : counted_store fvdecheck_volume_state_initialize.
Proof. split; [apply store_inv_initial | vm_compute; reflexivity]. Qed.

Lemma counted_store_mark_physical st p e :
  counted_store st -> 0 <= p < num_physical_volumes st ->
  (forall l, allocated_to l e = false) ->
  counted_store (increment_total_extents (fvdecheck_insert_extent_physical p e st)).
Proof.
  intros (Hinv & Hcount) Hp He. split.
  - apply store_inv_increment, store_inv_insert_physical; assumption.
  - destruct Hinv as ((Hn & Hlen & _) & _).
    change (all_extents (increment_total_extents (fvdecheck_insert_extent_physical p e st)))
      with (all_extents (fvdecheck_insert_extent_physical p e st)).
    rewrite (Permutation_length (all_extents_insert_physical st p e Hp ltac:(lia))).
    unfold increment_total_extents. cbn [total_extents set_total_extents].
    assert (Ht : total_extents (fvdecheck_insert_extent_physical p e st) = total_extents st).
    { unfold fvdecheck_insert_extent_physical.
      destruct (num_physical_volumes st <=? p); [reflexivity|].
      destruct (physical_volumes st !! Z.to_nat p); reflexivity. }
    rewrite Ht, Hcount, wrap64_add_l. f_equal. simpl length. lia.
Qed.

Lemma counted_store_mark_allocated st p l s c ls t m b :
  counted_store st ->
  0 <= p < num_physical_volumes st -> 0 <= l < num_logical_volumes st ->
  let e := allocated_extent p s c l ls t m b in
  counted_store
    (increment_total_extents
       (fvdecheck_insert_extent_logical l e (fvdecheck_insert_extent_physical p e st))).
Proof.
  intros (Hinv & Hcount) Hp Hl e. split.
  - apply store_inv_increment, store_inv_insert_both; assumption.
  - destruct Hinv as ((Hn & Hlen & _) & _).
    destruct (insert_logical_frame (fvdecheck_insert_extent_physical p e st) l e)
      as (_ & F2 & _).
    unfold all_extents at 1.
    change (physical_volumes (increment_total_extents ?s)) with (physical_volumes s).
    rewrite F2. fold (all_extents (fvdecheck_insert_extent_physical p e st)).
    rewrite (Permutation_length (all_extents_insert_physical st p e Hp ltac:(lia))).
    unfold increment_total_extents. cbn [total_extents set_total_extents].
    assert (Ht : total_extents
                   (fvdecheck_insert_extent_logical l e
                      (fvdecheck_insert_extent_physical p e st)) = total_extents st).
    { unfold fvdecheck_insert_extent_logical.
      destruct (_ <=? l); [|destruct (_ !! Z.to_nat l)];
        unfold fvdecheck_insert_extent_physical;
        destruct (num_physical_volumes st <=? p); try reflexivity;
        destruct (physical_volumes st !! Z.to_nat p); reflexivity. }
    rewrite Ht, Hcount, wrap64_add_l. f_equal. simpl length. lia.
Qed.

Lemma all_extents_add_physical st uuid size :
  store_inv st -> num_physical_volumes st < 16 ->
  all_extents
    (set_physical_volumes (num_physical_volumes st + 1)
       (<[ Z.to_nat (num_physical_volumes st) := mk_pv (firstn 16 uuid) size [] 0 0 0 ]>
          (physical_volumes st)) st)
  = all_extents st.
Proof.
  intros (Harr & _ & (Hup & _) & _) Hlt16.
  pose proof Harr as (Hn & Hlen & _).
  assert (Hlt : (Z.to_nat (num_physical_volumes st) < length (physical_volumes st))%nat)
    by lia.
  destruct (lookup_lt_is_Some_2 _ _ Hlt) as [old Hold].
  assert (Hold_empty : pv_extent_list old = []) by (eapply Hup; [exact Hold|lia]).
  unfold all_extents. simpl. rewrite insert_take_drop by exact Hlt.
  rewrite <- (take_drop_middle _ _ _ Hold) at 3.
  rewrite !map_app, !concat_app. simpl. rewrite Hold_empty. reflexivity.
Qed.

Lemma keeps_counted_add_physical_volume uuid size :
  keeps_returning counted_store
    (fvdecheck_volume_state_add_physical_volume uuid size) (fun i => 0 <= i).
Proof.
  intros st (Hinv & Hcount). unfold fvdecheck_volume_state_add_physical_volume.
  unfold FVDECHECK_MAX_PHYSICAL_VOLUMES.
  destruct (Z.leb_spec 16 (num_physical_volumes st)); simpl.
  - split; [split; assumption | discriminate].
  - split.
    + split; [apply store_inv_add_physical; assumption|].
      rewrite all_extents_add_physical by assumption. exact Hcount.
    + intros a [= <-]. destruct Hinv as ((? & _) & _). lia.
Qed.

Lemma keeps_counted_add_logical_volume uuid size :
  keeps_returning counted_store
    (fvdecheck_volume_state_add_logical_volume uuid size) (fun i => 0 <= i).
Proof.
  intros st (Hinv & Hcount). unfold fvdecheck_volume_state_add_logical_volume.
  unfold FVDECHECK_MAX_LOGICAL_VOLUMES.
  destruct (Z.leb_spec 16 (num_logical_volumes st)); simpl.
  - split; [split; assumption | discriminate].
  - split.
    + split; [apply store_inv_add_logical; assumption|exact Hcount].
    + intros a [= <-]. destruct Hinv as ((? & ? & ? & ?) & _). lia.
Qed.

Lemma keeps_counted_mark_reserved p s c d :
  0 <= p -> keeps counted_store (fvdecheck_volume_state_mark_reserved p s c d).
Proof.
  intros Hp st H. unfold fvdecheck_volume_state_mark_reserved, bind, gets, modify, raise.
  destruct (Z.leb_spec (num_physical_volumes st) p); simpl; [exact H|].
  apply counted_store_mark_physical; [exact H|lia|reflexivity].
Qed.

Lemma keeps_counted_mark_free p s c t m b :
  0 <= p -> keeps counted_store (fvdecheck_volume_state_mark_free p s c t m b).
Proof.
  intros Hp st H. unfold fvdecheck_volume_state_mark_free, bind, gets, modify, raise.
  destruct (Z.leb_spec (num_physical_volumes st) p); simpl; [exact H|].
  apply counted_store_mark_physical; [exact H|lia|reflexivity].
Qed.

Lemma keeps_counted_mark_allocated p s c l ls t m b :
  0 <= p -> 0 <= l ->
  keeps counted_store (fvdecheck_volume_state_mark_allocated p s c l ls t m b).
Proof.
  intros Hp Hl st H.
  unfold fvdecheck_volume_state_mark_allocated, bind, gets, modify, raise.
  destruct (Z.leb_spec (num_physical_volumes st) p); simpl; [exact H|].
  destruct (Z.leb_spec (num_logical_volumes st) l); simpl; [exact H|].
  apply counted_store_mark_allocated; [exact H|lia|lia].
Qed.

Lemma keeps_counted_run_op op :
  op_well_typed op -> keeps counted_store (run_op op).
Proof.
  destruct op as [uuid size|uuid size|p s c d|p s c t m b|p s c l ls t m b];
    simpl; unfold is_u32, is_u64; intros Hty.
  - eapply keeps_bind_returning; [apply keeps_counted_add_physical_volume|].
    intros; apply keeps_ret.
  - eapply keeps_bind_returning; [apply keeps_counted_add_logical_volume|].
    intros; apply keeps_ret.
  - apply keeps_counted_mark_reserved; lia.
  - apply keeps_counted_mark_free; lia.
  - apply keeps_counted_mark_allocated; lia.
Qed.

Lemma keeps_counted_check_handle_open v : keeps counted_store (check_handle_open v).
Proof.
  unfold check_handle_open. apply keeps_bind; [|intros _].
  - apply keeps_for_each. intros pv. apply keeps_bind; [apply keeps_gets|]. intros bs.
    eapply keeps_bind_returning.
    + apply keeps_returning_on_error, keeps_counted_add_physical_volume.
    + intros i Hi. apply keeps_on_error, keeps_counted_mark_reserved, Hi.
  - apply keeps_for_each. intros lv. apply keeps_bind; [apply keeps_gets|]. intros bs.
    eapply keeps_bind_returning.
    + apply keeps_returning_on_error, keeps_counted_add_logical_volume.
    + intros; apply keeps_ret.
Qed.

Lemma keeps_counted_mark_encrypted_metadata offset size description :
  keeps counted_store (mark_encrypted_metadata 0 offset size description).
Proof.
  unfold mark_encrypted_metadata. destruct (_ && _); [|apply keeps_ret].
  apply keeps_bind; [apply keeps_gets|]. intros bs.
  apply keeps_on_error, keeps_counted_mark_reserved. lia.
Qed.

Lemma keeps_counted_check_handle_mark_metadata_reserved v :
  keeps counted_store (check_handle_mark_metadata_reserved v).
Proof.
  unfold check_handle_mark_metadata_reserved.
  destruct (ov_volume_header v); [|apply keeps_raise].
  apply keeps_bind; [|intros _].
  - apply keeps_for_each. intros i. apply keeps_bind; [apply keeps_gets|]. intros bs.
    apply keeps_on_error, keeps_counted_mark_reserved. lia.
  - destruct (ov_metadata v); [|apply keeps_ret].
    apply keeps_bind; [|intros _]; apply keeps_counted_mark_encrypted_metadata.
Qed.

Lemma keeps_counted_check_handle_process_volume v :
  keeps counted_store (check_handle_process_volume v).
Proof.
  unfold check_handle_process_volume. apply keeps_bind; [|intros _].
  - apply keeps_on_error, keeps_counted_check_handle_mark_metadata_reserved.
  - apply keeps_for_each_indexed. intros j lv. apply keeps_for_each. intros sd.
    unfold process_segment_descriptor. destruct sd; [|apply keeps_ret].
    apply keeps_on_error, keeps_counted_mark_allocated; apply wrap32_nonneg.
Qed.

Lemma run_ops_counted_store ops :
  Forall op_well_typed ops ->
  counted_store (snd (run_ops ops fvdecheck_volume_state_initialize)).
Proof.
  intros Hty.
  assert (H : keeps counted_store (run_ops ops)).
  { unfold run_ops. induction Hty as [|op ops Hop Hty IH]; simpl.
    - apply keeps_ret.
    - apply keeps_bind; [apply keeps_counted_run_op, Hop|intros _; exact IH]. }
  apply (H _ counted_store_initial).
Qed.

Lemma volume_walker_counted_store v : counted_store (snd (volume_walker v)).
Proof.
  unfold volume_walker.
  assert (H : keeps counted_store (check_handle_open v >> check_handle_process_volume v)).
  { apply keeps_bind; [apply keeps_counted_check_handle_open|intros _].
    apply keeps_counted_check_handle_process_volume. }
  apply (H _ counted_store_initial).
Qed.

(** X4. The extent counter counts the stored extents.  In every state
    the store operations or the volume walker produce, whether they end
    in success or in an error, [total_extents] is the number of nodes of
    the physical lists, as a 64-bit value. *)
Theorem total_extents_counts_stored_extents :
  (forall ops,
     Forall op_well_typed ops ->
     let st := snd (run_ops ops fvdecheck_volume_state_initialize) in
     total_extents st = wrap64 (Z.of_nat (length (all_extents st)))) /\
  (forall v,
     let st := snd (volume_walker v) in
     total_extents st = wrap64 (Z.of_nat (length (all_extents st)))).
Proof.
  split.
  - intros ops Hty. apply (run_ops_counted_store ops Hty).
  - intros v. apply (volume_walker_counted_store v).
Qed.

Lemma total_extents_counts_stored_extents_witness :
  Forall op_well_typed S2_example_ops /\
  total_extents S2_example_state
  = wrap64 (Z.of_nat (length (all_extents S2_example_state))).
Proof.
  assert (Hty : Forall op_well_typed S2_example_ops).
  { repeat constructor; unfold is_u64, is_u32; simpl; lia. }
  split; [exact Hty|].
  exact (proj1 total_extents_counts_stored_extents S2_example_ops Hty).
Defined.

(* ================================================================= *)
(** ** Statistics: recomputation and the two views of an allocation *)

Lemma map_prefix_cons {A} n (f : A -> A) x l :
  map_prefix (S n) f (x :: l) = f x :: map_prefix n f l.
Proof. reflexivity. Qed.

Lemma map_prefix_idempotent {A} n (f : A -> A) l :
  (forall x, f (f x) = f x) ->
  map_prefix n f (map_prefix n f l) = map_prefix n f l.
Proof.
  intros Hf. revert l. induction n as [|n IH]; intros l.
  - reflexivity.
  - destruct l as [|x l]; [reflexivity|].
    rewrite !map_prefix_cons, Hf, IH. reflexivity.
Qed.

Lemma pv_statistics_idempotent pv : pv_statistics (pv_statistics pv) = pv_statistics pv.
Proof.
  unfold pv_statistics at 2.
  destruct (fold_left _ (pv_extent_list pv) (0, 0, 0)) as [[r a] f] eqn:E.
  unfold pv_statistics. cbn [pv_extent_list pv_uuid pv_size_in_blocks].
  rewrite E. reflexivity.
Qed.

Lemma lv_statistics_idempotent lv : lv_statistics (lv_statistics lv) = lv_statistics lv.
Proof. reflexivity. Qed.

(** X5. Recomputing the statistics is idempotent: a second call of
    [calculate_statistics] leaves the state of the first, so the figures
    depend on the lists alone and never on figures computed earlier. *)
Theorem calculate_statistics_idempotent st :
  let st1 := snd (fvdecheck_volume_state_calculate_statistics st) in
  fvdecheck_volume_state_calculate_statistics st1 = (Ok tt, st1) /\
  all_extents st1 = all_extents st /\
  total_extents st1 = total_extents st.
Proof.
  cbv zeta. unfold fvdecheck_volume_state_calculate_statistics, modify.
  cbn [snd set_logical_volumes set_physical_volumes num_physical_volumes
       num_logical_volumes physical_volumes logical_volumes block_size
       current_transaction_id current_metadata_block_index error_count
       warning_count total_extents].
  split; [|split; [|reflexivity]].
  - rewrite (map_prefix_idempotent _ _ _ pv_statistics_idempotent).
    rewrite (map_prefix_idempotent _ _ _ lv_statistics_idempotent). reflexivity.
  - unfold all_extents. f_equal.
    unfold set_logical_volumes, set_physical_volumes. cbn [physical_volumes].
    unfold map_prefix. rewrite List.map_app, List.map_map.
    rewrite (List.map_ext _ pv_extent_list (fun pv => proj1 (pv_statistics_spec pv))).
    rewrite <- List.map_app, firstn_skipn. reflexivity.
Qed.

Lemma blocks_total_perm a b : Permutation a b -> blocks_total a = blocks_total b.
Proof.
  induction 1; simpl; try lia.
Qed.

Lemma mapped_blocks_from_physical_lists st l :
  store_inv st -> 0 <= l < num_logical_volumes st ->
  exists lv,
    logical_volumes (snd (fvdecheck_volume_state_calculate_statistics st)) !! Z.to_nat l
    = Some lv /\
    lv_mapped_blocks lv
    = wrap64 (blocks_total (List.filter (allocated_to l) (all_extents st))).
Proof.
  intros (Harr & _ & _ & H3) Hl.
  destruct (calculate_statistics_from_lists st Harr) as (_ & Hlv).
  destruct (Hlv l Hl) as (lv & Hlook & _ & Hmapped & _).
  exists lv. split; [exact Hlook|]. rewrite Hmapped. f_equal.
  apply blocks_total_perm, H3. lia.
Qed.

(** X6. The two views of an allocation agree in the statistics.  After
    [calculate_statistics] on a state of the store operations or of the
    volume walker, the mapped blocks of a logical volume are the 64-bit
    total of the block counts of the Allocated extents of that volume on
    the physical lists. *)
Theorem mapped_blocks_are_allocated_blocks :
  (forall ops l,
     Forall op_well_typed ops ->
     let st := snd (run_ops ops fvdecheck_volume_state_initialize) in
     0 <= l < num_logical_volumes st ->
     exists lv,
       logical_volumes (snd (fvdecheck_volume_state_calculate_statistics st)) !! Z.to_nat l
       = Some lv /\
       lv_mapped_blocks lv
       = wrap64 (blocks_total (List.filter (allocated_to l) (all_extents st)))) /\
  (forall v l,
     let st := snd (volume_walker v) in
     0 <= l < num_logical_volumes st ->
     exists lv,
       logical_volumes (snd (fvdecheck_volume_state_calculate_statistics st)) !! Z.to_nat l
       = Some lv /\
       lv_mapped_blocks lv
       = wrap64 (blocks_total (List.filter (allocated_to l) (all_extents st)))).
Proof.
  split.
  - intros ops l Hty st Hl.
    apply mapped_blocks_from_physical_lists; [|exact Hl].
    apply (run_ops_counted_store ops Hty).
  - intros v l st Hl.
    apply mapped_blocks_from_physical_lists; [|exact Hl].
    apply (volume_walker_counted_store v).
Qed.

Lemma mapped_blocks_are_allocated_blocks_witness :
  exists lv,
    logical_volumes (snd (fvdecheck_volume_state_calculate_statistics sound_state))
      !! Z.to_nat 0 = Some lv /\
    lv_mapped_blocks lv
    = wrap64 (blocks_total (List.filter (allocated_to 0) (all_extents sound_state))).
Proof.
  refine (proj2 mapped_blocks_are_allocated_blocks sound_volume 0 _).
  evaluate (num_logical_volumes (snd (volume_walker sound_volume))). lia.
Defined.

(* ================================================================= *)
(** ** The walker performs store operations *)

Lemma bind_ok {S A B} (m : SE S A) (k : A -> SE S B) st b st' :
  bind m k st = (Ok b, st') ->
  exists a st1, m st = (Ok a, st1) /\ k a st1 = (Ok b, st').
Proof.
  unfold bind. destruct (m st) as [[a|e] st1]; [|discriminate].
  intros H. exists a, st1. auto.
Qed.

Lemma on_error_ok {S A} c (m : SE S A) st a st' :
  on_error c m st = (Ok a, st') -> m st = (Ok a, st').
Proof.
  unfold on_error. destruct (m st) as [[a'|e] st1]; [|discriminate].
  intros H. exact H.
Qed.

Lemma run_ops_app ops1 ops2 st st1 st' :
  run_ops ops1 st = (Ok tt, st1) -> run_ops ops2 st1 = (Ok tt, st') ->
  run_ops (ops1 ++ ops2) st = (Ok tt, st').
Proof.
  intros H1 H2. unfold run_ops in *. rewrite for_each_app. unfold bind.
  rewrite H1. exact H2.
Qed.

Lemma performs_nil (P : fvdecheck_volume_state -> Prop) : performs P (ret tt) [] P.
Proof. intros st st' HP [= <-]. split; [reflexivity|exact HP]. Qed.

Lemma performs_bind P R Q (m1 m2 : M unit) ops1 ops2 :
  performs P m1 ops1 R -> performs R m2 ops2 Q ->
  performs P (m1 >> m2) (ops1 ++ ops2) Q.
Proof.
  intros H1 H2 st st' HP Hrun.
  apply bind_ok in Hrun as ([] & st1 & Hm1 & Hm2).
  destruct (H1 st st1 HP Hm1) as (Hr1 & HR).
  destruct (H2 st1 st' HR Hm2) as (Hr2 & HQ).
  split; [eapply run_ops_app; eassumption | exact HQ].
Qed.

Lemma performs_on_error P Q c (m : M unit) ops :
  performs P m ops Q -> performs P (on_error c m) ops Q.
Proof. intros H st st' HP Hrun. apply on_error_ok in Hrun. eauto. Qed.

Lemma performs_weaken (P P' Q Q' : fvdecheck_volume_state -> Prop) (m : M unit) ops :
  performs P m ops Q -> (forall st, P' st -> P st) -> (forall st, Q st -> Q' st) ->
  performs P' m ops Q'.
Proof. intros H HP HQ st st' HP' Hrun. destruct (H st st' (HP _ HP') Hrun). auto. Qed.

Lemma run_ops_single op st st' :
  run_op op st = (Ok tt, st') -> run_ops [op] st = (Ok tt, st').
Proof. intros H. unfold run_ops. simpl. unfold bind. rewrite H. reflexivity. Qed.

(** A successful mark changes neither the block size nor the number of
    volumes. *)
Lemma mark_reserved_frame p s c d st st' :
  fvdecheck_volume_state_mark_reserved p s c d st = (Ok tt, st') ->
  block_size st' = block_size st /\
  num_physical_volumes st' = num_physical_volumes st /\
  num_logical_volumes st' = num_logical_volumes st.
Proof.
  unfold fvdecheck_volume_state_mark_reserved, bind, gets, modify, raise.
  destruct (_ <=? p); [discriminate|]. intros [= <-].
  unfold increment_total_extents, fvdecheck_insert_extent_physical.
  destruct (_ <=? p); [auto|]. destruct (_ !! _); auto.
Qed.

Lemma mark_allocated_frame p s c l ls t m b st st' :
  fvdecheck_volume_state_mark_allocated p s c l ls t m b st = (Ok tt, st') ->
  block_size st' = block_size st /\
  num_physical_volumes st' = num_physical_volumes st /\
  num_logical_volumes st' = num_logical_volumes st.
Proof.
  unfold fvdecheck_volume_state_mark_allocated, bind, gets, modify, raise.
  destruct (_ <=? p); [discriminate|]. destruct (_ <=? l); [discriminate|].
  intros [= <-].
  unfold increment_total_extents, fvdecheck_insert_extent_logical.
  destruct (_ <=? l); [|destruct (_ !! Z.to_nat l)];
    unfold fvdecheck_insert_extent_physical;
    destruct (num_physical_volumes st <=? p); auto;
    destruct (physical_volumes st !! Z.to_nat p); auto.
Qed.

Lemma performs_mark_reserved p s c d :
  performs default_block_size (fvdecheck_volume_state_mark_reserved p s c d)
    [MarkReserved p s c d] default_block_size.
Proof.
  intros st st' HP Hrun. split; [apply run_ops_single; exact Hrun|].
  destruct (mark_reserved_frame _ _ _ _ _ _ Hrun) as (Hb & _).
  unfold default_block_size in *. congruence.
Qed.

Lemma performs_open_physical pvs : forall index,
  performs (fun st => default_block_size st /\ num_physical_volumes st = index)
    (for_each
       (fun physical_volume =>
          let* bs := gets block_size in
          let* pv_index :=
            on_error RUNTIME_ERROR_APPEND_FAILED
              (fvdecheck_volume_state_add_physical_volume
                 (pvol_identifier physical_volume) (pvol_size physical_volume / bs)) in
          on_error RUNTIME_ERROR_SET_FAILED
            (fvdecheck_volume_state_mark_reserved pv_index 0 1
               (Some "Volume header"%string)))
       pvs)
    (open_physical_ops index pvs)
    default_block_size.
Proof.
  induction pvs as [|pv pvs IH]; intros index.
  - intros st st' (HP & _) [= <-]. split; [reflexivity|exact HP].
  - intros st st' (Hbs & Hidx) Hrun. simpl in Hrun.
    apply bind_ok in Hrun as ([] & st2 & Hbody & Hrest).
    apply bind_ok in Hbody as (bs & st0 & Hgets & Hbody).
    unfold gets in Hgets. injection Hgets as <- <-.
    apply bind_ok in Hbody as (pv_index & st1 & Hadd & Hmark).
    apply on_error_ok in Hadd. apply on_error_ok in Hmark.
    unfold default_block_size in Hbs. rewrite Hbs in Hadd.
    assert (Hadd' : pv_index = index /\ block_size st1 = 4096 /\
                    num_physical_volumes st1 = index + 1).
    { pose proof Hadd as Hadd0.
      unfold fvdecheck_volume_state_add_physical_volume in Hadd0.
      destruct (_ <=? _); [discriminate|]. injection Hadd0 as E1 E2.
      subst pv_index st1. simpl. split; [exact Hidx|]. split; [exact Hbs|lia]. }
    destruct Hadd' as (-> & Hbs1 & Hn1).
    destruct (mark_reserved_frame _ _ _ _ _ _ Hmark) as (Hbs2 & Hn2 & _).
    destruct (IH (index + 1) st2 st') as (Hr & HQ);
      [split; [unfold default_block_size|]; congruence | exact Hrest |].
    split; [|exact HQ].
    change (open_physical_ops index (pv :: pvs))
      with ([AddPhysicalVolume (pvol_identifier pv) (pvol_size pv / 4096)]
            ++ [MarkReserved index 0 1 (Some "Volume header"%string)]
            ++ open_physical_ops (index + 1) pvs).
    eapply run_ops_app; [|eapply run_ops_app; [|exact Hr]].
    + apply run_ops_single. simpl. unfold bind. rewrite Hadd. reflexivity.
    + apply run_ops_single. exact Hmark.
Qed.

Lemma performs_open_logical lvs :
  performs default_block_size
    (for_each
       (fun logical_volume =>
          let* bs := gets block_size in
          let* lv_index :=
            on_error RUNTIME_ERROR_APPEND_FAILED
              (fvdecheck_volume_state_add_logical_volume
                 (lvol_identifier logical_volume) (lvol_size logical_volume / bs)) in
          ret tt)
       lvs)
    (open_logical_ops lvs)
    default_block_size.
Proof.
  induction lvs as [|lv lvs IH].
  - apply performs_nil.
  - intros st st' Hbs Hrun. simpl in Hrun.
    apply bind_ok in Hrun as ([] & st2 & Hbody & Hrest).
    apply bind_ok in Hbody as (bs & st0 & Hgets & Hbody).
    unfold gets in Hgets. injection Hgets as <- <-.
    apply bind_ok in Hbody as (lv_index & st1 & Hadd & Hret).
    apply on_error_ok in Hadd. injection Hret as <-.
    unfold default_block_size in Hbs. rewrite Hbs in Hadd.
    assert (Hbs1 : block_size st1 = 4096).
    { pose proof Hadd as Hadd0.
      unfold fvdecheck_volume_state_add_logical_volume in Hadd0.
      destruct (_ <=? _); [discriminate|]. injection Hadd0 as E1 E2.
      subst st1. exact Hbs. }
    destruct (IH st1 st' Hbs1 Hrest) as (Hr & HQ). split; [|exact HQ].
    change (open_logical_ops (lv :: lvs))
      with ([AddLogicalVolume (lvol_identifier lv) (lvol_size lv / 4096)]
            ++ open_logical_ops lvs).
    eapply run_ops_app; [|exact Hr].
    apply run_ops_single. simpl. unfold bind. rewrite Hadd. reflexivity.
Qed.

Lemma performs_gets_block_size (k : Z -> M unit) ops :
  performs default_block_size (k 4096) ops default_block_size ->
  performs default_block_size (let* bs := gets block_size in k bs) ops default_block_size.
Proof.
  intros H st st' Hbs Hrun. unfold bind, gets in Hrun.
  unfold default_block_size in Hbs. rewrite Hbs in Hrun. apply H; assumption.
Qed.

Lemma performs_mark_encrypted_metadata offset size description :
  performs default_block_size (mark_encrypted_metadata 0 offset size description)
    (encrypted_metadata_ops offset size description) default_block_size.
Proof.
  unfold mark_encrypted_metadata, encrypted_metadata_ops.
  destruct (_ && _); [|apply performs_nil].
  apply performs_gets_block_size, performs_on_error, performs_mark_reserved.
Qed.

Lemma performs_for_each_map {A} (f : A -> M unit) (g : A -> store_op) l :
  (forall a, performs default_block_size (f a) [g a] default_block_size) ->
  performs default_block_size (for_each f l) (map g l) default_block_size.
Proof.
  intros H. induction l as [|a l IH]; [apply performs_nil|].
  change (map g (a :: l)) with ([g a] ++ map g l).
  apply (performs_bind _ default_block_size); [apply H|exact IH].
Qed.

Lemma performs_check_handle_mark_metadata_reserved v :
  performs default_block_size (check_handle_mark_metadata_reserved v)
    (metadata_ops v) default_block_size.
Proof.
  unfold check_handle_mark_metadata_reserved, metadata_ops.
  destruct (ov_volume_header v) as [h|].
  - apply (performs_bind _ default_block_size).
    + apply (performs_for_each_map _
               (fun metadata_index =>
                  MarkReserved 0 (nth metadata_index (vh_metadata_offsets h) 0 / 4096)
                    (vh_metadata_size h / 4096)
                    (nth_error metadata_descriptions metadata_index))).
      intros i. apply performs_gets_block_size, performs_on_error, performs_mark_reserved.
    + destruct (ov_metadata v) as [md|]; [|apply performs_nil].
      apply (performs_bind _ default_block_size); apply performs_mark_encrypted_metadata.
  - intros st st' _ Hrun. discriminate.
Qed.

Lemma performs_process_segment_descriptor index sd :
  performs default_block_size (process_segment_descriptor index sd)
    (segment_op index sd) default_block_size.
Proof.
  unfold process_segment_descriptor, segment_op.
  destruct sd as [sd|]; [|apply performs_nil].
  apply performs_on_error. intros st st' HP Hrun.
  split; [apply run_ops_single; exact Hrun|].
  destruct (mark_allocated_frame _ _ _ _ _ _ _ _ _ _ Hrun) as (Hb & _).
  unfold default_block_size in *. congruence.
Qed.

Lemma performs_segments index sds :
  performs default_block_size (for_each (process_segment_descriptor index) sds)
    (flat_map (segment_op index) sds) default_block_size.
Proof.
  induction sds as [|sd sds IH]; [apply performs_nil|].
  simpl. apply (performs_bind _ default_block_size);
    [apply performs_process_segment_descriptor|exact IH].
Qed.

Lemma performs_segment_ops lvs : forall index,
  performs default_block_size
    (for_each_indexed
       (fun logical_volume_index logical_volume =>
          for_each (process_segment_descriptor logical_volume_index)
                   (lvol_segment_descriptors logical_volume))
       index lvs)
    (segment_ops index lvs) default_block_size.
Proof.
  induction lvs as [|lv lvs IH]; intros index; [apply performs_nil|].
  simpl. apply (performs_bind _ default_block_size); [apply performs_segments|apply IH].
Qed.

Lemma performs_walker v :
  performs (fun st => default_block_size st /\ num_physical_volumes st = 0)
    (check_handle_open v >> check_handle_process_volume v)
    (walker_ops v) default_block_size.
Proof.
  unfold walker_ops, check_handle_open, check_handle_process_volume.
  rewrite (List.app_assoc (open_physical_ops 0 (ov_physical_volumes v))).
  apply (performs_bind _ default_block_size).
  - apply (performs_bind _ default_block_size);
      [apply performs_open_physical | apply performs_open_logical].
  - apply (performs_bind _ default_block_size).
    + apply performs_on_error, performs_check_handle_mark_metadata_reserved.
    + apply performs_segment_ops.
Qed.

Lemma volume_walker_runs_ops v st :
  volume_walker v = (Ok tt, st) ->
  run_ops (walker_ops v) fvdecheck_volume_state_initialize = (Ok tt, st).
Proof.
  intros H. apply (performs_walker v fvdecheck_volume_state_initialize st); [|exact H].
  split; reflexivity.
Qed.

Lemma is_u64_div z : is_u64 z -> is_u64 (z / 4096).
Proof.
  unfold is_u64. intros H. split.
  - apply Z.div_pos; lia.
  - apply Z.div_lt_upper_bound; lia.
Qed.

Lemma open_physical_ops_typed pvs : forall index,
  0 <= index -> index + Z.of_nat (length pvs) < 2 ^ 32 ->
  Forall (fun pv => is_u64 (pvol_size pv)) pvs ->
  Forall op_well_typed (open_physical_ops index pvs).
Proof.
  induction pvs as [|pv pvs IH]; intros index H0 Hlen Hty; simpl; [constructor|].
  inversion Hty as [|? ? Hpv Hty']; subst. simpl length in Hlen.
  constructor; [apply is_u64_div, Hpv|].
  constructor; [simpl; unfold is_u32, is_u64; lia|].
  apply IH; [lia|lia|exact Hty'].
Qed.

Lemma segment_ops_typed lvs : forall index,
  Forall (fun lv => is_u64 (lvol_size lv) /\
                    Forall segment_well_typed (lvol_segment_descriptors lv)) lvs ->
  Forall op_well_typed (segment_ops index lvs).
Proof.
  induction lvs as [|lv lvs IH]; intros index Hty; simpl; [constructor|].
  inversion Hty as [|? ? (_ & Hsd) Hty']; subst.
  apply Forall_app. split; [|apply IH, Hty'].
  induction Hsd as [|sd sds Hsd1 _ IHsd]; simpl; [constructor|].
  apply Forall_app. split; [|exact IHsd].
  destruct sd as [sd|]; [|constructor]. simpl in Hsd1.
  constructor; [|constructor]. simpl.
  pose proof (wrap32_nonneg (sd_physical_volume_index sd)).
  pose proof (wrap32_nonneg index).
  assert (wrap32 (sd_physical_volume_index sd) < 2 ^ 32)
    by (apply Z.mod_pos_bound; lia).
  assert (wrap32 index < 2 ^ 32) by (apply Z.mod_pos_bound; lia).
  unfold is_u32. tauto.
Qed.

Lemma is_u64_nth i l : Forall is_u64 l -> is_u64 (nth i l 0).
Proof.
  intros H. revert i. induction H as [|x l Hx _ IH]; intros [|i]; simpl;
    try (unfold is_u64; lia); auto.
Qed.

Lemma walker_ops_typed v : volume_well_typed v -> Forall op_well_typed (walker_ops v).
Proof.
  intros (Hlen & _ & Hpv & Hlv & Hh & Hm). unfold walker_ops.
  apply Forall_app. split; [apply open_physical_ops_typed; [lia|lia|exact Hpv]|].
  apply Forall_app. split.
  { unfold open_logical_ops. rewrite List.Forall_forall in *. intros op Hop.
    apply in_map_iff in Hop as (lv & <- & Hin). simpl.
    apply is_u64_div, (Hlv lv Hin). }
  apply Forall_app. split; [|apply segment_ops_typed, Hlv].
  unfold metadata_ops. destruct (ov_volume_header v) as [h|]; [|constructor].
  destruct (Hh h eq_refl) as (Hms & Hoff).
  assert (Hms64 : is_u64 (vh_metadata_size h / 4096)) by (apply is_u64_div, Hms).
  apply Forall_app. split.
  { rewrite List.Forall_forall. intros op Hop.
    apply in_map_iff in Hop as (i & <- & _). simpl.
    split; [unfold is_u32; lia|]. split; [apply is_u64_div, is_u64_nth, Hoff|exact Hms64]. }
  destruct (ov_metadata v) as [md|]; [|constructor].
  destruct (Hm md eq_refl) as (H1 & H2 & H3).
  apply Forall_app. split; unfold encrypted_metadata_ops;
    (destruct (_ && _); [|constructor]); (constructor; [|constructor]); simpl;
    (split; [unfold is_u32; lia|]); split; apply is_u64_div; assumption.
Qed.

Lemma marked_on_lv_app l ops1 ops2 :
  marked_on_lv l (ops1 ++ ops2) = marked_on_lv l ops1 ++ marked_on_lv l ops2.
Proof. unfold marked_on_lv. apply flat_map_app. Qed.

Lemma marked_on_lv_no_allocation l ops :
  Forall (fun op => match op with MarkAllocated _ _ _ _ _ _ _ _ => False | _ => True end)
         ops ->
  marked_on_lv l ops = [].
Proof.
  induction 1 as [|op ops Hop _ IH]; [reflexivity|].
  change (op :: ops) with ([op] ++ ops). rewrite marked_on_lv_app, IH.
  destruct op; try reflexivity. destruct Hop.
Qed.

Lemma marked_on_lv_segments l index sds :
  0 <= index < 2 ^ 32 ->
  marked_on_lv l (flat_map (segment_op index) sds)
  = if index =? l
    then flat_map (fun segment_descriptor =>
              match segment_descriptor with
              | None => []
              | Some sd =>
                  [allocated_extent (wrap32 (sd_physical_volume_index sd))
                     (sd_physical_block_number sd) (sd_number_of_blocks sd)
                     l (sd_logical_block_number sd) 0 0 0x0305]
              end) sds
    else [].
Proof.
  intros Hindex.
  assert (Hw : wrap32 index = index) by (apply Z.mod_small; lia).
  induction sds as [|sd sds IH]; simpl.
  - destruct (index =? l); reflexivity.
  - rewrite marked_on_lv_app, IH. destruct sd as [sd|]; simpl; [|reflexivity].
    rewrite Hw. destruct (Z.eqb_spec index l) as [->|]; reflexivity.
Qed.

Lemma marked_on_lv_segment_ops l lvs : forall index,
  0 <= index -> index + Z.of_nat (length lvs) <= 2 ^ 32 -> 0 <= l ->
  marked_on_lv l (segment_ops index lvs)
  = if l <? index then []
    else match lvs !! Z.to_nat (l - index) with
         | Some lv => segment_extents l lv
         | None => []
         end.
Proof.
  induction lvs as [|lv lvs IH]; intros index H0 Hlen Hl; simpl.
  - destruct (l <? index); reflexivity.
  - simpl length in Hlen. rewrite marked_on_lv_app, marked_on_lv_segments by lia.
    rewrite IH by lia.
    destruct (Z.eqb_spec index l) as [->|Hne].
    + rewrite Z.ltb_irrefl. replace (l <? l + 1) with true by (symmetry; apply Z.ltb_lt; lia).
      rewrite Z.sub_diag. simpl. rewrite app_nil_r. reflexivity.
    + destruct (Z.ltb_spec l index).
      * replace (l <? index + 1) with true by (symmetry; apply Z.ltb_lt; lia). reflexivity.
      * replace (l <? index + 1) with false by (symmetry; apply Z.ltb_ge; lia).
        replace (Z.to_nat (l - index)) with (S (Z.to_nat (l - (index + 1)))) by lia.
        reflexivity.
Qed.

Lemma open_physical_ops_no_allocation pvs : forall index,
  Forall (fun op => match op with MarkAllocated _ _ _ _ _ _ _ _ => False | _ => True end)
         (open_physical_ops index pvs).
Proof. induction pvs; intros index; simpl; repeat constructor; auto. Qed.

Lemma marked_on_lv_walker_ops v l :
  Z.of_nat (length (ov_logical_volumes v)) <= 2 ^ 32 -> 0 <= l ->
  marked_on_lv l (walker_ops v)
  = match ov_logical_volumes v !! Z.to_nat l with
    | Some lv => segment_extents l lv
    | None => []
    end.
Proof.
  intros Hlen Hl. unfold walker_ops. rewrite !marked_on_lv_app.
  rewrite (marked_on_lv_no_allocation l (open_physical_ops _ _))
    by apply open_physical_ops_no_allocation.
  rewrite (marked_on_lv_no_allocation l (open_logical_ops _)).
  2:{ unfold open_logical_ops. rewrite List.Forall_forall. intros op Hop.
      apply in_map_iff in Hop as (lv & <- & _). exact I. }
  rewrite (marked_on_lv_no_allocation l (metadata_ops v)).
  2:{ unfold metadata_ops. destruct (ov_volume_header v); [|constructor].
      apply Forall_app. split.
      - rewrite List.Forall_forall. intros op Hop.
        apply in_map_iff in Hop as (i & <- & _). exact I.
      - destruct (ov_metadata v); [|constructor].
        apply Forall_app. split; unfold encrypted_metadata_ops;
          destruct (_ && _); repeat constructor. }
  simpl. rewrite marked_on_lv_segment_ops by lia.
  replace (l <? 0) with false by (symmetry; apply Z.ltb_ge; lia).
  rewrite Z.sub_0_r. reflexivity.
Qed.

(** X7. The walker does what a sequence of store operations does, and
    the list of a logical volume is the stable sort of its segment
    descriptors.  When the walker succeeds on a volume whose values are
    of the C types, its state is reached by well-typed store operations,
    and the extent list of logical volume [l] holds exactly the Allocated
    extents of the non-NULL segment descriptors of [l], sorted by logical
    start, descriptors of equal logical start in descriptor order. *)
Theorem walker_lists_are_the_sorted_segments v st :
  volume_well_typed v -> volume_walker v = (Ok tt, st) ->
  reachable st /\
  forall l lv, 0 <= l -> ov_logical_volumes v !! Z.to_nat l = Some lv ->
    lv_extents st l = insert_all logical_block_start (segment_extents l lv) /\
    stable_order logical_block_start (lv_extents st l) (segment_extents l lv).
Proof.
  intros Hty Hrun.
  pose proof (walker_ops_typed v Hty) as Hops.
  pose proof (volume_walker_runs_ops v st Hrun) as Hruns.
  split; [exists (walker_ops v); split; assumption|].
  intros l lv Hl Hlook.
  assert (Hlist : lv_extents st l = insert_all logical_block_start (segment_extents l lv)).
  { destruct (run_ops_store_follows _ _ Hops Hruns) as (_ & _ & _ & Hin & Hout).
    assert (Hmarked : marked_on_lv l (walker_ops v) = segment_extents l lv).
    { rewrite marked_on_lv_walker_ops; [rewrite Hlook; reflexivity| |exact Hl].
      destruct Hty as (_ & Hlen & _). lia. }
    destruct (Z.ltb_spec l (num_logical_volumes st)) as [Hlt|Hge].
    - rewrite (Hin l) by lia. rewrite Hmarked. reflexivity.
    - rewrite <- Hmarked, (Hout l Hge). simpl.
      pose proof (volume_walker_store_inv v) as (_ & _ & (_ & Hul) & _).
      rewrite Hrun in Hul. simpl in Hul. unfold lv_extents.
      destruct (logical_volumes st !! Z.to_nat l) as [lv'|] eqn:E; [|reflexivity].
      apply (Hul _ _ E). lia. }
  split; [exact Hlist|]. rewrite Hlist. apply insert_all_stable.
Qed.

Lemma sound_volume_well_typed : volume_well_typed sound_volume.
Proof.
  unfold volume_well_typed, sound_volume, example_volume. simpl.
  split; [lia|]. split; [lia|].
  split; [repeat constructor; unfold is_u64; simpl; lia|].
  split; [repeat constructor; unfold is_u64; simpl; lia|].
  split.
  - intros h [= <-]. simpl. split; [unfold is_u64; lia|].
    repeat constructor; unfold is_u64; lia.
  - intros m [= <-]. simpl. unfold is_u64. lia.
Qed.

Lemma walker_lists_are_the_sorted_segments_witness :
  volume_well_typed sound_volume /\
  volume_walker sound_volume = (Ok tt, sound_state) /\
  reachable sound_state.
Proof.
  assert (Hrun : volume_walker sound_volume = (Ok tt, sound_state))
    by (vm_compute; reflexivity).
  split; [exact sound_volume_well_typed|]. split; [exact Hrun|].
  exact (proj1 (walker_lists_are_the_sorted_segments sound_volume sound_state
                  sound_volume_well_typed Hrun)).
Defined.

(* ================================================================= *)
(** ** The store after [check_handle_open] *)

Lemma check_handle_open_unfold v :
  check_handle_open v
  = (for_each open_physical_volume (ov_physical_volumes v) >>
     for_each open_logical_volume (ov_logical_volumes v)).
Proof. reflexivity. Qed.

Lemma slots_from_nil {A} first (slots : list A) : slots_from first [] slots = slots.
Proof. unfold slots_from. simpl. rewrite Nat.add_0_r. apply firstn_skipn. Qed.

Lemma slots_from_cons {A} first (x : A) new slots :
  (first < length slots)%nat ->
  slots_from first (x :: new) slots = slots_from (S first) new (<[first := x]> slots).
Proof.
  revert slots. unfold slots_from.
  induction first as [|first IH]; intros [|y slots] Hlt; simpl in Hlt; try lia.
  - reflexivity.
  - specialize (IH slots ltac:(lia)). simpl in *. rewrite IH. reflexivity.
Qed.

Lemma open_physical_volume_ok pv st :
  block_size st = 4096 -> 0 <= num_physical_volumes st < 16 ->
  length (physical_volumes st) = 16%nat ->
  open_physical_volume pv st
  = (Ok tt,
     increment_total_extents
       (set_physical_volumes (num_physical_volumes st + 1)
          (<[ Z.to_nat (num_physical_volumes st) :=
                opened_physical_slot (num_physical_volumes st) pv ]>
             (physical_volumes st)) st)).
Proof.
  intros Hbs Hn Hlen.
  unfold open_physical_volume, bind, gets, on_error.
  unfold fvdecheck_volume_state_add_physical_volume, FVDECHECK_MAX_PHYSICAL_VOLUMES.
  destruct (Z.leb_spec 16 (num_physical_volumes st)); [lia|].
  unfold fvdecheck_volume_state_mark_reserved, bind, gets, modify, raise.
  cbn [num_physical_volumes set_physical_volumes].
  destruct (Z.leb_spec (num_physical_volumes st + 1) (num_physical_volumes st)); [lia|].
  unfold fvdecheck_insert_extent_physical.
  cbn [num_physical_volumes physical_volumes set_physical_volumes].
  destruct (Z.leb_spec (num_physical_volumes st + 1) (num_physical_volumes st)); [lia|].
  rewrite list_lookup_insert_eq by lia.
  rewrite list_insert_insert_eq. rewrite Hbs. reflexivity.
Qed.

Lemma for_each_open_physical pvs : forall st,
  block_size st = 4096 -> 0 <= num_physical_volumes st ->
  length (physical_volumes st) = 16%nat ->
  num_physical_volumes st + Z.of_nat (length pvs) <= 16 ->
  exists st',
    for_each open_physical_volume pvs st = (Ok tt, st') /\
    block_size st' = 4096 /\
    num_physical_volumes st' = num_physical_volumes st + Z.of_nat (length pvs) /\
    physical_volumes st'
    = slots_from (Z.to_nat (num_physical_volumes st))
        (imap (fun i pv => opened_physical_slot (num_physical_volumes st + Z.of_nat i) pv)
              pvs)
        (physical_volumes st) /\
    num_logical_volumes st' = num_logical_volumes st /\
    logical_volumes st' = logical_volumes st.
Proof.
  induction pvs as [|pv pvs IH]; intros st Hbs Hn Hlen Hcap.
  - exists st. simpl. rewrite slots_from_nil, Z.add_0_r.
    repeat split; try reflexivity; try assumption.
  - simpl length in Hcap.
    pose proof (open_physical_volume_ok pv st Hbs ltac:(lia) Hlen) as Hstep.
    set (st1 := increment_total_extents _) in Hstep.
    destruct (IH st1) as (st' & Hrun & Hbs' & Hn' & Hpvs' & Hnl' & Hlv');
      [exact Hbs | simpl; lia | simpl; rewrite length_insert; exact Hlen | simpl; lia |].
    exists st'. split.
    { simpl. unfold bind. rewrite Hstep. exact Hrun. }
    split; [exact Hbs'|]. split; [rewrite Hn'; simpl; lia|].
    split; [|split; [exact Hnl'|exact Hlv']].
    rewrite Hpvs'. cbn [num_physical_volumes physical_volumes st1 increment_total_extents
                        set_total_extents set_physical_volumes].
    rewrite imap_cons, slots_from_cons by lia.
    change (Z.of_nat 0) with 0. rewrite Z.add_0_r.
    replace (Z.to_nat (num_physical_volumes st + 1))
      with (S (Z.to_nat (num_physical_volumes st))) by lia.
    f_equal. apply imap_ext. intros i x _. simpl. f_equal. lia.
Qed.

Lemma open_logical_volume_ok lv st :
  block_size st = 4096 -> 0 <= num_logical_volumes st < 16 ->
  open_logical_volume lv st
  = (Ok tt,
     set_logical_volumes (num_logical_volumes st + 1)
       (<[ Z.to_nat (num_logical_volumes st) := opened_logical_slot lv ]>
          (logical_volumes st)) st).
Proof.
  intros Hbs Hn.
  unfold open_logical_volume, bind, gets, on_error, ret.
  unfold fvdecheck_volume_state_add_logical_volume, FVDECHECK_MAX_LOGICAL_VOLUMES.
  destruct (Z.leb_spec 16 (num_logical_volumes st)); [lia|].
  rewrite Hbs. reflexivity.
Qed.

Lemma for_each_open_logical lvs : forall st,
  block_size st = 4096 -> 0 <= num_logical_volumes st ->
  length (logical_volumes st) = 16%nat ->
  num_logical_volumes st + Z.of_nat (length lvs) <= 16 ->
  exists st',
    for_each open_logical_volume lvs st = (Ok tt, st') /\
    block_size st' = 4096 /\
    num_logical_volumes st' = num_logical_volumes st + Z.of_nat (length lvs) /\
    logical_volumes st'
    = slots_from (Z.to_nat (num_logical_volumes st)) (map opened_logical_slot lvs)
        (logical_volumes st) /\
    num_physical_volumes st' = num_physical_volumes st /\
    physical_volumes st' = physical_volumes st.
Proof.
  induction lvs as [|lv lvs IH]; intros st Hbs Hn Hlen Hcap.
  - exists st. simpl. rewrite slots_from_nil, Z.add_0_r.
    repeat split; try reflexivity; try assumption.
  - simpl length in Hcap.
    pose proof (open_logical_volume_ok lv st Hbs ltac:(lia)) as Hstep.
    set (st1 := set_logical_volumes _ _ _) in Hstep.
    destruct (IH st1) as (st' & Hrun & Hbs' & Hn' & Hlvs' & Hnp' & Hpv');
      [exact Hbs | simpl; lia | simpl; rewrite length_insert; exact Hlen | simpl; lia |].
    exists st'. split.
    { simpl. unfold bind. rewrite Hstep. exact Hrun. }
    split; [exact Hbs'|]. split; [rewrite Hn'; simpl; lia|].
    split; [|split; [exact Hnp'|exact Hpv']].
    rewrite Hlvs'. cbn [num_logical_volumes logical_volumes st1 set_logical_volumes].
    simpl map. rewrite slots_from_cons by lia.
    replace (Z.to_nat (num_logical_volumes st + 1))
      with (S (Z.to_nat (num_logical_volumes st))) by lia.
    reflexivity.
Qed.

Lemma lookup_slots_from_0 {A} (new slots : list A) i x :
  new !! i = Some x -> slots_from 0 new slots !! i = Some x.
Proof.
  intros H. unfold slots_from. simpl. rewrite lookup_app_l; [exact H|].
  apply lookup_lt_Some in H. exact H.
Qed.

(** The seventeenth volume makes the loop fail with the frame of the
    store under the frame of the caller. *)
Lemma for_each_open_physical_overflow pvs st :
  block_size st = 4096 -> num_physical_volumes st = 0 ->
  length (physical_volumes st) = 16%nat ->
  (16 < length pvs)%nat ->
  fst (for_each open_physical_volume pvs st)
  = Fail [RUNTIME_ERROR_VALUE_OUT_OF_BOUNDS; RUNTIME_ERROR_APPEND_FAILED].
Proof.
  intros Hbs Hn Hlen Hmany.
  rewrite <- (firstn_skipn 16 pvs), for_each_app.
  destruct (for_each_open_physical (firstn 16 pvs) st Hbs ltac:(lia) Hlen)
    as (st' & Hrun & Hbs' & Hn' & _).
  { rewrite length_firstn. lia. }
  unfold bind at 1. rewrite Hrun.
  rewrite length_firstn in Hn'.
  destruct (skipn 16 pvs) as [|pv rest] eqn:E.
  { apply (f_equal (@length _)) in E. rewrite length_skipn in E. simpl in E. lia. }
  simpl. unfold bind at 1. unfold open_physical_volume, bind, gets, on_error.
  unfold fvdecheck_volume_state_add_physical_volume, FVDECHECK_MAX_PHYSICAL_VOLUMES.
  destruct (Z.leb_spec 16 (num_physical_volumes st')); [reflexivity|lia].
Qed.

Lemma for_each_open_logical_overflow lvs st :
  block_size st = 4096 -> num_logical_volumes st = 0 ->
  length (logical_volumes st) = 16%nat ->
  (16 < length lvs)%nat ->
  fst (for_each open_logical_volume lvs st)
  = Fail [RUNTIME_ERROR_VALUE_OUT_OF_BOUNDS; RUNTIME_ERROR_APPEND_FAILED].
Proof.
  intros Hbs Hn Hlen Hmany.
  rewrite <- (firstn_skipn 16 lvs), for_each_app.
  destruct (for_each_open_logical (firstn 16 lvs) st Hbs ltac:(lia) Hlen)
    as (st' & Hrun & Hbs' & Hn' & _).
  { rewrite length_firstn. lia. }
  unfold bind at 1. rewrite Hrun.
  rewrite length_firstn in Hn'.
  destruct (skipn 16 lvs) as [|lv rest] eqn:E.
  { apply (f_equal (@length _)) in E. rewrite length_skipn in E. simpl in E. lia. }
  simpl. unfold bind at 1. unfold open_logical_volume, bind, gets, on_error.
  unfold fvdecheck_volume_state_add_logical_volume, FVDECHECK_MAX_LOGICAL_VOLUMES.
  destruct (Z.leb_spec 16 (num_logical_volumes st')); [reflexivity|lia].
Qed.

(** X8. What [check_handle_open] leaves in a fresh store.  With at most
    sixteen physical and sixteen logical volumes it succeeds, registers
    every volume under its index with its first 16 identifier bytes and
    its size in 4096-byte blocks, puts on every physical volume exactly
    one extent, the Reserved block 0 described as "Volume header", and
    leaves the list of every logical volume empty.  With more than
    sixteen volumes of either kind it fails with the store's
    out-of-bounds error under the caller's append-failed frame. *)
Theorem check_handle_open_registers_volumes v :
  ((length (ov_physical_volumes v) <= 16)%nat ->
   (length (ov_logical_volumes v) <= 16)%nat ->
   exists st,
     check_handle_open v fvdecheck_volume_state_initialize = (Ok tt, st) /\
     num_physical_volumes st = Z.of_nat (length (ov_physical_volumes v)) /\
     num_logical_volumes st = Z.of_nat (length (ov_logical_volumes v)) /\
     (forall i pv, ov_physical_volumes v !! i = Some pv ->
        physical_volumes st !! i = Some (opened_physical_slot (Z.of_nat i) pv)) /\
     (forall i lv, ov_logical_volumes v !! i = Some lv ->
        logical_volumes st !! i = Some (opened_logical_slot lv))) /\
  ((16 < length (ov_physical_volumes v))%nat ->
   fst (check_handle_open v fvdecheck_volume_state_initialize)
   = Fail [RUNTIME_ERROR_VALUE_OUT_OF_BOUNDS; RUNTIME_ERROR_APPEND_FAILED]) /\
  ((length (ov_physical_volumes v) <= 16)%nat ->
   (16 < length (ov_logical_volumes v))%nat ->
   fst (check_handle_open v fvdecheck_volume_state_initialize)
   = Fail [RUNTIME_ERROR_VALUE_OUT_OF_BOUNDS; RUNTIME_ERROR_APPEND_FAILED]).
Proof.
  rewrite check_handle_open_unfold.
  split; [|split].
  - intros Hp Hl.
    destruct (for_each_open_physical (ov_physical_volumes v)
                fvdecheck_volume_state_initialize)
      as (st1 & Hrun1 & Hbs1 & Hn1 & Hpv1 & Hnl1 & Hlv1);
      [reflexivity | simpl; lia | reflexivity | simpl; lia |].
    destruct (for_each_open_logical (ov_logical_volumes v) st1)
      as (st2 & Hrun2 & Hbs2 & Hn2 & Hlv2 & Hnp2 & Hpv2);
      [exact Hbs1 | rewrite Hnl1; simpl; lia | rewrite Hlv1; reflexivity
       | rewrite Hnl1; simpl; lia |].
    exists st2. split; [unfold bind; rewrite Hrun1; exact Hrun2|].
    split; [rewrite Hnp2, Hn1; reflexivity|].
    split; [rewrite Hn2, Hnl1; reflexivity|]. split.
    + intros i pv Hi. rewrite Hpv2, Hpv1. apply lookup_slots_from_0.
      rewrite list_lookup_imap, Hi. reflexivity.
    + intros i lv Hi. rewrite Hlv2, Hnl1. apply lookup_slots_from_0.
      rewrite list_lookup_fmap, Hi. reflexivity.
  - intros Hp. unfold bind.
    pose proof (for_each_open_physical_overflow (ov_physical_volumes v)
                  fvdecheck_volume_state_initialize eq_refl eq_refl eq_refl Hp) as H.
    destruct (for_each open_physical_volume _ _) as [[[]|e] st1]; simpl in H;
      [discriminate|]. simpl. congruence.
  - intros Hp Hl.
    destruct (for_each_open_physical (ov_physical_volumes v)
                fvdecheck_volume_state_initialize)
      as (st1 & Hrun1 & Hbs1 & Hn1 & Hpv1 & Hnl1 & Hlv1);
      [reflexivity | simpl; lia | reflexivity | simpl; lia |].
    unfold bind. rewrite Hrun1.
    apply for_each_open_logical_overflow;
      [exact Hbs1 | rewrite Hnl1; reflexivity | rewrite Hlv1; reflexivity | exact Hl].
Qed.

Lemma check_handle_open_registers_volumes_witness :
  exists st,
    check_handle_open sound_volume fvdecheck_volume_state_initialize = (Ok tt, st) /\
    num_physical_volumes st = 1.
Proof.
  destruct (proj1 (check_handle_open_registers_volumes sound_volume))
    as (st & Hrun & Hn & _).
  - simpl. lia.
  - simpl. lia.
  - exists st. split; [exact Hrun|exact Hn].
Defined.

(* ================================================================= *)
(** ** The block lookup of fvdecheck *)

Lemma reachable_stored_logical_typed st p e :
  reachable st -> 0 <= p < num_physical_volumes st -> In e (pv_extents st p) ->
  is_u64 (logical_block_start e).
Proof.
  intros (ops & Hty & Hrun) Hp Hin.
  destruct (run_ops_store_follows ops st Hty Hrun) as (_ & Hpv & _).
  rewrite (Hpv p Hp), insert_all_in in Hin.
  apply marked_on_pv_in in Hin as (Hidx & op & Hop & Hext).
  rewrite List.Forall_forall in Hty. specialize (Hty op Hop).
  destruct op; simpl in Hext; try discriminate; injection Hext as <-; simpl in *;
    unfold is_u64 in *; try tauto; lia.
Qed.

(** X9. The block lookup reports the logical block at the same offset
    inside the extent.  On a reachable store whose extents on physical
    volume 0 end within the 64-bit block space, the lookup of a Linux
    sector searches physical volume 0 for block
    [sector * 512 / block_size]; it prints "UNKNOWN (not in any tracked
    extent)" exactly when no extent of that volume contains the block;
    and a logical block number it prints belongs to an Allocated extent
    that contains the block, lies as far from the extent's logical start
    as the block lies from its physical start, and is within the logical
    extent printed below it. *)
Theorem lookup_block_reports_logical_block st sector :
  reachable st -> 0 < num_physical_volumes st ->
  Forall physical_end_fits (pv_extents st 0) ->
  Forall logical_end_fits (pv_extents st 0) ->
  let b := fvdecheck_linux_sector_to_fvde_block sector (block_size st) in
  let report := check_handle_lookup_block 1 sector st in
  In (PhysicalVolumeIndex 0) report /\ In (PhysicalBlockNumber b) report /\
  (In StateUnknown report <->
   forall e, In e (pv_extents st 0) ->
     ~ physical_block_start e <= b < physical_block_start e + physical_block_count e) /\
  (forall lb, In (LogicalBlockNumber lb) report ->
     exists e,
       In e (pv_extents st 0) /\ state e = FVDECHECK_EXTENT_STATE_ALLOCATED /\
       physical_block_start e <= b < physical_block_start e + physical_block_count e /\
       lb - logical_block_start e = b - physical_block_start e /\
       In (LogicalExtent (logical_volume_index e) (logical_block_start e)
             (logical_block_start e + physical_block_count e - 1)
             (physical_block_count e)) report /\
       logical_block_start e <= lb <= logical_block_start e + physical_block_count e - 1).
Proof.
  intros Hreach Hnum Hfit Hlfit b report.
  assert (Hpv : 0 <= 0 < num_physical_volumes st) by lia.
  pose proof (find_physical_extent_is_find st 0 b Hreach Hpv Hfit) as Hfind.
  subst report. unfold check_handle_lookup_block. cbv zeta. fold b.
  change (negb (1 =? 0)) with true. cbv iota. rewrite Hfind.
  destruct (List.find (contains_physical b) (pv_extents st 0)) as [e|] eqn:E.
  - pose proof (List.find_some _ _ E) as (Hin & Hc).
    apply contains_physical_spec in Hc.
    destruct (reachable_stored_typed st 0 e Hreach Hpv Hin) as (_ & Hs & Hcnt).
    pose proof (reachable_stored_logical_typed st 0 e Hreach Hpv Hin) as Hls.
    rewrite List.Forall_forall in Hfit, Hlfit.
    pose proof (Hfit e Hin) as Hpe. pose proof (Hlfit e Hin) as Hle.
    unfold physical_end_fits, logical_end_fits, is_u64 in *.
    assert (Hlb : wrap64 (logical_block_start e + wrap64 (b - physical_block_start e))
                  = logical_block_start e + (b - physical_block_start e)).
    { rewrite (wrap64_small (b - physical_block_start e)) by lia.
      apply wrap64_small. lia. }
    assert (Hlast : wrap64 (logical_block_start e + physical_block_count e - 1)
                    = logical_block_start e + physical_block_count e - 1)
      by (apply wrap64_small; lia).
    rewrite Hlb, Hlast.
    split; [simpl; tauto|]. split; [simpl; tauto|]. split.
    + split.
      * intros H. exfalso. destruct (state e); simpl in H;
          repeat (destruct H as [H|H]; [discriminate|]); exact H.
      * intros H. exfalso. apply (H e Hin). exact Hc.
    + intros lb H. exists e.
      destruct (state e) eqn:Est; simpl in H;
        repeat (destruct H as [H|H]; [try discriminate|]); try (exfalso; exact H).
      injection H as <-.
      split; [exact Hin|]. split; [reflexivity|]. split; [exact Hc|].
      split; [lia|]. split; [simpl; tauto|lia].
  - split; [simpl; tauto|]. split; [simpl; tauto|]. split.
    + split.
      * intros _ e Hin Hc. apply contains_physical_spec in Hc.
        rewrite (List.find_none _ _ E e Hin) in Hc. discriminate.
      * intros _. simpl. tauto.
    + intros lb H. exfalso. simpl in H.
      repeat (destruct H as [H|H]; [discriminate|]). exact H.
Qed.

Lemma lookup_block_reports_logical_block_witness :
  In (LogicalBlockNumber 5)
     (check_handle_lookup_block 1 32 (snd (run_ops S2_example_ops
                                             fvdecheck_volume_state_initialize))) /\
  exists e,
    In e (pv_extents S2_example_state 0) /\
    5 - logical_block_start e = 4 - physical_block_start e.
Proof.
  split; [vm_compute; tauto|].
  destruct (proj2 (proj2 (proj2
              (lookup_block_reports_logical_block S2_example_state 32
                 S2_example_reachable ltac:(simpl; lia) ltac:(evaluate (pv_extents S2_example_state 0);
                    repeat constructor; unfold physical_end_fits; simpl; lia)
                 ltac:(evaluate (pv_extents S2_example_state 0);
                    repeat constructor; unfold logical_end_fits; simpl; lia)))) 5)
    as (e & Hin & _ & _ & Hoff & _).
  - vm_compute. tauto.
  - exists e. split; [exact Hin|].
    replace 4 with (fvdecheck_linux_sector_to_fvde_block 32 (block_size S2_example_state))
      by (vm_compute; reflexivity).
    exact Hoff.
Defined.

(* ================================================================= *)
(** ** The weak CRC-32, bit by bit *)

Ltac bitwise :=
  apply Z.bits_inj'; intros ?n ?Hn; rewrite ?Z.lxor_spec, ?Z.testbit_0_l;
  repeat match goal with
         | |- context [Z.testbit ?x ?n] => destruct (Z.testbit x n)
         end; reflexivity.

Lemma land_1_odd c : Z.land c 1 = if Z.odd c then 1 else 0.
Proof.
  pose proof (Z.land_ones c 1 ltac:(lia)) as H. change (Z.ones 1) with 1 in H.
  rewrite H. change (2 ^ 1) with 2. apply Zmod_odd.
Qed.

Lemma crc32_bit_round_odd p c :
  crc32_bit_round p c = Z.lxor (if Z.odd c then p else 0) (Z.shiftr c 1).
Proof.
  unfold crc32_bit_round. rewrite land_1_odd.
  destruct (Z.odd c); simpl; [reflexivity|]. rewrite Z.lxor_0_l. reflexivity.
Qed.

Lemma reference_round_is_bit_round p c :
  (if Z.odd c then Z.lxor (Z.shiftr c 1) p else Z.shiftr c 1) = crc32_bit_round p c.
Proof.
  rewrite crc32_bit_round_odd. destruct (Z.odd c).
  - apply Z.lxor_comm.
  - rewrite Z.lxor_0_l. reflexivity.
Qed.

Lemma odd_lxor a b : Z.odd (Z.lxor a b) = xorb (Z.odd a) (Z.odd b).
Proof. rewrite <- !Z.bit0_odd. apply Z.lxor_spec. Qed.

(** A round is linear over exclusive or. *)
Lemma crc32_bit_round_lxor p a b :
  crc32_bit_round p (Z.lxor a b) = Z.lxor (crc32_bit_round p a) (crc32_bit_round p b).
Proof.
  rewrite !crc32_bit_round_odd, odd_lxor, Z.shiftr_lxor.
  destruct (Z.odd a), (Z.odd b); simpl; bitwise.
Qed.

Lemma iter_crc32_bit_round_lxor p n a b :
  Nat.iter n (crc32_bit_round p) (Z.lxor a b)
  = Z.lxor (Nat.iter n (crc32_bit_round p) a) (Nat.iter n (crc32_bit_round p) b).
Proof.
  induction n as [|n IH]; simpl; [reflexivity|].
  rewrite IH. apply crc32_bit_round_lxor.
Qed.

(** Rounds shift out the zero bits below a value. *)
Lemma iter_crc32_bit_round_shiftl p k y :
  Nat.iter k (crc32_bit_round p) (Z.shiftl y (Z.of_nat k)) = y.
Proof.
  induction k as [|k IH].
  - simpl. apply Z.shiftl_0_r.
  - rewrite Nat.iter_succ_r, crc32_bit_round_odd.
    rewrite <- Z.bit0_odd, Z.shiftl_spec_low by lia.
    rewrite Z.lxor_0_l, Z.shiftr_shiftl_l by lia.
    replace (Z.of_nat (S k) - 1) with (Z.of_nat k) by lia. exact IH.
Qed.

Lemma split_low_byte x :
  x = Z.lxor (Z.land x 255) (Z.shiftl (Z.shiftr x 8) 8).
Proof.
  apply Z.bits_inj'. intros n Hn.
  rewrite Z.lxor_spec, Z.land_spec, Z.shiftl_spec by lia.
  change 255 with (Z.ones 8).
  destruct (Z.ltb_spec n 8).
  - rewrite Z.ones_spec_low, (Z.testbit_neg_r _ (n - 8)) by lia.
    destruct (Z.testbit x n); reflexivity.
  - rewrite Z.ones_spec_high, (Z.shiftr_spec _ _ (n - 8)) by lia.
    replace (n - 8 + 8) with n by lia. destruct (Z.testbit x n); reflexivity.
Qed.

Lemma land_255_range x : 0 <= Z.land x 255 < 256.
Proof.
  pose proof (Z.land_ones x 8 ltac:(lia)) as H. change (Z.ones 8) with 255 in H.
  rewrite H. apply Z.mod_pos_bound. lia.
Qed.

Lemma reference_table_nth p i :
  0 <= i < 256 ->
  nth (Z.to_nat i) (reference_table p) 0 = Nat.iter 8 (crc32_bit_round p) i.
Proof.
  intros Hi. unfold reference_table.
  rewrite (nth_indep _ 0 (reference_table_entry p (Z.of_nat 0)))
    by (rewrite length_map, length_seq; lia).
  rewrite (List.map_nth (fun i => reference_table_entry p (Z.of_nat i))).
  rewrite seq_nth by lia. simpl Nat.add. rewrite Z2Nat.id by lia.
  unfold reference_table_entry.
  generalize 8%nat. intros n. induction n as [|n IH]; simpl; [reflexivity|].
  rewrite IH. apply reference_round_is_bit_round.
Qed.

(** The table-driven step on one byte is eight rounds on the register
    with the byte folded in. *)
Lemma table_step_is_eight_rounds p c b :
  0 <= b < 256 ->
  Z.lxor (nth (Z.to_nat (Z.land (Z.lxor c b) 255)) (reference_table p) 0) (Z.shiftr c 8)
  = Nat.iter 8 (crc32_bit_round p) (Z.lxor c b).
Proof.
  intros Hb.
  rewrite reference_table_nth by apply land_255_range.
  rewrite (split_low_byte (Z.lxor c b)) at 2.
  rewrite iter_crc32_bit_round_lxor.
  pose proof (iter_crc32_bit_round_shiftl p 8 (Z.shiftr (Z.lxor c b) 8)) as Hhigh.
  change (Z.of_nat 8) with 8 in Hhigh. rewrite Hhigh.
  rewrite Z.shiftr_lxor.
  replace (Z.shiftr b 8) with 0.
  2:{ rewrite Z.shiftr_div_pow2 by lia. symmetry. apply Z.div_small.
      change (2 ^ 8) with 256. lia. }
  rewrite Z.lxor_0_r. reflexivity.
Qed.

(** X10. The table-driven checksum is the bit-by-bit CRC.  For bytes in
    0..255 and any initial value, whatever calls came before,
    [dump_handle_calculate_weak_crc32] over the whole buffer returns what
    the register holds after folding each byte into its low end and
    running eight rounds of the bit loop with polynomial 0x82f63b78: the
    256-entry table and the byte step add nothing to, and lose nothing
    of, the bitwise definition. *)
Theorem weak_crc32_is_bitwise_crc (g : crc32_statics) (bs : list Z) (iv : Z) :
  crc32_statics_reachable g -> Forall is_u8 bs ->
  fst (dump_handle_calculate_weak_crc32 bs (Z.of_nat (length bs)) iv g)
  = bitwise_crc32 0x82f63b78 bs iv.
Proof.
  intros Hg Hbs. rewrite (calculate_weak_crc32_reachable bs _ iv g Hg).
  cbn [fst]. rewrite Nat2Z.id, weak_crc32_loop_fold. unfold bitwise_crc32.
  revert iv. induction Hbs as [|b bs Hb _ IH]; intros iv; simpl; [reflexivity|].
  rewrite <- IH. f_equal. apply table_step_is_eight_rounds.
  unfold is_u8 in Hb. change (2 ^ 8) with 256 in Hb. exact Hb.
Qed.

Lemma weak_crc32_is_bitwise_crc_witness :
  fst (dump_handle_calculate_weak_crc32 [49; 50; 51; 52; 53; 54; 55; 56; 57] 9 0xffffffff
         crc32_statics_initial)
  = bitwise_crc32 0x82f63b78 [49; 50; 51; 52; 53; 54; 55; 56; 57] 0xffffffff.
Proof.
  apply (weak_crc32_is_bitwise_crc crc32_statics_initial
           [49; 50; 51; 52; 53; 54; 55; 56; 57] 0xffffffff).
  - constructor.
  - repeat constructor; unfold is_u8; lia.
Defined.

Lemma u32_bits_high a m : is_u32 a -> 32 <= m -> Z.testbit a m = false.
Proof.
  intros Ha Hm. unfold is_u32 in Ha.
  rewrite <- (Z.mod_small a (2 ^ 32)) by lia.
  apply Z.mod_pow2_bits_high. lia.
Qed.

Lemma lxor_is_u32 a b : is_u32 a -> is_u32 b -> is_u32 (Z.lxor a b).
Proof.
  intros Ha Hb.
  assert (Hnn : 0 <= Z.lxor a b).
  { apply Z.lxor_nonneg. unfold is_u32 in *. lia. }
  assert (Hmod : Z.lxor a b mod 2 ^ 32 = Z.lxor a b).
  { apply Z.bits_inj'. intros n Hn. destruct (Z.ltb_spec n 32).
    - apply Z.mod_pow2_bits_low. lia.
    - rewrite Z.mod_pow2_bits_high by lia.
      rewrite Z.lxor_spec, (u32_bits_high a), (u32_bits_high b) by assumption.
      reflexivity. }
  unfold is_u32. rewrite <- Hmod. apply Z.mod_pos_bound. lia.
Qed.

Lemma reference_table_is_u32 i :
  is_u32 (nth i (reference_table 0x82F63B78) 0).
Proof.
  assert (H : forallb (fun x => (0 <=? x) && (x <? 2 ^ 32)) (reference_table 0x82F63B78)
              = true) by (vm_compute; reflexivity).
  rewrite forallb_forall in H.
  destruct (Nat.lt_ge_cases i (length (reference_table 0x82F63B78))) as [Hlt|Hge].
  - specialize (H _ (nth_In _ 0 Hlt)).
    apply andb_true_iff in H as [H1 H2]. apply Z.leb_le in H1. apply Z.ltb_lt in H2.
    unfold is_u32. lia.
  - rewrite nth_overflow by exact Hge. unfold is_u32. lia.
Qed.

Lemma shiftr_is_u32 c n : is_u32 c -> 0 <= n -> is_u32 (Z.shiftr c n).
Proof.
  unfold is_u32. intros Hc Hn. rewrite Z.shiftr_div_pow2 by lia. split.
  - apply Z.div_pos; lia.
  - apply Z.le_lt_trans with c; [|lia]. apply Z.div_le_upper_bound; [lia|].
    assert (1 <= 2 ^ n) by (apply (Z.pow_le_mono_r 2 0 n); lia). nia.
Qed.

Lemma reference_crc32_is_u32 bs iv :
  is_u32 iv -> is_u32 (reference_crc32 0x82F63B78 bs iv).
Proof.
  unfold reference_crc32. cbv zeta. revert iv.
  induction bs as [|b bs IH]; intros iv Hiv; simpl; [exact Hiv|].
  apply IH. apply lxor_is_u32; [apply reference_table_is_u32|].
  apply shiftr_is_u32; [exact Hiv|lia].
Qed.

Lemma reference_crc32_app p a b iv :
  reference_crc32 p (a ++ b) iv = reference_crc32 p b (reference_crc32 p a iv).
Proof. unfold reference_crc32. cbv zeta. apply fold_left_app. Qed.

Lemma calculate_weak_crc32_whole bs iv g :
  crc32_statics_reachable g ->
  dump_handle_calculate_weak_crc32 bs (Z.of_nat (length bs)) iv g
  = (spec_weak_crc32 bs iv, crc32_statics_built).
Proof.
  intros Hg. rewrite (calculate_weak_crc32_reachable bs _ iv g Hg).
  rewrite Nat2Z.id, weak_crc32_loop_fold. reflexivity.
Qed.

Lemma crc32_statics_built_reachable : crc32_statics_reachable crc32_statics_built.
Proof.
  rewrite <- initialize_crc32_table_initial.
  change (dump_handle_initialize_crc32_table 0x82f63b78 crc32_statics_initial)
    with (snd (dump_handle_calculate_weak_crc32 [] 0 0 crc32_statics_initial)).
  constructor. constructor.
Qed.

(** X11. The checksum streams and stays in 32 bits.  Checksumming a
    buffer in two calls, the second started from the result of the
    first, returns the checksum of the whole buffer, and both calls leave
    the same table; a 32-bit initial value gives a 32-bit checksum. *)
Theorem weak_crc32_streams (g : crc32_statics) (a b : list Z) (iv : Z) :
  crc32_statics_reachable g ->
  let first := dump_handle_calculate_weak_crc32 a (Z.of_nat (length a)) iv g in
  let second :=
    dump_handle_calculate_weak_crc32 b (Z.of_nat (length b)) (fst first) (snd first) in
  let whole :=
    dump_handle_calculate_weak_crc32 (a ++ b) (Z.of_nat (length (a ++ b))) iv g in
  second = whole /\ snd first = snd whole /\
  (is_u32 iv -> is_u32 (fst whole)).
Proof.
  intros Hg. cbv zeta.
  rewrite (calculate_weak_crc32_whole a iv g Hg).
  rewrite (calculate_weak_crc32_whole (a ++ b) iv g Hg). cbn [fst snd].
  rewrite (calculate_weak_crc32_whole b _ _ crc32_statics_built_reachable).
  unfold spec_weak_crc32. rewrite reference_crc32_app.
  split; [reflexivity|]. split; [reflexivity|].
  intros Hiv. rewrite <- reference_crc32_app. apply reference_crc32_is_u32, Hiv.
Qed.

Lemma weak_crc32_streams_witness :
  dump_handle_calculate_weak_crc32 [53; 54; 55; 56; 57] 5
    (fst (dump_handle_calculate_weak_crc32 [49; 50; 51; 52] 4 0xffffffff
            crc32_statics_initial))
    (snd (dump_handle_calculate_weak_crc32 [49; 50; 51; 52] 4 0xffffffff
            crc32_statics_initial))
  = dump_handle_calculate_weak_crc32 [49; 50; 51; 52; 53; 54; 55; 56; 57] 9 0xffffffff
      crc32_statics_initial.
Proof.
  exact (proj1 (weak_crc32_streams crc32_statics_initial [49; 50; 51; 52]
                  [53; 54; 55; 56; 57] 0xffffffff statics_at_start)).
Defined.

(* ================================================================= *)
(** ** Byte buffers *)

Lemma le_encode_length n v : length (le_encode n v) = n.
Proof. revert v. induction n as [|n IH]; intros v; simpl; [reflexivity|]. rewrite IH. reflexivity. Qed.

Lemma le_encode_is_u8 n v : Forall is_u8 (le_encode n v).
Proof.
  revert v. induction n as [|n IH]; intros v; simpl; constructor; [|apply IH].
  unfold is_u8. change (2 ^ 8) with 256. apply Z.mod_pos_bound. lia.
Qed.

Lemma le_decode_encode n v : le_decode (le_encode n v) = v mod 256 ^ Z.of_nat n.
Proof.
  revert v. induction n as [|n IH]; intros v.
  - simpl. rewrite Z.mod_1_r. reflexivity.
  - cbn [le_encode le_decode]. rewrite IH.
    replace (256 ^ Z.of_nat (S n)) with (256 * 256 ^ Z.of_nat n).
    2:{ rewrite Nat2Z.inj_succ, Z.pow_succ_r by lia. reflexivity. }
    rewrite Z.rem_mul_r; [reflexivity|lia|]. apply Z.pow_pos_nonneg; lia.
Qed.

Lemma le_decode_range bs :
  Forall is_u8 bs -> 0 <= le_decode bs < 256 ^ Z.of_nat (length bs).
Proof.
  induction 1 as [|b bs Hb _ IH].
  - simpl. lia.
  - cbn [le_decode length]. rewrite Nat2Z.inj_succ, Z.pow_succ_r by lia.
    unfold is_u8 in Hb. change (2 ^ 8) with 256 in Hb. lia.
Qed.

Lemma lookup_get_bytes offset size buffer i :
  get_bytes offset size buffer !! i
  = if (i <? Z.to_nat size)%nat then buffer !! (Z.to_nat offset + i)%nat else None.
Proof.
  unfold get_bytes. destruct (Nat.ltb_spec i (Z.to_nat size)).
  - rewrite lookup_take_lt by assumption. apply lookup_drop.
  - apply lookup_take_ge. assumption.
Qed.

Lemma put_bytes_in_range offset data buffer :
  0 <= offset -> offset + Z.of_nat (length data) <= Z.of_nat (length buffer) ->
  put_bytes offset data buffer
  = firstn (Z.to_nat offset) buffer ++ data
    ++ skipn (Z.to_nat offset + length data) buffer.
Proof.
  intros H0 H1. unfold put_bytes.
  destruct (Z.leb_spec 0 offset); [|lia].
  destruct (Z.leb_spec (offset + Z.of_nat (length data)) (Z.of_nat (length buffer)));
    [reflexivity|lia].
Qed.

Lemma length_put_bytes offset data buffer :
  length (put_bytes offset data buffer) = length buffer.
Proof.
  unfold put_bytes. destruct (_ && _) eqn:E; [|reflexivity].
  apply andb_true_iff in E as [H0 H1]. apply Z.leb_le in H0, H1.
  rewrite !length_app, length_firstn, length_skipn. lia.
Qed.

Lemma lookup_put_bytes offset data buffer i :
  0 <= offset -> offset + Z.of_nat (length data) <= Z.of_nat (length buffer) ->
  put_bytes offset data buffer !! i
  = if ((Z.to_nat offset <=? i) && (i <? Z.to_nat offset + length data))%nat
    then data !! (i - Z.to_nat offset)%nat
    else buffer !! i.
Proof.
  intros H0 H1. rewrite put_bytes_in_range by assumption.
  assert (Hlen : length (firstn (Z.to_nat offset) buffer) = Z.to_nat offset)
    by (rewrite length_firstn; lia).
  destruct (Nat.leb_spec (Z.to_nat offset) i); simpl.
  - rewrite lookup_app_r by lia. rewrite Hlen.
    destruct (Nat.ltb_spec i (Z.to_nat offset + length data)).
    + apply lookup_app_l. lia.
    + rewrite lookup_app_r by lia. rewrite lookup_drop. f_equal. lia.
  - rewrite lookup_app_l by lia. apply lookup_take_lt. lia.
Qed.

Lemma lookup_put_bytes_outside offset data buffer i :
  (i < Z.to_nat offset \/ Z.to_nat offset + length data <= i)%nat ->
  put_bytes offset data buffer !! i = buffer !! i.
Proof.
  intros Hi. unfold put_bytes. destruct (_ && _) eqn:E; [|reflexivity].
  apply andb_true_iff in E as [H0 H1]. apply Z.leb_le in H0, H1.
  pose proof (lookup_put_bytes offset data buffer i H0 H1) as H.
  rewrite put_bytes_in_range in H by assumption. rewrite H.
  destruct (Nat.leb_spec (Z.to_nat offset) i); simpl; [|reflexivity].
  destruct (Nat.ltb_spec i (Z.to_nat offset + length data)); [lia|reflexivity].
Qed.

Lemma get_put_bytes_same offset data buffer :
  0 <= offset -> offset + Z.of_nat (length data) <= Z.of_nat (length buffer) ->
  get_bytes offset (Z.of_nat (length data)) (put_bytes offset data buffer) = data.
Proof.
  intros H0 H1. apply list_eq. intros i.
  rewrite lookup_get_bytes, Nat2Z.id.
  destruct (Nat.ltb_spec i (length data)).
  - rewrite lookup_put_bytes by assumption.
    destruct (Nat.leb_spec (Z.to_nat offset) (Z.to_nat offset + i)); [|lia].
    destruct (Nat.ltb_spec (Z.to_nat offset + i) (Z.to_nat offset + length data)); [|lia].
    simpl. f_equal. lia.
  - symmetry. apply lookup_ge_None_2. assumption.
Qed.

Lemma get_put_bytes_other offset' size offset data buffer :
  0 <= offset' -> 0 <= size -> 0 <= offset ->
  offset' + size <= offset \/ offset + Z.of_nat (length data) <= offset' ->
  get_bytes offset' size (put_bytes offset data buffer) = get_bytes offset' size buffer.
Proof.
  intros H0 H1 H2 Hdisjoint. apply list_eq. intros i.
  rewrite !lookup_get_bytes.
  destruct (Nat.ltb_spec i (Z.to_nat size)); [|reflexivity].
  apply lookup_put_bytes_outside. lia.
Qed.

Lemma put_bytes_is_u8 offset data buffer :
  Forall is_u8 data -> Forall is_u8 buffer -> Forall is_u8 (put_bytes offset data buffer).
Proof.
  intros Hd Hb. unfold put_bytes. destruct (_ && _); [|exact Hb].
  apply Forall_app. split; [apply Forall_take, Hb|].
  apply Forall_app. split; [exact Hd|apply Forall_drop, Hb].
Qed.

Lemma get_bytes_is_u8 offset size buffer :
  Forall is_u8 buffer -> Forall is_u8 (get_bytes offset size buffer).
Proof. intros H. unfold get_bytes. apply Forall_take, Forall_drop, H. Qed.

Lemma length_get_bytes offset size buffer :
  0 <= offset -> 0 <= size -> offset + size <= Z.of_nat (length buffer) ->
  length (get_bytes offset size buffer) = Z.to_nat size.
Proof.
  intros H0 H1 H2. unfold get_bytes. rewrite length_firstn, length_skipn. lia.
Qed.

(** Reading back a stored 64-bit or 32-bit value. *)
Lemma uint64_read_back buffer offset value :
  0 <= offset -> offset + 8 <= Z.of_nat (length buffer) ->
  byte_stream_copy_to_uint64_little_endian
    (byte_stream_copy_from_uint64_little_endian buffer offset value) offset
  = wrap64 value.
Proof.
  intros H0 H1.
  unfold byte_stream_copy_to_uint64_little_endian,
    byte_stream_copy_from_uint64_little_endian.
  pose proof (get_put_bytes_same offset (le_encode 8 value) buffer H0) as H.
  rewrite le_encode_length in H. change (Z.of_nat 8) with 8 in H.
  rewrite H by lia. rewrite le_decode_encode. reflexivity.
Qed.

Lemma uint32_read_back buffer offset value :
  0 <= offset -> offset + 4 <= Z.of_nat (length buffer) ->
  byte_stream_copy_to_uint32_little_endian
    (byte_stream_copy_from_uint32_little_endian buffer offset value) offset
  = wrap32 value.
Proof.
  intros H0 H1.
  unfold byte_stream_copy_to_uint32_little_endian,
    byte_stream_copy_from_uint32_little_endian.
  pose proof (get_put_bytes_same offset (le_encode 4 value) buffer H0) as H.
  rewrite le_encode_length in H. change (Z.of_nat 4) with 4 in H.
  rewrite H by lia. rewrite le_decode_encode. reflexivity.
Qed.

Lemma uint32_is_u32 buffer offset :
  Forall is_u8 buffer -> is_u32 (byte_stream_copy_to_uint32_little_endian buffer offset).
Proof.
  intros H. unfold byte_stream_copy_to_uint32_little_endian.
  pose proof (le_decode_range _ (get_bytes_is_u8 offset 4 buffer H)) as Hr.
  assert (Hlen : (length (get_bytes offset 4 buffer) <= 4)%nat).
  { unfold get_bytes. rewrite length_firstn. lia. }
  assert (256 ^ Z.of_nat (length (get_bytes offset 4 buffer)) <= 256 ^ 4)
    by (apply Z.pow_le_mono_r; lia).
  unfold is_u32. change (2 ^ 32) with (256 ^ 4). lia.
Qed.

(* ================================================================= *)
(** ** The corrected volume header *)

Lemma correct_volume_header_slots block_size metadata_size data g :
  correct_volume_header block_size metadata_size data g
  = let data4 := volume_header_with_slots block_size metadata_size data in
    let cg := dump_handle_calculate_weak_crc32 (skipn 8 data4) 504
                (byte_stream_copy_to_uint32_little_endian data4 4) g in
    (byte_stream_copy_from_uint32_little_endian data4 0 (fst cg), snd cg).
Proof.
  unfold correct_volume_header, volume_header_with_slots. cbn [fold_left]. cbv zeta.
  set (k := wrap32 (metadata_size + block_size - 1) / block_size).
  replace (wrap64 (1 + 0 * k)) with 1 by reflexivity.
  replace (wrap64 (1 + 1 * k)) with (wrap64 (1 + k)) by (apply (f_equal wrap64); lia).
  replace (wrap64 (1 + 2 * k)) with (wrap64 (wrap64 (1 + k) + k))
    by (rewrite wrap64_add_l; apply (f_equal wrap64); lia).
  replace (wrap64 (1 + 3 * k)) with (wrap64 (wrap64 (wrap64 (1 + k) + k) + k))
    by (rewrite (wrap64_add_l (1 + k) k), wrap64_add_l; apply (f_equal wrap64); lia).
  destruct (dump_handle_calculate_weak_crc32 _ _ _ _) as [c g']. reflexivity.
Qed.

Lemma volume_header_with_slots_facts block_size metadata_size data :
  length data = 512%nat -> Forall is_u8 data ->
  let data4 := volume_header_with_slots block_size metadata_size data in
  length data4 = 512%nat /\ Forall is_u8 data4 /\
  (forall offset size, 0 <= offset -> 0 <= size ->
     offset + size <= 104 \/ 136 <= offset ->
     get_bytes offset size data4 = get_bytes offset size data) /\
  (forall j, 0 <= j < 4 ->
     byte_stream_copy_to_uint64_little_endian data4 (104 + j * 8)
     = wrap64 (1 + j * (wrap32 (metadata_size + block_size - 1) / block_size))).
Proof.
  intros Hlen Hu8. unfold volume_header_with_slots. cbn [fold_left]. cbv zeta.
  set (k := wrap32 (metadata_size + block_size - 1) / block_size).
  unfold byte_stream_copy_from_uint64_little_endian.
  split; [rewrite !length_put_bytes; exact Hlen|].
  split; [repeat apply put_bytes_is_u8; try apply le_encode_is_u8; exact Hu8|].
  split.
  - intros offset size H0 H1 Hout.
    rewrite !get_put_bytes_other; try reflexivity; try lia;
      rewrite le_encode_length; lia.
  - intros j Hj. unfold byte_stream_copy_to_uint64_little_endian.
    assert (Hcases : j = 0 \/ j = 1 \/ j = 2 \/ j = 3) by lia.
    assert (Hsame : forall offset value buffer,
              0 <= offset -> offset + 8 <= Z.of_nat (length buffer) ->
              le_decode (get_bytes offset 8 (put_bytes offset (le_encode 8 value) buffer))
              = wrap64 value).
    { intros offset value buffer H0 H1.
      pose proof (get_put_bytes_same offset (le_encode 8 value) buffer H0) as H.
      rewrite le_encode_length in H. change (Z.of_nat 8) with 8 in H.
      rewrite H by lia. apply le_decode_encode. }
    destruct Hcases as [-> | [-> | [-> | ->]]]; simpl Z.add; simpl Z.mul.
    + rewrite !(get_put_bytes_other 104 8) by (try rewrite le_encode_length; lia).
      rewrite Hsame by (rewrite ?length_put_bytes; lia). apply wrap64_idem.
    + rewrite !(get_put_bytes_other 112 8) by (try rewrite le_encode_length; lia).
      rewrite Hsame by (rewrite ?length_put_bytes; lia). apply wrap64_idem.
    + rewrite !(get_put_bytes_other 120 8) by (try rewrite le_encode_length; lia).
      rewrite Hsame by (rewrite ?length_put_bytes; lia). apply wrap64_idem.
    + rewrite Hsame by (rewrite ?length_put_bytes; lia). apply wrap64_idem.
Qed.

(** X12. The corrected volume header.  For a 512-byte header and a
    non-zero block size, the correction of the compact dump keeps the
    length, changes nothing outside the checksum (bytes 0..3) and the
    four slots (bytes 104..135), stores in slot [j] the block number
    [1 + j * ceil(metadata_size / block_size)] as a 64-bit value, and
    stores a checksum that validates: the weak CRC-32 of bytes 8..511
    started from the initial value in bytes 4..7. *)
Theorem corrected_volume_header_validates block_size metadata_size data g :
  crc32_statics_reachable g -> length data = 512%nat -> Forall is_u8 data ->
  0 < block_size ->
  let blocks := wrap32 (metadata_size + block_size - 1) / block_size in
  let corrected := fst (correct_volume_header block_size metadata_size data g) in
  length corrected = 512%nat /\
  get_bytes 4 100 corrected = get_bytes 4 100 data /\
  get_bytes 136 376 corrected = get_bytes 136 376 data /\
  (forall j, 0 <= j < 4 ->
     byte_stream_copy_to_uint64_little_endian corrected (104 + j * 8)
     = wrap64 (1 + j * blocks)) /\
  volume_header_checksum_valid corrected.
Proof.
  intros Hg Hlen Hu8 Hbs. cbv zeta.
  rewrite correct_volume_header_slots. cbv zeta. cbn [fst].
  destruct (volume_header_with_slots_facts block_size metadata_size data Hlen Hu8)
    as (Hlen4 & Hu84 & Hother & Hslots).
  set (data4 := volume_header_with_slots block_size metadata_size data) in *.
  assert (Hskip : length (skipn 8 data4) = 504%nat) by (rewrite length_skipn; lia).
  set (iv := byte_stream_copy_to_uint32_little_endian data4 4).
  set (crc := spec_weak_crc32 (skipn 8 data4) iv).
  assert (Hcalc : dump_handle_calculate_weak_crc32 (skipn 8 data4) 504 iv g
                  = (crc, crc32_statics_built)).
  { replace 504 with (Z.of_nat (length (skipn 8 data4))) by (rewrite Hskip; reflexivity).
    apply (calculate_weak_crc32_whole _ _ g Hg). }
  rewrite Hcalc. cbn [fst].
  assert (Hcrc : is_u32 crc).
  { apply reference_crc32_is_u32, uint32_is_u32, Hu84. }
  unfold byte_stream_copy_from_uint32_little_endian.
  assert (Hput : forall offset size, 0 <= offset -> 0 <= size -> 4 <= offset ->
            get_bytes offset size (put_bytes 0 (le_encode 4 crc) data4)
            = get_bytes offset size data4).
  { intros offset size H0 H1 H4. apply get_put_bytes_other; try lia.
    rewrite le_encode_length. lia. }
  split; [rewrite length_put_bytes; exact Hlen4|].
  split; [rewrite Hput by lia; apply Hother; lia|].
  split; [rewrite Hput by lia; apply Hother; lia|].
  split.
  - intros j Hj. unfold byte_stream_copy_to_uint64_little_endian.
    rewrite Hput by lia. apply Hslots, Hj.
  - unfold volume_header_checksum_valid.
    pose proof (uint32_read_back data4 0 crc ltac:(lia) ltac:(lia)) as Hback.
    unfold byte_stream_copy_from_uint32_little_endian in Hback. rewrite Hback.
    unfold byte_stream_copy_to_uint32_little_endian at 1. rewrite !Hput by lia.
    fold (byte_stream_copy_to_uint32_little_endian data4 4). fold iv.
    replace (get_bytes 8 504 data4) with (skipn 8 data4).
    2:{ unfold get_bytes. symmetry. apply firstn_all2. rewrite Hskip. lia. }
    unfold wrap32. apply Z.mod_small. exact Hcrc.
Qed.

Lemma is_u8_forallb l :
  forallb (fun b => (0 <=? b) && (b <? 256)) l = true -> Forall is_u8 l.
Proof.
  intros H. rewrite forallb_forall in H. apply List.Forall_forall. intros b Hb.
  specialize (H b Hb). apply andb_true_iff in H as [H1 H2].
  apply Z.leb_le in H1. apply Z.ltb_lt in H2. unfold is_u8. change (2 ^ 8) with 256. lia.
Qed.

Lemma corrected_volume_header_validates_witness :
  volume_header_checksum_valid
    (fst (correct_volume_header 4096 8192 example_volume_header crc32_statics_initial)) /\
  byte_stream_copy_to_uint64_little_endian
    (fst (correct_volume_header 4096 8192 example_volume_header crc32_statics_initial))
    (104 + 3 * 8) = 7.
Proof.
  destruct (corrected_volume_header_validates 4096 8192 example_volume_header
              crc32_statics_initial) as (_ & _ & _ & Hslots & Hvalid).
  - constructor.
  - vm_compute. reflexivity.
  - apply is_u8_forallb. vm_compute. reflexivity.
  - lia.
  - split; [exact Hvalid|]. rewrite (Hslots 3) by lia. vm_compute. reflexivity.
Defined.

(* ================================================================= *)
(** ** The corrected metadata block *)

Lemma wrap32_small z : 0 <= z < 2 ^ 32 -> wrap32 z = z.
Proof. intros H. apply Z.mod_small. exact H. Qed.

Lemma weak_crc32_loop_firstn table buffer size checksum :
  weak_crc32_loop table buffer size checksum
  = weak_crc32_loop table (firstn size buffer) (length (firstn size buffer)) checksum.
Proof.
  revert buffer checksum. induction size as [|size IH]; intros buffer checksum.
  - destruct buffer; reflexivity.
  - destruct buffer as [|b buffer]; [reflexivity|]. simpl. apply IH.
Qed.

Lemma calculate_weak_crc32_prefix buffer size iv g :
  crc32_statics_reachable g -> 0 <= size ->
  dump_handle_calculate_weak_crc32 buffer size iv g
  = (spec_weak_crc32 (firstn (Z.to_nat size) buffer) iv, crc32_statics_built).
Proof.
  intros Hg Hsize. rewrite (calculate_weak_crc32_reachable _ _ _ _ Hg).
  rewrite weak_crc32_loop_firstn, weak_crc32_loop_fold. reflexivity.
Qed.



(* ================================================================= *)
(** ** Copying a region *)

Lemma same_settings_refl h : same_settings h h.
Proof. reflexivity. Qed.

Lemma same_settings_trans h1 h2 h3 :
  same_settings h1 h2 -> same_settings h2 h3 -> same_settings h1 h3.
Proof. unfold same_settings. congruence. Qed.

Lemma same_settings_bytes_copied n h : same_settings h (set_bytes_copied n h).
Proof. reflexivity. Qed.

Lemma advanced_refl w : advanced w w [] 0.
Proof.
  unfold advanced. rewrite Z.add_0_r, app_nil_r.
  repeat split; auto using same_settings_refl.
Qed.

Lemma advanced_trans w w1 w2 writes1 writes2 n1 n2 :
  advanced w w1 writes1 n1 -> advanced w1 w2 writes2 n2 ->
  advanced w w2 (writes1 ++ writes2) (n1 + n2).
Proof.
  intros (S1 & H1 & G1 & B1 & D1) (S2 & H2 & G2 & B2 & D2).
  unfold advanced. split; [congruence|].
  split; [eapply same_settings_trans; eassumption|].
  split; [auto|]. split.
  - rewrite B2, <- wrap64_add_l, B1, wrap64_add_l. f_equal. lia.
  - rewrite D2, D1, List.app_assoc. reflexivity.
Qed.

Lemma get_bytes_split offset n size buffer :
  0 <= offset -> 0 <= n <= size -> offset + size <= Z.of_nat (length buffer) ->
  get_bytes offset size buffer
  = get_bytes offset n buffer ++ get_bytes (offset + n) (size - n) buffer.
Proof.
  intros H0 Hn Hfit. apply list_eq. intros i.
  assert (Hlen : length (get_bytes offset n buffer) = Z.to_nat n)
    by (apply length_get_bytes; lia).
  rewrite lookup_get_bytes.
  destruct (Nat.ltb_spec i (Z.to_nat n)) as [Hi|Hi].
  - rewrite lookup_app_l by lia. rewrite lookup_get_bytes.
    destruct (Nat.ltb_spec i (Z.to_nat n)); [|lia].
    destruct (Nat.ltb_spec i (Z.to_nat size)); [reflexivity|lia].
  - rewrite lookup_app_r by lia. rewrite Hlen, lookup_get_bytes.
    destruct (Nat.ltb_spec i (Z.to_nat size));
      destruct (Nat.ltb_spec (i - Z.to_nat n) (Z.to_nat (size - n))); try lia;
      [f_equal; lia | reflexivity].
Qed.

Lemma chunk_head buffer_size offset remaining source :
  0 < buffer_size -> 0 <= offset -> 0 < remaining ->
  offset + remaining <= Z.of_nat (length source) ->
  let n := if buffer_size <? remaining then buffer_size else remaining in
  firstn (Z.to_nat buffer_size) (get_bytes offset remaining source)
  = get_bytes offset n source /\
  skipn (Z.to_nat buffer_size) (get_bytes offset remaining source)
  = get_bytes (offset + n) (remaining - n) source.
Proof.
  intros HB H0 Hr Hfit n.
  assert (Hn : 0 < n <= remaining /\ n <= buffer_size)
    by (subst n; destruct (Z.ltb_spec buffer_size remaining); lia).
  rewrite (get_bytes_split offset n remaining source) by lia.
  assert (Hlen : length (get_bytes offset n source) = Z.to_nat n)
    by (apply length_get_bytes; lia).
  rewrite firstn_app, skipn_app, Hlen.
  rewrite (@firstn_all2 _ (Z.to_nat buffer_size) (get_bytes offset n source)) by lia.
  rewrite (@skipn_all2 _ (Z.to_nat buffer_size) (get_bytes offset n source)) by lia.
  subst n. destruct (Z.ltb_spec buffer_size remaining).
  - rewrite Nat.sub_diag. simpl. rewrite app_nil_r. split; reflexivity.
  - rewrite Z.sub_diag. unfold get_bytes at 2 3 4. simpl firstn.
    rewrite firstn_nil, skipn_nil, app_nil_r. split; reflexivity.
Qed.

(** One turn of the copy loop that finds its bytes in the source. *)
Lemma copy_region_loop_step chunks remaining w :
  0 < remaining -> dh_abort (w_handle w) = 0 ->
  let n := if copy_buffer_size <? remaining then copy_buffer_size else remaining in
  let data := get_bytes (w_source_position w) n (w_source w) in
  Z.of_nat (length data) = n ->
  copy_region_loop (S chunks) remaining w
  = copy_region_loop chunks (remaining - n)
      (mk_world
         (set_bytes_copied (wrap64 (dh_bytes_copied (w_handle w) + n)) (w_handle w))
         (w_source w) (w_source_position w + n)
         (w_destination w ++ [Write (w_destination_position w) data])
         (w_destination_position w + n) (w_crc32 w) (w_destination_size_limit w)).
Proof.
  intros Hpos Habort n data Hlen.
  cbn [copy_region_loop].
  destruct (Z.leb_spec remaining 0); [lia|].
  unfold bind at 1. unfold gets at 1. rewrite Habort.
  change (negb (0 =? 0)) with false. cbv iota.
  unfold bind at 1. unfold read_source at 1. fold n. fold data.
  rewrite Hlen, Z.eqb_refl. cbv iota. simpl negb. cbv iota.
  unfold bind, write_destination, add_bytes_copied, modify.
  unfold set_handle, set_destination, set_source_position. simpl.
  rewrite Hlen. reflexivity.
Qed.

Lemma copy_region_loop_ok chunks : forall remaining w,
  0 <= remaining <= Z.of_nat chunks * copy_buffer_size ->
  dh_abort (w_handle w) = 0 ->
  region_in_source w (w_source_position w) remaining ->
  exists w',
    copy_region_loop chunks remaining w = (Ok tt, w') /\
    advanced w w'
      (chunk_writes chunks (w_destination_position w)
         (get_bytes (w_source_position w) remaining (w_source w)))
      remaining.
Proof.
  pose proof (eq_refl : copy_buffer_size = 65536) as HB.
  induction chunks as [|chunks IH]; intros remaining w Hr Habort (Hp & _ & Hfit).
  - assert (remaining = 0) by lia. subst remaining.
    exists w. split; [reflexivity|]. apply advanced_refl.
  - destruct (Z.leb_spec remaining 0) as [Hzero|Hpos].
    + assert (remaining = 0) by lia. subst remaining.
      exists w. split; [reflexivity|].
      replace (get_bytes (w_source_position w) 0 (w_source w)) with (@nil Z)
        by reflexivity.
      apply advanced_refl.
    + destruct (chunk_head copy_buffer_size (w_source_position w) remaining (w_source w))
        as (Hhead & Htail); try lia.
      cbv zeta in Hhead, Htail.
      pose proof (copy_region_loop_step chunks remaining w Hpos Habort) as Hstep.
      cbv zeta in Hstep.
      set (n := if copy_buffer_size <? remaining then copy_buffer_size else remaining) in *.
      assert (Hn : 0 < n <= remaining /\ n <= copy_buffer_size /\
                   (n = copy_buffer_size \/ n = remaining))
        by (subst n; destruct (Z.ltb_spec copy_buffer_size remaining); lia).
      assert (Hlen : length (get_bytes (w_source_position w) n (w_source w)) = Z.to_nat n)
        by (apply length_get_bytes; lia).
      rewrite Hstep by (rewrite Hlen; lia).
      match goal with
      | |- context [copy_region_loop chunks (remaining - n) ?w1] =>
          destruct (IH (remaining - n) w1) as (w' & Hrun & Hadv)
      end.
      * rewrite Nat2Z.inj_succ in Hr. rewrite HB in *. lia.
      * exact Habort.
      * unfold region_in_source. simpl. lia.
      * exists w'. split; [exact Hrun|].
        cbn [chunk_writes].
        destruct (get_bytes (w_source_position w) remaining (w_source w)) as [|b rest] eqn:E.
        { apply (f_equal (@length Z)) in E.
          rewrite length_get_bytes in E by lia. simpl in E. lia. }
        rewrite Hhead, Hlen, Z2Nat.id by lia.
        destruct Hadv as (S1 & H1 & G1 & B1 & D1). simpl in S1, H1, G1, B1, D1.
        rewrite Htail.
        unfold advanced. split; [exact S1|]. split; [exact H1|]. split; [exact G1|].
        split.
        -- rewrite B1, wrap64_add_l. f_equal. lia.
        -- rewrite D1, <- List.app_assoc. reflexivity.
Qed.

(* ================================================================= *)
(** ** The content of the destination *)

Lemma destination_content_app log writes :
  destination_content (log ++ writes)
  = fold_left apply_destination_op writes (destination_content log).
Proof. unfold destination_content. apply fold_left_app. Qed.

(** Writing [a] and then [b] behind it is writing [a ++ b]. *)
Lemma apply_write_app file offset a b :
  0 <= offset ->
  apply_destination_op (apply_destination_op file (Write offset a))
    (Write (offset + Z.of_nat (length a)) b)
  = apply_destination_op file (Write offset (a ++ b)).
Proof.
  intros H0. cbn [apply_destination_op]. cbv zeta.
  set (padded := file ++ repeat 0 (Z.to_nat offset - length file)).
  assert (Hpad : (Z.to_nat offset <= length padded)%nat).
  { unfold padded. rewrite length_app, repeat_length. lia. }
  set (head := firstn (Z.to_nat offset) padded).
  assert (Hhead : length head = Z.to_nat offset)
    by (unfold head; rewrite length_firstn; lia).
  set (file1 := head ++ a ++ skipn (Z.to_nat offset + length a) padded).
  assert (Hlen1 : (Z.to_nat (offset + Z.of_nat (length a)) <= length file1)%nat).
  { unfold file1. rewrite !length_app, Hhead. lia. }
  replace (Z.to_nat (offset + Z.of_nat (length a)) - length file1)%nat with 0%nat by lia.
  simpl repeat. rewrite app_nil_r.
  replace (Z.to_nat (offset + Z.of_nat (length a)))
    with (length (head ++ a)) by (rewrite length_app, Hhead; lia).
  unfold file1. rewrite !(List.app_assoc head a).
  rewrite take_app_length, drop_app_add, drop_drop.
  rewrite <- !List.app_assoc. do 3 f_equal.
  rewrite length_app. f_equal. lia.
Qed.

(** The pieces of a region copy leave the file as one write of the whole
    region would. *)
Lemma apply_chunk_writes chunks : forall offset data file,
  0 <= offset -> data <> [] ->
  Z.of_nat (length data) <= Z.of_nat chunks * copy_buffer_size ->
  fold_left apply_destination_op (chunk_writes chunks offset data) file
  = apply_destination_op file (Write offset data).
Proof.
  pose proof (eq_refl : copy_buffer_size = 65536) as HB.
  induction chunks as [|chunks IH]; intros offset data file H0 Hne Hlen.
  - destruct data; [congruence|]. simpl length in Hlen. lia.
  - destruct data as [|b rest]; [congruence|].
    cbn [chunk_writes fold_left].
    set (data := b :: rest) in *.
    set (a := firstn (Z.to_nat copy_buffer_size) data).
    destruct (skipn (Z.to_nat copy_buffer_size) data) as [|c tail] eqn:E.
    + assert (Ha : a = data).
      { unfold a. rewrite <- (firstn_skipn (Z.to_nat copy_buffer_size) data) at 2.
        rewrite E, app_nil_r. reflexivity. }
      destruct chunks; cbn [chunk_writes fold_left]; rewrite Ha; reflexivity.
    + assert (Hsplit : data = a ++ c :: tail).
      { unfold a. rewrite <- E. symmetry. apply firstn_skipn. }
      assert (Halen : length a = Z.to_nat copy_buffer_size).
      { unfold a. rewrite length_firstn.
        apply (f_equal (@length Z)) in E. rewrite length_skipn in E.
        cbn [length] in E. lia. }
      rewrite IH.
      * rewrite apply_write_app by lia. rewrite <- Hsplit. reflexivity.
      * lia.
      * discriminate.
      * apply (f_equal (@length Z)) in Hsplit. rewrite length_app in Hsplit.
        rewrite Nat2Z.inj_succ in Hlen. rewrite HB in *. lia.
Qed.

Lemma copy_region_ok source_offset destination_offset size w :
  dh_abort (w_handle w) = 0 ->
  region_in_source w source_offset size ->
  Z.of_nat (length (w_source w)) < 2 ^ 63 ->
  0 <= destination_offset < 2 ^ 63 ->
  exists w',
    dump_handle_copy_region source_offset destination_offset size w = (Ok tt, w') /\
    advanced w w'
      (chunk_writes (S (Z.to_nat (size / copy_buffer_size))) destination_offset
         (get_bytes source_offset size (w_source w)))
      size.
Proof.
  intros Habort (Hs0 & Hsize & Hfit) Hsmall Hd.
  pose proof (eq_refl : copy_buffer_size = 65536) as HB.
  unfold dump_handle_copy_region.
  destruct (Z.eqb_spec size 0) as [->|Hne].
  - exists w. split; [reflexivity|].
    replace (get_bytes source_offset 0 (w_source w)) with (@nil Z) by reflexivity.
    apply advanced_refl.
  - unfold bind at 1. unfold lseek_source, negative_off_t.
    destruct (Z.leb_spec (2 ^ 63) source_offset); [lia|].
    unfold modify at 1. unfold bind at 1. unfold lseek_destination, negative_off_t.
    destruct (Z.leb_spec (2 ^ 63) destination_offset); [lia|].
    unfold modify at 1.
    match goal with
    | |- context [copy_region_loop ?c size ?w1] =>
        destruct (copy_region_loop_ok c size w1) as (w' & Hrun & Hadv)
    end.
    + split; [lia|]. rewrite Nat2Z.inj_succ, Z2Nat.id by (apply Z.div_pos; lia).
      rewrite HB. pose proof (Z.mul_succ_div_gt size 65536 ltac:(lia)). lia.
    + exact Habort.
    + unfold region_in_source. simpl. lia.
    + exists w'. split; [exact Hrun|]. exact Hadv.
Qed.

(** X14. A region copy copies the region.  When no abort is requested
    and the region lies within the source, [dump_handle_copy_region]
    succeeds, advances the byte counter by the size of the region, and
    leaves the destination file as one write of the source bytes of the
    region at the destination offset would, however many pieces of
    64 KiB it took; a region of size 0 changes nothing.  When an abort
    is requested, a copy of a non-empty region fails with
    ABORT_REQUESTED before anything is written. *)
Theorem copy_region_copies_the_region source_offset destination_offset size w :
  region_in_source w source_offset size ->
  Z.of_nat (length (w_source w)) < 2 ^ 63 ->
  0 <= destination_offset < 2 ^ 63 ->
  (dh_abort (w_handle w) = 0 ->
   exists w',
     dump_handle_copy_region source_offset destination_offset size w = (Ok tt, w') /\
     w_source w' = w_source w /\
     wrap64 (dh_bytes_copied (w_handle w'))
     = wrap64 (dh_bytes_copied (w_handle w) + size) /\
     (0 < size ->
      destination_content (w_destination w')
      = apply_destination_op (destination_content (w_destination w))
          (Write destination_offset (get_bytes source_offset size (w_source w)))) /\
     (size = 0 -> w' = w)) /\
  (dh_abort (w_handle w) <> 0 -> 0 < size ->
   fst (dump_handle_copy_region source_offset destination_offset size w)
   = Fail [RUNTIME_ERROR_ABORT_REQUESTED] /\
   w_destination (snd (dump_handle_copy_region source_offset destination_offset size w))
   = w_destination w).
Proof.
  intros Hregion Hsmall Hd. split.
  - intros Habort.
    destruct (copy_region_ok source_offset destination_offset size w
                Habort Hregion Hsmall Hd) as (w' & Hrun & S1 & H1 & G1 & B1 & D1).
    exists w'. split; [exact Hrun|]. split; [exact S1|]. split; [exact B1|]. split.
    + intros Hpos. rewrite D1, destination_content_app.
      destruct Hregion as (Hs0 & _ & Hfit).
      apply apply_chunk_writes; [lia| |].
      * intros E. apply (f_equal (@length Z)) in E.
        rewrite length_get_bytes in E by lia. cbn [length] in E. lia.
      * rewrite length_get_bytes by lia.
        rewrite Nat2Z.inj_succ, !Z2Nat.id by (try apply Z.div_pos; unfold copy_buffer_size; lia).
        pose proof (Z.mul_succ_div_gt size copy_buffer_size ltac:(unfold copy_buffer_size; lia)).
        lia.
    + intros ->. unfold dump_handle_copy_region in Hrun. simpl in Hrun.
      unfold ret in Hrun. congruence.
  - intros Habort Hpos. destruct Hregion as (Hs0 & _ & Hfit).
    assert (Hrun : dump_handle_copy_region source_offset destination_offset size w
                   = (Fail [RUNTIME_ERROR_ABORT_REQUESTED],
                      set_destination (w_destination w) destination_offset
                        (set_source_position source_offset w))).
    { unfold dump_handle_copy_region.
      destruct (Z.eqb_spec size 0); [lia|].
      unfold bind at 1. unfold lseek_source, negative_off_t.
      destruct (Z.leb_spec (2 ^ 63) source_offset); [lia|].
      unfold modify at 1. unfold bind at 1. unfold lseek_destination, negative_off_t.
      destruct (Z.leb_spec (2 ^ 63) destination_offset); [lia|].
      unfold modify at 1. cbn [copy_region_loop].
      destruct (Z.leb_spec size 0); [lia|].
      unfold bind, gets. cbn [w_handle set_destination set_source_position].
      destruct (Z.eqb_spec (dh_abort (w_handle w)) 0); [contradiction|].
      reflexivity. }
    rewrite Hrun. split; reflexivity.
Qed.

Lemma copy_region_copies_the_region_witness :
  exists w',
    dump_handle_copy_region 100 40 300 counting_world = (Ok tt, w') /\
    destination_content (w_destination w')
    = apply_destination_op [] (Write 40 (get_bytes 100 300 (w_source counting_world))).
Proof.
  destruct (proj1 (copy_region_copies_the_region 100 40 300 counting_world
                     ltac:(unfold region_in_source; vm_compute; intuition discriminate)
                     ltac:(vm_compute; reflexivity) ltac:(lia)) eq_refl)
    as (w' & Hrun & _ & _ & Hcontent & _).
  exists w'. split; [exact Hrun|]. apply Hcontent. lia.
Defined.

(* ================================================================= *)
(** ** The steps of the compact dump *)

Lemma correct_volume_header_statics block_size metadata_size data g :
  crc32_statics_reachable g ->
  fst (correct_volume_header block_size metadata_size data g)
  = fst (correct_volume_header block_size metadata_size data crc32_statics_built) /\
  crc32_statics_reachable (snd (correct_volume_header block_size metadata_size data g)).
Proof.
  intros Hg. rewrite !correct_volume_header_slots. cbv zeta. cbn [fst snd].
  rewrite (calculate_weak_crc32_reachable _ _ _ g Hg).
  rewrite (calculate_weak_crc32_reachable _ _ _ _ crc32_statics_built_reachable).
  split; [reflexivity|]. apply crc32_statics_built_reachable.
Qed.

Lemma correct_metadata_block_statics block_size metadata_size c1 c2 data g :
  crc32_statics_reachable g ->
  fst (correct_metadata_block block_size metadata_size c1 c2 data g)
  = fst (correct_metadata_block block_size metadata_size c1 c2 data crc32_statics_built) /\
  crc32_statics_reachable
    (snd (correct_metadata_block block_size metadata_size c1 c2 data g)).
Proof.
  intros Hg. unfold correct_metadata_block. cbv zeta.
  destruct (64 <? _); [|split; [reflexivity|exact Hg]].
  destruct (_ <=? metadata_size); [|split; [reflexivity|exact Hg]].
  rewrite (calculate_weak_crc32_reachable _ _ _ g Hg).
  rewrite (calculate_weak_crc32_reachable _ _ _ _ crc32_statics_built_reachable).
  split; [reflexivity|]. apply crc32_statics_built_reachable.
Qed.

Lemma negative_off_t_false offset : offset < 2 ^ 63 -> negative_off_t offset = false.
Proof. intros H. unfold negative_off_t. apply Z.leb_gt. exact H. Qed.

Lemma write_corrected_metadata_ok source_offset destination_offset c1 c2 w :
  region_in_source w source_offset (dh_metadata_size (w_handle w)) ->
  source_offset < 2 ^ 63 -> 0 <= destination_offset < 2 ^ 63 ->
  crc32_statics_reachable (w_crc32 w) ->
  exists w',
    dump_handle_write_corrected_metadata source_offset destination_offset c1 c2 w
    = (Ok tt, w') /\
    advanced w w'
      [Write destination_offset
         (fst (correct_metadata_block (dh_block_size (w_handle w))
                 (dh_metadata_size (w_handle w)) c1 c2
                 (get_bytes source_offset (dh_metadata_size (w_handle w)) (w_source w))
                 crc32_statics_built))]
      (dh_metadata_size (w_handle w)).
Proof.
  intros (Hs0 & Hms & Hfit) Hs Hd Hg.
  set (h := w_handle w) in *. set (ms := dh_metadata_size h) in *.
  set (data := get_bytes source_offset ms (w_source w)).
  assert (Hlen : Z.of_nat (length data) = ms).
  { unfold data. rewrite length_get_bytes by lia. lia. }
  destruct (correct_metadata_block_statics (dh_block_size h) ms c1 c2 data (w_crc32 w) Hg)
    as (Hfst & Hsnd).
  destruct (correct_metadata_block (dh_block_size h) ms c1 c2 data (w_crc32 w))
    as [corrected g'] eqn:E.
  cbn [fst snd] in Hfst, Hsnd.
  eexists. split.
  - unfold dump_handle_write_corrected_metadata.
    unfold bind at 1. unfold gets at 1. fold h. fold ms.
    unfold bind at 1. unfold lseek_source. rewrite negative_off_t_false by exact Hs.
    unfold modify at 1.
    unfold bind at 1. unfold read_source at 1.
    cbn [w_source w_source_position set_source_position]. fold data.
    rewrite Hlen, Z.eqb_refl. cbn [negb].
    unfold bind at 1. unfold gets at 1. cbn [w_crc32 set_source_position].
    rewrite E.
    unfold bind at 1. unfold modify at 1.
    unfold bind at 1. unfold lseek_destination.
    rewrite negative_off_t_false by lia. unfold modify at 1.
    unfold bind at 1. unfold write_destination, modify at 1.
    unfold add_bytes_copied, modify. reflexivity.
  - rewrite <- Hfst. unfold advanced.
    cbn [w_source w_handle w_crc32 w_destination w_destination_position
         set_handle set_destination set_crc32 set_source_position
         dh_bytes_copied set_bytes_copied].
    split; [reflexivity|]. split; [reflexivity|]. split; [intros _; exact Hsnd|].
    split; [apply wrap64_idem|reflexivity].
Qed.

Lemma write_corrected_volume_header_ok w :
  region_in_source w 0 512 -> crc32_statics_reachable (w_crc32 w) ->
  exists w',
    dump_handle_write_corrected_volume_header w = (Ok tt, w') /\
    advanced w w'
      [Write 0
         (fst (correct_volume_header (dh_block_size (w_handle w))
                 (dh_metadata_size (w_handle w))
                 (get_bytes 0 512 (w_source w)) crc32_statics_built))]
      512.
Proof.
  intros (_ & _ & Hfit) Hg.
  set (h := w_handle w).
  set (data := get_bytes 0 512 (w_source w)).
  assert (Hlen : Z.of_nat (length data) = 512).
  { unfold data. rewrite length_get_bytes by lia. lia. }
  destruct (correct_volume_header_statics (dh_block_size h) (dh_metadata_size h)
              data (w_crc32 w) Hg) as (Hfst & Hsnd).
  destruct (correct_volume_header (dh_block_size h) (dh_metadata_size h) data (w_crc32 w))
    as [corrected g'] eqn:E.
  cbn [fst snd] in Hfst, Hsnd.
  eexists. split.
  - unfold dump_handle_write_corrected_volume_header.
    unfold bind at 1. unfold gets at 1. fold h.
    unfold bind at 1. unfold lseek_source. rewrite negative_off_t_false by lia.
    unfold modify at 1.
    unfold bind at 1. unfold read_source at 1.
    cbn [w_source w_source_position set_source_position].
    unfold FVDE_VOLUME_HEADER_SIZE. fold data.
    rewrite Hlen, Z.eqb_refl. cbn [negb].
    unfold bind at 1. unfold gets at 1. cbn [w_crc32 set_source_position].
    rewrite E.
    unfold bind at 1. unfold modify at 1.
    unfold bind at 1. unfold lseek_destination.
    rewrite negative_off_t_false by lia. unfold modify at 1.
    unfold bind at 1. unfold write_destination, modify at 1.
    unfold add_bytes_copied, modify. reflexivity.
  - rewrite <- Hfst. unfold advanced.
    cbn [w_source w_handle w_crc32 w_destination w_destination_position
         set_handle set_destination set_crc32 set_source_position
         dh_bytes_copied set_bytes_copied].
    split; [reflexivity|]. split; [reflexivity|]. split; [intros _; exact Hsnd|].
    split; [apply wrap64_idem|reflexivity].
Qed.

Lemma compact_metadata_writes_settings h h' source indices current_offset :
  same_settings h h' ->
  compact_metadata_writes h source indices current_offset
  = compact_metadata_writes h' source indices current_offset.
Proof.
  intros Hsame. revert current_offset.
  induction indices as [|i rest IH]; intros current_offset; [reflexivity|].
  cbn [compact_metadata_writes]. rewrite IH. f_equal.
  - f_equal. change (corrected_copy (set_bytes_copied 0 h) source i
                     = corrected_copy (set_bytes_copied 0 h') source i).
    rewrite Hsame. reflexivity.
  - f_equal. f_equal.
    change (dh_metadata_size (set_bytes_copied 0 h)
            = dh_metadata_size (set_bytes_copied 0 h')).
    rewrite Hsame. reflexivity.
Qed.

Lemma dump_metadata_regions_compact_ok indices : forall current_offset w,
  dh_compact (w_handle w) <> 0 ->
  crc32_statics_reachable (w_crc32 w) ->
  (forall i, In i indices ->
     region_in_source w (nth (Z.to_nat i) (dh_metadata_offsets (w_handle w)) 0)
       (dh_metadata_size (w_handle w)) /\
     nth (Z.to_nat i) (dh_metadata_offsets (w_handle w)) 0 < 2 ^ 63) ->
  0 <= dh_metadata_size (w_handle w) -> 0 <= current_offset ->
  current_offset + Z.of_nat (length indices) * dh_metadata_size (w_handle w) < 2 ^ 63 ->
  exists w',
    dump_metadata_regions indices current_offset w
    = (Ok (current_offset + Z.of_nat (length indices) * dh_metadata_size (w_handle w)), w')
    /\
    advanced w w'
      (compact_metadata_writes (w_handle w) (w_source w) indices current_offset)
      (Z.of_nat (length indices) * dh_metadata_size (w_handle w)).
Proof.
  induction indices as [|i rest IH]; intros current_offset w Hc Hg Hin Hms H0 Hfit.
  - exists w. split.
    + simpl. unfold ret. rewrite Z.add_0_r. reflexivity.
    + apply advanced_refl.
  - cbn [length] in Hfit. rewrite Nat2Z.inj_succ in Hfit.
    destruct (Hin i (or_introl eq_refl)) as (Hregion & Hoff).
    destruct (write_corrected_metadata_ok
                (nth (Z.to_nat i) (dh_metadata_offsets (w_handle w)) 0) current_offset
                (compact_encrypted_metadata1_offset (w_handle w))
                (compact_encrypted_metadata2_offset (w_handle w)) w
                Hregion Hoff ltac:(nia) Hg) as (w1 & Hrun1 & Hadv1).
    pose proof Hadv1 as (S1 & H1 & G1 & B1 & D1).
    assert (Hms1 : dh_metadata_size (w_handle w1) = dh_metadata_size (w_handle w)).
    { change (dh_metadata_size (set_bytes_copied 0 (w_handle w1))
              = dh_metadata_size (set_bytes_copied 0 (w_handle w))).
      rewrite <- H1. reflexivity. }
    assert (Hoffs1 : dh_metadata_offsets (w_handle w1) = dh_metadata_offsets (w_handle w)).
    { change (dh_metadata_offsets (set_bytes_copied 0 (w_handle w1))
              = dh_metadata_offsets (set_bytes_copied 0 (w_handle w))).
      rewrite <- H1. reflexivity. }
    assert (Hc1 : dh_compact (w_handle w1) = dh_compact (w_handle w)).
    { change (dh_compact (set_bytes_copied 0 (w_handle w1))
              = dh_compact (set_bytes_copied 0 (w_handle w))).
      rewrite <- H1. reflexivity. }
    destruct (IH (current_offset + dh_metadata_size (w_handle w)) w1)
      as (w' & Hrun & Hadv).
    + rewrite Hc1. exact Hc.
    + apply G1, Hg.
    + intros j Hj. rewrite Hoffs1, Hms1. unfold region_in_source. rewrite S1.
      apply Hin. right. exact Hj.
    + rewrite Hms1. exact Hms.
    + lia.
    + rewrite Hms1. nia.
    + exists w'. split.
      * cbn [dump_metadata_regions]. unfold bind at 1. unfold gets at 1.
        destruct (Z.eqb_spec (dh_compact (w_handle w)) 0) as [E|_]; [contradiction|].
        cbn [negb]. unfold bind at 1. unfold on_error.
        fold (compact_encrypted_metadata1_offset (w_handle w)).
        fold (compact_encrypted_metadata2_offset (w_handle w)).
        rewrite Hrun1.
        rewrite (wrap64_small (current_offset + dh_metadata_size (w_handle w))) by nia.
        rewrite Hrun, Hms1. f_equal. f_equal. cbn [length]. lia.
      * cbn [compact_metadata_writes length].
        rewrite (compact_metadata_writes_settings _ _ _ _ _ H1), <- S1.
        rewrite Hms1 in Hadv.
        pose proof (advanced_trans _ _ _ _ _ _ _ Hadv1 Hadv) as Hboth.
        rewrite S1 in Hboth at 1. rewrite S1.
        replace (Z.of_nat (S (length rest)) * dh_metadata_size (w_handle w))
          with (dh_metadata_size (w_handle w)
                + Z.of_nat (length rest) * dh_metadata_size (w_handle w)) by lia.
        exact Hboth.
Qed.

Lemma dump_encrypted_metadata_compact_ok offset current_offset w :
  dh_compact (w_handle w) <> 0 -> dh_abort (w_handle w) = 0 ->
  0 <= dh_encrypted_metadata_size (w_handle w) ->
  (offset <> 0 -> region_in_source w offset (dh_encrypted_metadata_size (w_handle w))) ->
  Z.of_nat (length (w_source w)) < 2 ^ 63 ->
  0 <= current_offset ->
  (offset <> 0 -> current_offset + dh_encrypted_metadata_size (w_handle w) < 2 ^ 63) ->
  exists w',
    dump_encrypted_metadata offset current_offset w
    = (Ok (if offset =? 0 then current_offset
           else current_offset + dh_encrypted_metadata_size (w_handle w)), w') /\
    advanced w w'
      (compact_encrypted_writes (w_handle w) (w_source w) offset current_offset)
      (if offset =? 0 then 0 else dh_encrypted_metadata_size (w_handle w)).
Proof.
  intros Hc Habort Hes Hregion Hsmall H0 Hfit.
  unfold dump_encrypted_metadata, compact_encrypted_writes.
  unfold bind at 1. unfold gets at 1.
  destruct (Z.eqb_spec offset 0) as [->|Hne]; cbn [negb].
  - exists w. split; [reflexivity|apply advanced_refl].
  - destruct (Z.eqb_spec (dh_compact (w_handle w)) 0) as [E|_]; [contradiction|].
    cbn [negb].
    specialize (Hfit Hne).
    destruct (copy_region_ok offset current_offset
                (dh_encrypted_metadata_size (w_handle w)) w Habort (Hregion Hne)
                Hsmall ltac:(lia)) as (w' & Hrun & Hadv).
    exists w'. split; [|exact Hadv].
    unfold bind, on_error. rewrite Hrun. unfold ret.
    rewrite wrap64_small by lia. reflexivity.
Qed.

Lemma same_settings_fields h h' :
  same_settings h h' ->
  dh_block_size h' = dh_block_size h /\
  dh_metadata_size h' = dh_metadata_size h /\
  dh_metadata_offsets h' = dh_metadata_offsets h /\
  dh_encrypted_metadata1_offset h' = dh_encrypted_metadata1_offset h /\
  dh_encrypted_metadata2_offset h' = dh_encrypted_metadata2_offset h /\
  dh_encrypted_metadata_size h' = dh_encrypted_metadata_size h /\
  dh_compact h' = dh_compact h /\
  dh_abort h' = dh_abort h /\
  dh_physical_volume_size h' = dh_physical_volume_size h.
Proof.
  intros H.
  repeat split;
    match goal with
    | |- ?f h' = ?f h =>
        change (f (set_bytes_copied 0 h') = f (set_bytes_copied 0 h)); rewrite H;
        reflexivity
    end.
Qed.

Lemma compact_encrypted_writes_settings h h' source offset current_offset :
  same_settings h h' ->
  compact_encrypted_writes h source offset current_offset
  = compact_encrypted_writes h' source offset current_offset.
Proof.
  intros Hsame. unfold compact_encrypted_writes.
  destruct (same_settings_fields h h' Hsame) as (_ & _ & _ & _ & _ & -> & _).
  reflexivity.
Qed.

(** The log of the compact dump. *)
Lemma compact_dump_log w :
  compact_ready (w_handle w) (w_source w) ->
  crc32_statics_reachable (w_crc32 w) ->
  let h := w_handle w in
  let after_metadata := dh_block_size h + 4 * dh_metadata_size h in
  let after_first :=
    if dh_encrypted_metadata1_offset h =? 0 then after_metadata
    else after_metadata + dh_encrypted_metadata_size h in
  exists w',
    dump_handle_dump w = (Ok tt, w') /\
    w_source w' = w_source w /\
    wrap64 (dh_bytes_copied (w_handle w'))
    = wrap64 (512 + 4 * dh_metadata_size h
              + (if dh_encrypted_metadata1_offset h =? 0 then 0
                 else dh_encrypted_metadata_size h)
              + (if dh_encrypted_metadata2_offset h =? 0 then 0
                 else dh_encrypted_metadata_size h)) /\
    w_destination w'
    = w_destination w
      ++ [Write 0 (corrected_header h (w_source w))]
      ++ compact_metadata_writes h (w_source w) [0; 1; 2; 3] (dh_block_size h)
      ++ compact_encrypted_writes h (w_source w)
           (dh_encrypted_metadata1_offset h) after_metadata
      ++ compact_encrypted_writes h (w_source w)
           (dh_encrypted_metadata2_offset h) after_first.
Proof.
  intros (Hc & Habort & Hbs & Hms & Hsmall & Hhdr & Hoffs & Hes & He1 & He2) Hg.
  cbv zeta. unfold is_u32 in Hbs, Hms.
  set (h := w_handle w) in *. set (source := w_source w) in *.
  set (w0 := set_handle (set_bytes_copied 0 h) w).
  assert (Hadv0 : w_source w0 = source /\ same_settings h (w_handle w0) /\
                  w_crc32 w0 = w_crc32 w /\ dh_bytes_copied (w_handle w0) = 0 /\
                  w_destination w0 = w_destination w)
    by (repeat split; reflexivity).
  destruct Hadv0 as (S0 & H0 & G0 & B0 & D0).
  (* the header *)
  destruct (write_corrected_volume_header_ok w0) as (w1 & Hrun1 & Hadv1).
  { unfold region_in_source. rewrite S0. lia. }
  { rewrite G0. exact Hg. }
  pose proof Hadv1 as (S1 & H1 & G1 & B1 & D1).
  pose proof (same_settings_trans _ _ _ H0 H1) as H01.
  destruct (same_settings_fields _ _ H01)
    as (Fbs & Fms & Foffs & Fe1 & Fe2 & Fes & Fc & Fa & _).
  (* the four copies *)
  destruct (dump_metadata_regions_compact_ok [0; 1; 2; 3] (dh_block_size h) w1)
    as (w2 & Hrun2 & Hadv2).
  { rewrite Fc. exact Hc. }
  { apply G1. rewrite G0. exact Hg. }
  { intros i Hi. rewrite Foffs, Fms. unfold region_in_source. rewrite S1, S0.
    destruct (Hoffs i Hi). fold h in H, H2. lia. }
  { rewrite Fms. lia. }
  { lia. }
  { rewrite Fms. cbn [length]. lia. }
  rewrite Fms in Hrun2, Hadv2. cbn [length] in Hrun2, Hadv2.
  change (Z.of_nat 4) with 4 in Hrun2, Hadv2.
  pose proof Hadv2 as (S2 & H2 & G2 & B2 & D2).
  pose proof (same_settings_trans _ _ _ H01 H2) as H02.
  destruct (same_settings_fields _ _ H02)
    as (Gbs & Gms & Goffs & Ge1 & Ge2 & Ges & Gc & Ga & _).
  (* the first encrypted region *)
  destruct (dump_encrypted_metadata_compact_ok (dh_encrypted_metadata1_offset h)
              (dh_block_size h + 4 * dh_metadata_size h) w2)
    as (w3 & Hrun3 & Hadv3).
  { rewrite Gc. exact Hc. }
  { rewrite Ga. exact Habort. }
  { rewrite Ges. exact Hes. }
  { intros Hne. rewrite Ges. unfold region_in_source. rewrite S2, S1, S0.
    destruct (He1 Hne). lia. }
  { rewrite S2, S1, S0. lia. }
  { lia. }
  { intros Hne. rewrite Ges. destruct (He1 Hne). lia. }
  rewrite Ges in Hrun3, Hadv3.
  pose proof Hadv3 as (S3 & H3 & G3 & B3 & D3).
  pose proof (same_settings_trans _ _ _ H02 H3) as H03.
  destruct (same_settings_fields _ _ H03)
    as (Kbs & Kms & Koffs & Ke1 & Ke2 & Kes & Kc & Ka & _).
  set (after_metadata := dh_block_size h + 4 * dh_metadata_size h) in *.
  set (after_first := if dh_encrypted_metadata1_offset h =? 0 then after_metadata
                      else after_metadata + dh_encrypted_metadata_size h) in *.
  assert (Hafter : after_metadata <= after_first).
  { unfold after_first. destruct (_ =? 0); lia. }
  assert (Hafter' : dh_encrypted_metadata1_offset h <> 0 ->
                    after_first = after_metadata + dh_encrypted_metadata_size h).
  { intros Hne. unfold after_first.
    destruct (Z.eqb_spec (dh_encrypted_metadata1_offset h) 0); [contradiction|reflexivity]. }
  assert (Hafter0 : dh_encrypted_metadata1_offset h = 0 -> after_first = after_metadata).
  { intros E. unfold after_first. rewrite E. reflexivity. }
  (* the second encrypted region *)
  destruct (dump_encrypted_metadata_compact_ok (dh_encrypted_metadata2_offset h)
              after_first w3)
    as (w4 & Hrun4 & Hadv4).
  { rewrite Kc. exact Hc. }
  { rewrite Ka. exact Habort. }
  { rewrite Kes. exact Hes. }
  { intros Hne. rewrite Kes. unfold region_in_source. rewrite S3, S2, S1, S0.
    destruct (He2 Hne). lia. }
  { rewrite S3, S2, S1, S0. lia. }
  { unfold after_metadata in *. lia. }
  { intros Hne. rewrite Kes. destruct (He2 Hne).
    destruct (Z.eq_dec (dh_encrypted_metadata1_offset h) 0) as [E|E].
    - rewrite (Hafter0 E). unfold after_metadata. lia.
    - rewrite (Hafter' E). destruct (He1 E). unfold after_metadata. lia. }
  rewrite Kes in Hrun4, Hadv4.
  pose proof Hadv4 as (S4 & H4 & G4 & B4 & D4).
  exists w4. split; [|split; [|split]].
  - unfold dump_handle_dump. unfold bind at 1. unfold dump_header_and_metadata.
    unfold bind at 1. unfold modify at 1. fold h. fold w0.
    unfold bind at 1. unfold gets at 1.
    change (dh_compact (w_handle w0)) with (dh_compact h).
    change (dh_block_size (w_handle w0)) with (dh_block_size h).
    destruct (Z.eqb_spec (dh_compact h) 0) as [E|_]; [contradiction|].
    cbn [negb]. unfold bind at 1. unfold ret at 1.
    unfold bind at 1. unfold bind at 1. unfold on_error at 1. rewrite Hrun1.
    unfold ret at 1. rewrite Hrun2.
    unfold bind at 1. unfold gets at 1.
    rewrite Ge1, Ge2.
    unfold bind at 1. fold after_metadata. rewrite Hrun3.
    unfold bind at 1. fold after_first. rewrite Hrun4. reflexivity.
  - rewrite S4, S3, S2, S1, S0. reflexivity.
  - rewrite B4, <- wrap64_add_l, B3, wrap64_add_l, <- Z.add_assoc, <- wrap64_add_l.
    rewrite B2, wrap64_add_l, <- Z.add_assoc, <- wrap64_add_l, B1, B0.
    rewrite wrap64_add_l. f_equal. lia.
  - rewrite D4, D3, D2, D1, D0. rewrite <- !List.app_assoc.
    change (dh_block_size (w_handle w0)) with (dh_block_size h).
    change (dh_metadata_size (w_handle w0)) with (dh_metadata_size h).
    rewrite S3, S2, S1, S0.
    rewrite <- (compact_metadata_writes_settings _ _ _ _ _ H01).
    rewrite <- (compact_encrypted_writes_settings _ _ _ _ _ H02).
    rewrite <- (compact_encrypted_writes_settings _ _ _ _ _ H03).
    unfold corrected_header. fold h. fold source. reflexivity.
Qed.

(* ================================================================= *)
(** ** The compact image *)

Lemma apply_write_past_end file offset data :
  Z.of_nat (length file) <= offset ->
  apply_destination_op file (Write offset data)
  = file ++ repeat 0 (Z.to_nat offset - length file) ++ data.
Proof.
  intros Hle. cbn [apply_destination_op]. cbv zeta.
  set (padded := file ++ repeat 0 (Z.to_nat offset - length file)).
  assert (Hlen : length padded = Z.to_nat offset).
  { unfold padded. rewrite length_app, repeat_length. lia. }
  rewrite firstn_all2 by lia. rewrite skipn_all2 by lia.
  rewrite app_nil_r. unfold padded. rewrite <- List.app_assoc. reflexivity.
Qed.

Lemma apply_write_at_end file offset data :
  offset = Z.of_nat (length file) ->
  apply_destination_op file (Write offset data) = file ++ data.
Proof.
  intros ->. rewrite apply_write_past_end by lia.
  rewrite Nat2Z.id, Nat.sub_diag. reflexivity.
Qed.

Lemma length_volume_header_with_slots block_size metadata_size data :
  length (volume_header_with_slots block_size metadata_size data) = length data.
Proof.
  unfold volume_header_with_slots. cbn [fold_left]. cbv zeta.
  unfold byte_stream_copy_from_uint64_little_endian.
  rewrite !length_put_bytes. reflexivity.
Qed.

Lemma length_correct_volume_header block_size metadata_size data g :
  length (fst (correct_volume_header block_size metadata_size data g)) = length data.
Proof.
  rewrite correct_volume_header_slots. cbv zeta. cbn [fst].
  unfold byte_stream_copy_from_uint32_little_endian.
  rewrite length_put_bytes. apply length_volume_header_with_slots.
Qed.

Lemma length_correct_metadata_block block_size metadata_size c1 c2 data g :
  length (fst (correct_metadata_block block_size metadata_size c1 c2 data g))
  = length data.
Proof.
  unfold correct_metadata_block. cbv zeta.
  destruct (64 <? _); [|reflexivity].
  destruct (_ <=? metadata_size); [|reflexivity].
  destruct (dump_handle_calculate_weak_crc32 _ _ _ _) as [c g']. cbn [fst].
  unfold byte_stream_copy_from_uint32_little_endian,
    byte_stream_copy_from_uint64_little_endian.
  rewrite !length_put_bytes. reflexivity.
Qed.

Lemma apply_compact_encrypted_writes h source offset current_offset file :
  0 <= dh_encrypted_metadata_size h ->
  (offset <> 0 ->
   0 <= offset /\ offset + dh_encrypted_metadata_size h <= Z.of_nat (length source)) ->
  current_offset = Z.of_nat (length file) ->
  fold_left apply_destination_op
    (compact_encrypted_writes h source offset current_offset) file
  = file ++ encrypted_region h source offset.
Proof.
  intros Hes Hregion Hcur. unfold compact_encrypted_writes, encrypted_region.
  destruct (Z.eqb_spec offset 0) as [_|Hne]; [simpl; rewrite app_nil_r; reflexivity|].
  destruct (Hregion Hne) as (H0 & Hfit).
  set (data := get_bytes offset (dh_encrypted_metadata_size h) source).
  assert (Hlen : length data = Z.to_nat (dh_encrypted_metadata_size h))
    by (apply length_get_bytes; lia).
  destruct data as [|b rest] eqn:E.
  - cbn [chunk_writes fold_left]. rewrite app_nil_r. reflexivity.
  - rewrite <- E in *. rewrite apply_chunk_writes.
    + apply apply_write_at_end. exact Hcur.
    + lia.
    + rewrite E. discriminate.
    + rewrite Hlen, Nat2Z.inj_succ, !Z2Nat.id
        by (try apply Z.div_pos; unfold copy_buffer_size; lia).
      pose proof (Z.mul_succ_div_gt (dh_encrypted_metadata_size h) copy_buffer_size
                    ltac:(unfold copy_buffer_size; lia)).
      lia.
Qed.

Lemma length_encrypted_region h source offset :
  0 <= dh_encrypted_metadata_size h ->
  (offset <> 0 ->
   0 <= offset /\ offset + dh_encrypted_metadata_size h <= Z.of_nat (length source)) ->
  Z.of_nat (length (encrypted_region h source offset))
  = if offset =? 0 then 0 else dh_encrypted_metadata_size h.
Proof.
  intros Hes Hregion. unfold encrypted_region.
  destruct (Z.eqb_spec offset 0) as [_|Hne]; [reflexivity|].
  destruct (Hregion Hne). rewrite length_get_bytes by lia. lia.
Qed.

(** What the compact dump leaves in an empty destination. *)
Lemma compact_dump_content w :
  compact_ready (w_handle w) (w_source w) ->
  crc32_statics_reachable (w_crc32 w) ->
  w_destination w = [] ->
  512 <= dh_block_size (w_handle w) ->
  let h := w_handle w in
  exists w',
    dump_handle_dump w = (Ok tt, w') /\
    w_source w' = w_source w /\
    destination_content (w_destination w') = compact_image h (w_source w) /\
    wrap64 (dh_bytes_copied (w_handle w'))
    = 512 + 4 * dh_metadata_size h
      + Z.of_nat (length (encrypted_region h (w_source w)
                            (dh_encrypted_metadata1_offset h)))
      + Z.of_nat (length (encrypted_region h (w_source w)
                            (dh_encrypted_metadata2_offset h))).
Proof.
  intros Hready Hg Hempty Hbs512. cbv zeta.
  destruct (compact_dump_log w Hready Hg) as (w' & Hrun & Hsrc & Hbytes & Hlog).
  cbv zeta in Hbytes, Hlog.
  destruct Hready as (Hc & Habort & Hbs & Hms & Hsmall & Hhdr & Hoffs & Hes & He1 & He2).
  unfold is_u32 in Hbs, Hms.
  set (h := w_handle w) in *. set (source := w_source w) in *.
  exists w'. split; [exact Hrun|]. split; [exact Hsrc|].
  assert (Hlen_header : length (corrected_header h source) = 512%nat).
  { unfold corrected_header. rewrite length_correct_volume_header.
    rewrite length_get_bytes by lia. reflexivity. }
  assert (Hlen_copy : forall i, In i [0; 1; 2; 3] ->
            Z.of_nat (length (corrected_copy h source i)) = dh_metadata_size h).
  { intros i Hi. unfold corrected_copy. rewrite length_correct_metadata_block.
    destruct (Hoffs i Hi). rewrite length_get_bytes by lia. lia. }
  pose proof (Hlen_copy 0 ltac:(simpl; tauto)) as L0.
  pose proof (Hlen_copy 1 ltac:(simpl; tauto)) as L1.
  pose proof (Hlen_copy 2 ltac:(simpl; tauto)) as L2.
  pose proof (Hlen_copy 3 ltac:(simpl; tauto)) as L3.
  pose proof (length_encrypted_region h source _ Hes He1) as LE1.
  pose proof (length_encrypted_region h source _ Hes He2) as LE2.
  split.
  - rewrite Hlog, Hempty. cbn [app]. unfold destination_content.
    cbn [compact_metadata_writes app fold_left].
    rewrite !fold_left_app.
    rewrite (apply_write_at_end [] 0) by reflexivity. cbn [app].
    rewrite (apply_write_past_end (corrected_header h source))
      by (rewrite Hlen_header; lia).
    rewrite Hlen_header.
    replace (Z.to_nat (dh_block_size h) - 512)%nat
      with (Z.to_nat (dh_block_size h - 512)) by lia.
    set (zeros := repeat 0 (Z.to_nat (dh_block_size h - 512))).
    assert (Hz : length zeros = Z.to_nat (dh_block_size h - 512))
      by apply repeat_length.
    set (file1 := corrected_header h source ++ zeros ++ corrected_copy h source 0).
    assert (Hf1 : Z.of_nat (length file1) = dh_block_size h + dh_metadata_size h).
    { unfold file1. rewrite !length_app, Hlen_header, Hz. lia. }
    rewrite (apply_write_at_end file1) by (rewrite Hf1; reflexivity).
    set (file2 := file1 ++ corrected_copy h source 1).
    assert (Hf2 : Z.of_nat (length file2)
                  = dh_block_size h + dh_metadata_size h + dh_metadata_size h).
    { unfold file2. rewrite length_app. lia. }
    rewrite (apply_write_at_end file2) by (rewrite Hf2; reflexivity).
    set (file3 := file2 ++ corrected_copy h source 2).
    assert (Hf3 : Z.of_nat (length file3)
                  = dh_block_size h + dh_metadata_size h + dh_metadata_size h
                    + dh_metadata_size h).
    { unfold file3. rewrite length_app. lia. }
    rewrite (apply_write_at_end file3) by (rewrite Hf3; reflexivity).
    set (file4 := file3 ++ corrected_copy h source 3).
    assert (Hf4 : Z.of_nat (length file4) = dh_block_size h + 4 * dh_metadata_size h).
    { unfold file4. rewrite length_app. lia. }
    rewrite (apply_compact_encrypted_writes h source
               (dh_encrypted_metadata1_offset h)
               (dh_block_size h + 4 * dh_metadata_size h) file4 Hes He1)
      by (rewrite Hf4; reflexivity).
    set (file5 := file4 ++ encrypted_region h source (dh_encrypted_metadata1_offset h)).
    rewrite (apply_compact_encrypted_writes h source
               (dh_encrypted_metadata2_offset h) _ file5 Hes He2).
    + unfold compact_image, file5, file4, file3, file2, file1. fold zeros.
      rewrite <- !List.app_assoc. reflexivity.
    + unfold file5. rewrite length_app, Nat2Z.inj_add, Hf4, LE1.
      destruct (Z.eqb_spec (dh_encrypted_metadata1_offset h) 0); lia.
  - rewrite Hbytes, LE1, LE2. apply wrap64_small.
    destruct (Z.eqb_spec (dh_encrypted_metadata1_offset h) 0) as [|N1];
      destruct (Z.eqb_spec (dh_encrypted_metadata2_offset h) 0) as [|N2];
      try (destruct (He1 N1)); try (destruct (He2 N2)); lia.
Qed.

Lemma length_corrected_copy h source i :
  compact_ready h source -> In i [0; 1; 2; 3] ->
  Z.of_nat (length (corrected_copy h source i)) = dh_metadata_size h.
Proof.
  intros (Hc & Habort & Hbs & Hms & Hsmall & Hhdr & Hoffs & Hes & He1 & He2) Hi.
  unfold is_u32 in Hms.
  unfold corrected_copy. rewrite length_correct_metadata_block.
  destruct (Hoffs i Hi). rewrite length_get_bytes by lia. lia.
Qed.

Lemma length_corrected_header h source :
  compact_ready h source -> length (corrected_header h source) = 512%nat.
Proof.
  intros (Hc & Habort & Hbs & Hms & Hsmall & Hhdr & Hoffs & Hes & He1 & He2).
  unfold corrected_header. rewrite length_correct_volume_header.
  rewrite length_get_bytes by lia. reflexivity.
Qed.

Lemma length_compact_image h source :
  compact_ready h source -> 512 <= dh_block_size h ->
  Z.of_nat (length (compact_image h source))
  = dh_block_size h + 4 * dh_metadata_size h
    + Z.of_nat (length (encrypted_region h source (dh_encrypted_metadata1_offset h)))
    + Z.of_nat (length (encrypted_region h source (dh_encrypted_metadata2_offset h))).
Proof.
  intros Hready Hbs512. unfold compact_image.
  rewrite !length_app, !Nat2Z.inj_add, repeat_length.
  rewrite (length_corrected_header h source Hready).
  rewrite !(length_corrected_copy h source) by (assumption || (simpl; tauto)).
  change (Z.of_nat 512) with 512. lia.
Qed.





(* ================================================================= *)
(** ** Reading the volume header *)

Lemma read_volume_header_cases w :
  let header := get_bytes 0 512 (w_source w) in
  let w1 := set_source_position (Z.of_nat (length header)) w in
  dump_handle_read_volume_header w
  = if negb (Z.of_nat (length header) =? 512)
    then (Fail [IO_ERROR_READ_FAILED], w1)
    else if negb (nth 88 header 0 =? 67) || negb (nth 89 header 0 =? 83)
         then (Fail [RUNTIME_ERROR_UNSUPPORTED_VALUE], w1)
         else (Ok tt, set_handle (handle_with_header header (w_handle w)) w1).
Proof.
  cbv zeta. unfold dump_handle_read_volume_header.
  unfold bind at 1. unfold lseek_source.
  rewrite negative_off_t_false by lia. unfold modify at 1.
  unfold bind at 1. unfold read_source at 1.
  cbn [w_source w_source_position set_source_position].
  unfold FVDE_VOLUME_HEADER_SIZE. rewrite Z.add_0_l.
  destruct (negb (Z.of_nat (length (get_bytes 0 512 (w_source w))) =? 512));
    [reflexivity|].
  destruct (negb (nth 88 (get_bytes 0 512 (w_source w)) 0 =? 67)
            || negb (nth 89 (get_bytes 0 512 (w_source w)) 0 =? 83));
    reflexivity.
Qed.

(** X16. Reading the volume header.  [dump_handle_read_volume_header]
    fails with READ_FAILED when the source holds fewer than 512 bytes and
    with UNSUPPORTED_VALUE when bytes 88 and 89 are not "CS", leaving the
    handle as it was; otherwise it succeeds and stores the physical
    volume size (bytes 72..79), the block size (96..99), the metadata
    size (100..103) and, for each of the four slots at 104 + 8 i, the
    slot's block number times the block size as a 64-bit value, and
    changes no other field.  It never touches the destination. *)
Theorem read_volume_header_decodes w :
  let header := get_bytes 0 512 (w_source w) in
  let result := dump_handle_read_volume_header w in
  w_destination (snd result) = w_destination w /\
  w_source (snd result) = w_source w /\
  (Z.of_nat (length (w_source w)) < 512 ->
   fst result = Fail [IO_ERROR_READ_FAILED] /\ w_handle (snd result) = w_handle w) /\
  (512 <= Z.of_nat (length (w_source w)) -> ~ has_signature header ->
   fst result = Fail [RUNTIME_ERROR_UNSUPPORTED_VALUE] /\
   w_handle (snd result) = w_handle w) /\
  (512 <= Z.of_nat (length (w_source w)) -> has_signature header ->
   fst result = Ok tt /\
   w_handle (snd result) = handle_with_header header (w_handle w)).
Proof.
  cbv zeta. rewrite read_volume_header_cases. cbv zeta.
  set (header := get_bytes 0 512 (w_source w)).
  assert (Hlen : length header = Nat.min 512 (length (w_source w))).
  { unfold header, get_bytes. rewrite length_firstn, length_skipn.
    change (Z.to_nat 512) with 512%nat. change (Z.to_nat 0) with 0%nat. lia. }
  destruct (Z.eqb_spec (Z.of_nat (length header)) 512) as [E|E]; cbn [negb].
  - destruct (Z.eqb_spec (nth 88 header 0) 67) as [E88|E88];
      destruct (Z.eqb_spec (nth 89 header 0) 83) as [E89|E89]; cbn [negb orb];
      (split; [reflexivity|]); (split; [reflexivity|]);
      (split; [intros; lia|]);
      (split; [intros _ Hno|intros _ Hsig]);
      try (split; reflexivity);
      try (exfalso; apply Hno; split; assumption);
      try (destruct Hsig; contradiction).
  - split; [reflexivity|]. split; [reflexivity|].
    split; [intros _; split; reflexivity|].
    split; intros; lia.
Qed.

Lemma read_volume_header_decodes_witness :
  fst (dump_handle_read_volume_header (world_at_start example_volume_header 1)) = Ok tt /\
  dh_metadata_offsets
    (w_handle (snd (dump_handle_read_volume_header
                      (world_at_start example_volume_header 1))))
  = [8192; 16384; 24576; 32768].
Proof.
  destruct (read_volume_header_decodes (world_at_start example_volume_header 1))
    as (_ & _ & _ & _ & Hok).
  destruct Hok as (Hfst & Hhandle).
  - vm_compute. discriminate.
  - split; vm_compute; reflexivity.
  - split; [exact Hfst|]. rewrite Hhandle. vm_compute. reflexivity.
Defined.

(* ================================================================= *)
(** ** Reading the compact image back *)

Lemma get_bytes_middle pre x post :
  get_bytes (Z.of_nat (length pre)) (Z.of_nat (length x)) (pre ++ x ++ post) = x.
Proof.
  unfold get_bytes. rewrite !Nat2Z.id, drop_app_length, take_app_length. reflexivity.
Qed.

Lemma get_bytes_app_l offset size a b :
  0 <= offset -> 0 <= size -> offset + size <= Z.of_nat (length a) ->
  get_bytes offset size (a ++ b) = get_bytes offset size a.
Proof.
  intros H0 H1 Hfit. apply list_eq. intros i. rewrite !lookup_get_bytes.
  destruct (Nat.ltb_spec i (Z.to_nat size)); [|reflexivity].
  apply lookup_app_l. lia.
Qed.


Lemma correct_volume_header_facts block_size metadata_size data g :
  crc32_statics_reachable g -> length data = 512%nat -> Forall is_u8 data ->
  let corrected := fst (correct_volume_header block_size metadata_size data g) in
  (forall offset size, 4 <= offset -> 0 <= size ->
     offset + size <= 104 \/ 136 <= offset ->
     get_bytes offset size corrected = get_bytes offset size data) /\
  (forall j, 0 <= j < 4 ->
     byte_stream_copy_to_uint64_little_endian corrected (104 + j * 8)
     = wrap64 (1 + j * (wrap32 (metadata_size + block_size - 1) / block_size))).
Proof.
  intros Hg Hlen Hu8. cbv zeta.
  rewrite correct_volume_header_slots. cbv zeta. cbn [fst].
  destruct (volume_header_with_slots_facts block_size metadata_size data Hlen Hu8)
    as (Hlen4 & Hu84 & Hother & Hslots).
  set (data4 := volume_header_with_slots block_size metadata_size data) in *.
  set (crc := fst (dump_handle_calculate_weak_crc32 _ _ _ _)).
  unfold byte_stream_copy_from_uint32_little_endian.
  assert (Hput : forall offset size, 0 <= offset -> 0 <= size -> 4 <= offset ->
            get_bytes offset size (put_bytes 0 (le_encode 4 crc) data4)
            = get_bytes offset size data4).
  { intros offset size H0 H1 H4. apply get_put_bytes_other; try lia.
    rewrite le_encode_length. lia. }
  split.
  - intros offset size H4 H0 Hout. rewrite Hput by lia. apply Hother; lia.
  - intros j Hj. unfold byte_stream_copy_to_uint64_little_endian.
    rewrite Hput by lia. apply Hslots, Hj.
Qed.

(** Where the compact image holds the corrected copies. *)
Lemma compact_image_copy h source j :
  compact_ready h source -> 512 <= dh_block_size h -> In j [0; 1; 2; 3] ->
  get_bytes (dh_block_size h + j * dh_metadata_size h) (dh_metadata_size h)
    (compact_image h source)
  = corrected_copy h source j.
Proof.
  intros Hready Hbs512 Hj.
  pose proof (length_corrected_header h source Hready) as HlenH.
  pose proof (length_corrected_copy h source 0 Hready ltac:(simpl; tauto)) as L0.
  pose proof (length_corrected_copy h source 1 Hready ltac:(simpl; tauto)) as L1.
  pose proof (length_corrected_copy h source 2 Hready ltac:(simpl; tauto)) as L2.
  pose proof (length_corrected_copy h source 3 Hready ltac:(simpl; tauto)) as L3.
  unfold compact_image.
  set (H := corrected_header h source) in *.
  set (zeros := repeat 0 (Z.to_nat (dh_block_size h - 512))).
  assert (Hz : length zeros = Z.to_nat (dh_block_size h - 512)) by apply repeat_length.
  set (C0 := corrected_copy h source 0) in *.
  set (C1 := corrected_copy h source 1) in *.
  set (C2 := corrected_copy h source 2) in *.
  set (C3 := corrected_copy h source 3) in *.
  set (rest := encrypted_region h source (dh_encrypted_metadata1_offset h)
               ++ encrypted_region h source (dh_encrypted_metadata2_offset h)).
  destruct Hj as [<-|[<-|[<-|[<-|[]]]]].
  - fold C0.
    replace (H ++ zeros ++ C0 ++ C1 ++ C2 ++ C3 ++ rest)
      with ((H ++ zeros) ++ C0 ++ (C1 ++ C2 ++ C3 ++ rest))
      by (rewrite <- !List.app_assoc; reflexivity).
    replace (dh_block_size h + 0 * dh_metadata_size h)
      with (Z.of_nat (length (H ++ zeros))) by (rewrite length_app, HlenH, Hz; lia).
    rewrite <- L0. apply get_bytes_middle.
  - fold C1.
    replace (H ++ zeros ++ C0 ++ C1 ++ C2 ++ C3 ++ rest)
      with ((H ++ zeros ++ C0) ++ C1 ++ (C2 ++ C3 ++ rest))
      by (rewrite <- !List.app_assoc; reflexivity).
    replace (dh_block_size h + 1 * dh_metadata_size h)
      with (Z.of_nat (length (H ++ zeros ++ C0)))
      by (rewrite !length_app, HlenH, Hz; lia).
    rewrite <- L1. apply get_bytes_middle.
  - fold C2.
    replace (H ++ zeros ++ C0 ++ C1 ++ C2 ++ C3 ++ rest)
      with ((H ++ zeros ++ C0 ++ C1) ++ C2 ++ (C3 ++ rest))
      by (rewrite <- !List.app_assoc; reflexivity).
    replace (dh_block_size h + 2 * dh_metadata_size h)
      with (Z.of_nat (length (H ++ zeros ++ C0 ++ C1)))
      by (rewrite !length_app, HlenH, Hz; lia).
    rewrite <- L2. apply get_bytes_middle.
  - fold C3.
    replace (H ++ zeros ++ C0 ++ C1 ++ C2 ++ C3 ++ rest)
      with ((H ++ zeros ++ C0 ++ C1 ++ C2) ++ C3 ++ rest)
      by (rewrite <- !List.app_assoc; reflexivity).
    replace (dh_block_size h + 3 * dh_metadata_size h)
      with (Z.of_nat (length (H ++ zeros ++ C0 ++ C1 ++ C2)))
      by (rewrite !length_app, HlenH, Hz; lia).
    rewrite <- L3. apply get_bytes_middle.
Qed.

(** The compact image starts with the corrected header. *)
Lemma compact_image_header h source :
  compact_ready h source ->
  get_bytes 0 512 (compact_image h source) = corrected_header h source.
Proof.
  intros Hready. pose proof (length_corrected_header h source Hready) as HlenH.
  unfold compact_image.
  rewrite get_bytes_app_l by (rewrite ?HlenH; lia).
  unfold get_bytes. apply firstn_all2. cbn [skipn]. rewrite HlenH. lia.
Qed.




(* ================================================================= *)
(** ** The steps of the sparse dump *)

Lemma dump_metadata_regions_sparse_ok indices : forall current_offset w,
  dh_compact (w_handle w) = 0 -> dh_abort (w_handle w) = 0 ->
  Z.of_nat (length (w_source w)) < 2 ^ 63 ->
  (forall i, In i indices ->
     region_in_source w (nth (Z.to_nat i) (dh_metadata_offsets (w_handle w)) 0)
       (dh_metadata_size (w_handle w))) ->
  exists w',
    dump_metadata_regions indices current_offset w = (Ok current_offset, w') /\
    advanced w w'
      (flat_map
         (fun i => region_writes (w_source w)
                     (nth (Z.to_nat i) (dh_metadata_offsets (w_handle w)) 0,
                      dh_metadata_size (w_handle w)))
         indices)
      (Z.of_nat (length indices) * dh_metadata_size (w_handle w)).
Proof.
  induction indices as [|i rest IH]; intros current_offset w Hc Habort Hsmall Hin.
  - exists w. split; [reflexivity|apply advanced_refl].
  - pose proof (Hin i (or_introl eq_refl)) as Hregion.
    destruct (copy_region_ok
                (nth (Z.to_nat i) (dh_metadata_offsets (w_handle w)) 0)
                (nth (Z.to_nat i) (dh_metadata_offsets (w_handle w)) 0)
                (dh_metadata_size (w_handle w)) w Habort Hregion Hsmall)
      as (w1 & Hrun1 & Hadv1).
    { destruct Hregion as (H0 & H1 & H2). lia. }
    pose proof Hadv1 as (S1 & H1 & G1 & B1 & D1).
    destruct (same_settings_fields _ _ H1)
      as (Fbs & Fms & Foffs & Fe1 & Fe2 & Fes & Fc & Fa & _).
    destruct (IH current_offset w1) as (w' & Hrun & Hadv).
    + rewrite Fc. exact Hc.
    + rewrite Fa. exact Habort.
    + rewrite S1. exact Hsmall.
    + intros j Hj. rewrite Foffs, Fms. unfold region_in_source. rewrite S1.
      apply Hin. right. exact Hj.
    + exists w'. split.
      * cbn [dump_metadata_regions]. unfold bind at 1. unfold gets at 1.
        rewrite Hc. cbn [Z.eqb negb].
        unfold bind at 1. unfold on_error. rewrite Hrun1. exact Hrun.
      * rewrite Foffs, Fms, S1 in Hadv.
        pose proof (advanced_trans _ _ _ _ _ _ _ Hadv1 Hadv) as Hboth.
        cbn [flat_map length]. unfold region_writes at 1. cbn [fst snd].
        replace (Z.of_nat (S (length rest)) * dh_metadata_size (w_handle w))
          with (dh_metadata_size (w_handle w)
                + Z.of_nat (length rest) * dh_metadata_size (w_handle w)) by lia.
        exact Hboth.
Qed.

Lemma dump_encrypted_metadata_sparse_ok offset current_offset w :
  dh_compact (w_handle w) = 0 -> dh_abort (w_handle w) = 0 ->
  (offset <> 0 -> region_in_source w offset (dh_encrypted_metadata_size (w_handle w))) ->
  Z.of_nat (length (w_source w)) < 2 ^ 63 ->
  exists w',
    dump_encrypted_metadata offset current_offset w = (Ok current_offset, w') /\
    advanced w w'
      (if offset =? 0 then []
       else region_writes (w_source w) (offset, dh_encrypted_metadata_size (w_handle w)))
      (if offset =? 0 then 0 else dh_encrypted_metadata_size (w_handle w)).
Proof.
  intros Hc Habort Hregion Hsmall.
  unfold dump_encrypted_metadata.
  unfold bind at 1. unfold gets at 1.
  destruct (Z.eqb_spec offset 0) as [->|Hne]; cbn [negb].
  - exists w. split; [reflexivity|apply advanced_refl].
  - rewrite Hc. cbn [Z.eqb negb].
    pose proof (Hregion Hne) as Hr.
    destruct (copy_region_ok offset offset
                (dh_encrypted_metadata_size (w_handle w)) w Habort Hr Hsmall)
      as (w' & Hrun & Hadv).
    { destruct Hr as (H0 & H1 & H2). lia. }
    exists w'. split; [|exact Hadv].
    unfold bind, on_error. rewrite Hrun. reflexivity.
Qed.

(** The log of the sparse dump. *)
Lemma sparse_dump_log w :
  sparse_ready (w_handle w) (w_source w) (w_destination_size_limit w) ->
  exists w',
    dump_handle_dump w = (Ok tt, w') /\
    w_source w' = w_source w /\
    wrap64 (dh_bytes_copied (w_handle w'))
    = wrap64 (fold_right (fun region total => snd region + total) 0
                (sparse_regions (w_handle w))) /\
    w_destination w'
    = w_destination w
      ++ [Ftruncate (dh_physical_volume_size (w_handle w))]
      ++ flat_map (region_writes (w_source w)) (sparse_regions (w_handle w)).
Proof.
  intros (Hc & Habort & Hpvs & Hlimit & Hsmall & Hregions).
  set (h := w_handle w) in *. set (source := w_source w) in *.
  set (w0 := set_destination (w_destination w ++ [Ftruncate (dh_physical_volume_size h)])
               (w_destination_position w) (set_handle (set_bytes_copied 0 h) w)).
  assert (Hadv0 : w_source w0 = source /\ same_settings h (w_handle w0) /\
                  dh_bytes_copied (w_handle w0) = 0 /\
                  w_destination w0 = w_destination w
                                     ++ [Ftruncate (dh_physical_volume_size h)])
    by (repeat split; reflexivity).
  destruct Hadv0 as (S0 & H0 & B0 & D0).
  destruct (same_settings_fields _ _ H0)
    as (Ebs & Ems & Eoffs & Ee1 & Ee2 & Ees & Ec & Ea & _).
  assert (Hin : forall region, In region (sparse_regions h) ->
            region_in_source w0 (fst region) (snd region)).
  { intros r Hr. destruct (Hregions r Hr) as (A & B & C & _).
    unfold region_in_source. rewrite S0. auto. }
  (* the header *)
  destruct (copy_region_ok 0 0 512 w0) as (w1 & Hrun1 & Hadv1).
  { rewrite Ea. exact Habort. }
  { apply (Hin (0, 512)). simpl. tauto. }
  { rewrite S0. exact Hsmall. }
  { lia. }
  pose proof Hadv1 as (S1 & H1 & G1 & B1 & D1).
  pose proof (same_settings_trans _ _ _ H0 H1) as H01.
  destruct (same_settings_fields _ _ H01)
    as (Fbs & Fms & Foffs & Fe1 & Fe2 & Fes & Fc & Fa & _).
  (* the four copies *)
  destruct (dump_metadata_regions_sparse_ok [0; 1; 2; 3] 0 w1) as (w2 & Hrun2 & Hadv2).
  { rewrite Fc. exact Hc. }
  { rewrite Fa. exact Habort. }
  { rewrite S1, S0. exact Hsmall. }
  { intros i Hi. rewrite Foffs, Fms. unfold region_in_source. rewrite S1.
    apply (Hin (nth (Z.to_nat i) (dh_metadata_offsets h) 0, dh_metadata_size h)).
    unfold sparse_regions. apply in_or_app. right. apply in_or_app. left.
    apply (in_map (fun metadata_index =>
                     (nth (Z.to_nat metadata_index) (dh_metadata_offsets h) 0,
                      dh_metadata_size h)) _ _ Hi). }
  rewrite Foffs, Fms, S1, S0 in Hadv2.
  pose proof Hadv2 as (S2 & H2 & G2 & B2 & D2).
  pose proof (same_settings_trans _ _ _ H01 H2) as H02.
  destruct (same_settings_fields _ _ H02)
    as (Gbs & Gms & Goffs & Ge1 & Ge2 & Ges & Gc & Ga & _).
  (* the encrypted regions *)
  destruct (dump_encrypted_metadata_sparse_ok (dh_encrypted_metadata1_offset h) 0 w2)
    as (w3 & Hrun3 & Hadv3).
  { rewrite Gc. exact Hc. }
  { rewrite Ga. exact Habort. }
  { intros Hne. rewrite Ges. unfold region_in_source. rewrite S2, S1.
    apply (Hin (dh_encrypted_metadata1_offset h, dh_encrypted_metadata_size h)).
    unfold sparse_regions. apply in_or_app. right. apply in_or_app. right.
    apply in_or_app. left.
    destruct (Z.eqb_spec (dh_encrypted_metadata1_offset h) 0); [contradiction|].
    left. reflexivity. }
  { rewrite S2, S1, S0. exact Hsmall. }
  rewrite Ges, S2, S1, S0 in Hadv3.
  pose proof Hadv3 as (S3 & H3 & G3 & B3 & D3).
  pose proof (same_settings_trans _ _ _ H02 H3) as H03.
  destruct (same_settings_fields _ _ H03)
    as (Kbs & Kms & Koffs & Ke1 & Ke2 & Kes & Kc & Ka & _).
  destruct (dump_encrypted_metadata_sparse_ok (dh_encrypted_metadata2_offset h) 0 w3)
    as (w4 & Hrun4 & Hadv4).
  { rewrite Kc. exact Hc. }
  { rewrite Ka. exact Habort. }
  { intros Hne. rewrite Kes. unfold region_in_source. rewrite S3, S2, S1.
    apply (Hin (dh_encrypted_metadata2_offset h, dh_encrypted_metadata_size h)).
    unfold sparse_regions. apply in_or_app. right. apply in_or_app. right.
    apply in_or_app. right.
    destruct (Z.eqb_spec (dh_encrypted_metadata2_offset h) 0); [contradiction|].
    left. reflexivity. }
  { rewrite S3, S2, S1, S0. exact Hsmall. }
  rewrite Kes, S3, S2, S1, S0 in Hadv4.
  pose proof Hadv4 as (S4 & H4 & G4 & B4 & D4).
  exists w4. split; [|split; [|split]].
  - unfold dump_handle_dump. unfold bind at 1. unfold dump_header_and_metadata.
    unfold bind at 1. unfold modify at 1. fold h.
    unfold bind at 1. unfold gets at 1.
    cbn [w_handle set_handle dh_compact set_bytes_copied dh_physical_volume_size
         dh_block_size].
    rewrite Hc. cbn [Z.eqb negb].
    unfold bind at 1. unfold ftruncate_destination.
    unfold bind at 1. unfold gets at 1. cbn [w_destination_size_limit set_handle].
    rewrite negative_off_t_false by lia.
    destruct (Z.ltb_spec (w_destination_size_limit w) (dh_physical_volume_size h));
      [lia|].
    cbn [orb]. unfold modify at 1.
    cbn [w_destination w_destination_position set_handle]. fold w0.
    unfold bind at 1. unfold bind at 1. unfold on_error at 1.
    unfold FVDE_VOLUME_HEADER_SIZE. rewrite Hrun1.
    unfold ret at 1. rewrite Hrun2.
    unfold bind at 1. unfold gets at 1. rewrite Ge1, Ge2.
    unfold bind at 1. rewrite Hrun3.
    unfold bind at 1. rewrite Hrun4. reflexivity.
  - rewrite S4, S3, S2, S1, S0. reflexivity.
  - rewrite B4, <- wrap64_add_l, B3, wrap64_add_l, <- Z.add_assoc, <- wrap64_add_l.
    rewrite B2, wrap64_add_l, <- Z.add_assoc, <- wrap64_add_l, B1, B0.
    rewrite wrap64_add_l. apply (f_equal wrap64).
    unfold sparse_regions. rewrite !fold_right_app. cbn [map fold_right fst snd length].
    destruct (dh_encrypted_metadata1_offset h =? 0),
             (dh_encrypted_metadata2_offset h =? 0); cbn [fold_right snd]; lia.
  - rewrite D4, D3, D2, D1, D0. rewrite <- !List.app_assoc.
    unfold sparse_regions. rewrite !flat_map_app. cbn [flat_map map app].
    rewrite !app_nil_r.
    destruct (dh_encrypted_metadata1_offset h =? 0),
             (dh_encrypted_metadata2_offset h =? 0);
      cbn [flat_map app]; rewrite ?app_nil_r; reflexivity.
Qed.

(* ================================================================= *)
(** ** The sparse image *)

Lemma apply_write_inside file offset data :
  0 <= offset -> offset + Z.of_nat (length data) <= Z.of_nat (length file) ->
  apply_destination_op file (Write offset data) = put_bytes offset data file.
Proof.
  intros H0 Hfit. rewrite put_bytes_in_range by assumption.
  cbn [apply_destination_op]. cbv zeta.
  replace (Z.to_nat offset - length file)%nat with 0%nat by lia.
  simpl repeat. rewrite app_nil_r. reflexivity.
Qed.

Lemma region_in_file source file region :
  0 <= fst region -> 0 <= snd region ->
  fst region + snd region <= Z.of_nat (length source) ->
  fst region + snd region <= Z.of_nat (length file) ->
  fold_left apply_destination_op (region_writes source region) file
  = overlay source file region /\
  length (overlay source file region) = length file /\
  forall p, overlay source file region !! p
            = if (fst region <=? Z.of_nat p) && (Z.of_nat p <? fst region + snd region)
              then source !! p else file !! p.
Proof.
  intros H0 H1 Hsrc Hfile. unfold overlay, region_writes.
  set (data := get_bytes (fst region) (snd region) source).
  assert (Hlen : length data = Z.to_nat (snd region)) by (apply length_get_bytes; lia).
  split; [|split].
  - destruct data as [|b rest] eqn:E.
    + cbn [chunk_writes fold_left]. rewrite put_bytes_in_range by (simpl; lia).
      simpl. rewrite Nat.add_0_r, firstn_skipn. reflexivity.
    + rewrite <- E in *. rewrite apply_chunk_writes.
      * apply apply_write_inside; lia.
      * lia.
      * rewrite E. discriminate.
      * rewrite Hlen, Nat2Z.inj_succ, !Z2Nat.id
          by (try apply Z.div_pos; unfold copy_buffer_size; lia).
        pose proof (Z.mul_succ_div_gt (snd region) copy_buffer_size
                      ltac:(unfold copy_buffer_size; lia)).
        lia.
  - apply length_put_bytes.
  - intros p. rewrite lookup_put_bytes by lia. rewrite Hlen.
    destruct (Nat.leb_spec (Z.to_nat (fst region)) p);
      destruct (Nat.ltb_spec p (Z.to_nat (fst region) + Z.to_nat (snd region)));
      destruct (Z.leb_spec (fst region) (Z.of_nat p));
      destruct (Z.ltb_spec (Z.of_nat p) (fst region + snd region));
      try lia; cbn [andb]; try reflexivity.
    unfold data. rewrite lookup_get_bytes.
    destruct (Nat.ltb_spec (p - Z.to_nat (fst region)) (Z.to_nat (snd region))); [|lia].
    f_equal. lia.
Qed.

Lemma regions_in_file source regions : forall file,
  (forall region, In region regions ->
     0 <= fst region /\ 0 <= snd region /\
     fst region + snd region <= Z.of_nat (length source) /\
     fst region + snd region <= Z.of_nat (length file)) ->
  let file' := fold_left apply_destination_op (flat_map (region_writes source) regions) file in
  length file' = length file /\
  forall p, file' !! p = if covered regions p then source !! p else file !! p.
Proof.
  induction regions as [|region rest IH]; intros file Hin; cbv zeta.
  - split; reflexivity.
  - cbn [flat_map]. rewrite fold_left_app.
    destruct (Hin region (or_introl eq_refl)) as (H0 & H1 & Hsrc & Hfile).
    destruct (region_in_file source file region H0 H1 Hsrc Hfile) as (E & Hlen & Hlook).
    rewrite E.
    destruct (IH (overlay source file region)) as (Hlen' & Hlook').
    { intros r Hr. rewrite Hlen. apply Hin. right. exact Hr. }
    cbv zeta in Hlen', Hlook'.
    split; [rewrite Hlen'; exact Hlen|].
    intros p. rewrite Hlook', Hlook. cbn [covered existsb].
    fold (covered rest p).
    destruct (covered rest p); [rewrite orb_true_r; reflexivity|].
    rewrite orb_false_r. reflexivity.
Qed.

Lemma lookup_repeat_lt {A} (x : A) n p : (p < n)%nat -> repeat x n !! p = Some x.
Proof.
  revert p. induction n as [|n IH]; intros [|p] Hp; try lia; simpl; [reflexivity|].
  apply IH. lia.
Qed.

(** The sparse dump stops at [ftruncate] when the physical volume size
    is not a size the destination can have. *)
Lemma sparse_dump_refused w :
  dh_compact (w_handle w) = 0 ->
  2 ^ 63 <= dh_physical_volume_size (w_handle w)
  \/ w_destination_size_limit w < dh_physical_volume_size (w_handle w) ->
  fst (dump_handle_dump w) = Fail [IO_ERROR_GENERIC] /\
  w_destination (snd (dump_handle_dump w)) = w_destination w.
Proof.
  intros Hc Hsize.
  assert (Hrefused : negative_off_t (dh_physical_volume_size (w_handle w))
                     || (w_destination_size_limit w <? dh_physical_volume_size (w_handle w))
                     = true).
  { apply orb_true_iff. destruct Hsize as [Hneg|Hbig].
    - left. unfold negative_off_t. apply Z.leb_le. exact Hneg.
    - right. apply Z.ltb_lt. exact Hbig. }
  assert (Hrun : dump_handle_dump w
                 = (Fail [IO_ERROR_GENERIC],
                    set_handle (set_bytes_copied 0 (w_handle w)) w)).
  { unfold dump_handle_dump. unfold bind at 1. unfold dump_header_and_metadata.
    unfold bind at 1. unfold modify at 1.
    unfold bind at 1. unfold gets at 1.
    cbn [w_handle set_handle dh_compact set_bytes_copied dh_physical_volume_size].
    rewrite Hc. cbn [Z.eqb negb].
    unfold bind at 1. unfold ftruncate_destination.
    unfold bind at 1. unfold gets at 1. cbn [w_destination_size_limit set_handle].
    rewrite Hrefused. reflexivity. }
  rewrite Hrun. split; reflexivity.
Qed.

(** X18. The sparse image.  Let every region the sparse dump copies
    (the 512 header bytes, the four metadata copies, the encrypted
    metadata regions whose offset is not 0) lie within the source and
    within the physical volume size, the physical volume size be below
    2^63 and at most the largest file size of the destination's file
    system, and no abort be requested.  Then a dump into an empty
    destination succeeds; the file has the physical volume size, holds
    at every position of a copied region the source byte of that
    position and holds 0 everywhere else; and the byte counter is the
    total size of the regions.  When the physical volume size is 2^63 or
    more, or more than the file system accepts, the sparse dump fails at
    [ftruncate] and writes nothing. *)
Theorem sparse_dump_image w :
  w_destination w = [] ->
  let h := w_handle w in
  (sparse_ready h (w_source w) (w_destination_size_limit w) ->
   exists w',
     dump_handle_dump w = (Ok tt, w') /\
     Z.of_nat (length (destination_content (w_destination w')))
     = dh_physical_volume_size h /\
     (forall p, Z.of_nat p < dh_physical_volume_size h ->
        destination_content (w_destination w') !! p
        = if covered (sparse_regions h) p then w_source w !! p else Some 0) /\
     wrap64 (dh_bytes_copied (w_handle w'))
     = wrap64 (fold_right (fun region total => snd region + total) 0 (sparse_regions h)))
  /\
  (dh_compact h = 0 ->
   2 ^ 63 <= dh_physical_volume_size h
   \/ w_destination_size_limit w < dh_physical_volume_size h ->
   fst (dump_handle_dump w) = Fail [IO_ERROR_GENERIC] /\
   w_destination (snd (dump_handle_dump w)) = []).
Proof.
  intros Hempty. cbv zeta. split.
  2: { intros Hc Hsize. rewrite <- Hempty. apply sparse_dump_refused; assumption. }
  intros Hready.
  destruct (sparse_dump_log w Hready) as (w' & Hrun & Hsrc & Hbytes & Hlog).
  destruct Hready as (Hc & Habort & Hpvs & Hlimit & Hsmall & Hregions).
  set (h := w_handle w) in *. set (source := w_source w) in *.
  exists w'. split; [exact Hrun|].
  set (zeros := repeat 0 (Z.to_nat (dh_physical_volume_size h))).
  assert (Hz : length zeros = Z.to_nat (dh_physical_volume_size h))
    by apply repeat_length.
  assert (Hcontent : destination_content (w_destination w')
                     = fold_left apply_destination_op
                         (flat_map (region_writes source) (sparse_regions h)) zeros).
  { rewrite Hlog, Hempty. cbn [app]. unfold destination_content.
    cbn [fold_left apply_destination_op firstn length].
    rewrite firstn_nil, Nat.sub_0_r. reflexivity. }
  destruct (regions_in_file source (sparse_regions h) zeros) as (Hlen & Hlook).
  { intros r Hr. destruct (Hregions r Hr) as (A & B & C & D).
    rewrite Hz. repeat split; try assumption. lia. }
  cbv zeta in Hlen, Hlook. rewrite <- Hcontent in Hlen, Hlook.
  split; [rewrite Hlen, Hz; lia|]. split; [|exact Hbytes].
  intros p Hp. rewrite Hlook. destruct (covered (sparse_regions h) p); [reflexivity|].
  apply lookup_repeat_lt. lia.
Qed.

Lemma small_dump_world_sparse_ready :
  sparse_ready (w_handle (small_dump_world 0)) (w_source (small_dump_world 0))
    (w_destination_size_limit (small_dump_world 0)).
Proof.
  unfold sparse_ready.
  evaluate (Z.of_nat (length (w_source (small_dump_world 0)))).
  cbn [w_handle small_dump_world dh_compact dh_abort dh_physical_volume_size
       w_destination_size_limit].
  unfold example_size_limit.
  split; [reflexivity|]. split; [reflexivity|]. split; [lia|]. split; [lia|].
  split; [lia|].
  intros region Hr. vm_compute in Hr.
  repeat (destruct Hr as [<-|Hr]; [simpl; lia|]). destruct Hr.
Qed.

Lemma sparse_dump_image_witness :
  (exists w',
     dump_handle_dump (small_dump_world 0) = (Ok tt, w') /\
     Z.of_nat (length (destination_content (w_destination w'))) = 67 * 512) /\
  fst (dump_handle_dump oversize_dump_world) = Fail [IO_ERROR_GENERIC].
Proof.
  split.
  - destruct (sparse_dump_image (small_dump_world 0) eq_refl) as (Hok & _).
    destruct (Hok small_dump_world_sparse_ready) as (w' & Hrun & Hlen & _).
    exists w'. split; [exact Hrun|exact Hlen].
  - destruct (sparse_dump_image oversize_dump_world eq_refl) as (_ & Hrefused).
    apply Hrefused; [reflexivity|]. right. vm_compute. reflexivity.
Defined.

(* ================================================================= *)
(** ** UUID strings *)

Lemma below_sixteen (P : Z -> Prop) :
  Forall P (map Z.of_nat (seq 0 16)) -> forall n, 0 <= n < 16 -> P n.
Proof.
  intros HP n Hn. rewrite List.Forall_forall in HP. apply HP.
  replace n with (Z.of_nat (Z.to_nat n)) by lia.
  apply List.in_map, List.in_seq. lia.
Qed.

Lemma hex_digit_in n : 0 <= n < 16 -> In (hex_digit n) hex_characters.
Proof.
  revert n. apply below_sixteen. cbn [map seq].
  repeat (constructor; [vm_compute; tauto|]). constructor.
Qed.

Lemma hex_value_digit n : 0 <= n < 16 -> hex_value (hex_digit n) = n.
Proof.
  revert n. apply below_sixteen. cbn [map seq].
  repeat (constructor; [reflexivity|]). constructor.
Qed.

Lemma is_u8_nibbles b : is_u8 b -> 0 <= b / 16 < 16 /\ 0 <= b mod 16 < 16.
Proof.
  unfold is_u8. change (2 ^ 8) with 256. intros H. split.
  - split; [apply Z.div_pos; lia | apply Z.div_lt_upper_bound; lia].
  - apply Z.mod_pos_bound. lia.
Qed.

Lemma hex_value_byte b :
  is_u8 b -> 16 * hex_value (hex_digit (b / 16)) + hex_value (hex_digit (b mod 16)) = b.
Proof.
  intros H. destruct (is_u8_nibbles b H) as (H1 & H2).
  rewrite !hex_value_digit by assumption.
  pose proof (Z.div_mod b 16 ltac:(lia)). lia.
Qed.

Ltac sixteen_bytes uuid H :=
  do 16 (destruct uuid as [|? uuid]; [discriminate H|]);
  destruct uuid; [|discriminate H].

(** X19. The UUID string.  For 16 bytes and a buffer of at least 37
    characters, [keyring_handle_format_uuid_string] returns a string of
    36 characters, hyphens at positions 8, 13, 18 and 23 and lower-case
    hexadecimal digits everywhere else, from which the 16 bytes can be
    read back, so that different UUIDs never share a string.  Any other
    data size is refused with VALUE_OUT_OF_BOUNDS, and a smaller buffer
    with VALUE_TOO_SMALL. *)
Theorem uuid_string_round_trip (uuid : list Z) (size string_size : Z) :
  length uuid = 16%nat -> Forall is_u8 uuid ->
  (size = 16 -> 37 <= string_size ->
   exists s,
     keyring_handle_format_uuid_string uuid size string_size = Ok s /\
     String.length s = 36%nat /\
     (forall i, In i [8; 13; 18; 23]%nat -> String.get i s = Some "-"%char) /\
     Forall (fun c => c = "-"%char \/ In c hex_characters) (list_ascii_of_string s) /\
     uuid_string_bytes s = uuid) /\
  (size <> 16 ->
   keyring_handle_format_uuid_string uuid size string_size
   = Fail [ARGUMENT_ERROR_VALUE_OUT_OF_BOUNDS]) /\
  (size = 16 -> string_size < 37 ->
   keyring_handle_format_uuid_string uuid size string_size
   = Fail [ARGUMENT_ERROR_VALUE_TOO_SMALL]).
Proof.
  intros Hlen Hu8. unfold keyring_handle_format_uuid_string. split; [|split].
  - intros -> Hsize. cbn [Z.eqb Pos.eqb negb].
    destruct (Z.ltb_spec string_size 37); [lia|].
    sixteen_bytes uuid Hlen.
    eexists. split; [reflexivity|].
    repeat match goal with
           | H : Forall is_u8 (_ :: _) |- _ =>
               let Hb := fresh "Hb" in
               apply Forall_cons_iff in H; destruct H as [Hb H];
               pose proof (hex_value_byte _ Hb); apply is_u8_nibbles in Hb
           end.
    split; [reflexivity|]. split.
    + intros i Hi. simpl in Hi.
      destruct Hi as [<-|[<-|[<-|[<-|[]]]]]; reflexivity.
    + split.
      * simpl.
        repeat (constructor;
                [first [left; reflexivity | right; apply hex_digit_in; tauto]|]).
        constructor.
      * unfold uuid_string_bytes. simpl.
        repeat match goal with
               | H : 16 * hex_value _ + hex_value _ = _ |- _ => rewrite H; clear H
               end.
        reflexivity.
  - intros Hne. destruct (Z.eqb_spec size 16); [contradiction|]. reflexivity.
  - intros -> Hsmall. cbn [Z.eqb Pos.eqb negb].
    destruct (Z.ltb_spec string_size 37); [reflexivity|lia].
Qed.

Lemma uuid_string_round_trip_witness :
  exists s,
    keyring_handle_format_uuid_string example_uuid 16 37 = Ok s /\
    String.length s = 36%nat /\
    uuid_string_bytes s = example_uuid.
Proof.
  destruct (uuid_string_round_trip example_uuid 16 37) as (Hok & _ & _).
  - reflexivity.
  - apply is_u8_forallb. vm_compute. reflexivity.
  - destruct Hok as (s & Hs & Hlen & _ & _ & Hback); [reflexivity|lia|].
    exists s. auto.
Defined.

(* ================================================================= *)
(** ** The key handed to the kernel *)

Lemma get_bytes_whole (data : list Z) :
  get_bytes 0 (Z.of_nat (length data)) data = data.
Proof.
  unfold get_bytes. rewrite Nat2Z.id. simpl. apply firstn_all.
Qed.

Lemma long_to_int_range z : - 2 ^ 31 <= long_to_int z < 2 ^ 31.
Proof.
  unfold long_to_int, wrap32.
  pose proof (Z.mod_pos_bound z (2 ^ 32) ltac:(lia)).
  destruct (Z.ltb_spec (z mod 2 ^ 32) (2 ^ 31)); lia.
Qed.

(** The keyring is an [int] other than 0. *)
Lemma parse_keyring_id_range keyring_id keyring :
  parse_keyring_id keyring_id = Ok keyring ->
  - 2 ^ 31 <= keyring < 2 ^ 31 /\ keyring <> 0.
Proof.
  unfold parse_keyring_id. destruct keyring_id as [id|].
  - destruct (String.eqb id "@s"); [intros [= <-]; vm_compute; intuition discriminate|].
    destruct (String.eqb id "@u"); [intros [= <-]; vm_compute; intuition discriminate|].
    destruct (String.eqb id "@us"); [intros [= <-]; vm_compute; intuition discriminate|].
    cbv zeta. destruct (Z.eqb_spec (atoi id) 0); [discriminate|].
    intros [= <-]. split; [apply long_to_int_range|assumption].
  - intros [= <-]. vm_compute. intuition discriminate.
Qed.

(** Numeric keyring ids go through [atoi]: white space is skipped, and
    the value is cut to an [int], so that 2^32 is refused as 0. *)
Lemma parse_keyring_id_numeric :
  parse_keyring_id (Some " 5"%string) = Ok 5 /\
  parse_keyring_id (Some "-3"%string) = Ok (-3) /\
  parse_keyring_id (Some "4294967296"%string) = Fail [ARGUMENT_ERROR_UNSUPPORTED_VALUE] /\
  parse_keyring_id (Some "2147483648"%string) = Ok (- 2 ^ 31) /\
  parse_keyring_id (Some "zero"%string) = Fail [ARGUMENT_ERROR_UNSUPPORTED_VALUE].
Proof. repeat split; vm_compute; reflexivity. Qed.

(** X20. The call to the kernel.  With sizes other than 16, 32 and 16
    [keyring_handle_add_key] fails with "value out of bounds", makes no
    call and leaves the local buffer as it found it.  With the right
    sizes, a keyring id that does not parse makes it fail without a call,
    the two keys already copied into the buffer; one that parses leads to
    exactly one call, of type "logon", described by "fvde:" followed by
    the UUID string, whose payload is the master key followed by the
    tweak key, into the parsed keyring, an [int] other than 0.  The
    result is success with the buffer zeroed when the kernel returns a
    serial, and "set failed" with both keys still in the buffer when it
    returns a negative value. *)
Theorem add_key_makes_one_call kernel stack master master_size tweak tweak_size
    uuid uuid_size keyring_id :
  length stack = 48%nat -> length master = 16%nat -> length tweak = 32%nat ->
  let r := keyring_handle_add_key kernel stack master master_size tweak tweak_size
             uuid uuid_size keyring_id in
  (master_size <> 16 \/ tweak_size <> 32 \/ uuid_size <> 16 ->
   akr_result r = Fail [ARGUMENT_ERROR_VALUE_OUT_OF_BOUNDS] /\
   akr_add_key_calls r = [] /\
   akr_combined_key r = stack) /\
  (master_size = 16 -> tweak_size = 32 -> uuid_size = 16 ->
   match parse_keyring_id keyring_id with
   | Fail e =>
       akr_result r = Fail e /\
       akr_add_key_calls r = [] /\
       akr_combined_key r = master ++ tweak
   | Ok keyring =>
       - 2 ^ 31 <= keyring < 2 ^ 31 /\ keyring <> 0 /\
       exists uuid_string,
         keyring_handle_format_uuid_string uuid 16 37 = Ok uuid_string /\
         let description := ("fvde:" ++ uuid_string)%string in
         akr_add_key_calls r
         = [("logon"%string, description, master ++ tweak, keyring)] /\
         (0 <= kernel "logon"%string description (master ++ tweak) keyring ->
          akr_result r = Ok tt /\ akr_combined_key r = repeat 0 48) /\
         (kernel "logon"%string description (master ++ tweak) keyring < 0 ->
          akr_result r = Fail [RUNTIME_ERROR_SET_FAILED] /\
          akr_combined_key r = master ++ tweak)
   end).
Proof.
  intros Hs Hm Ht r. subst r. unfold keyring_handle_add_key. split.
  - intros Hsizes.
    destruct (Z.eqb_spec master_size 16); cbn [negb]; [|auto].
    destruct (Z.eqb_spec tweak_size 32); cbn [negb]; [|auto].
    destruct (Z.eqb_spec uuid_size 16); cbn [negb]; [|auto].
    lia.
  - intros -> -> ->.
    cbn [Z.eqb negb Pos.eqb keyring_handle_format_uuid_string Z.ltb Z.compare Pos.compare
         Pos.compare_cont].
    rewrite combined_key_copied by assumption.
    assert (Hpayload : get_bytes 0 48 (master ++ tweak) = master ++ tweak).
    { replace 48 with (Z.of_nat (length (master ++ tweak)))
        by (rewrite length_app, Hm, Ht; reflexivity).
      apply get_bytes_whole. }
    rewrite Hpayload.
    destruct (parse_keyring_id keyring_id) as [keyring|e] eqn:Hid.
    + destruct (parse_keyring_id_range _ _ Hid) as [Hrange Hnonzero].
      split; [exact Hrange|]. split; [exact Hnonzero|].
      eexists. split; [reflexivity|]. cbv zeta.
      match goal with |- context [?k <? 0] => destruct (Z.ltb_spec k 0) as [Hlt|Hge] end.
      * split; [reflexivity|]. split; [intros; lia|]. intros _. split; reflexivity.
      * split; [reflexivity|]. split; [|intros; lia]. intros _. split; [reflexivity|].
        cbn [akr_combined_key]. apply put_bytes_whole.
        rewrite length_app, Hm, Ht. reflexivity.
    + repeat split.
Qed.

(** White space before the number is skipped: the key goes to keyring 5. *)
Lemma add_key_makes_one_call_witness :
  akr_add_key_calls
    (keyring_handle_add_key refusing_kernel (repeat 0 48) example_master_key 16
       example_tweak_key 32 example_uuid 16 (Some " 5"%string))
  = [("logon"%string, "fvde:00112233-4455-6677-8899-aabbccddeeff"%string,
      example_master_key ++ example_tweak_key, 5)].
Proof.
  destruct (add_key_makes_one_call refusing_kernel (repeat 0 48) example_master_key 16
              example_tweak_key 32 example_uuid 16 (Some " 5"%string))
    as (_ & Hcall); [reflexivity|reflexivity|reflexivity|].
  specialize (Hcall eq_refl eq_refl eq_refl).
  change (parse_keyring_id (Some " 5"%string)) with (@Ok Z 5) in Hcall.
  destruct Hcall as (_ & _ & s & Hs & Hcalls & _).
  rewrite Hcalls. vm_compute in Hs. injection Hs as <-. reflexivity.
Defined.

(* ================================================================= *)
(** ** Block numbers through sectors and back *)

(** X21. A block number converted to a sector and back.  When
    [block * block_size] fits 64 bits: with a block size that is a
    multiple of 512 (and not 0) the block number comes back; with any
    block size of at least 512 the result is the block number or one
    less, and it is the block number exactly when the byte offset of the
    block is a multiple of 512; with block size 0 the result is 0. *)
Theorem block_round_trip_exact (block block_size : Z) :
  0 <= block -> is_u32 block_size -> block * block_size < 2 ^ 64 ->
  (block_size = 0 -> block_round_trip block block_size = 0) /\
  (block_size <> 0 -> (512 | block_size) ->
   block_round_trip block block_size = block) /\
  (512 <= block_size ->
   block - 1 <= block_round_trip block block_size <= block /\
   (block_round_trip block block_size = block <-> (512 | block * block_size))).
Proof.
  intros Hb Hbs Hfit. unfold is_u32 in Hbs.
  unfold block_round_trip, fvdecheck_linux_sector_to_fvde_block,
    fvdecheck_fvde_block_to_linux_sector.
  split; [intros ->; reflexivity|].
  assert (Hbytes : wrap64 (block * block_size) = block * block_size).
  { apply wrap64_small. nia. }
  rewrite Hbytes.
  set (bytes := block * block_size) in *.
  assert (Hq : 0 <= bytes / 512 * 512 <= bytes /\ bytes < bytes / 512 * 512 + 512).
  { pose proof (Z.div_mod bytes 512 ltac:(lia)).
    pose proof (Z.mod_pos_bound bytes 512 ltac:(lia)). lia. }
  assert (Hback : wrap64 (bytes / 512 * 512) = bytes / 512 * 512).
  { apply wrap64_small. lia. }
  rewrite Hback. split.
  - intros Hne [k Hk]. destruct (Z.eqb_spec block_size 0); [contradiction|].
    replace (bytes / 512 * 512) with bytes.
    + unfold bytes. apply Z.div_mul. assumption.
    + unfold bytes. rewrite Hk, Z.mul_assoc, Z.div_mul by lia. reflexivity.
  - intros Hlarge. destruct (Z.eqb_spec block_size 0); [lia|].
    assert (Hup : bytes / 512 * 512 / block_size <= block).
    { apply Z.div_le_upper_bound; [lia|]. unfold bytes in *. lia. }
    assert (Hlow : block - 1 <= bytes / 512 * 512 / block_size).
    { apply Z.div_le_lower_bound; [lia|]. unfold bytes in *. nia. }
    split; [lia|]. split.
    + intros Heq. exists (bytes / 512).
      assert (block * block_size <= bytes / 512 * 512); [|unfold bytes in *; lia].
      rewrite <- Heq at 1. rewrite Z.mul_comm. apply Z.mul_div_le. lia.
    + intros [k Hk]. fold bytes in Hk. rewrite Hk, Z.div_mul by lia.
      rewrite <- Hk. unfold bytes. apply Z.div_mul. assumption.
Qed.

Lemma block_round_trip_exact_witness :
  block_round_trip 1001 4096 = 1001 /\
  block_round_trip 3 1000 = 2.
Proof.
  assert (H4096 : is_u32 4096) by (unfold is_u32; lia).
  assert (H1000 : is_u32 1000) by (unfold is_u32; lia).
  split.
  - destruct (block_round_trip_exact 1001 4096) as (_ & Hexact & _);
      [lia|exact H4096|lia|].
    apply Hexact; [lia|]. exists 8. reflexivity.
  - destruct (block_round_trip_exact 3 1000) as (_ & _ & Hnear);
      [lia|exact H1000|lia|].
    destruct (Hnear ltac:(lia)) as (Hrange & Hiff).
    assert (block_round_trip 3 1000 <> 3); [|lia].
    intros Heq. apply Hiff in Heq. destruct Heq as [k Hk]. lia.
Defined.

(* ================================================================= *)
(** ** Decimal option values *)

Lemma character_code_digit d : is_digit d -> character_code (digit_char d) = 48 + d.
Proof.
  unfold is_digit, character_code, digit_char. intros H.
  rewrite nat_ascii_embedding by lia. lia.
Qed.

Lemma wrap64_decimal_step v d : wrap64 (wrap64 (wrap64 v * 10) + d) = wrap64 (10 * v + d).
Proof.
  unfold wrap64. rewrite Z.add_mod_idemp_l by lia.
  rewrite <- (Z.add_mod_idemp_l (v mod 2 ^ 64 * 10)) by lia.
  rewrite Z.mul_mod_idemp_l, Z.add_mod_idemp_l by lia.
  apply (f_equal (fun z => z mod 2 ^ 64)). lia.
Qed.

(** The loop over a run of digits. *)
Lemma copy_from_decimal_loop_digits ds : forall rest string_index string_size maximum v,
  Forall is_digit ds ->
  string_index + Z.of_nat (length ds) <= string_size ->
  string_index + Z.of_nat (length ds) <= maximum + 1 ->
  copy_from_decimal_loop (digit_string ds ++ rest) string_index string_size maximum
    (wrap64 v)
  = copy_from_decimal_loop rest (string_index + Z.of_nat (length ds)) string_size maximum
      (wrap64 (decimal_from v ds)).
Proof.
  induction ds as [|d ds IH]; intros rest i size maximum v Hds Hsize Hmax.
  - cbn [length digit_string String.append decimal_from fold_left].
    rewrite Z.add_0_r. reflexivity.
  - apply Forall_cons_iff in Hds. destruct Hds as [Hd Hds].
    cbn [length] in Hsize, Hmax. rewrite Nat2Z.inj_succ in Hsize, Hmax.
    cbn [digit_string String.append copy_from_decimal_loop].
    rewrite (character_code_digit d Hd). unfold is_digit in Hd.
    destruct (Z.ltb_spec i size); [|lia]. cbn [negb].
    destruct (Z.eqb_spec (48 + d) 0); [lia|].
    destruct (Z.ltb_spec maximum i); [lia|].
    destruct (Z.leb_spec 48 (48 + d)); [|lia].
    destruct (Z.leb_spec (48 + d) 57); [|lia]. cbn [andb].
    replace (48 + d - 48) with d by lia.
    rewrite wrap64_decimal_step, IH by (try assumption; lia).
    cbn [length]. rewrite Nat2Z.inj_succ.
    replace (i + 1 + Z.of_nat (length ds)) with (i + Z.succ (Z.of_nat (length ds))) by lia.
    reflexivity.
Qed.

Lemma digit_string_app ds1 ds2 :
  digit_string (ds1 ++ ds2) = (digit_string ds1 ++ digit_string ds2)%string.
Proof.
  induction ds1 as [|d ds1 IH]; [reflexivity|].
  cbn [app digit_string String.append]. rewrite IH. reflexivity.
Qed.

Lemma string_app_empty (s : string) : (s ++ "")%string = s.
Proof.
  induction s as [|c s IH]; [reflexivity|]. cbn [String.append]. rewrite IH. reflexivity.
Qed.

Lemma substring_whole (s : string) : forall m,
  (String.length s <= m)%nat -> substring 0 m s = s.
Proof.
  induction s as [|c s IH]; intros m Hm.
  - destruct m; reflexivity.
  - destruct m; [cbn [String.length] in Hm; lia|].
    cbn [substring]. rewrite IH by (cbn [String.length] in Hm; lia). reflexivity.
Qed.

Lemma substring_tail (c : ascii) (s : string) :
  substring 1 (String.length (String c s)) (String c s) = s.
Proof.
  cbn [substring String.length]. apply substring_whole. lia.
Qed.

Lemma copy_from_decimal_loop_numeral ds rest string_index string_size maximum :
  Forall is_digit ds ->
  string_index + Z.of_nat (length ds) <= string_size ->
  string_index + Z.of_nat (length ds) <= maximum + 1 ->
  copy_from_decimal_loop (digit_string ds ++ rest) string_index string_size maximum 0
  = copy_from_decimal_loop rest (string_index + Z.of_nat (length ds)) string_size maximum
      (wrap64 (decimal_value ds)).
Proof.
  intros Hds Hsize Hmax.
  pose proof (copy_from_decimal_loop_digits ds rest string_index string_size maximum 0
                Hds Hsize Hmax) as H.
  change (wrap64 0) with 0 in H. exact H.
Qed.

Lemma copy_from_decimal_loop_end string_index string_size maximum v :
  copy_from_decimal_loop "" string_index string_size maximum v
  = mk_copy_from_decimal_return None v.
Proof.
  cbn [copy_from_decimal_loop]. destruct (negb _); reflexivity.
Qed.

Lemma wrap64_negate v : wrap64 (wrap64 v * (2 ^ 64 - 1)) = wrap64 (- v).
Proof.
  unfold wrap64. rewrite Z.mul_mod_idemp_l by lia.
  replace (v * (2 ^ 64 - 1)) with (- v + v * 2 ^ 64) by ring.
  apply Z.mod_add. lia.
Qed.

(** A numeral does not start with a sign. *)
Lemma digit_string_first ds :
  Forall is_digit ds ->
  let first := match digit_string ds with
               | EmptyString => 0
               | String c _ => character_code c
               end in
  first <> 45 /\ first <> 43.
Proof.
  intros Hds. destruct Hds as [|d ds Hd _]; cbn [digit_string]; cbv zeta; [lia|].
  rewrite (character_code_digit d Hd). unfold is_digit in Hd. lia.
Qed.

Definition first_character (s : string) : Z :=
  match s with
  | EmptyString => 0
  | String c _ => character_code c
  end.

Lemma first_character_app ds c rest :
  Forall is_digit ds ->
  ds <> [] \/ (character_code c <> 45 /\ character_code c <> 43) ->
  first_character (digit_string ds ++ String c rest) <> 45 /\
  first_character (digit_string ds ++ String c rest) <> 43.
Proof.
  intros Hds Hc. destruct Hds as [|d ds Hd _].
  - cbn [digit_string String.append first_character]. destruct Hc as [Hc|Hc]; tauto.
  - cbn [digit_string String.append first_character].
    rewrite (character_code_digit d Hd). unfold is_digit in Hd. lia.
Qed.

Lemma copy_from_decimal_unsigned s string_size v0 :
  string_size <= SSIZE_MAX -> first_character s <> 45 -> first_character s <> 43 ->
  fvdetools_system_string_copy_from_64_bit_in_decimal s string_size v0
  = copy_from_decimal_loop s 0 string_size 20 0.
Proof.
  intros Hsize H45 H43. unfold fvdetools_system_string_copy_from_64_bit_in_decimal.
  destruct (Z.ltb_spec SSIZE_MAX string_size); [lia|]. cbv zeta.
  fold (first_character s).
  destruct (Z.eqb_spec (first_character s) 45); [contradiction|].
  destruct (Z.eqb_spec (first_character s) 43); [contradiction|].
  reflexivity.
Qed.

Lemma copy_from_decimal_plus s string_size v0 :
  string_size <= SSIZE_MAX ->
  fvdetools_system_string_copy_from_64_bit_in_decimal (String "+" s) string_size v0
  = copy_from_decimal_loop s 1 string_size 21 0.
Proof.
  intros Hsize. unfold fvdetools_system_string_copy_from_64_bit_in_decimal.
  destruct (Z.ltb_spec SSIZE_MAX string_size); [lia|]. cbv zeta.
  rewrite substring_tail. reflexivity.
Qed.

Lemma copy_from_decimal_minus s string_size v0 :
  string_size <= SSIZE_MAX ->
  fvdetools_system_string_copy_from_64_bit_in_decimal (String "-" s) string_size v0
  = let r := copy_from_decimal_loop s 1 string_size 21 0 in
    match cfd_error r with
    | Some _ => r
    | None => mk_copy_from_decimal_return None (wrap64 (cfd_value_64bit r * (2 ^ 64 - 1)))
    end.
Proof.
  intros Hsize. unfold fvdetools_system_string_copy_from_64_bit_in_decimal.
  destruct (Z.ltb_spec SSIZE_MAX string_size); [lia|]. cbv zeta.
  rewrite substring_tail. reflexivity.
Qed.

Lemma copy_from_decimal_loop_too_large c rest string_index string_size maximum v :
  string_index < string_size -> character_code c <> 0 -> maximum < string_index ->
  copy_from_decimal_loop (String c rest) string_index string_size maximum v
  = mk_copy_from_decimal_return (Some LIBCERROR_ARGUMENT_ERROR_VALUE_TOO_LARGE) v.
Proof.
  intros Hsize Hc Hmax. cbn [copy_from_decimal_loop].
  destruct (Z.ltb_spec string_index string_size); [|lia]. cbn [negb].
  destruct (Z.eqb_spec (character_code c) 0); [contradiction|].
  destruct (Z.ltb_spec maximum string_index); [reflexivity|lia].
Qed.

Lemma copy_from_decimal_loop_unsupported c rest string_index string_size maximum v :
  string_index < string_size -> character_code c <> 0 -> string_index <= maximum ->
  ~ 48 <= character_code c <= 57 ->
  copy_from_decimal_loop (String c rest) string_index string_size maximum (wrap64 v)
  = mk_copy_from_decimal_return
      (Some (LIBCERROR_RUNTIME_ERROR_UNSUPPORTED_VALUE c string_index))
      (wrap64 (10 * v)).
Proof.
  intros Hsize Hc Hmax Hdigit. cbn [copy_from_decimal_loop].
  destruct (Z.ltb_spec string_index string_size); [|lia]. cbn [negb].
  destruct (Z.eqb_spec (character_code c) 0); [contradiction|].
  destruct (Z.ltb_spec maximum string_index); [lia|].
  assert (Hv : wrap64 (wrap64 v * 10) = wrap64 (10 * v)).
  { unfold wrap64. rewrite Z.mul_mod_idemp_l by lia.
    apply (f_equal (fun z => z mod 2 ^ 64)). lia. }
  rewrite Hv.
  destruct (Z.leb_spec 48 (character_code c)); destruct (Z.leb_spec (character_code c) 57);
    cbn [andb]; try reflexivity. lia.
Qed.

(** A numeral of more than [k] digits: its first [k] digits and the next. *)
Lemma digit_string_split (k : nat) ds :
  Forall is_digit ds -> (k < length ds)%nat ->
  exists ds1 d ds2,
    Forall is_digit ds1 /\ length ds1 = k /\ is_digit d /\
    digit_string ds = (digit_string ds1 ++ String (digit_char d) (digit_string ds2))%string.
Proof.
  intros Hds Hk. rewrite <- (firstn_skipn k ds) in Hds |- *.
  apply Forall_app in Hds. destruct Hds as [H1 H2].
  destruct (skipn k ds) as [|d ds2] eqn:E.
  - apply (f_equal (@length Z)) in E. rewrite length_skipn in E. cbn [length] in E. lia.
  - apply Forall_cons_iff in H2. destruct H2 as [Hd _].
    exists (firstn k ds), d, ds2. split; [exact H1|]. split.
    + rewrite firstn_length_le; [reflexivity|lia].
    + split; [exact Hd|]. rewrite digit_string_app. reflexivity.
Qed.

(** X22. Decimal option values.  The string size is at least the
    length of the string plus one, as in every call of the tools.  For a
    numeral of at most 21 digits, with or without a leading "+",
    [fvdetools_system_string_copy_from_64_bit_in_decimal] returns 1 and
    stores the value of the numeral modulo 2^64: a value of 2^64 or more
    is accepted and wraps around.  With a leading "-" it stores the two's
    complement of that value.  A numeral of 22 digits or more is refused
    as too large.  A character that is neither a digit nor the terminator,
    after at most 20 digits, is refused as unsupported, with its index;
    the variable then holds ten times the value read so far. *)
Theorem copy_from_decimal_reads_the_numeral (ds : list Z) (string_size v0 : Z) :
  Forall is_digit ds ->
  Z.of_nat (length ds) + 1 <= string_size < SSIZE_MAX ->
  let n := Z.of_nat (length ds) in
  let s := digit_string ds in
  let copy str :=
    fvdetools_system_string_copy_from_64_bit_in_decimal str string_size v0 in
  let copy_signed str :=
    fvdetools_system_string_copy_from_64_bit_in_decimal str (string_size + 1) v0 in
  (n <= 21 ->
   copy s = mk_copy_from_decimal_return None (wrap64 (decimal_value ds)) /\
   copy_signed (String "+" s)
   = mk_copy_from_decimal_return None (wrap64 (decimal_value ds)) /\
   copy_signed (String "-" s)
   = mk_copy_from_decimal_return None (wrap64 (- decimal_value ds))) /\
  (21 < n ->
   cfd_error (copy s) = Some LIBCERROR_ARGUMENT_ERROR_VALUE_TOO_LARGE /\
   cfd_error (copy_signed (String "+" s))
   = Some LIBCERROR_ARGUMENT_ERROR_VALUE_TOO_LARGE /\
   cfd_error (copy_signed (String "-" s))
   = Some LIBCERROR_ARGUMENT_ERROR_VALUE_TOO_LARGE) /\
  (forall c rest,
     n <= 20 -> character_code c <> 0 -> ~ 48 <= character_code c <= 57 ->
     (ds <> [] \/ (character_code c <> 45 /\ character_code c <> 43) ->
      copy (s ++ String c rest)%string
      = mk_copy_from_decimal_return
          (Some (LIBCERROR_RUNTIME_ERROR_UNSUPPORTED_VALUE c n))
          (wrap64 (10 * decimal_value ds))) /\
     copy_signed (String "-" (s ++ String c rest))
     = mk_copy_from_decimal_return
         (Some (LIBCERROR_RUNTIME_ERROR_UNSUPPORTED_VALUE c (n + 1)))
         (wrap64 (10 * decimal_value ds))).
Proof.
  intros Hds Hsize n s copy copy_signed. subst copy copy_signed. cbv beta.
  pose proof (digit_string_first ds Hds) as Hfirst. cbv zeta in Hfirst. fold s in Hfirst.
  fold (first_character s) in Hfirst. destruct Hfirst as [H45 H43].
  (* the run over the digits, from index 0 and from index 1 *)
  assert (Hrun0 : forall rest, n <= 21 ->
            copy_from_decimal_loop (s ++ rest) 0 string_size 20 0
            = copy_from_decimal_loop rest n string_size 20 (wrap64 (decimal_value ds))).
  { intros rest Hn. unfold s.
    rewrite copy_from_decimal_loop_numeral by (try assumption; fold n; lia).
    reflexivity. }
  assert (Hrun1 : forall rest, n <= 21 ->
            copy_from_decimal_loop (s ++ rest) 1 (string_size + 1) 21 0
            = copy_from_decimal_loop rest (1 + n) (string_size + 1) 21
                (wrap64 (decimal_value ds))).
  { intros rest Hn. unfold s.
    rewrite copy_from_decimal_loop_numeral by (try assumption; fold n; lia).
    reflexivity. }
  split; [|split].
  - intros Hn.
    rewrite copy_from_decimal_unsigned, copy_from_decimal_plus, copy_from_decimal_minus
      by (assumption || lia).
    cbv zeta. rewrite <- (string_app_empty s).
    rewrite Hrun0, Hrun1, !copy_from_decimal_loop_end by assumption.
    cbn [cfd_error cfd_value_64bit]. rewrite wrap64_negate. auto.
  - intros Hn.
    rewrite copy_from_decimal_unsigned, copy_from_decimal_plus, copy_from_decimal_minus
      by (assumption || lia).
    cbv zeta.
    destruct (digit_string_split 21 ds Hds ltac:(lia)) as (ds1 & d & ds2 & H1 & Hlen & Hd & Hs).
    fold s in Hs. rewrite Hs.
    rewrite !copy_from_decimal_loop_numeral by (try assumption; rewrite Hlen; lia).
    rewrite Hlen. change (Z.of_nat 21) with 21.
    pose proof (character_code_digit d Hd) as Hcode. unfold is_digit in Hd.
    rewrite !copy_from_decimal_loop_too_large by lia.
    cbn [cfd_error]. auto.
  - intros c rest Hn Hc Hdigit. split.
    + intros Hsign.
      destruct (first_character_app ds c rest Hds Hsign) as [Ha Hb]. fold s in Ha, Hb.
      rewrite copy_from_decimal_unsigned by (assumption || lia).
      rewrite Hrun0 by lia.
      apply copy_from_decimal_loop_unsupported; (assumption || lia).
    + rewrite copy_from_decimal_minus by lia. cbv zeta.
      rewrite Hrun1 by lia.
      rewrite copy_from_decimal_loop_unsupported by (assumption || lia).
      cbn [cfd_error]. replace (1 + n) with (n + 1) by lia. reflexivity.
Qed.

Lemma copy_from_decimal_reads_the_numeral_witness :
  fvdetools_system_string_copy_from_64_bit_in_decimal "18446744073709551616" 21 7
  = mk_copy_from_decimal_return None 0 /\
  fvdetools_system_string_copy_from_64_bit_in_decimal "-1" (2 + 1) 7
  = mk_copy_from_decimal_return None (2 ^ 64 - 1).
Proof.
  split.
  - destruct (copy_from_decimal_reads_the_numeral digits_of_2_64 21 7) as (Hok & _ & _).
    + repeat constructor; unfold is_digit; lia.
    + vm_compute. split; [discriminate|reflexivity].
    + destruct (Hok ltac:(vm_compute; discriminate)) as (Hplain & _ & _).
      exact Hplain.
  - destruct (copy_from_decimal_reads_the_numeral [1] 2 7) as (Hok & _ & _).
    + repeat constructor; unfold is_digit; lia.
    + vm_compute. split; [discriminate|reflexivity].
    + destruct (Hok ltac:(vm_compute; discriminate)) as (_ & _ & Hminus).
      exact Hminus.
Defined.

(* ================================================================= *)
(** ** The table entry and the key *)

Lemma string_app_assoc (a b c : string) : ((a ++ b) ++ c = a ++ (b ++ c))%string.
Proof.
  induction a as [|x a IH]; [reflexivity|]. cbn [String.append]. rewrite IH. reflexivity.
Qed.

(** X23. The table entry names the key that was added.  For one UUID
    of 16 bytes, [keyring_handle_add_key] makes its one kernel call with
    some type, description and payload, and the raw entry printed by
    [dmsetup_handle_print_table_entry] is the dm-crypt table line whose
    key field refers to exactly that key by size, type and description,
    with cipher aes-xts-plain64, IV offset 0, the size in sectors
    [volume_size / 512] and the device offset [volume_offset / 512]; the
    shell form is the same line inside an echo command piped to
    [dmsetup create] with the mapper name followed by the volume index. *)
Theorem table_entry_names_the_added_key kernel stack master tweak uuid keyring_id keyring
    volume_size source_path volume_offset mapper_name volume_index shell_mode :
  length stack = 48%nat -> length master = 16%nat -> length tweak = 32%nat ->
  length uuid = 16%nat ->
  parse_keyring_id keyring_id = Ok keyring ->
  exists type description payload,
    akr_add_key_calls
      (keyring_handle_add_key kernel stack master 16 tweak 32 uuid 16 keyring_id)
    = [(type, description, payload, keyring)] /\
    let line :=
      dm_crypt_table (volume_size / 512) "aes-xts-plain64"
        (keyring_key_reference type description payload) 0 source_path
        (wrap64 (Z.quot volume_offset 512)) in
    dmsetup_handle_print_table_entry uuid 16 volume_size source_path volume_offset 0
      mapper_name volume_index
    = Ok (line ++ newline)%string /\
    (shell_mode <> 0 ->
     dmsetup_handle_print_table_entry uuid 16 volume_size source_path volume_offset
       shell_mode mapper_name volume_index
     = Ok ("echo " ++ double_quote ++ line ++ double_quote ++ " | dmsetup create "
           ++ mapper_name ++ print_int volume_index ++ newline)%string).
Proof.
  intros Hs Hm Ht Hu Hid.
  assert (Hfmt : exists uuid_string,
            keyring_handle_format_uuid_string uuid 16 37 = Ok uuid_string)
    by (eexists; reflexivity).
  destruct Hfmt as (uuid_string & Hfmt).
  exists "logon"%string, ("fvde:" ++ uuid_string)%string, (master ++ tweak).
  split.
  - unfold keyring_handle_add_key. cbn [Z.eqb negb Pos.eqb]. rewrite Hfmt, Hid.
    rewrite combined_key_copied by assumption.
    replace (get_bytes 0 48 (master ++ tweak)) with (master ++ tweak).
    + destruct (_ <? 0); reflexivity.
    + symmetry. replace 48 with (Z.of_nat (length (master ++ tweak)))
        by (rewrite length_app, Hm, Ht; reflexivity).
      apply get_bytes_whole.
  - cbv zeta. unfold dmsetup_handle_print_table_entry. rewrite Hfmt.
    unfold dm_crypt_table, keyring_key_reference.
    rewrite length_app, Hm, Ht.
    change (print_uint64 (Z.of_nat (16 + 32))) with "48"%string.
    change (print_uint64 0) with "0"%string.
    split.
    + cbn [Z.eqb negb].
      repeat (progress (rewrite ?string_app_assoc; cbn [String.append])). reflexivity.
    + intros Hshell. destruct (Z.eqb_spec shell_mode 0); [contradiction|].
      cbn [negb]. unfold double_quote.
      repeat (progress (rewrite ?string_app_assoc; cbn [String.append])). reflexivity.
Qed.

Lemma table_entry_names_the_added_key_witness :
  dmsetup_handle_print_table_entry example_uuid 16 (1000 * 512) "/dev/sda2" 4096 0
    "fvde" 1
  = Ok ("0 1000 crypt aes-xts-plain64 "
        ++ ":48:logon:fvde:00112233-4455-6677-8899-aabbccddeeff"
        ++ " 0 /dev/sda2 8" ++ newline)%string.
Proof.
  destruct (table_entry_names_the_added_key refusing_kernel (repeat 0 48)
              example_master_key example_tweak_key example_uuid (Some "@u"%string)
              KEY_SPEC_USER_KEYRING (1000 * 512) "/dev/sda2" 4096 "fvde" 1 1
              eq_refl eq_refl eq_refl eq_refl eq_refl)
    as (type & description & payload & Hcall & Hraw & _).
  rewrite Hraw. vm_compute in Hcall. injection Hcall as <- <- <-.
  vm_compute. reflexivity.
Defined.

(* ################################################################# *)
(** * The compact dump of the specification (claims C3 and C4) *)

(* ================================================================= *)
(** ** The corrected metadata block and the corrected header *)

(** What the correction does to a block whose descriptor lies in it. *)
Lemma correct_metadata_block_patched block_size metadata_size offset1 offset2 data g :
  crc32_statics_reachable g -> Forall is_u8 data ->
  Z.of_nat (length data) = metadata_size -> 8192 <= metadata_size < 2 ^ 32 ->
  let d := byte_stream_copy_to_uint32_little_endian data 220 in
  64 < d -> d + 48 <= metadata_size ->
  let corrected :=
    fst (correct_metadata_block block_size metadata_size offset1 offset2 data g) in
  length corrected = length data /\
  byte_stream_copy_to_uint64_little_endian corrected (d + 32)
  = wrap64 (offset1 / block_size) /\
  byte_stream_copy_to_uint64_little_endian corrected (d + 40)
  = wrap64 (offset2 / block_size) /\
  byte_stream_copy_to_uint32_little_endian corrected 0
  = spec_weak_crc32 (get_bytes 8 8184 corrected) 0xffffffff /\
  (forall offset size, 0 <= offset -> 0 <= size ->
     4 <= offset -> offset + size <= d + 32 \/ d + 48 <= offset ->
     get_bytes offset size corrected = get_bytes offset size data).
Proof.
  intros Hg Hu8 Hlen Hms d H64 Hfit corrected.
  pose proof (uint32_is_u32 data 220 Hu8) as Hd. fold d in Hd. unfold is_u32 in Hd.
  subst corrected. unfold correct_metadata_block. cbv zeta.
  replace (64 + 156) with 220 by reflexivity. fold d.
  destruct (Z.ltb_spec 64 d) as [_|]; [|lia].
  assert (Hactual : wrap32 (d - 64) = d - 64) by (apply Z.mod_small; lia).
  rewrite Hactual.
  replace (64 + (d - 64) + 48) with (d + 48) by lia.
  replace (64 + (d - 64) + 32) with (d + 32) by lia.
  replace (64 + (d - 64) + 40) with (d + 40) by lia.
  rewrite !wrap32_small by lia.
  destruct (Z.leb_spec (d + 48) metadata_size) as [_|]; [|lia].
  set (data1 := byte_stream_copy_from_uint64_little_endian data (d + 32) _).
  set (data2 := byte_stream_copy_from_uint64_little_endian data1 (d + 40) _).
  assert (Hlen1 : length data1 = length data) by apply length_put_bytes.
  assert (Hlen2 : length data2 = length data)
    by (unfold data2, byte_stream_copy_from_uint64_little_endian;
        rewrite length_put_bytes; exact Hlen1).
  rewrite (calculate_weak_crc32_prefix _ 8184 _ g Hg) by lia.
  cbn [fst].
  change (firstn (Z.to_nat 8184) (skipn 8 data2)) with (get_bytes 8 8184 data2).
  set (crc := spec_weak_crc32 (get_bytes 8 8184 data2) 4294967295).
  assert (Hcrc : is_u32 crc).
  { apply reference_crc32_is_u32. unfold is_u32. lia. }
  unfold byte_stream_copy_from_uint32_little_endian.
  assert (Hput : forall offset size, 0 <= offset -> 0 <= size -> 4 <= offset ->
            get_bytes offset size (put_bytes 0 (le_encode 4 crc) data2)
            = get_bytes offset size data2).
  { intros offset size H0 H1 H4. apply get_put_bytes_other; try lia.
    rewrite le_encode_length. lia. }
  split; [rewrite length_put_bytes; exact Hlen2|].
  split; [|split; [|split]].
  - unfold byte_stream_copy_to_uint64_little_endian. rewrite Hput by lia.
    unfold data2, byte_stream_copy_from_uint64_little_endian at 1.
    rewrite get_put_bytes_other by (try rewrite le_encode_length; lia).
    apply (uint64_read_back data (d + 32)); lia.
  - unfold byte_stream_copy_to_uint64_little_endian. rewrite Hput by lia.
    apply (uint64_read_back data1 (d + 40)); lia.
  - pose proof (uint32_read_back data2 0 crc ltac:(lia) ltac:(lia)) as Hback.
    unfold byte_stream_copy_from_uint32_little_endian in Hback. rewrite Hback.
    rewrite Hput by lia. unfold wrap32. apply Z.mod_small. exact Hcrc.
  - intros offset size H0 H1 H4 Hout. rewrite Hput by lia.
    unfold data2, data1, byte_stream_copy_from_uint64_little_endian.
    rewrite !get_put_bytes_other; try reflexivity; try lia;
      rewrite le_encode_length; lia.
Qed.


(** The checksum of the corrected header validates. *)
Lemma correct_volume_header_checksum_valid block_size metadata_size data g :
  crc32_statics_reachable g -> length data = 512%nat -> Forall is_u8 data ->
  volume_header_checksum_valid
    (fst (correct_volume_header block_size metadata_size data g)).
Proof.
  intros Hg Hlen Hu8.
  rewrite correct_volume_header_slots. cbv zeta. cbn [fst].
  destruct (volume_header_with_slots_facts block_size metadata_size data Hlen Hu8)
    as (Hlen4 & Hu84 & Hother & Hslots).
  set (data4 := volume_header_with_slots block_size metadata_size data) in *.
  assert (Hskip : length (skipn 8 data4) = 504%nat) by (rewrite length_skipn; lia).
  set (iv := byte_stream_copy_to_uint32_little_endian data4 4).
  set (crc := spec_weak_crc32 (skipn 8 data4) iv).
  assert (Hcalc : dump_handle_calculate_weak_crc32 (skipn 8 data4) 504 iv g
                  = (crc, crc32_statics_built)).
  { replace 504 with (Z.of_nat (length (skipn 8 data4))) by (rewrite Hskip; reflexivity).
    apply (calculate_weak_crc32_whole _ _ g Hg). }
  rewrite Hcalc. cbn [fst].
  assert (Hcrc : is_u32 crc).
  { apply reference_crc32_is_u32, uint32_is_u32, Hu84. }
  unfold byte_stream_copy_from_uint32_little_endian.
  assert (Hput : forall offset size, 0 <= offset -> 0 <= size -> 4 <= offset ->
            get_bytes offset size (put_bytes 0 (le_encode 4 crc) data4)
            = get_bytes offset size data4).
  { intros offset size H0 H1 H4. apply get_put_bytes_other; try lia.
    rewrite le_encode_length. lia. }
  unfold volume_header_checksum_valid.
  pose proof (uint32_read_back data4 0 crc ltac:(lia) ltac:(lia)) as Hback.
  unfold byte_stream_copy_from_uint32_little_endian in Hback. rewrite Hback.
  unfold byte_stream_copy_to_uint32_little_endian at 1. rewrite !Hput by lia.
  fold (byte_stream_copy_to_uint32_little_endian data4 4). fold iv.
  replace (get_bytes 8 504 data4) with (skipn 8 data4).
  2:{ unfold get_bytes. symmetry. apply firstn_all2. rewrite Hskip. lia. }
  unfold wrap32. apply Z.mod_small. exact Hcrc.
Qed.

(* ================================================================= *)
(** ** The checksum of a rewritten metadata block (claim C4) *)




(* ================================================================= *)
(** ** The example of the specification (claim C3) *)

Lemma scenario_handle_ready h source :
  scenario_handle h -> dh_compact h <> 0 -> dh_abort h = 0 ->
  200 * 4096 + 16384 <= Z.of_nat (length source) < 2 ^ 61 ->
  compact_ready h source.
Proof.
  intros (Hbs & Hms & Hes & Hoffs & He1 & He2) Hc Ha Hsource.
  unfold compact_ready, is_u32. rewrite Hbs, Hms, Hes, Hoffs, He1, He2.
  split; [exact Hc|]. split; [exact Ha|]. split; [lia|]. split; [lia|].
  split; [lia|]. split; [lia|]. split.
  - intros i [<-|[<-|[<-|[<-|[]]]]]; simpl; lia.
  - lia.
Qed.

(** C3 (amended). With the values of the example on the handle (block
    size 4096, metadata of 8192 bytes at 0x2000, 0x4000, 0x6000 and
    0x8000, encrypted metadata of 16384 bytes at blocks 100 and 200), a
    source of bytes that holds these regions, and metadata copies whose
    volume groups descriptor lies inside the copy, the compact dump into
    an empty destination succeeds and writes a file of 69632 bytes; its
    header holds the metadata block numbers 1, 3, 5 and 7 and a checksum
    that validates; each metadata copy in it holds the encrypted metadata
    block numbers 9 and 13 and, in bytes 0..3, the weak CRC-32 of its
    bytes 8..8191 started from 0xffffffff, which validates when bytes
    4..7 of the copy hold 0xffffffff. *)
Theorem compact_dump_of_the_example w :
  let h := w_handle w in
  scenario_handle h -> dh_compact h <> 0 -> dh_abort h = 0 ->
  200 * 4096 + 16384 <= Z.of_nat (length (w_source w)) < 2 ^ 61 ->
  Forall is_u8 (w_source w) ->
  (forall i, In i [0; 1; 2; 3] ->
     64 < copy_descriptor_offset w i /\ copy_descriptor_offset w i + 48 <= 8192) ->
  crc32_statics_reachable (w_crc32 w) ->
  w_destination w = [] ->
  exists w',
    dump_handle_dump w = (Ok tt, w') /\
    let file := destination_content (w_destination w') in
    Z.of_nat (length file) = 69632 /\
    map (fun j => byte_stream_copy_to_uint64_little_endian file (104 + j * 8))
        [0; 1; 2; 3]
    = [1; 3; 5; 7] /\
    volume_header_checksum_valid (get_bytes 0 512 file) /\
    forall i, In i [0; 1; 2; 3] ->
      let copy := get_bytes (4096 + i * 8192) 8192 file in
      let d := copy_descriptor_offset w i in
      byte_stream_copy_to_uint64_little_endian copy (d + 32) = 9 /\
      byte_stream_copy_to_uint64_little_endian copy (d + 40) = 13 /\
      byte_stream_copy_to_uint32_little_endian copy 0
      = spec_weak_crc32 (get_bytes 8 8184 copy) 0xffffffff /\
      (byte_stream_copy_to_uint32_little_endian (metadata_copy w i) 4 = 0xffffffff ->
       metadata_block_checksum_valid copy).
Proof.
  intros h Hscenario Hc Ha Hsource Hu8 Hdesc Hg Hempty.
  pose proof (scenario_handle_ready h (w_source w) Hscenario Hc Ha Hsource) as Hready.
  destruct Hscenario as (Hbs & Hms & Hes & Hoffs & He1 & He2).
  assert (Hbs512 : 512 <= dh_block_size h) by (rewrite Hbs; lia).
  destruct (compact_dump_content w Hready Hg Hempty Hbs512)
    as (w' & Hrun & _ & Himage & _).
  fold h in Himage.
  exists w'. split; [exact Hrun|]. cbv zeta. rewrite Himage.
  set (source := w_source w) in *.
  assert (Hlen_header : length (get_bytes 0 512 source) = 512%nat)
    by (rewrite length_get_bytes by lia; reflexivity).
  assert (Hu8_header : Forall is_u8 (get_bytes 0 512 source))
    by (apply get_bytes_is_u8, Hu8).
  split; [|split; [|split]].
  - (* the length *)
    rewrite (length_compact_image h source Hready Hbs512).
    rewrite !length_encrypted_region; rewrite ?Hes, ?He1, ?He2; try lia.
    rewrite Hbs, Hms. reflexivity.
  - (* the slots of the header *)
    set (H := corrected_header h source).
    assert (HlenH : Z.of_nat (length H) = 512).
    { unfold H. rewrite (length_corrected_header h source Hready). reflexivity. }
    assert (Hslots : forall j, 0 <= j < 4 ->
              byte_stream_copy_to_uint64_little_endian H (104 + j * 8)
              = wrap64 (1 + j * (wrap32 (dh_metadata_size h + dh_block_size h - 1)
                                 / dh_block_size h))).
    { unfold H, corrected_header.
      apply correct_volume_header_facts;
        [apply crc32_statics_built_reachable | exact Hlen_header | exact Hu8_header]. }
    assert (Hslot : forall j, 0 <= j < 4 ->
              byte_stream_copy_to_uint64_little_endian (compact_image h source)
                (104 + j * 8)
              = 1 + j * 2).
    { intros j Hj. unfold byte_stream_copy_to_uint64_little_endian.
      unfold compact_image. fold H.
      rewrite get_bytes_app_l by lia.
      fold (byte_stream_copy_to_uint64_little_endian H (104 + j * 8)).
      rewrite (Hslots j Hj), Hbs, Hms.
      change (wrap32 (8192 + 4096 - 1) / 4096) with 2.
      apply wrap64_small. lia. }
    cbn [map]. rewrite !Hslot by lia. reflexivity.
  - (* the checksum of the header *)
    rewrite (compact_image_header h source Hready). unfold corrected_header.
    apply correct_volume_header_checksum_valid;
      [apply crc32_statics_built_reachable | exact Hlen_header | exact Hu8_header].
  - (* the four copies *)
    intros i Hi. cbv zeta.
    pose proof (compact_image_copy h source i Hready Hbs512 Hi) as Hcopy.
    rewrite Hbs, Hms in Hcopy. rewrite Hcopy.
    assert (Hd : copy_descriptor_offset w i
                 = byte_stream_copy_to_uint32_little_endian (metadata_copy w i) 220)
      by reflexivity.
    destruct (Hdesc i Hi) as [H64 Hfit]. rewrite Hd in H64, Hfit |- *.
    assert (Hin : 0 <= nth (Z.to_nat i) (dh_metadata_offsets h) 0 /\
                  nth (Z.to_nat i) (dh_metadata_offsets h) 0 + 8192
                  <= Z.of_nat (length source)).
    { rewrite Hoffs. destruct Hi as [<-|[<-|[<-|[<-|[]]]]]; simpl; lia. }
    assert (Hdata : Z.of_nat (length (metadata_copy w i)) = 8192).
    { unfold metadata_copy. fold h. fold source. rewrite Hms.
      rewrite length_get_bytes by lia. reflexivity. }
    assert (Hdata_u8 : Forall is_u8 (metadata_copy w i))
      by (apply get_bytes_is_u8, Hu8).
    destruct (correct_metadata_block_patched (dh_block_size h) 8192
                (compact_encrypted_metadata1_offset h)
                (compact_encrypted_metadata2_offset h)
                (metadata_copy w i) crc32_statics_built
                crc32_statics_built_reachable Hdata_u8 Hdata ltac:(lia) H64 Hfit)
      as (Hlength & Hb1 & Hb2 & Hcrc & Hother).
    assert (Hsame : corrected_copy h source i
                    = fst (correct_metadata_block (dh_block_size h) 8192
                             (compact_encrypted_metadata1_offset h)
                             (compact_encrypted_metadata2_offset h)
                             (metadata_copy w i) crc32_statics_built)).
    { unfold corrected_copy, metadata_copy. fold h. fold source. rewrite Hms.
      reflexivity. }
    rewrite <- Hsame in Hlength, Hb1, Hb2, Hcrc, Hother.
    assert (Hone : compact_encrypted_metadata1_offset h / dh_block_size h = 9).
    { unfold compact_encrypted_metadata1_offset. rewrite Hbs, Hms. reflexivity. }
    assert (Htwo : compact_encrypted_metadata2_offset h / dh_block_size h = 13).
    { unfold compact_encrypted_metadata2_offset, compact_encrypted_metadata1_offset.
      rewrite Hbs, Hms, Hes. reflexivity. }
    rewrite Hone in Hb1. rewrite Htwo in Hb2.
    split; [exact Hb1|]. split; [exact Hb2|]. split; [exact Hcrc|].
    intros Hinitial. unfold metadata_block_checksum_valid.
    assert (Hiv : byte_stream_copy_to_uint32_little_endian (corrected_copy h source i) 4
                  = 0xffffffff).
    { unfold byte_stream_copy_to_uint32_little_endian. rewrite Hother by lia.
      exact Hinitial. }
    rewrite Hiv, Hlength.
    replace (Z.of_nat (length (metadata_copy w i)) - 8) with 8184 by lia.
    exact Hcrc.
Qed.

(** The example of the specification, from the source file to the
    image: the header and the metadata are read from [example_source],
    whose metadata blocks carry the initial value 0xffffffff, and the
    compact dump writes an image in which every checksum validates. *)
Lemma compact_dump_of_the_example_witness :
  exists w',
    dump_handle_dump (scenario_world 0xffffffff) = (Ok tt, w') /\
    let file := destination_content (w_destination w') in
    Z.of_nat (length file) = 69632 /\
    map (fun j => byte_stream_copy_to_uint64_little_endian file (104 + j * 8))
        [0; 1; 2; 3]
    = [1; 3; 5; 7] /\
    volume_header_checksum_valid (get_bytes 0 512 file) /\
    forall i, In i [0; 1; 2; 3] ->
      metadata_block_checksum_valid (get_bytes (4096 + i * 8192) 8192 file).
Proof.
  destruct (compact_dump_of_the_example (scenario_world 0xffffffff))
    as (w' & Hrun & Hlength & Hslots & Hheader & Hcopies).
  - unfold scenario_handle.
    refine (conj _ (conj _ (conj _ (conj _ (conj _ _))))); vm_compute; reflexivity.
  - apply Z.eqb_neq. vm_compute. reflexivity.
  - vm_compute. reflexivity.
  - evaluate (Z.of_nat (length (w_source (scenario_world 0xffffffff)))). lia.
  - apply is_u8_forallb. vm_compute. reflexivity.
  - intros i [<-|[<-|[<-|[<-|[]]]]]; split; vm_compute;
      first [reflexivity | discriminate].
  - replace (w_crc32 (scenario_world 0xffffffff)) with crc32_statics_initial
      by (vm_compute; reflexivity).
    exact statics_at_start.
  - vm_compute. reflexivity.
  - exists w'. split; [exact Hrun|]. cbv zeta.
    split; [exact Hlength|]. split; [exact Hslots|]. split; [exact Hheader|].
    intros i Hi. destruct (Hcopies i Hi) as (_ & _ & _ & Hvalid). apply Hvalid.
    destruct Hi as [<-|[<-|[<-|[<-|[]]]]]; vm_compute; reflexivity.
Defined.

(** The claim as stated fails for a source of the example's layout whose
    metadata blocks carry the initial value 0 in bytes 4..7: the dump
    succeeds and writes the 69632 bytes, but the checksum of the first
    metadata copy of the image, computed from 0xffffffff, does not
    validate against the initial value the copy holds. *)
Lemma compact_dump_checksum_needs_initial_value :
  scenario_handle (w_handle (scenario_world 0)) /\
  fst (dump_handle_dump (scenario_world 0)) = Ok tt /\
  Z.of_nat (length (destination_content
                      (w_destination (snd (dump_handle_dump (scenario_world 0))))))
  = 69632 /\
  ~ metadata_block_checksum_valid
      (get_bytes 4096 8192
         (destination_content
            (w_destination (snd (dump_handle_dump (scenario_world 0)))))).
Proof.
  split.
  { unfold scenario_handle.
    refine (conj _ (conj _ (conj _ (conj _ (conj _ _))))); vm_compute; reflexivity. }
  split; [vm_compute; reflexivity|]. split; [vm_compute; reflexivity|].
  unfold metadata_block_checksum_valid. apply Z.eqb_neq. vm_compute. reflexivity.
Qed.
